(** * The URL codec of factoriolab: ZipService and RouterService

    A shallow embedding of [ZipService] (zip.service.ts: the primitive, diff
    and subset codecs) and of the parts of [RouterService]
    (router.service.ts) that assemble and read the query string:
    [zipObjectives], [unzipObjectives], [getHash] and [updateState]; the
    side tables of module and beacon records ([zipModulesBeacons],
    [zipMachineSettings], [zipModuleArray], [zipBeaconArray],
    [beaconModuleMap], [unzipModules], [unzipBeacons]); the item, recipe
    and machine records ([zipItems], [zipRecipes], [zipMachines] and their
    readers); and, from the earlier revision of the service, the settings
    writer [set] and [getParams].

    JavaScript values are modelled as follows.
    - [string] is a Stdlib string; [String.length] stands for [.length].
    - [T | null | undefined] is [Nullable T], with the three cases kept apart
      because [parseSubset] tells [null] from [undefined].
    - [Set<string>] is [gset string]; arrays are lists.
    - an object literal used as a map from ids is the [gmap] of its own
      properties, kept together with its prototype where the code can
      replace it by an assignment under the id ['__proto__'] ([Entities],
      [ZipMachineSettings]); what a read [map[id]] finds, an entry or a
      value that the prototype chain answers with, is a [JsRead].
    - [string | [string, string]], the result of the diff codecs of
      identifier-bearing fields, is [ZipOut].
    - [number] and [Rational] are abstract ([JsValues]): the services only
      compare them, print them and read them back.
    - code that may throw or reject is a computation in [Res]. *)

From Stdlib Require Import ZArith Lia Ascii String DecimalString DecimalNat
  DecimalPos DecimalZ.
From stdpp Require Import base gmap sets list strings.

#[local] Set Warnings "-clear-no-such-hyp".

(** ** JavaScript values and array/string primitives *)

Inductive Nullable (A : Type) : Type :=
| undefined
| null
| val (a : A).
Arguments undefined {A}.
Arguments null {A}.
Arguments val {A} a.

(** [v == null] *)
Definition isNullish {A} (v : Nullable A) : bool :=
  match v with val _ => false | _ => true end.

(** Modelled from the spec: [coalesce(v, d)] of ~/helpers, which is not
    among the sources. Scenario D has the parse fill in the default where
    the sub-field is missing, which is what [v ?? d] does for the unit and
    the type in the same object literal; both are [coalesce]. *)
Definition coalesce {A} (v : Nullable A) (d : A) : A :=
  match v with val a => a | _ => d end.

(** [v?.map(f)] *)
Definition optMap {A B} (f : A -> B) (v : Nullable (list A)) : Nullable (list B) :=
  match v with
  | val l => val (map f l)
  | null => undefined
  | undefined => undefined
  end.

(** [a === b], given the strict equality of the elements. *)
Definition strictEq {A} (eqb : A -> A -> bool) (a b : Nullable A) : bool :=
  match a, b with
  | undefined, undefined => true
  | null, null => true
  | val x, val y => eqb x y
  | _, _ => false
  end.

(** [l[i]] for a natural index, and for a JavaScript number that is an
    integer: a miss is [undefined]. *)
Definition at_ {A} (l : list A) (i : nat) : Nullable A :=
  match l !! i with Some x => val x | None => undefined end.

Definition atZ {A} (l : list A) (i : Z) : Nullable A :=
  if (i <? 0)%Z then undefined else at_ l (Z.to_nat i).

(** [l.indexOf(x)]: the first position of [x], or -1. *)
Fixpoint indexOf_from (l : list string) (x : string) (i : Z) : Z :=
  match l with
  | [] => (-1)%Z
  | y :: l' => if String.eqb y x then i else indexOf_from l' x (i + 1)%Z
  end.

Definition indexOf (l : list string) (x : string) : Z := indexOf_from l x 0%Z.

(** [l.slice(start, end)] with the relative-index rule of Array.prototype.slice. *)
Definition relIndex (len k : Z) : Z :=
  if (k <? 0)%Z then Z.max (len + k) 0 else Z.min k len.

Definition slice {A} (l : list A) (start end_ : Z) : list A :=
  let len := Z.of_nat (length l) in
  let k := relIndex len start in
  let f := relIndex len end_ in
  take (Z.to_nat (f - k)) (drop (Z.to_nat k) l).

(** [l.join(sep)] *)
Fixpoint join (sep : string) (l : list string) : string :=
  match l with
  | [] => EmptyString
  | [x] => x
  | x :: l' => x +:+ sep +:+ join sep l'
  end.

(** [s.split(sep)] for a one-character separator. *)
Fixpoint split (sep : ascii) (s : string) : list string :=
  match s with
  | EmptyString => [EmptyString]
  | String c s' =>
      if Ascii.eqb c sep then EmptyString :: split sep s'
      else match split sep s' with
           | [] => [String c EmptyString]
           | w :: ws => String c w :: ws
           end
  end.

(** [s.replace(/\**$/, '')]: drop the trailing run of stars. *)
Fixpoint stripStars (s : string) : string :=
  match s with
  | EmptyString => EmptyString
  | String c s' =>
      match stripStars s' with
      | EmptyString => if Ascii.eqb c "*" then EmptyString else String c EmptyString
      | r => String c r
      end
  end.

Definition sepStr (c : ascii) : string := String c EmptyString.

(** [c] occurs in [s]. *)
Fixpoint occurs (c : ascii) (s : string) : bool :=
  match s with
  | EmptyString => false
  | String d s' => Ascii.eqb d c || occurs c s'
  end.

(** Code that may throw (or, for a promise, reject). *)
Inductive Res (A : Type) : Type :=
| Ok (a : A)
| Throw (e : string).
Arguments Ok {A} a.
Arguments Throw {A} e.

(** ** What the services import and this development does not see

    ~/models (the constants, [Rational], the enums), ~/helpers and
    CompressionService are not among the sources, so they are parameters. *)

(** Modelled from the spec: the wire constants of ~/models. The spec calls
    the two separators characters and the sentinels tokens. *)
Class ZipConstants := {
  ZNULL : string;
  ZEMPTY : string;
  ZTRUE : string;
  ZFALSE : string;
  ZFIELDSEP : ascii;
  ZARRAYSEP : ascii;
  MIN_ZIP : nat
}.

(** Modelled from the spec: [compact] and [expand] of Id Compaction, that is
    [CompressionService.nToId] and [idToN]. [nToId] also receives the -1 of
    a failed [indexOf]. *)
Class IdCompaction := {
  nToId : Z -> string;
  idToN : string -> Z
}.

(** Modelled from the spec: JavaScript numbers and the [Rational] class, as
    far as the codec uses them. [number_seq] is [===] on numbers (not
    reflexive at NaN), [Number] is the conversion [Number(s)],
    [number_index] reads a number as an array index, [rational] is the
    factory [rational(s)] and [rational_eq] the method [eq]. *)
Class JsValues := {
  number : Type;
  number_seq : number -> number -> bool;
  number_toString : number -> string;
  Number : string -> number;
  number_of_Z : Z -> number;
  number_index : number -> option nat;
  Rational : Type;
  rational : string -> Rational;
  rational_one : Rational;
  rational_eq : Rational -> Rational -> bool;
  rational_toString : Rational -> string;
  ObjectiveUnit_Items : number;
  ObjectiveType_Output : number
}.

(** [x.toString()], as [join] and [zipNumber] call it. *)
Class ToString (A : Type) := toString : A -> string.
#[export] Instance string_ToString : ToString string := fun s => s.
#[export] Instance number_ToString `{JsValues} : ToString number := number_toString.
#[export] Instance rational_ToString `{JsValues} : ToString Rational := rational_toString.

(** [string | [string, string]]: one text for both containers, or the bare
    and the hashed text. *)
Inductive ZipOut : Type :=
| Str (s : string)
| Pair (bare hash : string).

(** ** ZipService (zip.service.ts) *)

Section ZipService.
Context `{ZipConstants} `{IdCompaction} `{JsValues}.

(** The guard [!value?.length || value === ZNULL] of the parsers fails:
    [value] is a non-empty string other than [ZNULL]. *)
Definition present (value : Nullable string) : option string :=
  match value with
  | val s =>
      if Nat.eqb (String.length s) 0 || String.eqb s ZNULL then None
      else Some s
  | _ => None
  end.

Definition zipFields (fields : list string) : string :=
  stripStars (join (sepStr ZFIELDSEP) fields).

Definition zipString (value : Nullable string) : string :=
  match value with val s => s | _ => EmptyString end.

Definition zipNumber {A} `{ToString A} (value : Nullable A) : string :=
  match value with val n => toString n | _ => EmptyString end.

Definition zipArray {A} `{ToString A} (value : Nullable (list A)) : string :=
  match value with
  | val l =>
      if Nat.eqb (length l) 0 then ZEMPTY
      else join (sepStr ZARRAYSEP) (map toString l)
  | _ => EmptyString
  end.

Definition zipNString (value : Nullable string) (hash : list string) : string :=
  match value with
  | val s => nToId (indexOf hash s)
  | _ => EmptyString
  end.

(** The locals [result], [start] and [end] of [zipDiffSubset]. *)
Record Scan := {
  result : list string;
  start : option string;
  end_ : option string
}.

(** [result.push(start)] or [result.push(start + ZARRAYSEP + end)] *)
Definition pushRun (st : Scan) (s : string) : list string :=
  match end_ st with
  | None => result st ++ [s]
  | Some e => result st ++ [s +:+ sepStr ZARRAYSEP +:+ e]
  end.

(** The callback of [hash.forEach((h, i) => ...)]. *)
Definition scanStep (allSet value : gset string) (st : Scan)
    (h : string) (i : nat) : Scan :=
  if negb (bool_decide (h ∈ allSet)) then st
  else if bool_decide (h ∈ value) then
    let j := nToId (Z.of_nat i) in
    match start st with
    | None => {| result := result st; start := Some j; end_ := end_ st |}
    | Some _ => {| result := result st; start := start st; end_ := Some j |}
    end
  else
    match start st with
    | Some s => {| result := pushRun st s; start := None; end_ := None |}
    | None => st
    end.

Fixpoint forEach_from (allSet value : gset string) (hash : list string)
    (i : nat) (st : Scan) : Scan :=
  match hash with
  | [] => st
  | h :: hash' =>
      forEach_from allSet value hash' (S i) (scanStep allSet value st h i)
  end.

Definition zipDiffSubset (value init : Nullable (gset string))
    (all : list string) (hash : option (list string)) : string :=
  let hash := default all hash in
  match value with
  | val value =>
      if Nat.eqb (size value) 0 then
        match init with
        | val init => if Nat.eqb (size init) 0 then EmptyString else ZEMPTY
        | _ => ZEMPTY
        end
      else
        let allSet : gset string := list_to_set all in
        let st := forEach_from allSet value hash 0
                    {| result := []; start := None; end_ := None |} in
        let result :=
          match start st with
          | Some s => pushRun st s
          | None => result st
          end in
        join (sepStr ZFIELDSEP) result
  | _ => if isNullish init then EmptyString else ZNULL
  end.

Definition zipDiffString (value init : Nullable string) (hash : list string)
    : ZipOut :=
  if strictEq String.eqb value init then Str EmptyString
  else match value with
       | val s => Pair s (nToId (indexOf hash s))
       | _ => Str ZNULL
       end.

Definition zipDiffNumber (value init : Nullable number) : string :=
  if strictEq number_seq value init then EmptyString
  else match value with
       | val n => toString n
       | _ => ZNULL
       end.

Definition zipDiffRational (value init : Nullable Rational) : string :=
  if match value with
     | val v => match init with val i => rational_eq v i | _ => false end
     | _ => isNullish init
     end
  then EmptyString
  else match value with
       | val v => toString v
       | _ => ZNULL
       end.

Definition zipDiffBool (value init : bool) : string :=
  if Bool.eqb value init then EmptyString
  else if value then ZTRUE else ZFALSE.

(** The text [zVal] (and [zInit]) of [zipDiffIndices] and [zipDiffArray]. *)
Definition zArr {A} `{ToString A} (value : Nullable (list A)) : string :=
  match value with
  | val l =>
      if Nat.ltb 0 (length l) then join (sepStr ZARRAYSEP) (map toString l)
      else ZEMPTY
  | _ => ZNULL
  end.

Definition zipDiffIndices (value init : Nullable (list number)) : ZipOut :=
  let zVal := zArr value in
  let zInit := zArr init in
  if String.eqb zVal zInit then Str EmptyString else Str zVal.

Definition zipDiffArray (value init : Nullable (list string))
    (hash : list string) : ZipOut :=
  let zVal := zArr value in
  let zInit := zArr init in
  if String.eqb zVal zInit then Str EmptyString
  else match value with
       | val l =>
           Pair zVal
             (join (sepStr ZARRAYSEP)
                (map (fun v => nToId (indexOf hash v)) l))
       | _ => Str ZNULL
       end.

(** [parseString(value)] with no dictionary. *)
Definition parseString_bare (value : Nullable string) : Nullable string :=
  match present value with
  | Some s => val s
  | None => undefined
  end.

Definition parseNString (value : Nullable string) (hash : list string)
    : Nullable string :=
  match parseString_bare value with
  | val v => atZ hash (idToN v)
  | v => v
  end.

Definition parseString (value : Nullable string) (hash : option (list string))
    : Nullable string :=
  match hash with
  | Some hash => parseNString value hash
  | None => parseString_bare value
  end.

Definition parseBool (value : Nullable string) : Nullable bool :=
  match present value with
  | Some s => val (String.eqb s ZTRUE)
  | None => undefined
  end.

Definition parseNNumber (value : Nullable string) : Nullable number :=
  match present value with
  | Some s => val (number_of_Z (idToN s))
  | None => undefined
  end.

Definition parseNumber (value : Nullable string) (useNNumber : bool)
    : Nullable number :=
  if useNNumber then parseNNumber value
  else match present value with
       | Some s => val (Number s)
       | None => undefined
       end.

Definition parseRational (value : Nullable string) : Nullable Rational :=
  match present value with
  | Some s => val (rational s)
  | None => undefined
  end.

(** [parseArray(value)] with no dictionary. *)
Definition parseArray_bare (value : Nullable string) : Nullable (list string) :=
  match present value with
  | Some s => if String.eqb s ZEMPTY then val [] else val (split ZARRAYSEP s)
  | None => undefined
  end.

(** An element of the result is [undefined] where the dictionary has no
    entry at the index. *)
Definition parseNArray (value : Nullable string) (hash : list string)
    : Nullable (list (Nullable string)) :=
  match parseArray_bare value with
  | val v => val (map (fun a => atZ hash (idToN a)) v)
  | null => null
  | undefined => undefined
  end.

(** [if (hash)] holds for every array, also the empty one. *)
Definition parseArray (value : Nullable string) (hash : option (list string))
    : Nullable (list (Nullable string)) :=
  match hash with
  | Some hash => parseNArray value hash
  | None =>
      match parseArray_bare value with
      | val v => val (map val v)
      | null => null
      | undefined => undefined
      end
  end.

(** The body of the loop of [parseSubset]: the slice of [hash] that one
    range token names. [split] never returns the empty array; there
    [start] would be [undefined] and the slice empty. *)
Definition rangeSlice (hash : list string) (range : string) : list string :=
  match map idToN (split ZARRAYSEP range) with
  | [] => []
  | [start] => slice hash start (start + 1)%Z
  | start :: end_ :: _ => slice hash start (end_ + 1)%Z
  end.

Definition parseSubset (value : Nullable string) (hash : list string)
    : Nullable (gset string) :=
  match value with
  | val s =>
      if Nat.eqb (String.length s) 0 then undefined
      else if String.eqb s ZNULL then null
      else if String.eqb s ZEMPTY then val ∅
      else
        let ranges := split ZFIELDSEP s in
        val (fold_left
               (fun result range => result ∪ list_to_set (rangeSlice hash range))
               ranges ∅)
  | _ => undefined
  end.

End ZipService.

(** ** RouterService (router.service.ts) *)

(** The keys of the query string (the enum [QueryField] of ~/models), as far
    as the functions below name them. *)
Module QueryField.
Inductive t : Type :=
| Objective | Item | Recipe | Machine | Module_ | Beacon | Zip | Version.

Definition eqb (a b : t) : bool :=
  match a, b with
  | Objective, Objective | Item, Item | Recipe, Recipe | Machine, Machine
  | Module_, Module_ | Beacon, Beacon | Zip, Zip | Version, Version => true
  | _, _ => false
  end.
End QueryField.

(** [URLSearchParams] and Angular's [ParamMap]: an ordered multimap. *)
Definition URLSearchParams : Type := list (QueryField.t * string).
Definition ParamMap : Type := list (QueryField.t * string).

(** [params.getAll(key)] *)
Definition getAll (params : ParamMap) (key : QueryField.t) : list string :=
  map snd (filter (fun kv => QueryField.eqb (fst kv) key = true) params).

(** [params.get(key)]: the first value, or [null]. *)
Definition get (params : ParamMap) (key : QueryField.t) : Nullable string :=
  match getAll params key with
  | v :: _ => val v
  | [] => null
  end.

(** [params.append(key, value)] *)
Definition append (params : URLSearchParams) (key : QueryField.t)
    (value : string) : URLSearchParams :=
  params ++ [(key, value)].

(** [src.forEach((value, key) => dst.append(key, value))] *)
Definition appendAll (dst src : URLSearchParams) : URLSearchParams :=
  fold_left (fun acc kv => append acc (fst kv) (snd kv)) src dst.

(** [Entities<T>], an object used as a map from ids, and its own property
    [e[id]]: the read of an id that the prototype chain does not answer,
    as the numerals that number the objectives. *)
Definition entity {T} (e : gmap string T) (id : string) : Nullable T :=
  match e !! id with Some x => val x | None => undefined end.

(** The string keys that an object literal inherits from
    [Object.prototype], each with whether the [length] of the inherited
    value is truthy: the functions with their numbers of parameters, and
    ['__proto__'], which reads the prototype, an object without a
    [length]. *)
Definition objectPrototype : list (string * bool) :=
  [ ("constructor", true); ("hasOwnProperty", true); ("isPrototypeOf", true);
    ("propertyIsEnumerable", true); ("toLocaleString", false);
    ("toString", false); ("valueOf", false); ("__defineGetter__", true);
    ("__defineSetter__", true); ("__lookupGetter__", true);
    ("__lookupSetter__", true); ("__proto__", false) ].

Definition objectMember (id : string) : option bool :=
  snd <$> find (fun e => String.eqb (fst e) id) objectPrototype.

(** What a read [o[id]] of an object used as a map from ids finds: an entry
    of the map; a value that is none, inherited through the prototype chain
    (a function or an object of the platform, or a number), of which the
    codec asks only whether its [length] is truthy; or nothing. *)
Inductive JsRead (T : Type) : Type :=
| Found (v : T)
| Alien (lengthTruthy : bool)
| Missing.
Arguments Found {T} _.
Arguments Alien {T} _.
Arguments Missing {T}.

(** [Entities<T>] as the assignments [entities[id] = obj] to an object
    literal build it: the own properties, and the object that an assignment
    to ['__proto__'] has made the prototype, if there was one. *)
Record Entities (T : Type) : Type := {
  ownEntries : gmap string T;
  replacedProto : option T
}.
Arguments ownEntries {T} _.
Arguments replacedProto {T} _.

Definition emptyEntities {T} : Entities T :=
  {| ownEntries := ∅; replacedProto := None |}.

(** [entities[id] = obj] for an object [obj]: the setter of ['__proto__']
    makes [obj] the prototype and stores no property. *)
Definition assign {T} (entities : Entities T) (id : string) (obj : T)
    : Entities T :=
  if String.eqb id "__proto__" then
    {| ownEntries := ownEntries entities; replacedProto := Some obj |}
  else
    {| ownEntries := <[id := obj]> (ownEntries entities);
       replacedProto := replacedProto entities |}.

(** [index.toString()] for the running index of [unzipObjectives]. *)
Definition natToString (n : nat) : string :=
  NilZero.string_of_uint (Nat.to_uint n).

(** Modelled from the spec: [prune] of ~/helpers, the silent pruning of
    undefined fields. It deletes the keys whose value is [undefined]; a
    deleted key reads as [undefined], so on records with [Nullable] fields
    nothing changes. *)
Definition prune {A} (obj : A) : A := obj.

(** [Zip<T>]: the bare and the hashed representation of one value. *)
Module Zip.
Record t (T : Type) : Type := {
  bare : T;
  hash : T
}.
Arguments bare {T} _.
Arguments hash {T} _.
End Zip.

Record ModHash : Type := {
  items : list string;
  recipes : list string;
  machines : list string;
  fuels : list string;
  modules : list string;
  beacons : list string;
  belts : list string;
  wagons : list string;
  technologies : list string
}.

(** Modelled from the spec: what RouterService asks of the platform, of
    CompressionService and of DataService. [usp_toString] is
    [URLSearchParams.prototype.toString], [parseQuery] is
    [new URLSearchParams(zip)] read into a [ParamMap], [objectKeysEmpty] is
    [Object.keys(params).length === 0], [version] is [ZipVersion.Version11],
    [initial_modId] is [Settings.initialState.modId], and [arrayPrototype]
    gives the string keys of [Array.prototype], each with whether the
    [length] of the member is truthy. *)
Class RouterEnv := {
  usp_toString : URLSearchParams -> string;
  decodeURIComponent : string -> string;
  deflate : string -> string;
  inflate : string -> Res string;
  requestData : string -> Res ModHash;
  parseQuery : string -> ParamMap;
  objectKeysEmpty : ParamMap -> bool;
  version : string;
  initial_modId : string;
  arrayPrototype : string -> option bool
}.

Section RouterService.
Context `{ZipConstants} `{IdCompaction} `{JsValues} `{RouterEnv}.

(** [ModuleSettings]: [{ count?, id? }]. *)
Record ModuleSettings : Type := {
  m_count : Nullable Rational;
  m_id : Nullable string
}.

(** [BeaconSettings]: [{ count?, modules?, id?, total? }]. *)
Record BeaconSettings : Type := {
  b_count : Nullable Rational;
  b_modules : Nullable (list ModuleSettings);
  b_id : Nullable string;
  b_total : Nullable Rational
}.

(** [Objective]: [id], [targetId], [value], [unit], [type] and the optional
    machine settings. *)
Record Objective : Type := {
  o_id : string;
  o_targetId : string;
  o_value : Rational;
  o_unit : number;
  o_type : number;
  o_machineId : Nullable string;
  o_modules : Nullable (list ModuleSettings);
  o_beacons : Nullable (list BeaconSettings);
  o_overclock : Nullable Rational;
  o_fuelId : Nullable string
}.

(** [Objectives.ObjectivesState] *)
Record ObjectivesState : Type := {
  ids : list string;
  index : nat;
  entities : gmap string Objective
}.

(** [ZipMachineSettings]: the indices of the module and beacon records of
    each owner. Of each of the two objects, the own properties and the
    array that an assignment to ['__proto__'] has made its prototype, if
    there was one. *)
Record ZipMachineSettings : Type := {
  moduleMap : gmap string (list number);
  beaconMap : gmap string (list number);
  moduleProto : option (list number);
  beaconProto : option (list number)
}.

Record ZipData : Type := {
  objectives : Zip.t URLSearchParams;
  config : Zip.t URLSearchParams;
  objectiveSettings : ZipMachineSettings;
  recipeSettings : ZipMachineSettings;
  machineSettings : ZipMachineSettings;
  zbeacons : Nullable (list number)
}.

(** [isRecipeObjective] of ~/models. *)
Variable isRecipeObjective : Objective -> bool.

(** The empty object [{}] that stands in for a missing side-table record. *)
Definition emptyModule : ModuleSettings :=
  {| m_count := undefined; m_id := undefined |}.
Definition emptyBeacon : BeaconSettings :=
  {| b_count := undefined; b_modules := undefined; b_id := undefined;
     b_total := undefined |}.

(** [list[Number(i)] ?? {}] *)
Definition byNumber {T} (l : list T) (dflt : T) (i : string) : T :=
  match number_index (Number i) with
  | Some k => coalesce (at_ l k) dflt
  | None => dflt
  end.

(** The two records that one pass of the loop of [zipObjectives] appends. *)
Definition zipObjective (data : ZipData) (hash : ModHash) (obj : Objective)
    : Zip.t string :=
  let value := zipDiffRational (val (o_value obj)) (val rational_one) in
  let unit := zipDiffNumber (val (o_unit obj)) (val ObjectiveUnit_Items) in
  let type := zipDiffNumber (val (o_type obj)) (val ObjectiveType_Output) in
  let modules := zipArray (entity (moduleMap (objectiveSettings data)) (o_id obj)) in
  let beacons := zipArray (entity (beaconMap (objectiveSettings data)) (o_id obj)) in
  let overclock := zipNumber (o_overclock obj) in
  {| Zip.bare :=
       zipFields
         [ o_targetId obj; value; unit; type; zipString (o_machineId obj);
           modules; beacons; overclock; zipString (o_fuelId obj) ];
     Zip.hash :=
       zipFields
         [ zipNString (val (o_targetId obj))
             (if isRecipeObjective obj then recipes hash else items hash);
           value; unit; type; zipNString (o_machineId obj) (machines hash);
           modules; beacons; overclock; zipNString (o_fuelId obj) (fuels hash) ]
  |}.

Definition zipObjectives (data : ZipData) (objs : list Objective)
    (hash : ModHash) : ZipData :=
  fold_left
    (fun data obj =>
       let z := zipObjective data hash obj in
       {| objectives :=
            {| Zip.bare :=
                 append (Zip.bare (objectives data)) QueryField.Objective (Zip.bare z);
               Zip.hash :=
                 append (Zip.hash (objectives data)) QueryField.Objective (Zip.hash z) |};
          config := config data;
          objectiveSettings := objectiveSettings data;
          recipeSettings := recipeSettings data;
          machineSettings := machineSettings data;
          zbeacons := zbeacons data |})
    objs data.

(** The object that one pass of the loop of [unzipObjectives] builds from a
    record. [s[0]] exists: [split] returns at least one string. *)
Definition unzipObjective (moduleSettings : list ModuleSettings)
    (beaconSettings : list BeaconSettings) (hash : option ModHash)
    (index : nat) (itemObjective : string) : Objective :=
  let s := split ZFIELDSEP itemObjective in
  let obj :=
    {| o_id := natToString index;
       o_targetId := coalesce (at_ s 0) EmptyString;
       o_value := coalesce (parseRational (at_ s 1)) rational_one;
       o_unit := coalesce (parseNumber (at_ s 2) false) ObjectiveUnit_Items;
       o_type := coalesce (parseNumber (at_ s 3) false) ObjectiveType_Output;
       o_machineId := parseString (at_ s 4) (machines <$> hash);
       o_modules :=
         optMap (byNumber moduleSettings emptyModule) (parseArray_bare (at_ s 5));
       o_beacons :=
         optMap (byNumber beaconSettings emptyBeacon) (parseArray_bare (at_ s 6));
       o_overclock := parseRational (at_ s 7);
       o_fuelId := parseString (at_ s 8) (fuels <$> hash) |} in
  let obj :=
    match hash with
    | Some hash =>
        {| o_id := o_id obj;
           o_targetId :=
             coalesce
               (parseNString (val (o_targetId obj))
                  (if isRecipeObjective obj then recipes hash else items hash))
               EmptyString;
           o_value := o_value obj; o_unit := o_unit obj; o_type := o_type obj;
           o_machineId := o_machineId obj; o_modules := o_modules obj;
           o_beacons := o_beacons obj; o_overclock := o_overclock obj;
           o_fuelId := o_fuelId obj |}
    | None => obj
    end in
  prune obj.

Fixpoint unzipObjectives_loop (moduleSettings : list ModuleSettings)
    (beaconSettings : list BeaconSettings) (hash : option ModHash)
    (list_ : list string) (st : ObjectivesState) : ObjectivesState :=
  match list_ with
  | [] => st
  | itemObjective :: rest =>
      let id := natToString (index st) in
      let obj :=
        unzipObjective moduleSettings beaconSettings hash (index st) itemObjective in
      unzipObjectives_loop moduleSettings beaconSettings hash rest
        {| ids := ids st ++ [id];
           index := S (index st);
           entities := <[id := obj]> (entities st) |}
  end.

Definition unzipObjectives (params : ParamMap)
    (moduleSettings : list ModuleSettings)
    (beaconSettings : list BeaconSettings) (hash : option ModHash)
    : Nullable ObjectivesState :=
  let list_ := getAll params QueryField.Objective in
  if Nat.eqb (length list_) 0 then undefined
  else val (unzipObjectives_loop moduleSettings beaconSettings hash list_
              {| ids := []; index := 1; entities := ∅ |}).

(** [getHash]: the bare container, or the compressed one. *)
Definition getHash (zData : ZipData) : URLSearchParams :=
  let bare_ := appendAll (Zip.bare (objectives zData)) (Zip.bare (config zData)) in
  let hash_ := appendAll (Zip.hash (objectives zData)) (Zip.hash (config zData)) in
  let hashStr := decodeURIComponent (usp_toString hash_) in
  let zStr := deflate hashStr in
  let zip := [(QueryField.Zip, zStr); (QueryField.Version, version)] in
  let bareStr := decodeURIComponent (usp_toString bare_) in
  let bareLen := String.length bareStr in
  let zipStr := decodeURIComponent (usp_toString zip) in
  let zipLen := String.length zipStr in
  if Nat.ltb bareLen (Nat.max zipLen MIN_ZIP) then bare_ else zip.

End RouterService.

(** ** [updateState]: hydrating the store from the query string

    [updateState] is an async function; its awaits run in sequence, so it is
    modelled as a computation over the log of what it does to its
    surroundings, with a result in [Res] (the promise resolves or rejects). *)

Definition bindRes {A B} (m : Res A) (k : A -> Res B) : Res B :=
  match m with
  | Ok a => k a
  | Throw e => Throw e
  end.

#[export] Instance Res_bind : MBind Res := fun A B k m => bindRes m k.

Section UpdateState.
Context `{ZipConstants} `{IdCompaction} `{JsValues} `{RouterEnv}.

(** [Items.ItemsState], [Recipes.RecipesState], [Machines.MachinesState] and
    [Settings.PartialSettingsState]. *)
Variables ItemsState RecipesState MachinesState SettingsState : Type.

(** [App.PartialState] *)
Record PartialState : Type := {
  objectivesState : Nullable ObjectivesState;
  itemsState : Nullable ItemsState;
  recipesState : Nullable RecipesState;
  machinesState : Nullable MachinesState;
  settingsState : Nullable SettingsState
}.

(** The parsing steps of the try block, in the order of the calls:
    [unzipModules], [unzipBeacons], [unzipObjectives], [unzipItems],
    [unzipRecipes], [unzipMachines] and [unzipSettings]. Each may throw on a
    corrupt field, so each is a parameter in [Res]. *)
Variable stepModules : ParamMap -> option ModHash -> Res (list ModuleSettings).
Variable stepBeacons :
  ParamMap -> list ModuleSettings -> option ModHash -> Res (list BeaconSettings).
Variable stepObjectives :
  ParamMap -> list ModuleSettings -> list BeaconSettings -> option ModHash ->
  Res (Nullable ObjectivesState).
Variable stepItems : ParamMap -> option ModHash -> Res (Nullable ItemsState).
Variable stepRecipes :
  ParamMap -> list ModuleSettings -> list BeaconSettings -> option ModHash ->
  Res (Nullable RecipesState).
Variable stepMachines :
  ParamMap -> list ModuleSettings -> list BeaconSettings -> option ModHash ->
  Res (Nullable MachinesState).
Variable stepSettings :
  string -> ParamMap -> list BeaconSettings -> list string -> ModHash ->
  option ModHash -> Res (Nullable SettingsState).

(** What [updateState] does to its surroundings: [ready$.next()],
    [store.dispatch(App.load({ partial }))] and [console.error(err)]. *)
Inductive Event : Type :=
| ReadyNext
| StoreDispatch (partial : PartialState)
| ConsoleError (err : string).

Definition Task (A : Type) : Type := list Event -> Res A * list Event.

Definition emit (e : Event) : Task unit := fun log => (Ok tt, log ++ [e]).

Definition liftRes {A} (m : Res A) : Task A := fun log => (m, log).

Definition bindTask {A B} (m : Task A) (k : A -> Task B) : Task B :=
  fun log =>
    match m log with
    | (Ok a, log') => k a log'
    | (Throw e, log') => (Throw e, log')
    end.

(** [try { body } catch (err) { handler } finally { final }] *)
Definition tryCatchFinally {A} (body : Task A) (handler : string -> Task A)
    (final : Task unit) : Task A :=
  fun log =>
    let '(r, log1) :=
      match body log with
      | (Ok a, log') => (Ok a, log')
      | (Throw e, log') => handler e log'
      end in
    match final log1 with
    | (Ok _, log2) => (r, log2)
    | (Throw e, log2) => (Throw e, log2)
    end.

Definition dispatch (partial : PartialState) : Task unit :=
  bindTask (emit (StoreDispatch partial)) (fun _ => emit ReadyNext).

(** The try block up to [prune(state)]: the state that the query string and
    the dataset decode to. *)
Definition decodeState (modId : string) (params : ParamMap) : Res PartialState :=
  '(params, isBare) ← (match get params QueryField.Zip with
        | val zipSection =>
            zip ← inflate zipSection;
            Ok (parseQuery zip, false)
        | _ => Ok (params, true)
        end : Res (ParamMap * bool));
  hash ← requestData
            (if Nat.eqb (String.length modId) 0 then initial_modId else modId);
  let useHash := if (isBare : bool) then None else Some (hash : ModHash) in
  ms ← stepModules params useHash;
  bs ← stepBeacons params ms useHash;
  os ← stepObjectives params ms bs useHash;
  is_ ← stepItems params useHash;
  rs ← stepRecipes params ms bs useHash;
  mcs ← stepMachines params ms bs useHash;
  ss ← stepSettings modId params bs
          (match os with val o => ids o | _ => [] end) hash useHash;
  Ok (prune
        {| objectivesState := os; itemsState := is_; recipesState := rs;
           machinesState := mcs; settingsState := ss |}).

Definition updateState (modId : Nullable string) (params : ParamMap)
    : Task unit :=
  match modId with
  | val modId =>
      if objectKeysEmpty params then emit ReadyNext
      else
        tryCatchFinally
          (bindTask (liftRes (decodeState modId params)) dispatch)
          (fun err =>
             bindTask (emit (ConsoleError err))
               (fun _ => liftRes (Throw "RouterService failed to parse url")))
          (emit ReadyNext)
  | _ => emit ReadyNext
  end.

End UpdateState.

(** ** RouterService: the side tables, the items and the settings writer *)

(** [URLSearchParams.prototype.set]: the first entry of the key takes the
    value and the other entries of the key go; without an entry of the key,
    one is appended. *)
Fixpoint setFirst (params : URLSearchParams) (key : QueryField.t)
    (value : string) : URLSearchParams :=
  match params with
  | [] => []
  | kv :: rest =>
      if QueryField.eqb (fst kv) key then
        (key, value) ::
        filter (fun kv' => QueryField.eqb (fst kv') key = false) rest
      else kv :: setFirst rest key value
  end.

Definition uspSet (params : URLSearchParams) (key : QueryField.t)
    (value : string) : URLSearchParams :=
  if existsb (fun kv => QueryField.eqb (fst kv) key) params
  then setFirst params key value
  else params ++ [(key, value)].

(** [s[i]] on a string: the character at [i] as a string, or [undefined]. *)
Definition charAt (s : string) (i : nat) : Nullable string :=
  match String.get i s with
  | Some c => val (String c EmptyString)
  | None => undefined
  end.

(** [s.substring(n)] *)
Fixpoint substringFrom (n : nat) (s : string) : string :=
  match n, s with
  | O, _ => s
  | S n', String _ s' => substringFrom n' s'
  | S _, EmptyString => EmptyString
  end.

(** A property key: [undefined] as a key is the text "undefined". *)
Definition keyText (k : Nullable string) : string :=
  match k with
  | val s => s
  | undefined => "undefined"
  | null => "null"
  end.

(** [getParams] of the earlier revision of RouterService: the sections of a
    query string by their first character, with or without an equals sign
    after it (decided on the first section). *)
Definition getParams (zip : string) : gmap string string :=
  let sections := split "&" zip in
  let substr :=
    if strictEq String.eqb (charAt (coalesce (at_ sections 0) EmptyString) 1)
         (val "=")
    then 2 else 1 in
  fold_left
    (fun (e : gmap string string) v =>
       <[keyText (charAt v 0) := substringFrom substr v]> e)
    sections ∅.

Section RouterTables.
Context `{ZipConstants} `{IdCompaction} `{JsValues} `{RouterEnv}.

(** [ZipRecipeSettingsInfo]: a side table of records and the position of
    each record by its bare text. The object [idMap] is read as a finite
    map: its keys are bare record texts, which are empty, begin with the
    field separator or begin with the text of a count, a number, and so
    are no keys that the object inherits. *)
Record ZipRecipeSettingsInfo : Type := {
  idMap : gmap string nat;
  list_ : list (Zip.t string)
}.

Definition emptyRecipeSettingsInfo : ZipRecipeSettingsInfo :=
  {| idMap := ∅; list_ := [] |}.

(** A position of a side table as a JavaScript number. *)
Definition indexNumber (n : nat) : number := number_of_Z (Z.of_nat n).

(** The end of the callbacks of [zipModuleArray] and [zipBeaconArray]: a
    record not yet in the table is pushed, and the position under its bare
    text is returned. *)
Definition intern (info : ZipRecipeSettingsInfo) (zip : Zip.t string)
    : nat * ZipRecipeSettingsInfo :=
  match idMap info !! Zip.bare zip with
  | None =>
      (length (list_ info),
       {| idMap := <[Zip.bare zip := length (list_ info)]> (idMap info);
          list_ := list_ info ++ [zip] |})
  | Some n => (n, info)
  end.

(** The callback of [zipModuleArray] and [zipBeaconArray] along a sequence
    of records: the positions returned and the table left behind. *)
Fixpoint internAll (zips : list (Zip.t string)) (info : ZipRecipeSettingsInfo)
    : list nat * ZipRecipeSettingsInfo :=
  match zips with
  | [] => ([], info)
  | zip :: rest =>
      let '(n, info1) := intern info zip in
      let '(ns, info2) := internAll rest info1 in
      (n :: ns, info2)
  end.

(** [obj.count?.toString()] *)
Definition optToString {A} `{ToString A} (v : Nullable A) : Nullable string :=
  match v with
  | val a => val (toString a)
  | _ => undefined
  end.

(** The record of a module, bare and hashed. *)
Definition moduleZip (hash : ModHash) (obj : ModuleSettings) : Zip.t string :=
  let count := zipString (optToString (m_count obj)) in
  {| Zip.bare := zipFields [count; zipString (m_id obj)];
     Zip.hash := zipFields [count; zipNString (m_id obj) (modules hash)] |}.

Fixpoint zipModuleArray (values : list ModuleSettings)
    (modulesInfo : ZipRecipeSettingsInfo) (hash : ModHash)
    : list number * ZipRecipeSettingsInfo :=
  match values with
  | [] => ([], modulesInfo)
  | obj :: rest =>
      let '(n, info1) := intern modulesInfo (moduleZip hash obj) in
      let '(ns, info2) := zipModuleArray rest info1 hash in
      (indexNumber n :: ns, info2)
  end.

Definition unzipModules (params : ParamMap) (hash : option ModHash)
    : list ModuleSettings :=
  map (fun module =>
         let s := split ZFIELDSEP module in
         prune
           {| m_count := parseRational (parseString (at_ s 0) None);
              m_id := parseString (at_ s 1) (modules <$> hash) |})
      (getAll params QueryField.Module_).

(** [moduleMap[i]] in [zipBeaconArray]. *)
Definition atOpt {A} (l : list (Nullable A)) (i : nat) : Nullable A :=
  match l !! i with Some v => v | None => undefined end.

(** The record of a beacon, bare and hashed, given the positions of its
    modules. *)
Definition beaconZip (hash : ModHash) (moduleIds : Nullable (list number))
    (obj : BeaconSettings) : Zip.t string :=
  let count := zipString (optToString (b_count obj)) in
  let modules := zipArray moduleIds in
  let total := zipString (optToString (b_total obj)) in
  {| Zip.bare := zipFields [count; modules; zipString (b_id obj); total];
     Zip.hash :=
       zipFields [count; modules; zipNString (b_id obj) (beacons hash); total] |}.

Fixpoint zipBeaconArray_from (i : nat) (beacons_ : list BeaconSettings)
    (moduleMap_ : list (Nullable (list number)))
    (beaconsInfo : ZipRecipeSettingsInfo) (hash : ModHash)
    : list number * ZipRecipeSettingsInfo :=
  match beacons_ with
  | [] => ([], beaconsInfo)
  | obj :: rest =>
      let '(n, info1) :=
        intern beaconsInfo (beaconZip hash (atOpt moduleMap_ i) obj) in
      let '(ns, info2) := zipBeaconArray_from (S i) rest moduleMap_ info1 hash in
      (indexNumber n :: ns, info2)
  end.

Definition zipBeaconArray (beacons_ : list BeaconSettings)
    (moduleMap_ : list (Nullable (list number)))
    (beaconsInfo : ZipRecipeSettingsInfo) (hash : ModHash)
    : list number * ZipRecipeSettingsInfo :=
  zipBeaconArray_from 0 beacons_ moduleMap_ beaconsInfo hash.

(** [beaconModuleMap]: the module positions of each beacon, interned in the
    module table. *)
Fixpoint beaconModuleMap (beacons_ : list BeaconSettings)
    (modulesInfo : ZipRecipeSettingsInfo) (hash : ModHash)
    : list (Nullable (list number)) * ZipRecipeSettingsInfo :=
  match beacons_ with
  | [] => ([], modulesInfo)
  | beacon :: rest =>
      let '(ids_, info1) :=
        match b_modules beacon with
        | val ms =>
            let '(ns, info') := zipModuleArray ms modulesInfo hash in
            (val ns, info')
        | _ => (undefined, modulesInfo)
        end in
      let '(rest_, info2) := beaconModuleMap rest info1 hash in
      (ids_ :: rest_, info2)
  end.

Definition unzipBeacons (params : ParamMap)
    (moduleSettings : list ModuleSettings) (hash : option ModHash)
    : list BeaconSettings :=
  map (fun beacon =>
         let s := split ZFIELDSEP beacon in
         prune
           {| b_count := parseRational (parseString (at_ s 0) None);
              b_modules :=
                optMap (byNumber moduleSettings emptyModule)
                  (parseArray_bare (at_ s 1));
              b_id := parseString (at_ s 2) (beacons <$> hash);
              b_total := parseRational (parseString (at_ s 3) None) |})
      (getAll params QueryField.Beacon).

(** [p[id]] for an array [p] of numbers that has become the prototype of a
    map: an element or the [length] of the array, which are numbers, or a
    member of [Array.prototype] or of [Object.prototype]. *)
Definition arrayProperty (p : list number) (id : string)
    : JsRead (list number) :=
  if existsb (String.eqb id) (map natToString (seq 0 (length p)))
     || String.eqb id "length"
  then Alien false
  else
    match arrayPrototype id with
    | Some b => Alien b
    | None =>
        match objectMember id with Some b => Alien b | None => Missing end
    end.

(** [map[id]] for one of the two maps of [ZipMachineSettings], an object
    literal with the own properties [own] and, if one has been assigned to
    ['__proto__'], the prototype [proto]: the own property, or what the
    prototype chain answers; the getter of ['__proto__'] answers with the
    prototype. *)
Definition property (own : gmap string (list number))
    (proto : option (list number)) (id : string) : JsRead (list number) :=
  match own !! id with
  | Some ns => Found ns
  | None =>
      match proto with
      | Some p =>
          if String.eqb id "__proto__" then Found p else arrayProperty p id
      | None =>
          match objectMember id with Some b => Alien b | None => Missing end
      end
  end.

(** [zipArray] of what a read found. An inherited value is not nullish:
    with a truthy [length] it is a function without a [join], and the call
    throws; otherwise the result is [ZEMPTY]. *)
Definition zipArrayOf (r : JsRead (list number)) : Res string :=
  match r with
  | Found ns => Ok (zipArray (val ns))
  | Missing => Ok (zipArray (undefined : Nullable (list number)))
  | Alien true => Throw "TypeError: value.join is not a function"
  | Alien false => Ok ZEMPTY
  end.

(** What [zipMachineSettings] reads of an [Objective], a [RecipeSettings]
    or a [MachineSettings]: the optional [modules] and [beacons]. *)
Record MachineFields : Type := {
  f_modules : Nullable (list ModuleSettings);
  f_beacons : Nullable (list BeaconSettings)
}.

Definition emptyMachineSettings : ZipMachineSettings :=
  {| moduleMap := ∅; beaconMap := ∅; moduleProto := None;
     beaconProto := None |}.

(** One pass of the loop of [zipMachineSettings], over the result and the
    two shared side tables. The assignments [result.moduleMap[id] = ...]
    and [result.beaconMap[id] = ...] store a property, except under the id
    ['__proto__'], where the array becomes the prototype of the map. *)
Definition zipMachineSettings_step (hash : ModHash)
    (acc : ZipMachineSettings * ZipRecipeSettingsInfo * ZipRecipeSettingsInfo)
    (entry : string * MachineFields)
    : ZipMachineSettings * ZipRecipeSettingsInfo * ZipRecipeSettingsInfo :=
  let '(result, modulesInfo, beaconsInfo) := acc in
  let id := fst entry in
  let value := snd entry in
  let '(result, modulesInfo) :=
    match f_modules value with
    | val ms =>
        let '(ns, info) := zipModuleArray ms modulesInfo hash in
        (if String.eqb id "__proto__" then
           {| moduleMap := moduleMap result; beaconMap := beaconMap result;
              moduleProto := Some ns; beaconProto := beaconProto result |}
         else
           {| moduleMap := <[id := ns]> (moduleMap result);
              beaconMap := beaconMap result;
              moduleProto := moduleProto result;
              beaconProto := beaconProto result |}, info)
    | _ => (result, modulesInfo)
    end in
  match f_beacons value with
  | val bs =>
      let '(moduleMap_, modulesInfo) := beaconModuleMap bs modulesInfo hash in
      let '(ns, beaconsInfo) := zipBeaconArray bs moduleMap_ beaconsInfo hash in
      (if String.eqb id "__proto__" then
         {| moduleMap := moduleMap result; beaconMap := beaconMap result;
            moduleProto := moduleProto result; beaconProto := Some ns |}
       else
         {| moduleMap := moduleMap result;
            beaconMap := <[id := ns]> (beaconMap result);
            moduleProto := moduleProto result;
            beaconProto := beaconProto result |},
       modulesInfo, beaconsInfo)
  | _ => (result, modulesInfo, beaconsInfo)
  end.

(** [zipMachineSettings]. The object [state] is the sequence of its keys,
    in the order of [Object.keys], each with its value; the two side tables
    are shared with the caller, so they are passed in and returned. *)
Definition zipMachineSettings (state : list (string * MachineFields))
    (modulesInfo beaconsInfo : ZipRecipeSettingsInfo) (hash : ModHash)
    : ZipMachineSettings * ZipRecipeSettingsInfo * ZipRecipeSettingsInfo :=
  fold_left (zipMachineSettings_step hash) state
    (emptyMachineSettings, modulesInfo, beaconsInfo).

(** [list.forEach((e) => { config.bare.append(section, e.bare);
    config.hash.append(section, e.hash); })] *)
Definition appendRecords (config_ : Zip.t URLSearchParams)
    (section_ : QueryField.t) (records : list (Zip.t string))
    : Zip.t URLSearchParams :=
  fold_left
    (fun c e =>
       {| Zip.bare := append (Zip.bare c) section_ (Zip.bare e);
          Zip.hash := append (Zip.hash c) section_ (Zip.hash e) |})
    records config_.

(** [zipModulesBeacons]: the entities of the objectives, of the recipes and
    of the machines, and [settings.beacons]. *)
Definition zipModulesBeacons
    (objectives_ recipes_ machines_ : list (string * MachineFields))
    (settingsBeacons : Nullable (list BeaconSettings)) (hash : ModHash)
    : ZipData :=
  let modulesInfo := emptyRecipeSettingsInfo in
  let beaconsInfo := emptyRecipeSettingsInfo in
  let '(objectiveSettings_, modulesInfo, beaconsInfo) :=
    zipMachineSettings objectives_ modulesInfo beaconsInfo hash in
  let '(recipeSettings_, modulesInfo, beaconsInfo) :=
    zipMachineSettings recipes_ modulesInfo beaconsInfo hash in
  let '(machineSettings_, modulesInfo, beaconsInfo) :=
    zipMachineSettings machines_ modulesInfo beaconsInfo hash in
  let '(beacons_, modulesInfo, beaconsInfo) :=
    match settingsBeacons with
    | val bs =>
        let '(moduleMap_, modulesInfo) := beaconModuleMap bs modulesInfo hash in
        let '(ns, beaconsInfo) := zipBeaconArray bs moduleMap_ beaconsInfo hash in
        (val ns, modulesInfo, beaconsInfo)
    | _ => (undefined, modulesInfo, beaconsInfo)
    end in
  let config_ :=
    appendRecords
      (appendRecords {| Zip.bare := []; Zip.hash := [] |}
         QueryField.Module_ (list_ modulesInfo))
      QueryField.Beacon (list_ beaconsInfo) in
  {| objectives := {| Zip.bare := []; Zip.hash := [] |};
     config := config_;
     objectiveSettings := objectiveSettings_;
     recipeSettings := recipeSettings_;
     machineSettings := machineSettings_;
     zbeacons := beacons_ |}.

(** [ItemSettings]: [{ beltId?, wagonId? }]. *)
Record ItemSettings : Type := {
  i_beltId : Nullable string;
  i_wagonId : Nullable string
}.

(** The two records of an item. *)
Definition zipItem (hash : ModHash) (i : string) (obj : ItemSettings)
    : Zip.t string :=
  {| Zip.bare := zipFields [i; zipString (i_beltId obj); zipString (i_wagonId obj)];
     Zip.hash :=
       zipFields [ zipNString (val i) (items hash);
                   zipNString (i_beltId obj) (belts hash);
                   zipNString (i_wagonId obj) (wagons hash) ] |}.

(** [zipItems]. The object [state] is the sequence of its keys, in the
    order of [Object.keys], each with its value. *)
Definition zipItems (data : ZipData) (state : list (string * ItemSettings))
    (hash : ModHash) : ZipData :=
  fold_left
    (fun data entry =>
       let z := zipItem hash (fst entry) (snd entry) in
       {| objectives := objectives data;
          config :=
            {| Zip.bare :=
                 append (Zip.bare (config data)) QueryField.Item (Zip.bare z);
               Zip.hash :=
                 append (Zip.hash (config data)) QueryField.Item (Zip.hash z) |};
          objectiveSettings := objectiveSettings data;
          recipeSettings := recipeSettings data;
          machineSettings := machineSettings data;
          zbeacons := zbeacons data |})
    state data.

(** The id and the settings that one pass of the loop of [unzipItems]
    reads from a record. *)
Definition unzipItem (hash : option ModHash) (item : string)
    : string * ItemSettings :=
  let s := split ZFIELDSEP item in
  let id := coalesce (parseString (at_ s 0) (items <$> hash)) EmptyString in
  let obj :=
    {| i_beltId := parseString (at_ s 1) (belts <$> hash);
       i_wagonId := parseString (at_ s 2) (wagons <$> hash) |} in
  (id, prune obj).

Definition unzipItems (params : ParamMap) (hash : option ModHash)
    : Nullable (Entities ItemSettings) :=
  let list_ := getAll params QueryField.Item in
  if Nat.eqb (length list_) 0 then undefined
  else
    val (fold_left
           (fun (entities : Entities ItemSettings) item =>
              let e := unzipItem hash item in
              assign entities (fst e) (snd e))
           list_ emptyEntities).

(** [MachineSettings]: [{ modules?, beacons?, fuelId?, overclock? }]. *)
Record MachineSettings : Type := {
  ms_modules : Nullable (list ModuleSettings);
  ms_beacons : Nullable (list BeaconSettings);
  ms_fuelId : Nullable string;
  ms_overclock : Nullable Rational
}.

(** The two records of a machine. *)
Definition zipMachine (data : ZipData) (hash : ModHash) (i : string)
    (obj : MachineSettings) : Res (Zip.t string) :=
  modules_ ← zipArrayOf
    (property (moduleMap (machineSettings data))
       (moduleProto (machineSettings data)) i);
  beacons_ ← zipArrayOf
    (property (beaconMap (machineSettings data))
       (beaconProto (machineSettings data)) i);
  let overclock := zipNumber (ms_overclock obj) in
  Ok {| Zip.bare :=
          zipFields [i; modules_; beacons_; zipString (ms_fuelId obj); overclock];
        Zip.hash :=
          zipFields [ zipNString (val i) (machines hash); modules_; beacons_;
                      zipNString (ms_fuelId obj) (fuels hash); overclock ] |}.

(** [zipMachines]. The object [state] is the sequence of its keys, in the
    order of [Object.keys], each with its value; an error in one pass ends
    the loop. *)
Definition zipMachines (data : ZipData)
    (state : list (string * MachineSettings)) (hash : ModHash) : Res ZipData :=
  fold_left
    (fun acc entry =>
       data ← acc;
       z ← zipMachine data hash (fst entry) (snd entry);
       Ok {| objectives := objectives data;
             config :=
               {| Zip.bare :=
                    append (Zip.bare (config data)) QueryField.Machine (Zip.bare z);
                  Zip.hash :=
                    append (Zip.hash (config data)) QueryField.Machine (Zip.hash z) |};
             objectiveSettings := objectiveSettings data;
             recipeSettings := recipeSettings data;
             machineSettings := machineSettings data;
             zbeacons := zbeacons data |})
    state (Ok data).

(** The id and the settings that one pass of the loop of [unzipMachines]
    reads from a record. *)
Definition unzipMachine (moduleSettings : list ModuleSettings)
    (beaconSettings : list BeaconSettings) (hash : option ModHash)
    (machine : string) : string * MachineSettings :=
  let s := split ZFIELDSEP machine in
  let id := coalesce (parseString (at_ s 0) (machines <$> hash)) EmptyString in
  let obj :=
    {| ms_modules :=
         optMap (byNumber moduleSettings emptyModule) (parseArray_bare (at_ s 1));
       ms_beacons :=
         optMap (byNumber beaconSettings emptyBeacon) (parseArray_bare (at_ s 2));
       ms_fuelId := parseString (at_ s 3) (fuels <$> hash);
       ms_overclock := parseRational (at_ s 4) |} in
  (id, prune obj).

Definition unzipMachines (params : ParamMap)
    (moduleSettings : list ModuleSettings)
    (beaconSettings : list BeaconSettings) (hash : option ModHash)
    : Nullable (Entities MachineSettings) :=
  let list_ := getAll params QueryField.Machine in
  if Nat.eqb (length list_) 0 then undefined
  else
    val (fold_left
           (fun (entities : Entities MachineSettings) machine =>
              let e := unzipMachine moduleSettings beaconSettings hash machine in
              assign entities (fst e) (snd e))
           list_ emptyEntities).

(** [RecipeSettings]: [{ machineId?, modules?, beacons?, overclock?, cost?,
    fuelId? }]. *)
Record RecipeSettings : Type := {
  rs_machineId : Nullable string;
  rs_modules : Nullable (list ModuleSettings);
  rs_beacons : Nullable (list BeaconSettings);
  rs_overclock : Nullable Rational;
  rs_cost : Nullable Rational;
  rs_fuelId : Nullable string
}.

(** The two records of a recipe. *)
Definition zipRecipe (data : ZipData) (hash : ModHash) (i : string)
    (obj : RecipeSettings) : Res (Zip.t string) :=
  modules_ ← zipArrayOf
    (property (moduleMap (recipeSettings data))
       (moduleProto (recipeSettings data)) i);
  beacons_ ← zipArrayOf
    (property (beaconMap (recipeSettings data))
       (beaconProto (recipeSettings data)) i);
  let overclock := zipNumber (rs_overclock obj) in
  let cost := zipNumber (rs_cost obj) in
  Ok {| Zip.bare :=
          zipFields [ i; zipString (rs_machineId obj); modules_; beacons_;
                      overclock; cost; zipString (rs_fuelId obj) ];
        Zip.hash :=
          zipFields [ zipNString (val i) (recipes hash);
                      zipNString (rs_machineId obj) (machines hash);
                      modules_; beacons_; overclock; cost;
                      zipNString (rs_fuelId obj) (fuels hash) ] |}.

(** [zipRecipes]. The object [state] is the sequence of its keys, in the
    order of [Object.keys], each with its value; an error in one pass ends
    the loop. *)
Definition zipRecipes (data : ZipData)
    (state : list (string * RecipeSettings)) (hash : ModHash) : Res ZipData :=
  fold_left
    (fun acc entry =>
       data ← acc;
       z ← zipRecipe data hash (fst entry) (snd entry);
       Ok {| objectives := objectives data;
             config :=
               {| Zip.bare :=
                    append (Zip.bare (config data)) QueryField.Recipe (Zip.bare z);
                  Zip.hash :=
                    append (Zip.hash (config data)) QueryField.Recipe (Zip.hash z) |};
             objectiveSettings := objectiveSettings data;
             recipeSettings := recipeSettings data;
             machineSettings := machineSettings data;
             zbeacons := zbeacons data |})
    state (Ok data).

(** The id and the settings that one pass of the loop of [unzipRecipes]
    reads from a record. *)
Definition unzipRecipe (moduleSettings : list ModuleSettings)
    (beaconSettings : list BeaconSettings) (hash : option ModHash)
    (recipe : string) : string * RecipeSettings :=
  let s := split ZFIELDSEP recipe in
  let id := coalesce (parseString (at_ s 0) (recipes <$> hash)) EmptyString in
  let obj :=
    {| rs_machineId := parseString (at_ s 1) (machines <$> hash);
       rs_modules :=
         optMap (byNumber moduleSettings emptyModule) (parseArray_bare (at_ s 2));
       rs_beacons :=
         optMap (byNumber beaconSettings emptyBeacon) (parseArray_bare (at_ s 3));
       rs_overclock := parseRational (at_ s 4);
       rs_cost := parseRational (at_ s 5);
       rs_fuelId := parseString (at_ s 6) (fuels <$> hash) |} in
  (id, prune obj).

Definition unzipRecipes (params : ParamMap)
    (moduleSettings : list ModuleSettings)
    (beaconSettings : list BeaconSettings) (hash : option ModHash)
    : Nullable (Entities RecipeSettings) :=
  let list_ := getAll params QueryField.Recipe in
  if Nat.eqb (length list_) 0 then undefined
  else
    val (fold_left
           (fun (entities : Entities RecipeSettings) recipe =>
              let e := unzipRecipe moduleSettings beaconSettings hash recipe in
              assign entities (fst e) (snd e))
           list_ emptyEntities).

(** [set] of the earlier revision of RouterService, for one field: the diff
    of the located value against the located baseline is written under the
    key to both containers, unless its bare text is empty. The further
    arguments of the diff are part of [value]. *)
Definition setField {T V} (zipData : ZipData) (state init : T)
    (value : V -> V -> ZipOut) (query : QueryField.t) (locator : T -> V)
    : ZipData :=
  let s := locator state in
  let i := locator init in
  let v := value s i in
  let b := match v with Pair b _ => b | Str x => x end in
  let h := match v with Pair _ h => h | Str x => x end in
  if Nat.eqb (String.length b) 0 then zipData
  else
    {| objectives := objectives zipData;
       config :=
         {| Zip.bare := uspSet (Zip.bare (config zipData)) query b;
            Zip.hash := uspSet (Zip.hash (config zipData)) query h |};
       objectiveSettings := objectiveSettings zipData;
       recipeSettings := recipeSettings zipData;
       machineSettings := machineSettings zipData;
       zbeacons := zbeacons zipData |}.

(** The side table agrees with its index: a bare text has the position [n]
    exactly when the record at [n] has that bare text. *)
Definition infoOk (info : ZipRecipeSettingsInfo) : Prop :=
  ∀ (k : string) (n : nat),
    idMap info !! k = Some n ↔ (Zip.bare <$> list_ info) !! n = Some k.

End RouterTables.

(** ** Vocabulary of the statements *)

(** What the spec asks of the wire constants: the sentinels are non-empty
    and distinct, and so are the two separators. *)
Record SentinelsOk `{ZipConstants} : Prop := {
  znull_nonempty : ZNULL ≠ EmptyString;
  zempty_nonempty : ZEMPTY ≠ EmptyString;
  zempty_not_znull : ZEMPTY ≠ ZNULL;
  seps_differ : ZFIELDSEP ≠ ZARRAYSEP
}.

(** The contract of Id Compaction (spec 4.1): [expand (compact n) = n], a
    compacted id is not empty, and its characters are neither a separator
    nor a character of the null or of the empty sentinel. *)
Record IdContract `{ZipConstants} `{IdCompaction} : Prop := {
  expand_compact : ∀ n : Z, (0 ≤ n)%Z → idToN (nToId n) = n;
  compact_nonempty : ∀ n : Z, (0 ≤ n)%Z → nToId n ≠ EmptyString;
  compact_alphabet :
    ∀ (n : Z) (c : ascii), (0 ≤ n)%Z → occurs c (nToId n) = true →
      c ≠ ZFIELDSEP ∧ c ≠ ZARRAYSEP ∧
      occurs c ZNULL = false ∧ occurs c ZEMPTY = false
}.

(** A range of positions of the reference list: a start, and an end when the
    run has more than one member. *)
Definition Range : Type := nat * option nat.

Definition covers (r : Range) (k : nat) : Prop :=
  match r with
  | (s, None) => k = s
  | (s, Some e) => s ≤ k ≤ e
  end.

(** The range token that [zipDiffSubset] pushes for a run. *)
Definition render `{ZipConstants} `{IdCompaction} (r : Range) : string :=
  match r with
  | (s, None) => nToId (Z.of_nat s)
  | (s, Some e) =>
      nToId (Z.of_nat s) +:+ sepStr ZARRAYSEP +:+ nToId (Z.of_nat e)
  end.

(** The scan of [zipDiffSubset] over positions instead of compacted ids: the
    closed runs and the open one. *)
Definition Runs : Type := list Range * option Range.

Definition runStep (allSet value : gset string) (a : Runs) (h : string)
    (i : nat) : Runs :=
  if negb (bool_decide (h ∈ allSet)) then a
  else if bool_decide (h ∈ value) then
    match snd a with
    | None => (fst a, Some (i, None))
    | Some (s, _) => (fst a, Some (s, Some i))
    end
  else
    match snd a with
    | Some r => (fst a ++ [r], None)
    | None => a
    end.

Fixpoint runs_from (allSet value : gset string) (hash : list string)
    (i : nat) (a : Runs) : Runs :=
  match hash with
  | [] => a
  | h :: hash' => runs_from allSet value hash' (S i) (runStep allSet value a h i)
  end.

(** The runs once the open one is flushed. *)
Definition flushed (a : Runs) : list Range :=
  fst a ++ match snd a with Some r => [r] | None => [] end.

Definition subsetRuns (value : gset string) (all hash : list string)
    : list Range :=
  flushed (runs_from (list_to_set all) value hash 0 ([], None)).

(** When every id of the reference list is a member, the runs after [i]
    positions cover exactly the selected positions below [i], and an open
    run ends at position [i - 1]. *)
Definition runsExact (ref : list string) (value : gset string) (i : nat)
    (a : Runs) : Prop :=
  (∀ k, (∃ r, r ∈ flushed a ∧ covers r k) ↔
        k < i ∧ ∃ h, ref !! k = Some h ∧ h ∈ value) ∧
  match snd a with
  | Some (s, None) => S s = i
  | Some (s, Some e) => S e = i ∧ s < e
  | None => True
  end.

(** A start or an end of a range. *)
Definition isEndpoint (r : Range) (p : nat) : Prop :=
  p = fst r ∨ snd r = Some p.

(** Every start and end of the runs after [i] positions is a position below
    [i] of a selected member. *)
Definition runsOfMembers (ref : list string) (allSet value : gset string)
    (i : nat) (a : Runs) : Prop :=
  ∀ r p, r ∈ flushed a → isEndpoint r p →
    p < i ∧ ∃ h, ref !! p = Some h ∧ h ∈ allSet ∧ h ∈ value.

(** The [Scan] that stands for the runs. *)
Definition scanOf `{ZipConstants} `{IdCompaction} (a : Runs) : Scan :=
  {| result := map render (fst a);
     start := (λ r : Range, nToId (Z.of_nat (fst r))) <$> snd a;
     end_ := r ← snd a; e ← snd r; Some (nToId (Z.of_nat e)) |}.

(** The starts and ends that a token carries, as [parseSubset] reads them. *)
Definition endpoints `{ZipConstants} (token : string) : list string :=
  concat (map (split ZARRAYSEP) (split ZFIELDSEP token)).

(** The two candidates of [getHash] and their decoded lengths. *)
Definition bareParams `{JsValues} (zData : ZipData) : URLSearchParams :=
  appendAll (Zip.bare (objectives zData)) (Zip.bare (config zData)).

Definition zipParams `{JsValues} `{RouterEnv} (zData : ZipData)
    : URLSearchParams :=
  [ (QueryField.Zip,
     deflate (decodeURIComponent
                (usp_toString
                   (appendAll (Zip.hash (objectives zData))
                      (Zip.hash (config zData))))));
    (QueryField.Version, version) ].

Definition bareLen `{JsValues} `{RouterEnv} (zData : ZipData) : nat :=
  String.length (decodeURIComponent (usp_toString (bareParams zData))).

Definition zipLen `{JsValues} `{RouterEnv} (zData : ZipData) : nat :=
  String.length (decodeURIComponent (usp_toString (zipParams zData))).

(** The last position of a range, and a range that is well formed: an end,
    when there is one, lies after the start. *)
Definition rangeEnd (r : Range) : nat :=
  match snd r with Some e => e | None => fst r end.

Definition wfRange (r : Range) : Prop :=
  match snd r with Some e => fst r < e | None => True end.

(** Ranges in increasing order that neither overlap nor touch: between two
    neighbours at least one position is left out. *)
Fixpoint runsSeparated (rs : list Range) : Prop :=
  match rs with
  | [] => True
  | r :: rest =>
      wfRange r ∧
      match rest with
      | [] => True
      | r' :: _ => rangeEnd r + 1 < fst r'
      end ∧
      runsSeparated rest
  end.

(** When every id of the reference list is a member: after [i] positions
    the closed runs are separated and end before position [i - 1], and an
    open run lies after them and ends at position [i - 1]. *)
Definition runsGapped (i : nat) (a : Runs) : Prop :=
  runsSeparated (fst a) ∧
  match snd a with
  | Some r =>
      (∀ r', r' ∈ fst a → rangeEnd r' + 1 < fst r) ∧ wfRange r ∧
      S (rangeEnd r) = i
  | None => ∀ r', r' ∈ fst a → rangeEnd r' + 1 < i
  end.

(** For any membership set: after [i] positions every selected member below
    [i] is covered, and an open run lies below [i]. *)
Definition runsCoverMembers (ref : list string) (allSet value : gset string)
    (i : nat) (a : Runs) : Prop :=
  (∀ k h, k < i → ref !! k = Some h → h ∈ allSet → h ∈ value →
     ∃ r, r ∈ flushed a ∧ covers r k) ∧
  match snd a with
  | Some r => wfRange r ∧ rangeEnd r < i
  | None => True
  end.

(** A text that a record carries as it is: not empty, not the null
    sentinel and free of the field separator; and an optional text that is
    omitted or such a text. *)
Definition plainText `{ZipConstants} (s : string) : Prop :=
  s ≠ EmptyString ∧ s ≠ ZNULL ∧ occurs ZFIELDSEP s = false.

Definition plainOpt `{ZipConstants} (v : Nullable string) : Prop :=
  v = undefined ∨ ∃ s, v = val s ∧ plainText s.

(** An optional id of a dictionary. *)
Definition inDictionary (hash : list string) (v : Nullable string) : Prop :=
  v = undefined ∨ ∃ s, v = val s ∧ s ∈ hash.

(** A module as [unzipModules] reads it back from its record: the count
    through its text, and an omitted count for a null one. *)
Definition readModule `{JsValues} (obj : ModuleSettings) : ModuleSettings :=
  {| m_count :=
       match m_count obj with
       | val c => val (rational (toString c))
       | _ => undefined
       end;
     m_id := m_id obj |}.

(** A module that its bare record carries: the text of its count is plain,
    and its id is plain or omitted. *)
Definition plainModule `{ZipConstants} `{JsValues} (obj : ModuleSettings)
    : Prop :=
  match m_count obj with val c => plainText (toString c) | _ => True end ∧
  plainOpt (m_id obj).

(** The positions [ns] point to the records of the modules [mods]: the bare
    module record at position [n] is the bare record of the module. *)
Definition modulesAt `{ZipConstants} `{IdCompaction} `{JsValues}
    (hash : ModHash) (records : list string) (mods : list ModuleSettings)
    (ns : list nat) : Prop :=
  Forall2 (λ obj n, records !! n = Some (Zip.bare (moduleZip hash obj)))
    mods ns.

(** The module positions [mm] of the beacons [bs], entry by entry: omitted
    where the beacon has no modules, and otherwise pointing to the records
    of its modules. *)
Definition moduleMapAt `{ZipConstants} `{IdCompaction} `{JsValues}
    (hash : ModHash) (mrecords : list string) (bs : list BeaconSettings)
    (mm : list (Nullable (list number))) : Prop :=
  Forall2
    (λ b entry,
       match b_modules b with
       | val ms => ∃ l, entry = val (map indexNumber l) ∧
                        modulesAt hash mrecords ms l
       | _ => entry = undefined
       end)
    bs mm.

(** The positions [ns] point to the records of the beacons [bs]: the bare
    beacon record at the position of beacon [k] is the bare record of that
    beacon, written with module positions that point to the records of its
    modules. *)
Definition beaconsAt `{ZipConstants} `{IdCompaction} `{JsValues}
    (hash : ModHash) (mrecords brecords : list string)
    (bs : list BeaconSettings) (ns : list nat) : Prop :=
  ∃ mm,
    moduleMapAt hash mrecords bs mm ∧
    length ns = length bs ∧
    ∀ k b, bs !! k = Some b →
      ∃ n, ns !! k = Some n ∧
           brecords !! n = Some (Zip.bare (beaconZip hash (atOpt mm k) b)).

(** A key that the prototype chain of an object literal does not answer:
    no member of [Object.prototype], so not ['__proto__'] either. *)
Definition ordinaryKey (id : string) : Prop := objectMember id = None.

(** What the assignments [map[id] = ...] have left for the id in a map
    with the own properties [own] and the assigned prototype [proto]: the
    own property of the id, and for ['__proto__'] the prototype. *)
Definition assigned {T} (own : gmap string T) (proto : option T)
    (id : string) : option T :=
  if String.eqb id "__proto__" then proto else own !! id.

(** The positions in the maps [r] of the owners [state] point to their
    records: each owner with modules has the positions of its module
    records assigned under its id, each owner with beacons those of its
    beacon records, and an id without modules, without beacons, or of no
    owner has nothing assigned: no own property, and for ['__proto__'] the
    prototype that the map was created with. *)
Definition settingsAt `{ZipConstants} `{IdCompaction} `{JsValues}
    (hash : ModHash) (mrecords brecords : list string)
    (state : list (string * MachineFields)) (r : ZipMachineSettings) : Prop :=
  (∀ id fields, (id, fields) ∈ state →
     match f_modules fields with
     | val mods =>
         ∃ ns, assigned (moduleMap r) (moduleProto r) id =
                 Some (map indexNumber ns) ∧
               modulesAt hash mrecords mods ns
     | _ => assigned (moduleMap r) (moduleProto r) id = None
     end ∧
     match f_beacons fields with
     | val bs =>
         ∃ ns, assigned (beaconMap r) (beaconProto r) id =
                 Some (map indexNumber ns) ∧
               beaconsAt hash mrecords brecords bs ns
     | _ => assigned (beaconMap r) (beaconProto r) id = None
     end) ∧
  (∀ id, id ∉ state.*1 →
     assigned (moduleMap r) (moduleProto r) id = None ∧
     assigned (beaconMap r) (beaconProto r) id = None) ∧
  moduleMap r !! "__proto__" = None ∧ beaconMap r !! "__proto__" = None.

(** What the decoders need of the decimal texts of positions: [Number]
    reads the text of a position back, and the text is not empty and has
    no character that is a separator or a character of the null or of the
    empty sentinel. *)
Record IndexContract `{ZipConstants} `{JsValues} : Prop := {
  index_read :
    ∀ n : nat, number_index (Number (toString (indexNumber n))) = Some n;
  index_nonempty : ∀ n : nat, toString (indexNumber n) ≠ EmptyString;
  index_alphabet :
    ∀ (n : nat) (c : ascii), occurs c (toString (indexNumber n)) = true →
      c ≠ ZFIELDSEP ∧ c ≠ ZARRAYSEP ∧
      occurs c ZNULL = false ∧ occurs c ZEMPTY = false
}.

(** A beacon as [unzipBeacons] reads it back from its record, its modules
    through the module records. *)
Definition readBeacon `{JsValues} (obj : BeaconSettings) : BeaconSettings :=
  {| b_count :=
       match b_count obj with
       | val c => val (rational (toString c))
       | _ => undefined
       end;
     b_modules :=
       match b_modules obj with
       | val l => val (map readModule l)
       | _ => undefined
       end;
     b_id := b_id obj;
     b_total :=
       match b_total obj with
       | val c => val (rational (toString c))
       | _ => undefined
       end |}.

(** A beacon that its bare record carries. *)
Definition plainBeacon `{ZipConstants} `{JsValues} (obj : BeaconSettings)
    : Prop :=
  match b_count obj with val c => plainText (toString c) | _ => True end ∧
  match b_modules obj with val l => Forall plainModule l | _ => True end ∧
  plainOpt (b_id obj) ∧
  match b_total obj with val c => plainText (toString c) | _ => True end.

(** What [zipMachineSettings] reads of a machine. *)
Definition machineFields `{JsValues} (obj : MachineSettings) : MachineFields :=
  {| f_modules := ms_modules obj; f_beacons := ms_beacons obj |}.

(** A machine as [unzipMachines] reads it back from its record. *)
Definition readMachine `{JsValues} (obj : MachineSettings) : MachineSettings :=
  {| ms_modules :=
       match ms_modules obj with
       | val l => val (map readModule l)
       | _ => undefined
       end;
     ms_beacons :=
       match ms_beacons obj with
       | val l => val (map readBeacon l)
       | _ => undefined
       end;
     ms_fuelId := ms_fuelId obj;
     ms_overclock :=
       match ms_overclock obj with
       | val c => val (rational (toString c))
       | _ => undefined
       end |}.

(** A machine that its bare record and the side tables carry. *)
Definition plainMachine `{ZipConstants} `{JsValues}
    (entry : string * MachineSettings) : Prop :=
  plainText (fst entry) ∧
  match ms_modules (snd entry) with val l => Forall plainModule l | _ => True end ∧
  match ms_beacons (snd entry) with val l => Forall plainBeacon l | _ => True end ∧
  plainOpt (ms_fuelId (snd entry)) ∧
  match ms_overclock (snd entry) with
  | val c => plainText (toString c)
  | _ => True
  end.

(** What [zipMachineSettings] reads of a recipe. *)
Definition recipeFields `{JsValues} (obj : RecipeSettings) : MachineFields :=
  {| f_modules := rs_modules obj; f_beacons := rs_beacons obj |}.

(** A recipe as [unzipRecipes] reads it back from its record. *)
Definition readRecipe `{JsValues} (obj : RecipeSettings) : RecipeSettings :=
  {| rs_machineId := rs_machineId obj;
     rs_modules :=
       match rs_modules obj with
       | val l => val (map readModule l)
       | _ => undefined
       end;
     rs_beacons :=
       match rs_beacons obj with
       | val l => val (map readBeacon l)
       | _ => undefined
       end;
     rs_overclock :=
       match rs_overclock obj with
       | val c => val (rational (toString c))
       | _ => undefined
       end;
     rs_cost :=
       match rs_cost obj with
       | val c => val (rational (toString c))
       | _ => undefined
       end;
     rs_fuelId := rs_fuelId obj |}.

(** A recipe that its bare record and the side tables carry. *)
Definition plainRecipe `{ZipConstants} `{JsValues}
    (entry : string * RecipeSettings) : Prop :=
  plainText (fst entry) ∧
  plainOpt (rs_machineId (snd entry)) ∧
  match rs_modules (snd entry) with val l => Forall plainModule l | _ => True end ∧
  match rs_beacons (snd entry) with val l => Forall plainBeacon l | _ => True end ∧
  match rs_overclock (snd entry) with
  | val c => plainText (toString c)
  | _ => True
  end ∧
  match rs_cost (snd entry) with
  | val c => plainText (toString c)
  | _ => True
  end ∧
  plainOpt (rs_fuelId (snd entry)).

(** What [zipMachineSettings] reads of an objective. *)
Definition objectiveFields `{JsValues} (obj : Objective) : MachineFields :=
  {| f_modules := o_modules obj; f_beacons := o_beacons obj |}.

(** An objective as [unzipObjectives] reads it back from its bare record,
    under the id [id]: a value, unit or type at its default is the
    default, and any other is read from its text. *)
Definition readObjective `{JsValues} (id : string) (obj : Objective)
    : Objective :=
  {| o_id := id;
     o_targetId := o_targetId obj;
     o_value :=
       if rational_eq (o_value obj) rational_one then rational_one
       else rational (toString (o_value obj));
     o_unit :=
       if number_seq (o_unit obj) ObjectiveUnit_Items then ObjectiveUnit_Items
       else Number (toString (o_unit obj));
     o_type :=
       if number_seq (o_type obj) ObjectiveType_Output then ObjectiveType_Output
       else Number (toString (o_type obj));
     o_machineId := o_machineId obj;
     o_modules :=
       match o_modules obj with
       | val l => val (map readModule l)
       | _ => undefined
       end;
     o_beacons :=
       match o_beacons obj with
       | val l => val (map readBeacon l)
       | _ => undefined
       end;
     o_overclock :=
       match o_overclock obj with
       | val c => val (rational (toString c))
       | _ => undefined
       end;
     o_fuelId := o_fuelId obj |}.

(** An objective that its bare record and the side tables carry. *)
Definition carriedObjective `{ZipConstants} `{JsValues} (obj : Objective)
    : Prop :=
  plainText (o_targetId obj) ∧
  (rational_eq (o_value obj) rational_one = false →
   plainText (toString (o_value obj))) ∧
  (number_seq (o_unit obj) ObjectiveUnit_Items = false →
   plainText (toString (o_unit obj))) ∧
  (number_seq (o_type obj) ObjectiveType_Output = false →
   plainText (toString (o_type obj))) ∧
  plainOpt (o_machineId obj) ∧
  match o_modules obj with val l => Forall plainModule l | _ => True end ∧
  match o_beacons obj with val l => Forall plainBeacon l | _ => True end ∧
  match o_overclock obj with val c => plainText (toString c) | _ => True end ∧
  plainOpt (o_fuelId obj).

(** *** Errors in the try block of [updateState] *)

Section UpdateStateErrors.
Context `{ZipConstants} `{IdCompaction} `{JsValues} `{RouterEnv}.
Variables ItemsState RecipesState MachinesState SettingsState : Type.
Variable stepModules : ParamMap → option ModHash → Res (list ModuleSettings).
Variable stepBeacons :
  ParamMap → list ModuleSettings → option ModHash → Res (list BeaconSettings).
Variable stepObjectives :
  ParamMap → list ModuleSettings → list BeaconSettings → option ModHash →
  Res (Nullable ObjectivesState).
Variable stepItems : ParamMap → option ModHash → Res (Nullable ItemsState).
Variable stepRecipes :
  ParamMap → list ModuleSettings → list BeaconSettings → option ModHash →
  Res (Nullable RecipesState).
Variable stepMachines :
  ParamMap → list ModuleSettings → list BeaconSettings → option ModHash →
  Res (Nullable MachinesState).
Variable stepSettings :
  string → ParamMap → list BeaconSettings → list string → ModHash →
  option ModHash → Res (Nullable SettingsState).

(** The query that the try block goes on with, once the decompression has
    returned: the inflated zip section read as parameters, to be decoded
    with the dictionaries, or the parameters as they are. *)
Inductive decodedQuery (params : ParamMap) : ParamMap → bool → Prop :=
| QueryInflated (zipSection zip : string) :
    get params QueryField.Zip = val zipSection →
    inflate zipSection = Ok zip →
    decodedQuery params (parseQuery zip) false
| QueryBare :
    isNullish (get params QueryField.Zip) = true →
    decodedQuery params params true.

(** [firstValueFrom(this.dataSvc.requestData(modId ||
    Settings.initialState.modId))] and [isBare ? undefined : hash]. *)
Definition dataOf (modId : string) : Res ModHash :=
  requestData (if Nat.eqb (String.length modId) 0 then initial_modId else modId).

Definition hashFor (isBare : bool) (hash : ModHash) : option ModHash :=
  if isBare then None else Some hash.

(** An error [e] occurs in the try block before the dispatch: one of its
    steps throws or rejects with [e], the steps before it having returned.
    The steps are the decompression, the request of the dataset, and the
    seven parsing steps in the order of the calls. *)
Inductive stepError (modId : string) (params : ParamMap) (e : string) : Prop :=
| InflateError (zipSection : string) :
    get params QueryField.Zip = val zipSection →
    inflate zipSection = Throw e →
    stepError modId params e
| DataError (query : ParamMap) (isBare : bool) :
    decodedQuery params query isBare →
    dataOf modId = Throw e →
    stepError modId params e
| ModulesError (query : ParamMap) (isBare : bool) (hash : ModHash) :
    decodedQuery params query isBare →
    dataOf modId = Ok hash →
    stepModules query (hashFor isBare hash) = Throw e →
    stepError modId params e
| BeaconsError (query : ParamMap) (isBare : bool) (hash : ModHash)
    (ms : list ModuleSettings) :
    decodedQuery params query isBare →
    dataOf modId = Ok hash →
    stepModules query (hashFor isBare hash) = Ok ms →
    stepBeacons query ms (hashFor isBare hash) = Throw e →
    stepError modId params e
| ObjectivesError (query : ParamMap) (isBare : bool) (hash : ModHash)
    (ms : list ModuleSettings) (bs : list BeaconSettings) :
    decodedQuery params query isBare →
    dataOf modId = Ok hash →
    stepModules query (hashFor isBare hash) = Ok ms →
    stepBeacons query ms (hashFor isBare hash) = Ok bs →
    stepObjectives query ms bs (hashFor isBare hash) = Throw e →
    stepError modId params e
| ItemsError (query : ParamMap) (isBare : bool) (hash : ModHash)
    (ms : list ModuleSettings) (bs : list BeaconSettings)
    (os : Nullable ObjectivesState) :
    decodedQuery params query isBare →
    dataOf modId = Ok hash →
    stepModules query (hashFor isBare hash) = Ok ms →
    stepBeacons query ms (hashFor isBare hash) = Ok bs →
    stepObjectives query ms bs (hashFor isBare hash) = Ok os →
    stepItems query (hashFor isBare hash) = Throw e →
    stepError modId params e
| RecipesError (query : ParamMap) (isBare : bool) (hash : ModHash)
    (ms : list ModuleSettings) (bs : list BeaconSettings)
    (os : Nullable ObjectivesState) (is_ : Nullable ItemsState) :
    decodedQuery params query isBare →
    dataOf modId = Ok hash →
    stepModules query (hashFor isBare hash) = Ok ms →
    stepBeacons query ms (hashFor isBare hash) = Ok bs →
    stepObjectives query ms bs (hashFor isBare hash) = Ok os →
    stepItems query (hashFor isBare hash) = Ok is_ →
    stepRecipes query ms bs (hashFor isBare hash) = Throw e →
    stepError modId params e
| MachinesError (query : ParamMap) (isBare : bool) (hash : ModHash)
    (ms : list ModuleSettings) (bs : list BeaconSettings)
    (os : Nullable ObjectivesState) (is_ : Nullable ItemsState)
    (rs : Nullable RecipesState) :
    decodedQuery params query isBare →
    dataOf modId = Ok hash →
    stepModules query (hashFor isBare hash) = Ok ms →
    stepBeacons query ms (hashFor isBare hash) = Ok bs →
    stepObjectives query ms bs (hashFor isBare hash) = Ok os →
    stepItems query (hashFor isBare hash) = Ok is_ →
    stepRecipes query ms bs (hashFor isBare hash) = Ok rs →
    stepMachines query ms bs (hashFor isBare hash) = Throw e →
    stepError modId params e
| SettingsError (query : ParamMap) (isBare : bool) (hash : ModHash)
    (ms : list ModuleSettings) (bs : list BeaconSettings)
    (os : Nullable ObjectivesState) (is_ : Nullable ItemsState)
    (rs : Nullable RecipesState) (mcs : Nullable MachinesState) :
    decodedQuery params query isBare →
    dataOf modId = Ok hash →
    stepModules query (hashFor isBare hash) = Ok ms →
    stepBeacons query ms (hashFor isBare hash) = Ok bs →
    stepObjectives query ms bs (hashFor isBare hash) = Ok os →
    stepItems query (hashFor isBare hash) = Ok is_ →
    stepRecipes query ms bs (hashFor isBare hash) = Ok rs →
    stepMachines query ms bs (hashFor isBare hash) = Ok mcs →
    stepSettings modId query bs (match os with val o => ids o | _ => [] end)
      hash (hashFor isBare hash) = Throw e →
    stepError modId params e.

End UpdateStateErrors.

(** ** A sample environment

    Concrete constants, a concrete Id Compaction and simple stand-ins for
    the platform, on which the statements below are exercised. *)

Module Sample.

Definition consts : ZipConstants :=
  {| ZNULL := "?"; ZEMPTY := "="; ZTRUE := "1"; ZFALSE := "0";
     ZFIELDSEP := "*"; ZARRAYSEP := "~"; MIN_ZIP := 75 |}.

(** Modelled from the spec: an Id Compaction that meets the contract of the
    spec, positional in base 64 over an alphabet free of separators and
    sentinels; the -1 of a failed [indexOf] has no digit. *)
Definition ZBASE64ABC : string :=
  "ABCDEFGHIJKLMNOPQRSTUVWXYZabcdefghijklmnopqrstuvwxyz0123456789-.".

Definition alphabet : list ascii := list_ascii_of_string ZBASE64ABC.

Definition digitChar (d : Z) : ascii := nth (Z.to_nat d) alphabet "A"%char.

Fixpoint charIndex (l : list ascii) (c : ascii) : Z :=
  match l with
  | [] => 0%Z
  | x :: l' => if Ascii.eqb x c then 0%Z else (1 + charIndex l' c)%Z
  end.

Fixpoint nToId_fuel (fuel : nat) (n : Z) : string :=
  match fuel with
  | O => sepStr (digitChar n)
  | S fuel' =>
      if (n <? 64)%Z then sepStr (digitChar n)
      else nToId_fuel fuel' (n / 64)%Z +:+ sepStr (digitChar (n mod 64)%Z)
  end.

Definition nToId64 (n : Z) : string :=
  if (n <? 0)%Z then EmptyString else nToId_fuel (Z.to_nat n) n.

Fixpoint idToN_acc (acc : Z) (s : string) : Z :=
  match s with
  | EmptyString => acc
  | String c s' => idToN_acc (acc * 64 + charIndex alphabet c)%Z s'
  end.

Definition idToN64 (s : string) : Z := idToN_acc 0%Z s.

Definition codec : IdCompaction := {| nToId := nToId64; idToN := idToN64 |}.

(** Integers for numbers and pairs of integers for rationals. *)
Definition parseZ (s : string) : Z :=
  match NilZero.int_of_string s with
  | Some i => Z.of_int i
  | None => 0%Z
  end.

Definition printZ (z : Z) : string := NilZero.string_of_int (Z.to_int z).

Definition parseFraction (s : string) : Z * Z :=
  match split "/" s with
  | [n] => (parseZ n, 1%Z)
  | n :: d :: _ => (parseZ n, parseZ d)
  | [] => (0%Z, 1%Z)
  end.

Definition eqFraction (p q : Z * Z) : bool :=
  (fst p * snd q =? fst q * snd p)%Z.

Definition printFraction (p : Z * Z) : string :=
  if (snd p =? 1)%Z then printZ (fst p)
  else printZ (fst p) +:+ "/" +:+ printZ (snd p).

Definition values : JsValues :=
  {| number := Z;
     number_seq := Z.eqb;
     number_toString := printZ;
     Number := parseZ;
     number_of_Z := fun z => z;
     number_index := fun z => if (z <? 0)%Z then None else Some (Z.to_nat z);
     Rational := Z * Z;
     rational := parseFraction;
     rational_one := (1%Z, 1%Z);
     rational_eq := eqFraction;
     rational_toString := printFraction;
     ObjectiveUnit_Items := 0%Z;
     ObjectiveType_Output := 0%Z |}.

(** Query keys, and a query string written without escapes: for values of
    unreserved characters this is [decodeURIComponent(params.toString())]. *)
Definition keyName (k : QueryField.t) : string :=
  match k with
  | QueryField.Objective => "o"
  | QueryField.Item => "i"
  | QueryField.Recipe => "r"
  | QueryField.Machine => "m"
  | QueryField.Module_ => "e"
  | QueryField.Beacon => "b"
  | QueryField.Zip => "z"
  | QueryField.Version => "v"
  end.

Definition keyOf (s : string) : option QueryField.t :=
  if String.eqb s "o" then Some QueryField.Objective
  else if String.eqb s "i" then Some QueryField.Item
  else if String.eqb s "r" then Some QueryField.Recipe
  else if String.eqb s "m" then Some QueryField.Machine
  else if String.eqb s "e" then Some QueryField.Module_
  else if String.eqb s "b" then Some QueryField.Beacon
  else if String.eqb s "z" then Some QueryField.Zip
  else if String.eqb s "v" then Some QueryField.Version
  else None.

Definition printQuery (params : URLSearchParams) : string :=
  join "&" (map (fun kv => keyName (fst kv) +:+ "=" +:+ snd kv) params).

Definition readQuery (s : string) : ParamMap :=
  omap (fun kv =>
          match split "=" kv with
          | k :: v :: _ => (fun k' => (k', v)) <$> keyOf k
          | _ => None
          end)
       (split "&" s).

Definition hashes : ModHash :=
  {| items := ["iron-plate"; "copper-plate"; "coal"];
     recipes := ["iron-plate"; "copper-plate"];
     machines := ["stone-furnace"; "steel-furnace"];
     fuels := ["coal"; "wood"];
     modules := ["speed-module"];
     beacons := ["beacon"];
     belts := ["transport-belt"];
     wagons := ["cargo-wagon"];
     technologies := ["automation"] |}.

(** The compressor is a stand-in that stores its input; the inflater
    rejects the empty blob. The object that holds the parameters has an own
    field for them, so that [Object.keys] is never empty; the members of
    [Array.prototype] are those of ES5 and the three iterators. *)
Definition env : RouterEnv :=
  {| usp_toString := printQuery;
     decodeURIComponent := fun s => s;
     deflate := fun s => s;
     inflate := fun s =>
       if Nat.eqb (String.length s) 0 then Throw "invalid blob" else Ok s;
     requestData := fun _ => Ok hashes;
     parseQuery := readQuery;
     objectKeysEmpty := fun _ => false;
     version := "11";
     initial_modId := "1.1";
     arrayPrototype := fun id =>
       snd <$> find (fun e => String.eqb (fst e) id)
                 [ ("constructor", true); ("concat", true); ("join", true);
                   ("pop", false); ("push", true); ("reverse", false);
                   ("shift", false); ("slice", true); ("sort", true);
                   ("splice", true); ("unshift", true); ("indexOf", true);
                   ("lastIndexOf", true); ("every", true); ("some", true);
                   ("forEach", true); ("map", true); ("filter", true);
                   ("reduce", true); ("reduceRight", true); ("keys", false);
                   ("values", false); ("entries", false) ] |}.

(** Objectives with the default value, unit and type: one without any
    further setting, one with a fuel. *)
Definition isRecipe (obj : @Objective values) : bool :=
  ((o_unit obj : Z) =? 3)%Z.

Definition noSettings : @ZipMachineSettings values :=
  {| moduleMap := ∅; beaconMap := ∅; moduleProto := None;
     beaconProto := None |}.

Definition noParams : Zip.t URLSearchParams := {| Zip.bare := []; Zip.hash := [] |}.

Definition emptyData : @ZipData values :=
  {| objectives := noParams; config := noParams;
     objectiveSettings := noSettings; recipeSettings := noSettings;
     machineSettings := noSettings; zbeacons := undefined |}.



(** Two encoding contexts at the version 11. In [tieData] the bare text and
    the text of the compressed container both have 80 characters. In
    [packsData] the bare text has 104 characters and the text of the
    compressed container 27. *)
Definition versionOnly : Zip.t URLSearchParams :=
  {| Zip.bare := [(QueryField.Version, "11")];
     Zip.hash := [(QueryField.Version, "11")] |}.

Definition tieData : @ZipData values :=
  {| objectives :=
       {| Zip.bare :=
            [(QueryField.Objective,
              "iron-ore*1234567890123456789012345678901/12345678901234567890123456789012")];
          Zip.hash :=
            [(QueryField.Objective,
              "B*1234567890123456789012345678901/12345678901234567890123456789012")] |};
     config := versionOnly;
     objectiveSettings := noSettings; recipeSettings := noSettings;
     machineSettings := noSettings; zbeacons := undefined |}.

Definition packsData : @ZipData values :=
  {| objectives :=
       {| Zip.bare :=
            [(QueryField.Objective, "automation-science-pack");
             (QueryField.Objective, "logistic-science-pack");
             (QueryField.Objective, "chemical-science-pack");
             (QueryField.Objective, "production-science-pack")];
          Zip.hash :=
            [(QueryField.Objective, "A"); (QueryField.Objective, "B");
             (QueryField.Objective, "C"); (QueryField.Objective, "D")] |};
     config := versionOnly;
     objectiveSettings := noSettings; recipeSettings := noSettings;
     machineSettings := noSettings; zbeacons := undefined |}.

Definition plainData : @ZipData values :=
  {| objectives :=
       {| Zip.bare := [(QueryField.Objective, "iron-plate")];
          Zip.hash := [(QueryField.Objective, "A")] |};
     config := versionOnly;
     objectiveSettings := noSettings; recipeSettings := noSettings;
     machineSettings := noSettings; zbeacons := undefined |}.

(** Parsing steps for [updateState]: the objectives are read by
    [unzipObjectives]; the other steps find nothing. *)
Definition stepModules : ParamMap → option ModHash →
    Res (list (@ModuleSettings values)) :=
  fun _ _ => Ok [].

Definition stepBeacons : ParamMap → list (@ModuleSettings values) →
    option ModHash → Res (list (@BeaconSettings values)) :=
  fun _ _ _ => Ok [].

Definition stepObjectives : ParamMap → list (@ModuleSettings values) →
    list (@BeaconSettings values) → option ModHash →
    Res (Nullable (@ObjectivesState values)) :=
  fun params ms bs hash =>
    Ok (@unzipObjectives consts codec values isRecipe params ms bs hash).

Definition stepItems : ParamMap → option ModHash → Res (Nullable unit) :=
  fun _ _ => Ok undefined.

Definition stepRecipes : ParamMap → list (@ModuleSettings values) →
    list (@BeaconSettings values) → option ModHash → Res (Nullable unit) :=
  fun _ _ _ _ => Ok undefined.

Definition stepSettings : string → ParamMap → list (@BeaconSettings values) →
    list string → ModHash → option ModHash → Res (Nullable unit) :=
  fun _ _ _ _ _ _ => Ok undefined.

(** [updateState] over these steps. *)
Definition update (modId : Nullable string) (params : ParamMap)
    : @Task values unit unit unit unit unit :=
  @updateState values env unit unit unit unit stepModules stepBeacons
    stepObjectives stepItems stepRecipes stepRecipes stepSettings modId params.

(** An item state: a belt for the plates, a wagon for the coal. *)
Definition itemsState : list (string * ItemSettings) :=
  [ ("iron-plate",
     {| i_beltId := val "transport-belt"; i_wagonId := undefined |});
    ("coal", {| i_beltId := undefined; i_wagonId := val "cargo-wagon" |}) ].

(** Modules and beacons: the first and the third module are the same. *)
Definition moduleList : list (@ModuleSettings values) :=
  [ {| m_count := val ((2%Z, 1%Z) : @Rational values);
       m_id := val "speed-module" |};
    {| m_count := undefined; m_id := val "speed-module" |};
    {| m_count := val ((2%Z, 1%Z) : @Rational values);
       m_id := val "speed-module" |} ].

Definition beaconList : list (@BeaconSettings values) :=
  [ {| b_count := val ((8%Z, 1%Z) : @Rational values);
       b_modules := val moduleList; b_id := val "beacon";
       b_total := undefined |};
    {| b_count := undefined; b_modules := undefined; b_id := val "beacon";
       b_total := undefined |} ].

(** One objective that owns the modules and the beacons. *)
Definition owners : list (string * @MachineFields values) :=
  [ ("1", {| f_modules := val moduleList; f_beacons := val beaconList |}) ].

(** Two machines: a furnace with modules, beacons and a fuel, and a furnace
    with an overclock. *)
Definition machinesState : list (string * @MachineSettings values) :=
  [ ("stone-furnace",
     {| ms_modules := val moduleList; ms_beacons := val beaconList;
        ms_fuelId := val "coal"; ms_overclock := undefined |});
    ("steel-furnace",
     {| ms_modules := undefined; ms_beacons := undefined;
        ms_fuelId := undefined;
        ms_overclock := val ((3%Z, 2%Z) : @Rational values) |}) ].

(** A recipe with a machine and nothing else, under a chosen id. *)
Definition machineOnly : @RecipeSettings values :=
  {| rs_machineId := val "steel-furnace"; rs_modules := undefined;
     rs_beacons := undefined; rs_overclock := undefined;
     rs_cost := undefined; rs_fuelId := undefined |}.

Definition recipeNamed (id : string)
    : list (string * @RecipeSettings values) :=
  [(id, machineOnly)].

(** An owner with modules whose id is the accessor of the prototype. *)
Definition protoOwner : list (string * @MachineFields values) :=
  [ ("__proto__", {| f_modules := val moduleList; f_beacons := undefined |}) ].

(** A recipe with a machine, modules and a cost. *)
Definition recipesState : list (string * @RecipeSettings values) :=
  [ ("iron-plate",
     {| rs_machineId := val "steel-furnace"; rs_modules := val moduleList;
        rs_beacons := undefined; rs_overclock := undefined;
        rs_cost := val ((5%Z, 1%Z) : @Rational values);
        rs_fuelId := val "wood" |}) ].

(** Two objectives: plates with modules, and coal counted in another
    unit. *)
Definition objectiveList : list (@Objective values) :=
  [ {| o_id := "7"; o_targetId := "iron-plate";
       o_value := ((1%Z, 1%Z) : @Rational values);
       o_unit := (0%Z : @number values); o_type := (0%Z : @number values);
       o_machineId := val "stone-furnace"; o_modules := val moduleList;
       o_beacons := val beaconList; o_overclock := undefined;
       o_fuelId := val "coal" |};
    {| o_id := "9"; o_targetId := "coal";
       o_value := ((5%Z, 2%Z) : @Rational values);
       o_unit := (2%Z : @number values); o_type := (0%Z : @number values);
       o_machineId := undefined; o_modules := undefined;
       o_beacons := undefined; o_overclock := undefined;
       o_fuelId := undefined |} ].

End Sample.

(** * Properties *)

(** ** Strings: [split], [join] and [stripStars] *)

#[local] Arguments String.append !_ _ / : simpl nomatch.

Lemma eqb_ascii_false (c d : ascii) : c ≠ d → Ascii.eqb c d = false.
Proof. intros Hne. apply Ascii.eqb_neq. exact Hne. Qed.

Lemma string_eqb_false (s t : string) : s ≠ t → String.eqb s t = false.
Proof. intros Hne. apply String.eqb_neq. exact Hne. Qed.

Lemma length_zero_empty (s : string) :
  Nat.eqb (String.length s) 0 = true ↔ s = EmptyString.
Proof. destruct s; simpl; split; intros; congruence. Qed.

Lemma length_nonzero (s : string) :
  s ≠ EmptyString → Nat.eqb (String.length s) 0 = false.
Proof. destruct s; simpl; congruence. Qed.

Lemma app_empty_r (s : string) : s +:+ EmptyString = s.
Proof. induction s as [|c s IH]; simpl; [reflexivity | now rewrite IH]. Qed.

Lemma app_assoc_str (a b c : string) : (a +:+ b) +:+ c = a +:+ (b +:+ c).
Proof. induction a as [|x a IH]; simpl; [reflexivity | now rewrite IH]. Qed.

Lemma occurs_app (c : ascii) (a b : string) :
  occurs c (a +:+ b) = occurs c a || occurs c b.
Proof.
  induction a as [|x a IH]; simpl; [reflexivity |].
  rewrite IH. now rewrite orb_assoc.
Qed.

Lemma split_not_nil (c : ascii) (s : string) : split c s ≠ [].
Proof.
  induction s as [|x s IH]; simpl; [discriminate |].
  destruct (Ascii.eqb x c); [discriminate |].
  destruct (split c s); [contradiction | discriminate].
Qed.

Lemma split_no_sep (c : ascii) (s : string) :
  occurs c s = false → split c s = [s].
Proof.
  induction s as [|x s IH]; simpl; [reflexivity |].
  intros Hocc. apply orb_false_iff in Hocc as [Hx Hs].
  rewrite Hx, (IH Hs). reflexivity.
Qed.

Lemma split_app_sep (c : ascii) (a b : string) :
  occurs c a = false →
  split c (a +:+ String c b) = a :: split c b.
Proof.
  induction a as [|x a IH]; simpl.
  - intros _. now rewrite Ascii.eqb_refl.
  - intros Hocc. apply orb_false_iff in Hocc as [Hx Ha].
    rewrite Hx, (IH Ha). reflexivity.
Qed.

Lemma split_join (c : ascii) (l : list string) :
  l ≠ [] → Forall (λ x, occurs c x = false) l →
  split c (join (sepStr c) l) = l.
Proof.
  induction l as [|x l IH]; [congruence |].
  intros _ Hall. apply Forall_cons in Hall as [Hx Hl].
  destruct l as [|y l].
  - simpl. now apply split_no_sep.
  - change (join (sepStr c) (x :: y :: l))
      with (x +:+ String c (join (sepStr c) (y :: l))).
    rewrite (split_app_sep _ _ _ Hx). f_equal. apply IH; [discriminate | exact Hl].
Qed.

(** The pieces of a string only have characters of the string. *)
Lemma split_occurs (c d : ascii) (s x : string) :
  x ∈ split c s → occurs d x = true → occurs d s = true.
Proof.
  revert x. induction s as [|a s IH]; simpl; intros x Hin Hocc.
  - apply list_elem_of_singleton in Hin. subst x. discriminate.
  - destruct (Ascii.eqb a c).
    + apply elem_of_cons in Hin as [-> | Hin]; [discriminate |].
      rewrite (IH _ Hin Hocc). apply orb_true_r.
    + pose proof (split_not_nil c s) as Hnn.
      destruct (split c s) as [|w ws] eqn:Hsp; [contradiction |].
      apply elem_of_cons in Hin as [-> | Hin].
      * simpl in Hocc. apply orb_true_iff in Hocc as [Ha | Hw].
        -- rewrite Ha. reflexivity.
        -- rewrite (IH w); [apply orb_true_r | left | exact Hw].
      * rewrite (IH x); [apply orb_true_r | right; exact Hin | exact Hocc].
Qed.

Lemma stripStars_no_star (t : string) :
  occurs "*" t = false → stripStars t = t.
Proof.
  induction t as [|x t IH]; simpl; [reflexivity |].
  intros Hocc. apply orb_false_iff in Hocc as [Hx Ht].
  rewrite (IH Ht), Hx. destruct t; reflexivity.
Qed.

Lemma stripStars_app_star (t r : string) :
  occurs "*" t = false →
  stripStars (t +:+ String "*" r) =
    match stripStars r with
    | EmptyString => t
    | String _ _ => t +:+ String "*" (stripStars r)
    end.
Proof.
  induction t as [|x t IH]; simpl.
  - intros _. destruct (stripStars r); reflexivity.
  - intros Hocc. apply orb_false_iff in Hocc as [Hx Ht].
    rewrite (IH Ht), Hx.
    destruct (stripStars r) as [|y r'].
    + destruct t; reflexivity.
    + destruct t; reflexivity.
Qed.


(** ** Arrays: [slice] *)

Lemma elem_of_slice {A} (l : list A) (s e : nat) (x : A) :
  x ∈ slice l (Z.of_nat s) (Z.of_nat e + 1) ↔
  ∃ k, s ≤ k ≤ e ∧ l !! k = Some x.
Proof.
  unfold slice, relIndex.
  destruct (Z.ltb_spec (Z.of_nat s) 0) as [Hneg|_]; [lia |].
  destruct (Z.ltb_spec (Z.of_nat e + 1) 0) as [Hneg|_]; [lia |].
  replace (Z.to_nat (Z.of_nat s `min` Z.of_nat (length l)))
    with (s `min` length l) by lia.
  replace (Z.to_nat (_ - _)) with ((S e `min` length l) - (s `min` length l))
    by lia.
  rewrite elem_of_take. split.
  - intros (i & Hi & Hlt). rewrite lookup_drop in Hi.
    exists (s `min` length l + i). split; [| exact Hi].
    apply lookup_lt_Some in Hi. lia.
  - intros (k & Hk & Hx). pose proof (lookup_lt_Some _ _ _ Hx) as Hlen.
    exists (k - s). rewrite lookup_drop.
    replace (s `min` length l + (k - s)) with k by lia.
    split; [exact Hx | lia].
Qed.

Lemma slice_single {A} (l : list A) (s : nat) (x : A) :
  x ∈ slice l (Z.of_nat s) (Z.of_nat s + 1) ↔ l !! s = Some x.
Proof.
  rewrite elem_of_slice. split.
  - intros (k & Hk & Hx). replace s with k by lia. exact Hx.
  - intros Hx. exists s. split; [lia | exact Hx].
Qed.

Lemma elem_of_fold_union (f : string → list string) (l : list string)
    (acc : gset string) (x : string) :
  x ∈ fold_left (λ result range, result ∪ list_to_set (f range)) l acc ↔
  x ∈ acc ∨ ∃ r, r ∈ l ∧ x ∈ f r.
Proof.
  revert acc. induction l as [|r l IH]; intros acc; simpl.
  - split; [auto | intros [Hx | (r & Hr & _)]; [exact Hx | inversion Hr]].
  - rewrite IH, elem_of_union, elem_of_list_to_set. split.
    + intros [[Hx | Hx] | (r' & Hr' & Hx)]; [left; exact Hx | right .. ].
      * exists r. split; [left | exact Hx].
      * exists r'. split; [right; exact Hr' | exact Hx].
    + intros [Hx | (r' & Hr' & Hx)]; [left; left; exact Hx |].
      apply elem_of_cons in Hr' as [-> | Hr'].
      * left; right; exact Hx.
      * right. exists r'. split; assumption.
Qed.

(** ** The subset range codec: [zipDiffSubset] and [parseSubset] *)

Section SubsetCodec.
Context `{ZipConstants} `{IdCompaction}.
Hypothesis sentinels_ok : SentinelsOk.
Hypothesis id_contract : IdContract.

Lemma occurs_nonempty (s : string) :
  s ≠ EmptyString → ∃ c, occurs c s = true.
Proof.
  destruct s as [|c s]; [congruence |]. intros _. exists c. simpl.
  now rewrite Ascii.eqb_refl.
Qed.

Lemma nToId_no_fieldsep (n : nat) : occurs ZFIELDSEP (nToId (Z.of_nat n)) = false.
Proof.
  destruct (occurs ZFIELDSEP (nToId (Z.of_nat n))) eqn:Hocc; [| reflexivity].
  apply (compact_alphabet id_contract) in Hocc; [| lia].
  destruct Hocc as (Hne & _). congruence.
Qed.

Lemma nToId_no_arraysep (n : nat) : occurs ZARRAYSEP (nToId (Z.of_nat n)) = false.
Proof.
  destruct (occurs ZARRAYSEP (nToId (Z.of_nat n))) eqn:Hocc; [| reflexivity].
  apply (compact_alphabet id_contract) in Hocc; [| lia].
  destruct Hocc as (_ & Hne & _). congruence.
Qed.

Lemma render_no_fieldsep (r : Range) : occurs ZFIELDSEP (render r) = false.
Proof.
  destruct r as [s [e|]]; simpl; [| apply nToId_no_fieldsep].
  rewrite occurs_app. simpl.
  rewrite (nToId_no_fieldsep s), (nToId_no_fieldsep e).
  rewrite eqb_ascii_false; [reflexivity |].
  intros Heq. apply (seps_differ sentinels_ok). congruence.
Qed.

(** A token of at least one range shares a character with a compacted id,
    so it is neither empty nor a sentinel. *)
Lemma token_has_id_char (r : Range) (rs : list Range) :
  ∃ c, occurs c (nToId (Z.of_nat (fst r))) = true ∧
       occurs c (join (sepStr ZFIELDSEP) (map render (r :: rs))) = true.
Proof.
  destruct (occurs_nonempty (nToId (Z.of_nat (fst r)))) as [c Hc].
  { apply (compact_nonempty id_contract). lia. }
  exists c. split; [exact Hc |].
  assert (Hr : occurs c (render r) = true).
  { destruct r as [s [e|]]; simpl in *; [| exact Hc].
    rewrite occurs_app, Hc. reflexivity. }
  destruct rs as [|r' rs]; [exact Hr |].
  change (map render (r :: r' :: rs)) with (render r :: map render (r' :: rs)).
  change (join ?sep (?x :: map render (r' :: rs)))
    with (x +:+ sep +:+ join sep (map render (r' :: rs))).
  rewrite occurs_app, Hr. reflexivity.
Qed.

Lemma token_not_sentinel (r : Range) (rs : list Range) :
  let token := join (sepStr ZFIELDSEP) (map render (r :: rs)) in
  token ≠ EmptyString ∧ token ≠ ZNULL ∧ token ≠ ZEMPTY.
Proof.
  intros token. destruct (token_has_id_char r rs) as (c & Hid & Htok).
  fold token in Htok.
  apply (compact_alphabet id_contract) in Hid; [| lia].
  destruct Hid as (_ & _ & Hnull & Hempty).
  repeat split; intros Heq; rewrite Heq in Htok; simpl in Htok; congruence.
Qed.

Lemma rangeSlice_render (ref : list string) (r : Range) (x : string) :
  x ∈ rangeSlice ref (render r) ↔ ∃ k, covers r k ∧ ref !! k = Some x.
Proof.
  unfold rangeSlice. destruct r as [s [e|]]; simpl.
  - rewrite (split_app_sep _ _ _ (nToId_no_arraysep s)).
    rewrite (split_no_sep _ _ (nToId_no_arraysep e)). simpl.
    rewrite !(expand_compact id_contract) by lia.
    apply elem_of_slice.
  - rewrite (split_no_sep _ _ (nToId_no_arraysep s)). simpl.
    rewrite !(expand_compact id_contract) by lia.
    rewrite slice_single. split.
    + intros Hx. exists s. split; [reflexivity | exact Hx].
    + intros (k & -> & Hx). exact Hx.
Qed.

(** Decoding the token of a non-empty list of runs gives the ids at the
    positions that the runs cover. *)
Lemma parseSubset_runs (ref : list string) (rs : list Range) :
  rs ≠ [] →
  ∃ decoded : gset string,
    parseSubset (val (join (sepStr ZFIELDSEP) (map render rs))) ref = val decoded ∧
    ∀ x, x ∈ decoded ↔ ∃ r k, r ∈ rs ∧ covers r k ∧ ref !! k = Some x.
Proof.
  destruct rs as [|r rs]; [congruence |]. intros _.
  destruct (token_not_sentinel r rs) as (Hne & Hnull & Hempty).
  unfold parseSubset.
  rewrite (length_nonzero _ Hne), (string_eqb_false _ _ Hnull),
    (string_eqb_false _ _ Hempty).
  eexists. split; [reflexivity |]. intros x.
  rewrite split_join.
  - rewrite elem_of_fold_union. split.
    + intros [Hx | (t & Ht & Hx)]; [set_solver |].
      apply list_elem_of_fmap in Ht as (r' & -> & Hr').
      apply rangeSlice_render in Hx as (k & Hk & Hx). eauto.
    + intros (r' & k & Hr' & Hk & Hx). right. exists (render r'). split.
      * apply list_elem_of_fmap. eauto.
      * apply rangeSlice_render. eauto.
  - discriminate.
  - apply Forall_forall. intros t Ht.
    apply list_elem_of_fmap in Ht as (r' & -> & _). apply render_no_fieldsep.
Qed.

(** The scan of the source is the scan over positions, rendered. *)
Lemma scanStep_runs (allSet value : gset string) (a : Runs) (h : string) (i : nat) :
  scanStep allSet value (scanOf a) h i = scanOf (runStep allSet value a h i).
Proof.
  unfold scanStep, runStep.
  destruct (negb (bool_decide (h ∈ allSet))); [reflexivity |].
  destruct a as [done [[s [e|]]|]]; destruct (bool_decide (h ∈ value));
    unfold scanOf, pushRun; simpl; try reflexivity;
    rewrite map_app; reflexivity.
Qed.

Lemma forEach_runs (allSet value : gset string) (hash : list string) :
  ∀ (i : nat) (a : Runs),
    forEach_from allSet value hash i (scanOf a) =
    scanOf (runs_from allSet value hash i a).
Proof.
  induction hash as [|h hash IH]; intros i a; simpl; [reflexivity |].
  rewrite scanStep_runs. apply IH.
Qed.

Lemma zipDiffSubset_runs (value : gset string) (init : Nullable (gset string))
    (all ref : list string) :
  value ≠ ∅ →
  zipDiffSubset (val value) init all (Some ref) =
  join (sepStr ZFIELDSEP) (map render (subsetRuns value all ref)).
Proof.
  intros Hne. unfold zipDiffSubset, subsetRuns. simpl.
  destruct (Nat.eqb_spec (size value) 0) as [Hsz|_].
  { apply size_empty_iff in Hsz. apply leibniz_equiv in Hsz. congruence. }
  change {| result := []; start := None; end_ := None |}
    with (scanOf ([], None)).
  rewrite forEach_runs.
  destruct (runs_from _ _ _ _ _) as [done [[s [e|]]|]];
    unfold flushed, scanOf, pushRun; simpl;
    rewrite ?map_app, ?app_nil_r; reflexivity.
Qed.

End SubsetCodec.

(** ** The runs of the scan *)

Lemma elem_of_flushed_open (done : list Range) (r r' : Range) :
  r' ∈ flushed (done, Some r) ↔ r' ∈ done ∨ r' = r.
Proof.
  unfold flushed. simpl. rewrite elem_of_app, list_elem_of_singleton. tauto.
Qed.

Lemma elem_of_flushed_closed (done : list Range) (r' : Range) :
  r' ∈ flushed (done, None) ↔ r' ∈ done.
Proof. unfold flushed. simpl. now rewrite app_nil_r. Qed.

Ltac in_flushed :=
  first [rewrite elem_of_flushed_open | rewrite elem_of_flushed_closed];
  first [assumption | left; assumption | right; reflexivity | tauto].

Lemma runStep_exact (ref : list string) (allSet value : gset string)
    (i : nat) (a : Runs) (h : string) :
  ref !! i = Some h → h ∈ allSet →
  runsExact ref value i a → runsExact ref value (S i) (runStep allSet value a h i).
Proof.
  intros Hi Hall [Hcov Hopen]. unfold runStep.
  rewrite (bool_decide_eq_true_2 _ Hall). simpl.
  destruct a as [done cur]. simpl in *.
  destruct (bool_decide_reflect (h ∈ value)) as [Hv | Hv].
  - (* the id is selected: the run opens or grows *)
    assert (Hnew : ∀ k, k < S i ∧ (∃ h', ref !! k = Some h' ∧ h' ∈ value) ↔
                        (k < i ∧ ∃ h', ref !! k = Some h' ∧ h' ∈ value) ∨ k = i).
    { intros k. split.
      - intros [Hk Hh]. destruct (decide (k = i)); [right; assumption |].
        left. split; [lia | exact Hh].
      - intros [[Hk Hh] | ->]; [split; [lia | exact Hh] |].
        split; [lia | eauto]. }
    destruct cur as [[s eo]|]; simpl.
    + split.
      * intros k. rewrite Hnew, <- Hcov. split.
        -- intros (r & Hr & Hk). rewrite elem_of_flushed_open in Hr; destruct Hr as [Hr | ->].
           ++ left. exists r. split; [in_flushed | exact Hk].
           ++ simpl in Hk. destruct (decide (k = i)); [right; assumption |].
              left. exists (s, eo). split; [in_flushed |].
              destruct eo as [e|]; simpl; lia.
        -- intros [(r & Hr & Hk) | ->].
           ++ rewrite elem_of_flushed_open in Hr; destruct Hr as [Hr | ->].
              ** exists r. split; [in_flushed | exact Hk].
              ** exists (s, Some i). split; [in_flushed |].
                 destruct eo as [e|]; simpl in *; lia.
           ++ exists (s, Some i). split; [in_flushed |].
              destruct eo as [e|]; simpl in *; lia.
      * destruct eo as [e|]; simpl in *; lia.
    + split; [| reflexivity].
      intros k. rewrite Hnew, <- Hcov. split.
      * intros (r & Hr & Hk). rewrite elem_of_flushed_open in Hr; destruct Hr as [Hr | ->].
        -- left. exists r. split; [in_flushed | exact Hk].
        -- right. exact Hk.
      * intros [(r & Hr & Hk) | ->].
        -- rewrite elem_of_flushed_closed in Hr.
           exists r. split; [in_flushed | exact Hk].
        -- exists (i, None). split; [in_flushed | reflexivity].
  - (* the id is not selected: an open run is closed *)
    assert (Hsame : ∀ k, k < S i ∧ (∃ h', ref !! k = Some h' ∧ h' ∈ value) ↔
                         k < i ∧ ∃ h', ref !! k = Some h' ∧ h' ∈ value).
    { intros k. split.
      - intros [Hk (h' & Hh' & Hv')]. split; [| eauto].
        destruct (decide (k = i)) as [-> |]; [| lia].
        rewrite Hi in Hh'. congruence.
      - intros [Hk Hh]. split; [lia | exact Hh]. }
    destruct cur as [r|]; simpl.
    + split; [| exact I]. intros k. rewrite Hsame, <- Hcov.
      split; intros (r' & Hr' & Hk); exists r'; (split; [| exact Hk]).
      * rewrite elem_of_flushed_closed in Hr'. apply elem_of_flushed_open.
        apply elem_of_app in Hr' as [Hr' | Hr']; [auto |].
        apply list_elem_of_singleton in Hr'. auto.
      * rewrite elem_of_flushed_open in Hr'. apply elem_of_flushed_closed.
        apply elem_of_app. rewrite list_elem_of_singleton. exact Hr'.
    + split; [| exact I]. intros k. rewrite Hsame. apply Hcov.
Qed.

Lemma runs_from_exact (ref : list string) (allSet value : gset string) :
  ∀ (suf pre : list string) (a : Runs),
    ref = pre ++ suf → (∀ h, h ∈ suf → h ∈ allSet) →
    runsExact ref value (length pre) a →
    runsExact ref value (length ref)
      (runs_from allSet value suf (length pre) a).
Proof.
  induction suf as [|h suf IH]; intros pre a Href Hall Hinv; simpl.
  - rewrite app_nil_r in Href. subst pre. exact Hinv.
  - replace (S (length pre)) with (length (pre ++ [h]))
      by (rewrite length_app; simpl; lia).
    apply IH.
    + rewrite Href, <- app_assoc. reflexivity.
    + intros h' Hh'. apply Hall. right. exact Hh'.
    + rewrite length_app. simpl. replace (length pre + 1) with (S (length pre)) by lia.
      apply runStep_exact; [| apply Hall; left | exact Hinv].
      rewrite Href. rewrite lookup_app_r by lia.
      now replace (length pre - length pre) with 0 by lia.
Qed.

Lemma subsetRuns_exact (value : gset string) (all ref : list string) :
  (∀ h, h ∈ ref → h ∈ all) →
  ∀ k, (∃ r, r ∈ subsetRuns value all ref ∧ covers r k) ↔
       ∃ h, ref !! k = Some h ∧ h ∈ value.
Proof.
  intros Hsub k. unfold subsetRuns.
  destruct (runs_from_exact ref (list_to_set all) value ref [] ([], None))
    as [Hcov _].
  - reflexivity.
  - intros h Hh. apply elem_of_list_to_set. auto.
  - split; [| exact I]. intros k'. split.
    + intros (r & Hr & _). rewrite elem_of_flushed_closed in Hr. inversion Hr.
    + simpl. intros [Hk _]. lia.
  - rewrite Hcov. split; [intros [_ Hh]; exact Hh |].
    intros (h & Hh & Hv). split; [| eauto]. now apply lookup_lt_Some in Hh.
Qed.

(** The scan depends on the selection only through the ids of the list. *)
Lemma runs_from_ext (allSet v1 v2 : gset string) (hash : list string) :
  (∀ h, h ∈ hash → (h ∈ v1 ↔ h ∈ v2)) →
  ∀ (i : nat) (a : Runs),
    runs_from allSet v1 hash i a = runs_from allSet v2 hash i a.
Proof.
  induction hash as [|h hash IH]; intros Hext i a; simpl; [reflexivity |].
  assert (Hstep : runStep allSet v1 a h i = runStep allSet v2 a h i).
  { unfold runStep. rewrite (bool_decide_ext (h ∈ v1) (h ∈ v2)); [reflexivity |].
    apply Hext. left. }
  rewrite Hstep. apply IH. intros h' Hh'. apply Hext. right. exact Hh'.
Qed.

(** ** The sample environment meets the contracts *)

Module SampleFacts.

Lemma sentinels_ok : @SentinelsOk Sample.consts.
Proof. split; simpl; discriminate. Qed.

Lemma digit_index (n : nat) :
  n < 64 →
  Sample.charIndex Sample.alphabet (Sample.digitChar (Z.of_nat n)) = Z.of_nat n.
Proof.
  intros Hlt.
  do 64 (destruct n as [|n]; [vm_compute; reflexivity |]). lia.
Qed.

Lemma digit_index_Z (d : Z) :
  (0 ≤ d < 64)%Z → Sample.charIndex Sample.alphabet (Sample.digitChar d) = d.
Proof.
  intros Hd. rewrite <- (Z2Nat.id d) at 1 2 by lia.
  rewrite digit_index; lia.
Qed.

Lemma idToN_acc_app (a b : string) :
  ∀ acc, Sample.idToN_acc acc (a +:+ b) =
         Sample.idToN_acc (Sample.idToN_acc acc a) b.
Proof. induction a as [|c a IH]; intros acc; simpl; [reflexivity | apply IH]. Qed.

Lemma idToN_acc_digit (acc d : Z) :
  (0 ≤ d < 64)%Z →
  Sample.idToN_acc acc (sepStr (Sample.digitChar d)) = (acc * 64 + d)%Z.
Proof.
  intros Hd. unfold sepStr. cbn [Sample.idToN_acc].
  now rewrite digit_index_Z.
Qed.

Lemma idToN_nToId_fuel (fuel : nat) :
  ∀ n : Z, (0 ≤ n)%Z → (n ≤ Z.of_nat fuel)%Z →
    Sample.idToN_acc 0 (Sample.nToId_fuel fuel n) = n.
Proof.
  induction fuel as [|fuel IH]; intros n Hn Hfuel; cbn [Sample.nToId_fuel].
  - rewrite idToN_acc_digit; lia.
  - destruct (Z.ltb_spec n 64) as [Hsmall | Hbig].
    + rewrite idToN_acc_digit; lia.
    + rewrite idToN_acc_app, IH.
      * rewrite idToN_acc_digit by (apply Z.mod_pos_bound; lia).
        pose proof (Z.div_mod n 64). lia.
      * apply Z.div_pos; lia.
      * assert (n / 64 < n)%Z by (apply Z.div_lt; lia). lia.
Qed.

Lemma nToId_fuel_nonempty (fuel : nat) (n : Z) :
  Sample.nToId_fuel fuel n ≠ EmptyString.
Proof.
  destruct fuel as [|fuel]; simpl; [discriminate |].
  destruct (n <? 64)%Z; [discriminate |].
  destruct (Sample.nToId_fuel fuel (n / 64)); discriminate.
Qed.

Lemma digitChar_in_alphabet (d : Z) : In (Sample.digitChar d) Sample.alphabet.
Proof.
  unfold Sample.digitChar.
  destruct (Nat.lt_ge_cases (Z.to_nat d) (length Sample.alphabet)) as [Hlt | Hge].
  - apply nth_In. exact Hlt.
  - rewrite nth_overflow by exact Hge. vm_compute. left. reflexivity.
Qed.

Lemma nToId_fuel_alphabet (c : ascii) (fuel : nat) :
  ∀ n : Z, occurs c (Sample.nToId_fuel fuel n) = true → In c Sample.alphabet.
Proof.
  assert (Hdigit : ∀ d, occurs c (sepStr (Sample.digitChar d)) = true →
                        In c Sample.alphabet).
  { intros d. simpl. rewrite orb_false_r. intros Heq.
    apply Ascii.eqb_eq in Heq. subst c. apply digitChar_in_alphabet. }
  induction fuel as [|fuel IH]; intros n; simpl; [apply Hdigit |].
  destruct (n <? 64)%Z; [apply Hdigit |].
  rewrite occurs_app. intros Hocc. apply orb_true_iff in Hocc as [Hocc | Hocc].
  - exact (IH _ Hocc).
  - exact (Hdigit _ Hocc).
Qed.

Lemma alphabet_reserved (c : ascii) :
  In c Sample.alphabet →
  c ≠ "*"%char ∧ c ≠ "~"%char ∧ occurs c "?" = false ∧ occurs c "=" = false.
Proof.
  intros Hin.
  assert (Hall : forallb
            (λ c, negb (Ascii.eqb c "*") && negb (Ascii.eqb c "~") &&
                  negb (occurs c "?") && negb (occurs c "="))
            Sample.alphabet = true) by (vm_compute; reflexivity).
  rewrite forallb_forall in Hall. specialize (Hall c Hin).
  repeat (apply andb_true_iff in Hall as [Hall ?]).
  repeat split.
  - intros ->. discriminate.
  - intros ->. discriminate.
  - now apply negb_true_iff.
  - now apply negb_true_iff.
Qed.

Lemma id_contract : @IdContract Sample.consts Sample.codec.
Proof.
  split; simpl; unfold Sample.nToId64, Sample.idToN64; intros n.
  - intros Hn. destruct (Z.ltb_spec n 0); [lia |].
    apply idToN_nToId_fuel; lia.
  - intros Hn. destruct (Z.ltb_spec n 0); [lia |]. apply nToId_fuel_nonempty.
  - intros c Hn. destruct (Z.ltb_spec n 0); [lia |]. intros Hocc.
    apply alphabet_reserved. eapply nToId_fuel_alphabet. exact Hocc.
Qed.

End SampleFacts.

Section SubsetRoundTrip.
Context `{ZipConstants} `{IdCompaction}.
Hypothesis sentinels_ok : SentinelsOk.
Hypothesis id_contract : IdContract.

Lemma subsetRuns_nonempty (value : gset string) (all ref : list string) (h : string) :
  (∀ h, h ∈ ref → h ∈ all) → h ∈ ref → h ∈ value →
  subsetRuns value all ref ≠ [].
Proof.
  intros Hsub Href Hval Hnil.
  apply list_elem_of_lookup in Href as [k Hk].
  destruct (proj2 (subsetRuns_exact value all ref Hsub k)) as (r & Hr & _);
    [eauto |].
  rewrite Hnil in Hr. inversion Hr.
Qed.

(** A selection without any id of the list leaves the scan without runs;
    the token is then the empty string, which reads back as [undefined]. *)
Lemma runs_from_none (allSet value : gset string) (hash : list string) :
  (∀ h, h ∈ hash → h ∉ value) →
  ∀ (i : nat) (done : list Range),
    runs_from allSet value hash i (done, None) = (done, None).
Proof.
  induction hash as [|h hash IH]; intros Hnone i done; simpl; [reflexivity |].
  unfold runStep.
  rewrite (bool_decide_eq_false_2 (h ∈ value)) by (apply Hnone; left).
  simpl. destruct (negb (bool_decide (h ∈ allSet)));
    apply IH; intros h' Hh'; apply Hnone; right; exact Hh'.
Qed.

Lemma zipDiffSubset_none (value : gset string) (init : Nullable (gset string))
    (all ref : list string) :
  value ≠ ∅ → (∀ h, h ∈ ref → h ∉ value) →
  zipDiffSubset (val value) init all (Some ref) = EmptyString ∧
  parseSubset (val (zipDiffSubset (val value) init all (Some ref))) ref = undefined.
Proof.
  intros Hne Hnone.
  rewrite zipDiffSubset_runs by exact Hne.
  unfold subsetRuns. rewrite runs_from_none by exact Hnone.
  split; reflexivity.
Qed.

(** C1 (as amended). Let the reference list [ref] hold only members of
    [all]. If the selection is empty while the baseline is not the empty
    set, or if the selection has an id of [ref], then [parseSubset] reads the
    token of [zipDiffSubset] back as the selection restricted to the ids of
    [ref], and encoding that set again with the same baseline gives the same
    token. *)
Theorem subset_round_trip (value : gset string) (init : Nullable (gset string))
    (all ref : list string) :
  (∀ h, h ∈ ref → h ∈ all) →
  (value = ∅ ∧ init ≠ val ∅) ∨ (∃ h, h ∈ ref ∧ h ∈ value) →
  parseSubset (val (zipDiffSubset (val value) init all (Some ref))) ref =
    val (value ∩ list_to_set ref) ∧
  zipDiffSubset (val (value ∩ list_to_set ref)) init all (Some ref) =
    zipDiffSubset (val value) init all (Some ref).
Proof.
  intros Hsub [[-> Hinit] | (h & Href & Hval)].
  - (* the empty selection is the empty sentinel *)
    rewrite intersection_empty_l_L.
    split; [| reflexivity].
    assert (Htok : zipDiffSubset (val ∅) init all (Some ref) = ZEMPTY).
    { unfold zipDiffSubset. rewrite size_empty. simpl.
      destruct init as [| |init']; try reflexivity.
      destruct (Nat.eqb_spec (size init') 0) as [Hsz|]; [| reflexivity].
      apply size_empty_iff, leibniz_equiv in Hsz. congruence. }
    rewrite Htok. unfold parseSubset.
    rewrite (length_nonzero _ (zempty_nonempty sentinels_ok)).
    rewrite (string_eqb_false _ _ (zempty_not_znull sentinels_ok)).
    now rewrite String.eqb_refl.
  - (* a selection with an id of the list is a list of runs *)
    assert (Hne : value ≠ ∅) by set_solver.
    assert (Hne' : value ∩ list_to_set ref ≠ (∅ : gset string)) by set_solver.
    rewrite !zipDiffSubset_runs by assumption.
    split.
    + destruct (parseSubset_runs sentinels_ok id_contract ref
                  (subsetRuns value all ref)) as (decoded & -> & Hdec).
      { eapply subsetRuns_nonempty; eassumption. }
      f_equal. apply leibniz_equiv. intros x.
      rewrite Hdec, elem_of_intersection, elem_of_list_to_set. split.
      * intros (r & k & Hr & Hk & Hx).
        destruct (proj1 (subsetRuns_exact value all ref Hsub k)) as (h' & Hh' & Hv');
          [eauto |].
        rewrite Hx in Hh'. injection Hh' as <-.
        split; [exact Hv' | eapply list_elem_of_lookup_2; exact Hx].
      * intros [Hv Hx]. apply list_elem_of_lookup in Hx as [k Hk].
        destruct (proj2 (subsetRuns_exact value all ref Hsub k)) as (r & Hr & Hc);
          [eauto |].
        eauto.
    + unfold subsetRuns. f_equal. f_equal. f_equal.
      apply runs_from_ext. intros h' Hh'.
      rewrite elem_of_intersection, elem_of_list_to_set. tauto.
Qed.

End SubsetRoundTrip.

Lemma subset_round_trip_witness :
  @parseSubset Sample.consts Sample.codec
    (val (@zipDiffSubset Sample.consts Sample.codec
            (val {["b"; "c"; "d"]}) (val ∅) ["a"; "b"; "c"; "d"; "e"]
            (Some ["a"; "b"; "c"; "d"; "e"])))
    ["a"; "b"; "c"; "d"; "e"] =
    val ({["b"; "c"; "d"]} ∩ list_to_set ["a"; "b"; "c"; "d"; "e"]) ∧
  @zipDiffSubset Sample.consts Sample.codec
    (val ({["b"; "c"; "d"]} ∩ list_to_set ["a"; "b"; "c"; "d"; "e"])) (val ∅)
    ["a"; "b"; "c"; "d"; "e"] (Some ["a"; "b"; "c"; "d"; "e"]) =
  @zipDiffSubset Sample.consts Sample.codec
    (val {["b"; "c"; "d"]}) (val ∅) ["a"; "b"; "c"; "d"; "e"]
    (Some ["a"; "b"; "c"; "d"; "e"]).
Proof.
  apply (@subset_round_trip Sample.consts Sample.codec
           SampleFacts.sentinels_ok SampleFacts.id_contract).
  - intros h Hh. exact Hh.
  - right. exists "b". split; set_solver.
Defined.

(** C1, as stated, fails: a non-empty selection without any id of [ref]
    is encoded as the empty string, which reads back as [undefined] and not
    as the empty set. *)
Lemma subset_round_trip_counterexample :
  @parseSubset Sample.consts Sample.codec
    (val (@zipDiffSubset Sample.consts Sample.codec
            (val {["a"]}) (val {["b"]}) ["a"; "b"] (Some ["b"])))
    ["b"]
  ≠ val ({["a"]} ∩ list_to_set ["b"]).
Proof.
  destruct (@zipDiffSubset_none Sample.consts Sample.codec
              {["a"]} (val {["b"]}) ["a"; "b"] ["b"]) as [_ ->].
  - apply non_empty_singleton_L.
  - intros h Hh. apply list_elem_of_singleton in Hh. subst h.
    rewrite elem_of_singleton. discriminate.
  - discriminate.
Qed.

(** ** Ids outside the membership set *)

Lemma runStep_members (ref : list string) (allSet value : gset string)
    (i : nat) (a : Runs) (h : string) :
  ref !! i = Some h →
  runsOfMembers ref allSet value i a →
  runsOfMembers ref allSet value (S i) (runStep allSet value a h i).
Proof.
  intros Hi Hinv.
  assert (Hweak : ∀ r p, r ∈ flushed a → isEndpoint r p →
            p < S i ∧ ∃ h, ref !! p = Some h ∧ h ∈ allSet ∧ h ∈ value).
  { intros r p Hr Hp. destruct (Hinv r p Hr Hp) as [Hlt Hh]. split; [lia | exact Hh]. }
  unfold runStep.
  destruct (bool_decide_reflect (h ∈ allSet)) as [Hall | Hall]; simpl;
    [| exact Hweak].
  destruct a as [done cur]. simpl.
  destruct (bool_decide_reflect (h ∈ value)) as [Hv | Hv].
  - assert (Hhere : i < S i ∧ ∃ h, ref !! i = Some h ∧ h ∈ allSet ∧ h ∈ value)
      by (split; [lia | eauto]).
    destruct cur as [[s eo]|]; intros r p Hr Hp;
      rewrite elem_of_flushed_open in Hr; destruct Hr as [Hr | ->].
    + apply (Hweak r p); [in_flushed | exact Hp].
    + destruct Hp as [-> | Hp]; simpl in *.
      * apply (Hweak (s, eo) s); [in_flushed | left; reflexivity].
      * injection Hp as <-. exact Hhere.
    + apply (Hweak r p); [in_flushed | exact Hp].
    + destruct Hp as [-> | Hp]; simpl in *; [exact Hhere | discriminate].
  - destruct cur as [r0|]; [| exact Hweak].
    intros r p Hr Hp. apply (Hweak r p); [| exact Hp].
    rewrite elem_of_flushed_closed in Hr. rewrite elem_of_flushed_open.
    apply elem_of_app in Hr as [Hr | Hr]; [auto |].
    apply list_elem_of_singleton in Hr. auto.
Qed.

Lemma runs_from_members (ref : list string) (allSet value : gset string) :
  ∀ (suf pre : list string) (a : Runs),
    ref = pre ++ suf →
    runsOfMembers ref allSet value (length pre) a →
    runsOfMembers ref allSet value (length ref)
      (runs_from allSet value suf (length pre) a).
Proof.
  induction suf as [|h suf IH]; intros pre a Href Hinv; simpl.
  - rewrite app_nil_r in Href. subst pre. exact Hinv.
  - replace (S (length pre)) with (length (pre ++ [h]))
      by (rewrite length_app; simpl; lia).
    apply IH.
    + rewrite Href, <- app_assoc. reflexivity.
    + rewrite length_app. simpl. replace (length pre + 1) with (S (length pre)) by lia.
      apply runStep_members; [| exact Hinv].
      rewrite Href. rewrite lookup_app_r by lia.
      now replace (length pre - length pre) with 0 by lia.
Qed.

Lemma subsetRuns_members (value : gset string) (all ref : list string)
    (r : Range) (p : nat) :
  r ∈ subsetRuns value all ref → isEndpoint r p →
  ∃ h, ref !! p = Some h ∧ h ∈ all ∧ h ∈ value.
Proof.
  intros Hr Hp.
  destruct (runs_from_members ref (list_to_set all) value ref [] ([], None)
              eq_refl) with (r := r) (p := p) as [_ (h & Hh & Hall & Hv)].
  - intros r' p' Hr'. rewrite elem_of_flushed_closed in Hr'. inversion Hr'.
  - exact Hr.
  - exact Hp.
  - exists h. rewrite elem_of_list_to_set in Hall. auto.
Qed.

Lemma elem_of_concat {A} (l : list (list A)) (x : A) :
  x ∈ concat l ↔ ∃ xs, x ∈ xs ∧ xs ∈ l.
Proof.
  rewrite list_elem_of_In, in_concat. split.
  - intros (xs & Hxs & Hx). exists xs. rewrite !list_elem_of_In. auto.
  - intros (xs & Hx & Hxs). exists xs. rewrite <- !list_elem_of_In. auto.
Qed.

Lemma endpoints_occurs `{ZipConstants} (token t : string) (c : ascii) :
  t ∈ endpoints token → occurs c t = true → occurs c token = true.
Proof.
  unfold endpoints. intros Ht Hc.
  apply elem_of_concat in Ht as (pieces & Ht & Hpieces).
  apply list_elem_of_fmap in Hpieces as (range & -> & Hrange).
  eapply split_occurs; [exact Hrange |].
  eapply split_occurs; [exact Ht | exact Hc].
Qed.

Section SubsetMembers.
Context `{ZipConstants} `{IdCompaction}.
Hypothesis sentinels_ok : SentinelsOk.
Hypothesis id_contract : IdContract.

Lemma endpoints_render (r : Range) (t : string) :
  t ∈ split ZARRAYSEP (render r) →
  ∃ p, isEndpoint r p ∧ t = nToId (Z.of_nat p).
Proof.
  destruct r as [s [e|]]; simpl.
  - rewrite (split_app_sep _ _ _ (nToId_no_arraysep id_contract s)).
    rewrite (split_no_sep _ _ (nToId_no_arraysep id_contract e)).
    intros Ht. apply elem_of_cons in Ht as [-> | Ht].
    + exists s. split; [left | ]; reflexivity.
    + apply list_elem_of_singleton in Ht. subst t.
      exists e. split; [right | ]; reflexivity.
  - rewrite (split_no_sep _ _ (nToId_no_arraysep id_contract s)).
    intros Ht. apply list_elem_of_singleton in Ht. subst t.
    exists s. split; [left | ]; reflexivity.
Qed.

Lemma endpoints_runs (rs : list Range) (t : string) :
  rs ≠ [] →
  t ∈ endpoints (join (sepStr ZFIELDSEP) (map render rs)) →
  ∃ r p, r ∈ rs ∧ isEndpoint r p ∧ t = nToId (Z.of_nat p).
Proof.
  intros Hne. unfold endpoints. rewrite split_join.
  - intros Ht. apply elem_of_concat in Ht as (pieces & Ht & Hpieces).
    apply list_elem_of_fmap in Hpieces as (range & -> & Hrange).
    apply list_elem_of_fmap in Hrange as (r & -> & Hr).
    destruct (endpoints_render r t Ht) as (p & Hp & ->). eauto.
  - destruct rs; [congruence | discriminate].
  - apply Forall_forall. intros x Hx.
    apply list_elem_of_fmap in Hx as (r & -> & _).
    apply (render_no_fieldsep sentinels_ok id_contract).
Qed.

Lemma nToId_inj (p q : nat) :
  nToId (Z.of_nat p) = nToId (Z.of_nat q) → p = q.
Proof.
  intros Heq. apply (f_equal idToN) in Heq.
  rewrite !(expand_compact id_contract) in Heq by lia. lia.
Qed.

(** C7 (as amended). During subset encoding the scan skips every id of the
    reference list that is not in the membership set [all]: the position of
    such an id is never emitted as the start or the end of a range of the
    token. *)
Theorem subset_skips_non_members (value : gset string)
    (init : Nullable (gset string)) (all ref : list string) (p : nat)
    (h : string) :
  ref !! p = Some h → h ∉ all →
  nToId (Z.of_nat p) ∉ endpoints (zipDiffSubset (val value) init all (Some ref)).
Proof.
  intros Hp Hall Hin.
  destruct (occurs_nonempty (nToId (Z.of_nat p))) as [c Hc].
  { apply (compact_nonempty id_contract). lia. }
  pose proof (endpoints_occurs _ _ c Hin Hc) as Htok.
  destruct (compact_alphabet id_contract _ c (Nat2Z.is_nonneg p) Hc)
    as (_ & _ & _ & Hempty).
  destruct (decide (value = ∅)) as [-> | Hne].
  - (* the empty selection: the token is empty or the empty sentinel *)
    unfold zipDiffSubset in Htok. rewrite size_empty in Htok. simpl in Htok.
    destruct init as [| |init']; simpl in Htok; try congruence.
    destruct (size init' =? 0); simpl in Htok; congruence.
  - rewrite zipDiffSubset_runs in Hin by exact Hne.
    destruct (subsetRuns value all ref) as [|r0 rs] eqn:Hruns.
    { simpl in Hin. unfold endpoints in Hin. simpl in Hin.
      apply list_elem_of_singleton in Hin. rewrite Hin in Hc. discriminate. }
    apply endpoints_runs in Hin as (r & q & Hr & Hq & Heq); [| discriminate].
    apply nToId_inj in Heq. subst q. rewrite <- Hruns in Hr.
    destruct (subsetRuns_members _ _ _ _ _ Hr Hq) as (h' & Hh' & Hall' & _).
    rewrite Hp in Hh'. injection Hh' as <-. contradiction.
Qed.

(** A run stays open across an id that is not a member: with [x] and [z]
    the only members, both selected, the token is one range over the
    positions 0 to 2 of [[x; y; z]], which reads back with [y]. *)
Lemma gap_round_trip (x y z : string) (value : gset string)
    (init : Nullable (gset string)) :
  y ≠ x → y ≠ z → x ∈ value → z ∈ value →
  zipDiffSubset (val value) init [x; z] (Some [x; y; z]) =
    nToId 0 +:+ sepStr ZARRAYSEP +:+ nToId 2 ∧
  parseSubset (val (zipDiffSubset (val value) init [x; z] (Some [x; y; z])))
    [x; y; z] = val {[x; y; z]}.
Proof.
  intros Hyx Hyz Hx Hz.
  assert (Hne : value ≠ ∅) by set_solver.
  assert (Hruns : subsetRuns value [x; z] [x; y; z] = [(0, Some 2)]).
  { unfold subsetRuns. simpl. unfold runStep. simpl.
    rewrite (bool_decide_eq_true_2 (x ∈ _)) by set_solver.
    rewrite (bool_decide_eq_true_2 (x ∈ value)) by exact Hx. simpl.
    rewrite (bool_decide_eq_false_2 (y ∈ _)) by set_solver. simpl.
    rewrite (bool_decide_eq_true_2 (z ∈ _)) by set_solver.
    rewrite (bool_decide_eq_true_2 (z ∈ value)) by exact Hz. reflexivity. }
  rewrite zipDiffSubset_runs by exact Hne. rewrite Hruns.
  split; [reflexivity |].
  destruct (parseSubset_runs sentinels_ok id_contract [x; y; z] [(0, Some 2)])
    as (decoded & -> & Hdec); [discriminate |].
  f_equal. apply leibniz_equiv. intros t. rewrite Hdec. split.
  - intros (r & k & Hr & Hk & Ht).
    apply list_elem_of_singleton in Hr. subst r. simpl in Hk.
    destruct k as [|[|[|k]]]; simpl in Ht; try lia;
      injection Ht as <-; set_solver.
  - intros Ht. exists (0, Some 2).
    apply elem_of_union in Ht as [Ht | Ht];
      [apply elem_of_union in Ht as [Ht | Ht] |];
      apply elem_of_singleton in Ht; subst t.
    + exists 0. split; [left | simpl; split; [lia | reflexivity]].
    + exists 1. split; [left | simpl; split; [lia | reflexivity]].
    + exists 2. split; [left | simpl; split; [lia | reflexivity]].
Qed.

(** C10. With [ref = [x; y; z]], [all = {x, z}] and [value = {x, z}] the
    token of [zipDiffSubset] is the single range from position 0 to
    position 2, and [parseSubset] reads it back over [ref] as [{x, y, z}],
    a strict superset of the selection. *)
Theorem subset_decodes_to_superset (x y z : string)
    (init : Nullable (gset string)) :
  y ≠ x → y ≠ z →
  zipDiffSubset (val {[x; z]}) init [x; z] (Some [x; y; z]) =
    nToId 0 +:+ sepStr ZARRAYSEP +:+ nToId 2 ∧
  parseSubset (val (zipDiffSubset (val {[x; z]}) init [x; z] (Some [x; y; z])))
    [x; y; z] = val {[x; y; z]} ∧
  ({[x; z]} : gset string) ⊂ {[x; y; z]}.
Proof.
  intros Hyx Hyz.
  destruct (gap_round_trip x y z {[x; z]} init Hyx Hyz) as [Htok Hdec];
    [set_solver .. |].
  split; [exact Htok |]. split; [exact Hdec |].
  split; [set_solver |]. intros Hsub.
  assert (Hy : y ∈ ({[x; z]} : gset string)) by (apply Hsub; set_solver).
  apply elem_of_union in Hy as [Hy | Hy]; apply elem_of_singleton in Hy;
    congruence.
Qed.

End SubsetMembers.

Lemma subset_skips_non_members_witness :
  @nToId Sample.codec 1 ∉
  @endpoints Sample.consts
    (@zipDiffSubset Sample.consts Sample.codec
       (val {["x"; "y"; "z"]}) undefined ["x"; "z"] (Some ["x"; "y"; "z"])).
Proof.
  apply (@subset_skips_non_members Sample.consts Sample.codec
           SampleFacts.sentinels_ok SampleFacts.id_contract {["x"; "y"; "z"]} undefined
           ["x"; "z"] ["x"; "y"; "z"] 1 "y").
  - reflexivity.
  - intros Hin. apply elem_of_cons in Hin as [Heq | Hin]; [discriminate |].
    apply list_elem_of_singleton in Hin. discriminate.
Defined.

(** C7, as stated, fails: ["y"] is selected and is not a member, and yet the
    token expresses it, since the range from ["x"] to ["z"] covers its
    position. *)
Lemma subset_skips_non_members_counterexample :
  @parseSubset Sample.consts Sample.codec
    (val (@zipDiffSubset Sample.consts Sample.codec
            (val {["x"; "y"; "z"]}) undefined ["x"; "z"] (Some ["x"; "y"; "z"])))
    ["x"; "y"; "z"]
  = val {["x"; "y"; "z"]}.
Proof.
  apply (@gap_round_trip Sample.consts Sample.codec
           SampleFacts.sentinels_ok SampleFacts.id_contract);
    [discriminate | discriminate | set_solver | set_solver].
Qed.

Lemma subset_decodes_to_superset_witness :
  @zipDiffSubset Sample.consts Sample.codec
    (val {["x"; "z"]}) undefined ["x"; "z"] (Some ["x"; "y"; "z"]) = "A~C" ∧
  @parseSubset Sample.consts Sample.codec
    (val (@zipDiffSubset Sample.consts Sample.codec
            (val {["x"; "z"]}) undefined ["x"; "z"] (Some ["x"; "y"; "z"])))
    ["x"; "y"; "z"] = val {["x"; "y"; "z"]} ∧
  ({["x"; "z"]} : gset string) ⊂ {["x"; "y"; "z"]}.
Proof.
  apply (@subset_decodes_to_superset Sample.consts Sample.codec
           SampleFacts.sentinels_ok SampleFacts.id_contract "x" "y" "z"
           undefined); discriminate.
Defined.

(** ** The primitive field codec: the parsers *)

Section Parsers.
Context `{ZipConstants} `{IdCompaction} `{JsValues}.

Lemma present_absent (v : Nullable string) :
  v = undefined ∨ v = null ∨ v = val EmptyString → present v = None.
Proof. intros [-> | [-> | ->]]; reflexivity. Qed.

Lemma present_znull : present (val ZNULL) = None.
Proof. unfold present. now rewrite String.eqb_refl, orb_true_r. Qed.

Lemma present_other (s : string) :
  s ≠ EmptyString → s ≠ ZNULL → present (val s) = Some s.
Proof.
  intros Hne Hnull. unfold present.
  now rewrite (length_nonzero _ Hne), (string_eqb_false _ _ Hnull).
Qed.

Lemma atZ_out_of_range {A} (l : list A) (n : Z) :
  (n < 0 ∨ Z.of_nat (length l) ≤ n)%Z → atZ l n = undefined.
Proof.
  intros Hout. unfold atZ, at_.
  destruct (Z.ltb_spec n 0) as [_ | Hpos]; [reflexivity |].
  rewrite lookup_ge_None_2; [reflexivity | lia].
Qed.

Hypothesis sentinels_ok : SentinelsOk.

(** C4 (as amended). For an absent or empty input every parser returns
    [undefined]. For the null sentinel [parseString], [parseBool],
    [parseNumber], [parseRational] and [parseArray] return [undefined] too,
    and only [parseSubset] returns [null]. For the empty sentinel
    [parseArray] returns the empty array and [parseSubset] the empty set.
    Any other input is decoded by its type, and with a dictionary as the
    entry of the dictionary at the expanded token. *)
Theorem parsers_by_case (hash : list string) :
  (∀ v : Nullable string, v = undefined ∨ v = null ∨ v = val EmptyString →
     parseString v None = undefined ∧ parseString v (Some hash) = undefined ∧
     parseBool v = undefined ∧
     parseNumber v false = undefined ∧ parseNumber v true = undefined ∧
     parseRational v = undefined ∧
     parseArray v None = undefined ∧ parseArray v (Some hash) = undefined ∧
     parseSubset v hash = undefined) ∧
  (parseString (val ZNULL) None = undefined ∧
   parseString (val ZNULL) (Some hash) = undefined ∧
   parseBool (val ZNULL) = undefined ∧
   parseNumber (val ZNULL) false = undefined ∧
   parseNumber (val ZNULL) true = undefined ∧
   parseRational (val ZNULL) = undefined ∧
   parseArray (val ZNULL) None = undefined ∧
   parseArray (val ZNULL) (Some hash) = undefined ∧
   parseSubset (val ZNULL) hash = null) ∧
  (parseArray (val ZEMPTY) None = val [] ∧
   parseArray (val ZEMPTY) (Some hash) = val [] ∧
   parseSubset (val ZEMPTY) hash = val ∅) ∧
  (∀ s : string, s ≠ EmptyString → s ≠ ZNULL →
     parseString (val s) None = val s ∧
     parseString (val s) (Some hash) = atZ hash (idToN s) ∧
     parseBool (val s) = val (String.eqb s ZTRUE) ∧
     parseNumber (val s) false = val (Number s) ∧
     parseNumber (val s) true = val (number_of_Z (idToN s)) ∧
     parseRational (val s) = val (rational s) ∧
     (s ≠ ZEMPTY →
        parseArray (val s) None = val (map val (split ZARRAYSEP s)) ∧
        parseArray (val s) (Some hash) =
          val (map (λ a, atZ hash (idToN a)) (split ZARRAYSEP s)) ∧
        parseSubset (val s) hash =
          val (fold_left
                 (λ result range, result ∪ list_to_set (rangeSlice hash range))
                 (split ZFIELDSEP s) ∅))).
Proof.
  destruct sentinels_ok as [Hnull Hempty Hdiff _].
  split; [| split; [| split]].
  - intros v Hv.
    unfold parseString, parseNString, parseString_bare, parseBool, parseNumber,
      parseNNumber, parseRational, parseArray, parseNArray, parseArray_bare.
    rewrite (present_absent v Hv).
    repeat split; destruct Hv as [-> | [-> | ->]]; reflexivity.
  - unfold parseString, parseNString, parseString_bare, parseBool, parseNumber,
      parseNNumber, parseRational, parseArray, parseNArray, parseArray_bare.
    rewrite present_znull. repeat split.
    unfold parseSubset.
    now rewrite (length_nonzero _ Hnull), String.eqb_refl.
  - unfold parseArray, parseNArray, parseArray_bare, parseSubset.
    rewrite (present_other _ Hempty Hdiff), String.eqb_refl.
    rewrite (length_nonzero _ Hempty), (string_eqb_false _ _ Hdiff).
    repeat split.
  - intros s Hne Hnn.
    unfold parseString, parseNString, parseString_bare, parseBool, parseNumber,
      parseNNumber, parseRational, parseArray, parseNArray, parseArray_bare,
      parseSubset.
    rewrite (present_other _ Hne Hnn), (length_nonzero _ Hne),
      (string_eqb_false _ _ Hnn).
    repeat split; intros; rewrite (string_eqb_false s ZEMPTY) by assumption;
      reflexivity.
Qed.

End Parsers.

Lemma parsers_by_case_witness :
  @parseSubset Sample.consts Sample.codec (val "?") ["a"] = null ∧
  @parseArray Sample.consts Sample.codec (val "=") None = val [] ∧
  @parseString Sample.consts Sample.codec (val "B") (Some ["a"; "b"]) = val "b".
Proof.
  destruct (@parsers_by_case Sample.consts Sample.codec Sample.values
              SampleFacts.sentinels_ok ["a"]) as (_ & Hnull & Hempty & _).
  destruct (@parsers_by_case Sample.consts Sample.codec Sample.values
              SampleFacts.sentinels_ok ["a"; "b"]) as (_ & _ & _ & Hother).
  split; [apply Hnull |]. split; [apply Hempty |].
  destruct (Hother "B") as (_ & Hdict & _); [discriminate | discriminate |].
  exact Hdict.
Defined.

(** C4, as stated, fails: [parseString] returns [undefined], not [null], for
    the null sentinel. *)
Lemma parsers_by_case_counterexample :
  @parseString Sample.consts Sample.codec (val (@ZNULL Sample.consts)) None ≠ null.
Proof. discriminate. Qed.

(** ** A compacted index outside the dictionary *)

Section DictionaryMiss.
Context `{ZipConstants} `{IdCompaction} `{JsValues}.
Variable isRecipeObjective : Objective → bool.

(** C8 (as amended). A token whose expanded index is outside the dictionary
    signals nothing: [parseNString] (and [parseString] with a dictionary)
    returns [undefined], as it does for an omitted field, and [parseNArray]
    returns the array of the dictionary entries with [undefined] at each
    index outside the dictionary. A caller goes on: [unzipObjectives] reads
    such a machine id as an omitted one. *)
Theorem dictionary_miss_is_undefined (hash : list string) :
  (∀ n : Z, (n < 0 ∨ Z.of_nat (length hash) ≤ n)%Z → atZ hash n = undefined) ∧
  (∀ token : string, token ≠ EmptyString → token ≠ ZNULL →
     (idToN token < 0 ∨ Z.of_nat (length hash) ≤ idToN token)%Z →
     parseNString (val token) hash = undefined ∧
     parseString (val token) (Some hash) = undefined ∧
     parseNString (val token) hash = parseNString undefined hash) ∧
  (∀ value : string, value ≠ EmptyString → value ≠ ZNULL → value ≠ ZEMPTY →
     parseNArray (val value) hash =
       val (map (λ a, atZ hash (idToN a)) (split ZARRAYSEP value)) ∧
     parseArray (val value) (Some hash) = parseNArray (val value) hash) ∧
  (∀ (record token : string) (ms : list ModuleSettings)
     (bs : list BeaconSettings) (modHash : ModHash) (idx : nat),
     machines modHash = hash →
     at_ (split ZFIELDSEP record) 4 = val token →
     token ≠ EmptyString → token ≠ ZNULL →
     (idToN token < 0 ∨ Z.of_nat (length hash) ≤ idToN token)%Z →
     o_machineId
       (unzipObjective isRecipeObjective ms bs (Some modHash) idx record) =
       undefined).
Proof.
  assert (Hmiss : ∀ token : string, token ≠ EmptyString → token ≠ ZNULL →
            (idToN token < 0 ∨ Z.of_nat (length hash) ≤ idToN token)%Z →
            parseNString (val token) hash = undefined).
  { intros token Hne Hnn Hout. unfold parseNString, parseString_bare.
    rewrite (present_other _ Hne Hnn). now apply atZ_out_of_range. }
  split; [| split; [| split]].
  - intros n Hn. now apply atZ_out_of_range.
  - intros token Hne Hnn Hout. unfold parseString.
    rewrite (Hmiss _ Hne Hnn Hout). repeat split.
  - intros value Hne Hnn Hnempty.
    unfold parseArray, parseNArray, parseArray_bare.
    rewrite (present_other _ Hne Hnn), (string_eqb_false _ _ Hnempty).
    split; reflexivity.
  - intros record token ms bs modHash idx Hdict Hfield Hne Hnn Hout.
    unfold unzipObjective, prune. cbn [o_machineId].
    rewrite Hfield. cbn [fmap option_fmap option_map parseString].
    rewrite Hdict. exact (Hmiss _ Hne Hnn Hout).
Qed.

End DictionaryMiss.

(** C8, as stated, fails: the index 5 is outside a dictionary of one entry,
    and the decode returns what it returns for an omitted field, or an array
    with an [undefined] element; no error is signalled. *)
Lemma dictionary_miss_counterexample :
  @idToN Sample.codec "F" = 5%Z ∧
  @parseNString Sample.consts Sample.codec (val "F") ["iron-plate"] = undefined ∧
  @parseNString Sample.consts Sample.codec (val "F") ["iron-plate"] =
    @parseNString Sample.consts Sample.codec (val "") ["iron-plate"] ∧
  @parseNArray Sample.consts Sample.codec (val "A~F") ["iron-plate"] =
    val [val "iron-plate"; undefined].
Proof. repeat split. Qed.

(** ** The diff codec *)

Section DiffCodec.
Context `{ZipConstants} `{IdCompaction} `{JsValues}.

Lemma strictEq_refl {A} (eqb : A → A → bool) (v : Nullable A) :
  (∀ a, v = val a → eqb a a = true) → strictEq eqb v v = true.
Proof. destruct v as [| |a]; simpl; auto. Qed.

Lemma strictEq_nullish_val {A} (eqb : A → A → bool) (v : Nullable A) (b : A) :
  isNullish v = true → strictEq eqb v (val b) = false.
Proof. destruct v; simpl; [reflexivity | reflexivity | discriminate]. Qed.

(** The slip of [zipDiffArray]: for a present, empty array the bare
    component is the empty sentinel, and the hashed component is the empty
    string, the join of no compacted id. *)
Lemma zipDiffArray_empty (init : Nullable (list string)) (hash : list string) :
  zArr init ≠ ZEMPTY →
  zipDiffArray (val []) init hash = Pair ZEMPTY EmptyString.
Proof.
  intros Hinit. unfold zipDiffArray. simpl.
  rewrite string_eqb_false by congruence. reflexivity.
Qed.

(** The scan keeps the runs it has, and a selected member of the list and
    of [all] opens or extends one; without such a member it has none. *)
Lemma runStep_keeps (allSet value : gset string) (a : Runs) (h : string)
    (i : nat) :
  flushed a ≠ [] → flushed (runStep allSet value a h i) ≠ [].
Proof.
  unfold runStep, flushed. destruct a as [done [[s e]|]]; simpl;
    destruct (bool_decide (h ∈ allSet)), (bool_decide (h ∈ value)); simpl;
    rewrite ?app_nil_r; intros Hne Hnil;
    try (apply app_eq_nil in Hnil as [_ Hnil]; discriminate);
    contradiction.
Qed.

Lemma runs_from_keeps (allSet value : gset string) (hash : list string) :
  ∀ (i : nat) (a : Runs),
    flushed a ≠ [] → flushed (runs_from allSet value hash i a) ≠ [].
Proof.
  induction hash as [|h hash IH]; intros i a Ha; [exact Ha |].
  simpl. apply IH. now apply runStep_keeps.
Qed.

Lemma runs_from_member (allSet value : gset string) (hash : list string)
    (h : string) :
  h ∈ hash → h ∈ allSet → h ∈ value →
  ∀ (i : nat) (a : Runs), flushed (runs_from allSet value hash i a) ≠ [].
Proof.
  intros Hin Hall Hval. induction hash as [|h' hash IH]; intros i a.
  - inversion Hin.
  - simpl. apply elem_of_cons in Hin as [<- | Hin]; [| now apply IH].
    apply runs_from_keeps. unfold runStep, flushed.
    rewrite (bool_decide_eq_true_2 _ Hall), (bool_decide_eq_true_2 _ Hval).
    destruct a as [done [[s e]|]]; simpl; intros Hnil;
      apply app_eq_nil in Hnil as [_ Hnil]; discriminate.
Qed.

Lemma runs_from_no_member (allSet value : gset string) (hash : list string) :
  (∀ h, h ∈ hash → h ∈ allSet → h ∉ value) →
  ∀ (i : nat) (done : list Range),
    runs_from allSet value hash i (done, None) = (done, None).
Proof.
  induction hash as [|h hash IH]; intros Hnone i done; simpl; [reflexivity |].
  unfold runStep. destruct (bool_decide (h ∈ allSet)) eqn:Hall; simpl.
  - apply bool_decide_eq_true_1 in Hall.
    rewrite (bool_decide_eq_false_2 (h ∈ value)) by (apply Hnone; [left | exact Hall]).
    simpl. apply IH. intros h' Hh'. apply Hnone. now right.
  - apply IH. intros h' Hh'. apply Hnone. now right.
Qed.

Hypothesis sentinels_ok : SentinelsOk.
Hypothesis id_contract : IdContract.

(** A selection and itself: the token is empty exactly when no member of
    the reference list that belongs to [all] is selected. *)
Lemma zipDiffSubset_same (s : gset string) (all : list string)
    (ref : option (list string)) :
  zipDiffSubset (val s) (val s) all ref = EmptyString ↔
  ∀ h, h ∈ default all ref → h ∈ all → h ∉ s.
Proof.
  assert (Hdefault : zipDiffSubset (val s) (val s) all ref =
                     zipDiffSubset (val s) (val s) all (Some (default all ref)))
    by (destruct ref; reflexivity).
  rewrite Hdefault. clear Hdefault. set (l := default all ref).
  destruct (decide (s = ∅)) as [-> | Hne].
  - split; [intros _ h _ _; set_solver |]. intros _.
    unfold zipDiffSubset. now rewrite size_empty.
  - rewrite (zipDiffSubset_runs s (val s) all l Hne). unfold subsetRuns. split.
    + intros Htoken h Hl Hall Hs.
      pose proof (runs_from_member (list_to_set all) s l h Hl
                    (proj2 (elem_of_list_to_set h all) Hall) Hs 0 ([], None))
        as Hruns.
      destruct (flushed (runs_from (list_to_set all) s l 0 ([], None)))
        as [|r rs]; [congruence |].
      destruct (token_not_sentinel id_contract r rs) as [Hempty _].
      contradiction.
    + intros Hnone. rewrite runs_from_no_member; [reflexivity |].
      intros h Hl Hall. apply Hnone; [exact Hl |].
      now apply elem_of_list_to_set in Hall.
Qed.

Ltac conjs := repeat match goal with |- _ ∧ _ => split end.

(** C5 (as amended). Equal values: [zipDiffString], [zipDiffBool],
    [zipDiffArray] and [zipDiffIndices] return the empty string for a value
    and itself, [zipDiffNumber] for a number strictly equal to itself,
    [zipDiffRational] for two rationals that [eq] relates or two absent
    values, and [zipDiffSubset] exactly when the selection is absent or
    selects no id of the reference list that belongs to [all] (the empty
    selection among them): a selection with such an id is encoded, also
    against an equal baseline. An absent value against a present baseline
    gives the null sentinel (for [zipDiffIndices] and [zipDiffArray] unless
    the text of the baseline is that sentinel). A present, empty collection
    against a baseline that is absent, or whose text is not the empty
    sentinel, gives the empty sentinel from [zipDiffSubset] and
    [zipDiffIndices] and in the bare component of [zipDiffArray]. *)
Theorem diff_identity (all : list string) (ref : option (list string))
    (hash : list string) :
  ((∀ v, zipDiffString v v hash = Str EmptyString) ∧
   (∀ v, (∀ n, v = val n → number_seq n n = true) →
      zipDiffNumber v v = EmptyString) ∧
   (∀ q r, rational_eq q r = true →
      zipDiffRational (val q) (val r) = EmptyString) ∧
   (∀ v b, isNullish v = true → isNullish b = true →
      zipDiffRational v b = EmptyString) ∧
   (∀ b, zipDiffBool b b = EmptyString) ∧
   (∀ v, zipDiffArray v v hash = Str EmptyString) ∧
   (∀ v, zipDiffIndices v v = Str EmptyString) ∧
   (∀ v, zipDiffSubset v v all ref = EmptyString ↔
      v = undefined ∨ v = null ∨
      ∃ s, v = val s ∧ ∀ h, h ∈ default all ref → h ∈ all → h ∉ s)) ∧
  ((∀ (w : Nullable string) b, isNullish w = true →
        zipDiffString w (val b) hash = Str ZNULL) ∧
     (∀ (w : Nullable number) n, isNullish w = true →
        zipDiffNumber w (val n) = ZNULL) ∧
     (∀ (w : Nullable Rational) q, isNullish w = true →
        zipDiffRational w (val q) = ZNULL) ∧
     (∀ (w : Nullable (gset string)) s, isNullish w = true →
        zipDiffSubset w (val s) all ref = ZNULL) ∧
     (∀ (w : Nullable (list number)) l, isNullish w = true →
        zArr (val l) ≠ ZNULL → zipDiffIndices w (val l) = Str ZNULL) ∧
     (∀ (w : Nullable (list string)) l, isNullish w = true →
        zArr (val l) ≠ ZNULL → zipDiffArray w (val l) hash = Str ZNULL)) ∧
  ((∀ init, init ≠ val ∅ → zipDiffSubset (val ∅) init all ref = ZEMPTY) ∧
   (∀ init, isNullish init = true ∨ zArr init ≠ ZEMPTY →
      zipDiffIndices (val []) init = Str ZEMPTY) ∧
   (∀ init, isNullish init = true ∨ zArr init ≠ ZEMPTY →
      ∃ hashed, zipDiffArray (val []) init hash = Pair ZEMPTY hashed)).
Proof.
  destruct sentinels_ok as [Hnull Hempty Hdiff _].
  assert (Hnullish : ∀ A `{ToString A} (init : Nullable (list A)),
            isNullish init = true ∨ zArr init ≠ ZEMPTY → zArr init ≠ ZEMPTY).
  { intros A ? init [Hinit | Hinit]; [| exact Hinit].
    destruct init; simpl in *; congruence. }
  split; [| split].
  - conjs.
    + intros v. unfold zipDiffString. rewrite strictEq_refl; [reflexivity |].
      intros a _. apply String.eqb_refl.
    + intros v Hv. unfold zipDiffNumber. now rewrite strictEq_refl.
    + intros q r Hqr. unfold zipDiffRational. now rewrite Hqr.
    + intros v b Hv Hb. unfold zipDiffRational.
      destruct v; simpl in *; try discriminate; now rewrite Hb.
    + intros b. unfold zipDiffBool. now rewrite Bool.eqb_reflx.
    + intros v. unfold zipDiffArray. now rewrite String.eqb_refl.
    + intros v. unfold zipDiffIndices. now rewrite String.eqb_refl.
    + intros v. destruct v as [| |s].
      * split; [auto | reflexivity].
      * split; [auto | reflexivity].
      * rewrite zipDiffSubset_same. split.
        -- intros Hnone. right. right. exists s. split; [reflexivity | exact Hnone].
        -- intros [Hv | [Hv | (s' & Hv & Hnone)]]; try discriminate.
           injection Hv as ->. exact Hnone.
  - conjs.
    + intros w b Hw. unfold zipDiffString.
      rewrite strictEq_nullish_val by exact Hw. destruct w; try reflexivity.
      discriminate.
    + intros w n Hw. unfold zipDiffNumber.
      rewrite strictEq_nullish_val by exact Hw. destruct w; try reflexivity.
      discriminate.
    + intros w q Hw. destruct w; try reflexivity. discriminate.
    + intros w s Hw. destruct w; try reflexivity. discriminate.
    + intros w l Hw Hl. unfold zipDiffIndices.
      destruct w; try discriminate;
        (rewrite string_eqb_false
           by (intros Heq; apply Hl; symmetry; exact Heq); reflexivity).
    + intros w l Hw Hl. unfold zipDiffArray.
      destruct w; try discriminate;
        (rewrite string_eqb_false
           by (intros Heq; apply Hl; symmetry; exact Heq); reflexivity).
  - conjs.
    + intros init Hinit. unfold zipDiffSubset. rewrite size_empty. simpl.
      destruct init as [| |init']; try reflexivity.
      destruct (Nat.eqb_spec (size init') 0) as [Hsz|]; [| reflexivity].
      apply size_empty_iff, leibniz_equiv in Hsz. congruence.
    + intros init Hinit. apply Hnullish in Hinit. unfold zipDiffIndices.
      simpl. rewrite string_eqb_false by congruence. reflexivity.
    + intros init Hinit. apply Hnullish in Hinit.
      exists EmptyString. now apply zipDiffArray_empty.
Qed.

End DiffCodec.

Lemma diff_identity_witness :
  @zipDiffSubset Sample.consts Sample.codec (val ∅) (val {["a"]}) ["a"] None = "=" ∧
  @zipDiffNumber Sample.consts Sample.values (val 3%Z) (val 3%Z) = "" ∧
  @zipDiffRational Sample.consts Sample.values undefined (val (1%Z, 2%Z)) = "?".
Proof.
  destruct (@diff_identity Sample.consts Sample.codec Sample.values
              SampleFacts.sentinels_ok SampleFacts.id_contract ["a"] None ["a"])
    as ((_ & Hnum & _) & (_ & _ & Hrat & _) & (Hsub & _)).
  split; [| split].
  - apply Hsub. intros Heq.
    assert (Hset : ({["a"]} : gset string) = ∅) by congruence.
    exact (non_empty_singleton_L (C := gset string) "a" Hset).
  - apply Hnum. intros n Hn. injection Hn as <-. reflexivity.
  - apply Hrat. reflexivity.
Defined.

(** C5, as stated, fails: [zipDiffSubset] never compares a non-empty
    selection with the baseline, so a selection equal to its baseline is
    still encoded. *)
Lemma diff_identity_counterexample :
  @zipDiffSubset Sample.consts Sample.codec
    (val {["a"]}) (val {["a"]}) ["a"] (Some ["a"]) = "A" ∧
  "A" ≠ EmptyString.
Proof.
  split; [| discriminate].
  rewrite zipDiffSubset_runs by apply non_empty_singleton_L.
  unfold subsetRuns. simpl. unfold runStep.
  rewrite !(bool_decide_eq_true_2 ("a" ∈ _)) by set_solver.
  reflexivity.
Qed.

(** ** Objectives: the record of [zipObjectives] read by [unzipObjectives] *)



Section Objectives.
Context `{ZipConstants} `{IdCompaction} `{JsValues}.
Variable isRecipeObjective : Objective → bool.

(** The field separator is the star that the pattern of [zipFields] strips. *)
Hypothesis fieldsep_star : ZFIELDSEP = "*"%char.
Hypothesis id_contract : IdContract.







End Objectives.



(** ** Container selection: [getHash] *)

Section GetHash.
Context `{ZipConstants} `{IdCompaction} `{JsValues} `{RouterEnv}.

Lemma getHash_unfold (zData : ZipData) :
  getHash zData =
  if Nat.ltb (bareLen zData) (Nat.max (zipLen zData) MIN_ZIP)
  then bareParams zData else zipParams zData.
Proof. reflexivity. Qed.

(** C2 (as amended). [getHash] returns the bare container exactly when the
    decoded length of the bare container is strictly less than the maximum
    of the decoded length of the compressed container and [MIN_ZIP]; in
    every other case, that is when the bare length is at least [MIN_ZIP] and
    at least the compressed length, it returns the compressed container. *)
Theorem getHash_choice (zData : ZipData) :
  (bareLen zData < Nat.max (zipLen zData) MIN_ZIP →
   getHash zData = bareParams zData) ∧
  (Nat.max (zipLen zData) MIN_ZIP ≤ bareLen zData →
   getHash zData = zipParams zData) ∧
  (Nat.max (zipLen zData) MIN_ZIP ≤ bareLen zData ↔
   MIN_ZIP ≤ bareLen zData ∧ zipLen zData ≤ bareLen zData).
Proof.
  rewrite getHash_unfold.
  destruct (Nat.ltb_spec (bareLen zData) (Nat.max (zipLen zData) MIN_ZIP));
    repeat split; intros; lia.
Qed.

(** C3 (as amended). If the bare form of the state is shorter than
    [MIN_ZIP], [getHash] does not select the compressed container: it
    returns the bare one. *)
Theorem getHash_short_bare (zData : ZipData) :
  bareLen zData < MIN_ZIP → getHash zData = bareParams zData.
Proof.
  intros Hshort. rewrite getHash_unfold.
  destruct (Nat.ltb_spec (bareLen zData) (Nat.max (zipLen zData) MIN_ZIP));
    [reflexivity | lia].
Qed.

End GetHash.

(** C2, as stated, fails: at equal lengths of 80 characters, above
    [MIN_ZIP], the compressed container is returned although its length is
    not less than the maximum of the bare length and [MIN_ZIP]. *)
Lemma getHash_choice_counterexample :
  @bareLen Sample.values Sample.env Sample.tieData = 80 ∧
  @zipLen Sample.values Sample.env Sample.tieData = 80 ∧
  @getHash Sample.consts Sample.values Sample.env Sample.tieData =
    @zipParams Sample.values Sample.env Sample.tieData ∧
  @getHash Sample.consts Sample.values Sample.env Sample.tieData ≠
    @bareParams Sample.values Sample.tieData ∧
  ¬ (@zipLen Sample.values Sample.env Sample.tieData <
     Nat.max (@bareLen Sample.values Sample.env Sample.tieData)
       (@MIN_ZIP Sample.consts)).
Proof.
  split; [reflexivity |]. split; [reflexivity |]. split; [reflexivity |].
  split; [discriminate |]. vm_compute. lia.
Qed.

Lemma getHash_short_bare_witness :
  @getHash Sample.consts Sample.values Sample.env Sample.plainData =
  [(QueryField.Objective, "iron-plate"); (QueryField.Version, "11")].
Proof.
  apply (@getHash_short_bare Sample.consts Sample.values Sample.env
           Sample.plainData).
  vm_compute. lia.
Defined.

(** C3, as stated, fails: the compressed form has 27 characters, fewer than
    [MIN_ZIP], and [getHash] selects it, because the bare form has 104. *)
Lemma getHash_short_bare_counterexample :
  @zipLen Sample.values Sample.env Sample.packsData = 27 ∧
  27 < @MIN_ZIP Sample.consts ∧
  @bareLen Sample.values Sample.env Sample.packsData = 104 ∧
  @getHash Sample.consts Sample.values Sample.env Sample.packsData =
    @zipParams Sample.values Sample.env Sample.packsData ∧
  @getHash Sample.consts Sample.values Sample.env Sample.packsData ≠
    @bareParams Sample.values Sample.packsData.
Proof.
  split; [reflexivity |]. split; [vm_compute; lia |]. split; [reflexivity |].
  split; [reflexivity | discriminate].
Qed.

(** ** Hydration: [updateState] *)

Section UpdateStateFacts.
Context `{ZipConstants} `{IdCompaction} `{JsValues} `{RouterEnv}.
Variables ItemsState RecipesState MachinesState SettingsState : Type.
Variable stepModules : ParamMap → option ModHash → Res (list ModuleSettings).
Variable stepBeacons :
  ParamMap → list ModuleSettings → option ModHash → Res (list BeaconSettings).
Variable stepObjectives :
  ParamMap → list ModuleSettings → list BeaconSettings → option ModHash →
  Res (Nullable ObjectivesState).
Variable stepItems : ParamMap → option ModHash → Res (Nullable ItemsState).
Variable stepRecipes :
  ParamMap → list ModuleSettings → list BeaconSettings → option ModHash →
  Res (Nullable RecipesState).
Variable stepMachines :
  ParamMap → list ModuleSettings → list BeaconSettings → option ModHash →
  Res (Nullable MachinesState).
Variable stepSettings :
  string → ParamMap → list BeaconSettings → list string → ModHash →
  option ModHash → Res (Nullable SettingsState).

#[local] Abbreviation decode :=
  (decodeState ItemsState RecipesState MachinesState SettingsState
     stepModules stepBeacons stepObjectives stepItems stepRecipes stepMachines
     stepSettings).
#[local] Abbreviation update :=
  (updateState ItemsState RecipesState MachinesState SettingsState
     stepModules stepBeacons stepObjectives stepItems stepRecipes stepMachines
     stepSettings).

(** A failing decompression fails the decode. *)
Lemma decodeState_inflate_fails (modId : string) (params : ParamMap)
    (zipSection e : string) :
  get params QueryField.Zip = val zipSection →
  inflate zipSection = Throw e →
  decode modId params = Throw e.
Proof.
  intros Hzip Hinflate. unfold decodeState. rewrite Hzip, Hinflate. reflexivity.
Qed.

(** A failing parse of a bare query string fails the decode; here the first
    parsing step. *)
Lemma decodeState_parse_fails (modId : string) (params : ParamMap)
    (hash : ModHash) (e : string) :
  get params QueryField.Zip = null →
  requestData (if Nat.eqb (String.length modId) 0 then initial_modId else modId)
    = Ok hash →
  stepModules params None = Throw e →
  decode modId params = Throw e.
Proof.
  intros Hzip Hdata Hstep. unfold decodeState. rewrite Hzip. simpl.
  rewrite Hdata. simpl. rewrite Hstep. reflexivity.
Qed.

(** A decode that succeeds is dispatched, and ready is signalled. *)
Lemma updateState_dispatches (modId : string) (params : ParamMap)
    (partial : PartialState ItemsState RecipesState MachinesState SettingsState)
    (log : list (Event ItemsState RecipesState MachinesState SettingsState)) :
  objectKeysEmpty params = false →
  decode modId params = Ok partial →
  update (val modId) params log =
    (Ok tt, log ++ [StoreDispatch _ _ _ _ partial; ReadyNext _ _ _ _;
                    ReadyNext _ _ _ _]).
Proof.
  intros Hkeys Hdecode. unfold updateState. rewrite Hkeys.
  unfold tryCatchFinally, bindTask, liftRes, dispatch, emit, bindTask.
  rewrite Hdecode. simpl. rewrite <- !app_assoc. reflexivity.
Qed.

#[local] Abbreviation failsWith :=
  (stepError ItemsState RecipesState MachinesState SettingsState
     stepModules stepBeacons stepObjectives stepItems stepRecipes stepMachines
     stepSettings).

(** The decode throws exactly the error of the first step that fails. *)
Lemma decodeState_throws (modId : string) (params : ParamMap) (e : string) :
  decode modId params = Throw e ↔ failsWith modId params e.
Proof.
  assert (Hquery : ∀ query isBare
            (k : ParamMap * bool → Res (PartialState
                   ItemsState RecipesState MachinesState SettingsState)),
            decodedQuery params query isBare →
            ((match get params QueryField.Zip with
              | val zipSection =>
                  zip ← inflate zipSection; Ok (parseQuery zip, false)
              | _ => Ok (params, true)
              end : Res (ParamMap * bool)) ≫= k) = k (query, isBare)).
  { intros query isBare k [zipSection zip Hzip Hinflate | Hbare].
    - now rewrite Hzip, Hinflate.
    - destruct (get params QueryField.Zip); try discriminate; reflexivity. }
  unfold decodeState. split.
  - assert (Hrest : ∀ query isBare, decodedQuery params query isBare →
              decode modId params = Throw e → failsWith modId params e).
    { intros query isBare Hq. unfold decodeState.
      rewrite (Hquery query isBare _ Hq). cbv beta iota.
      fold (dataOf modId).
      destruct (dataOf modId) as [hash|e0] eqn:Hdata;
        cbn [mbind Res_bind bindRes];
        [| intros [= <-]; now eapply DataError; eauto].
      change (if isBare then None else Some hash) with (hashFor isBare hash).
      destruct (stepModules query (hashFor isBare hash))
        as [ms|e0] eqn:Hms; cbn [mbind Res_bind bindRes];
        [| intros [= <-]; now eapply ModulesError; eauto].
      destruct (stepBeacons query ms (hashFor isBare hash))
        as [bs|e0] eqn:Hbs; cbn [mbind Res_bind bindRes];
        [| intros [= <-]; now eapply BeaconsError; eauto].
      destruct (stepObjectives query ms bs (hashFor isBare hash))
        as [os|e0] eqn:Hos; cbn [mbind Res_bind bindRes];
        [| intros [= <-]; now eapply ObjectivesError; eauto].
      destruct (stepItems query (hashFor isBare hash))
        as [is_|e0] eqn:His; cbn [mbind Res_bind bindRes];
        [| intros [= <-]; now eapply ItemsError; eauto].
      destruct (stepRecipes query ms bs (hashFor isBare hash))
        as [rs|e0] eqn:Hrs; cbn [mbind Res_bind bindRes];
        [| intros [= <-]; now eapply RecipesError; eauto].
      destruct (stepMachines query ms bs (hashFor isBare hash))
        as [mcs|e0] eqn:Hmcs; cbn [mbind Res_bind bindRes];
        [| intros [= <-]; now eapply MachinesError; eauto].
      destruct (stepSettings modId query bs
                  (match os with val o => ids o | _ => [] end) hash
                  (hashFor isBare hash)) as [ss|e0] eqn:Hss;
        cbn [mbind Res_bind bindRes];
        [discriminate | intros [= <-]; now eapply SettingsError; eauto]. }
    fold (decode modId params).
    destruct (get params QueryField.Zip) as [| |zipSection] eqn:Hzip.
    + apply (Hrest params true). apply QueryBare. now rewrite Hzip.
    + apply (Hrest params true). apply QueryBare. now rewrite Hzip.
    + destruct (inflate zipSection) as [zip|e0] eqn:Hinflate.
      * apply (Hrest (parseQuery zip) false).
        now apply (QueryInflated params zipSection zip).
      * unfold decodeState. rewrite Hzip, Hinflate.
        cbn [mbind Res_bind bindRes]. intros [= <-].
        exact (InflateError _ _ _ _ _ _ _ _ _ _ _ _ _ _ zipSection Hzip
                 Hinflate).
  - intros [zipSection Hzip Hinflate
           | query isBare Hq Hdata
           | query isBare hash Hq Hdata Hms
           | query isBare hash ms Hq Hdata Hms Hbs
           | query isBare hash ms bs Hq Hdata Hms Hbs Hos
           | query isBare hash ms bs os Hq Hdata Hms Hbs Hos His
           | query isBare hash ms bs os is_ Hq Hdata Hms Hbs Hos His Hrs
           | query isBare hash ms bs os is_ rs Hq Hdata Hms Hbs Hos His Hrs Hmcs
           | query isBare hash ms bs os is_ rs mcs Hq Hdata Hms Hbs Hos His
               Hrs Hmcs Hss];
      unfold dataOf, hashFor in *;
      [ now rewrite Hzip, Hinflate | .. ];
      rewrite (Hquery query isBare _ Hq); cbv beta iota;
      rewrite Hdata; cbn [mbind Res_bind bindRes];
      rewrite ?Hms; cbn [mbind Res_bind bindRes];
      rewrite ?Hbs; cbn [mbind Res_bind bindRes];
      rewrite ?Hos; cbn [mbind Res_bind bindRes];
      rewrite ?His; cbn [mbind Res_bind bindRes];
      rewrite ?Hrs; cbn [mbind Res_bind bindRes];
      rewrite ?Hmcs; cbn [mbind Res_bind bindRes];
      rewrite ?Hss; reflexivity.
Qed.

(** C9. If an error occurs in the try block of [updateState] before the
    dispatch, in the decompression, in the request of the dataset or in any
    of the parsing steps, the decode aborts as a whole: the error is
    logged, [dispatch] is not invoked, so that no partial state reaches the
    store, ready is signalled last, and the promise rejects with the
    generic error. *)
Theorem updateState_aborts_atomically (modId : string) (params : ParamMap)
    (e : string)
    (log : list (Event ItemsState RecipesState MachinesState SettingsState)) :
  objectKeysEmpty params = false →
  failsWith modId params e →
  ∃ events,
    update (val modId) params log =
      (Throw "RouterService failed to parse url", log ++ events) ∧
    events = [ConsoleError _ _ _ _ e; ReadyNext _ _ _ _] ∧
    (∀ partial, StoreDispatch _ _ _ _ partial ∉ events) ∧
    last events = Some (ReadyNext _ _ _ _).
Proof.
  intros Hkeys Hfails. apply decodeState_throws in Hfails as Hdecode.
  eexists. split; [| split; [reflexivity | split]].
  - unfold updateState. rewrite Hkeys.
    unfold tryCatchFinally, bindTask, liftRes, emit.
    rewrite Hdecode. simpl. rewrite <- !app_assoc. reflexivity.
  - intros partial Hin.
    apply elem_of_cons in Hin as [Heq | Hin]; [discriminate |].
    apply list_elem_of_singleton in Hin. discriminate.
  - reflexivity.
Qed.

End UpdateStateFacts.

Lemma updateState_aborts_witness :
  Sample.update (val "1.1") [(QueryField.Zip, "")] [] =
    (Throw "RouterService failed to parse url",
     [ConsoleError _ _ _ _ "invalid blob"; ReadyNext _ _ _ _]) ∧
  @updateState Sample.values Sample.env unit unit unit unit
    Sample.stepModules Sample.stepBeacons Sample.stepObjectives
    (λ _ _, Throw "corrupt item") Sample.stepRecipes Sample.stepRecipes
    Sample.stepSettings (val "1.1") [(QueryField.Item, "?")] [] =
    (Throw "RouterService failed to parse url",
     [ConsoleError _ _ _ _ "corrupt item"; ReadyNext _ _ _ _]).
Proof.
  split.
  - destruct (@updateState_aborts_atomically Sample.values Sample.env
                unit unit unit unit Sample.stepModules Sample.stepBeacons
                Sample.stepObjectives Sample.stepItems Sample.stepRecipes
                Sample.stepRecipes Sample.stepSettings
                "1.1" [(QueryField.Zip, "")] "invalid blob" [] eq_refl)
      as (events & Hrun & -> & _); [| exact Hrun].
    now apply (InflateError _ _ _ _ _ _ _ _ _ _ _ _ _ _ "").
  - destruct (@updateState_aborts_atomically Sample.values Sample.env
                unit unit unit unit Sample.stepModules Sample.stepBeacons
                Sample.stepObjectives (λ _ _, Throw "corrupt item")
                Sample.stepRecipes Sample.stepRecipes Sample.stepSettings
                "1.1" [(QueryField.Item, "?")] "corrupt item" [] eq_refl)
      as (events & Hrun & -> & _); [| exact Hrun].
    eapply (ItemsError _ _ _ _ _ _ _ _ _ _ _ _ _ _ [(QueryField.Item, "?")]
              true Sample.hashes);
      [now apply QueryBare | reflexivity | reflexivity | reflexivity |
       reflexivity | reflexivity].
Defined.

(** ** The scenarios of the spec on the sample environment *)

Example compact_two_digits :
  Sample.nToId64 64 = "BA" ∧ Sample.idToN64 "BA" = 64%Z ∧
  Sample.nToId64 4095 = ".." ∧ Sample.idToN64 ".." = 4095%Z.
Proof. repeat split. Qed.

(** Scenario A of the spec on the sample codec: the selection [{b, c, d}]
    over [[a; b; c; d; e]] is the one range from position 1 to position 3. *)
Example scenario_A_token :
  @zipDiffSubset Sample.consts Sample.codec
    (val {["b"; "c"; "d"]}) (val ∅) ["a"; "b"; "c"; "d"; "e"]
    (Some ["a"; "b"; "c"; "d"; "e"]) = "B~D".
Proof. vm_compute. reflexivity. Qed.

(** Scenario A, read back. *)
Example scenario_A_decode :
  @parseSubset Sample.consts Sample.codec (val "B~D") ["a"; "b"; "c"; "d"; "e"]
  = val {["b"; "c"; "d"]}.
Proof. vm_compute. reflexivity. Qed.

(** Scenario B: an empty selection against a non-empty baseline. *)
Example scenario_B :
  @zipDiffSubset Sample.consts Sample.codec (val ∅) (val {["a"]}) ["a"] None = "=" ∧
  @parseSubset Sample.consts Sample.codec (val "=") ["a"] = val ∅.
Proof. split; vm_compute; reflexivity. Qed.

(** Scenario C: no selection and no baseline. *)
Example scenario_C :
  @zipDiffSubset Sample.consts Sample.codec null null ["a"] None = "" ∧
  @parseSubset Sample.consts Sample.codec (val "") ["a"] = undefined.
Proof. split; reflexivity. Qed.

(** * Further properties of the codec *)

(** ** [parseSubset] on arbitrary tokens *)

Lemma elem_of_slice_any {A} (l : list A) (start end_ : Z) (x : A) :
  x ∈ slice l start end_ → x ∈ l.
Proof.
  unfold slice. intros Hx. apply elem_of_take in Hx as (i & Hi & _).
  rewrite lookup_drop in Hi. eapply list_elem_of_lookup_2. exact Hi.
Qed.

Lemma elem_of_rangeSlice `{ZipConstants} `{IdCompaction} (hash : list string)
    (range x : string) :
  x ∈ rangeSlice hash range → x ∈ hash.
Proof.
  unfold rangeSlice.
  destruct (map idToN (split ZARRAYSEP range)) as [|s [|e rest]]; intros Hx.
  - inversion Hx.
  - eapply elem_of_slice_any. exact Hx.
  - eapply elem_of_slice_any. exact Hx.
Qed.

(** X1. Whatever the token, well formed or corrupt, [parseSubset] returns
    only ids of the dictionary it is given. *)
Theorem parseSubset_within_dictionary `{ZipConstants} `{IdCompaction}
    (value : Nullable string) (hash : list string) (decoded : gset string) :
  parseSubset value hash = val decoded → ∀ x, x ∈ decoded → x ∈ hash.
Proof.
  unfold parseSubset. destruct value as [| |s]; try discriminate.
  destruct (String.length s =? 0); [discriminate |].
  destruct (String.eqb s ZNULL); [discriminate |].
  destruct (String.eqb s ZEMPTY).
  - intros [= <-] x Hx. set_solver.
  - intros [= <-] x Hx. apply elem_of_fold_union in Hx as [Hx | (r & _ & Hx)].
    + set_solver.
    + eapply elem_of_rangeSlice. exact Hx.
Qed.

Lemma parseSubset_within_dictionary_witness :
  @parseSubset Sample.consts Sample.codec (val "B~Z*?") ["a"; "b"; "c"] =
    val {["b"; "c"]} ∧
  "c" ∈ ["a"; "b"; "c"].
Proof.
  assert (Hdecoded : @parseSubset Sample.consts Sample.codec (val "B~Z*?")
                       ["a"; "b"; "c"] = val {["b"; "c"]})
    by (vm_compute; reflexivity).
  split; [exact Hdecoded |].
  apply (@parseSubset_within_dictionary Sample.consts Sample.codec
           (val "B~Z*?") ["a"; "b"; "c"] {["b"; "c"]} Hdecoded "c").
  set_solver.
Defined.

(** ** The runs of [zipDiffSubset] are maximal *)

Lemma runsSeparated_snoc (rs : list Range) (r : Range) :
  runsSeparated rs → wfRange r →
  (∀ r', r' ∈ rs → rangeEnd r' + 1 < fst r) →
  runsSeparated (rs ++ [r]).
Proof.
  induction rs as [|r0 rs IH]; intros Hsep Hwf Hgap; simpl.
  - auto.
  - destruct Hsep as (Hwf0 & Hnext & Hrest). split; [exact Hwf0 |]. split.
    + destruct rs as [|r1 rs]; simpl.
      * apply Hgap. left.
      * exact Hnext.
    + apply IH; [exact Hrest | exact Hwf |].
      intros r' Hr'. apply Hgap. right. exact Hr'.
Qed.

Lemma runStep_gapped (allSet value : gset string) (i : nat) (a : Runs)
    (h : string) :
  h ∈ allSet → runsGapped i a → runsGapped (S i) (runStep allSet value a h i).
Proof.
  intros Hall [Hsep Hopen]. unfold runStep.
  rewrite (bool_decide_eq_true_2 _ Hall). simpl.
  destruct a as [done cur]. simpl in *.
  destruct (bool_decide (h ∈ value)).
  - destruct cur as [[s eo]|]; simpl.
    + destruct Hopen as (Hgap & Hwf & Hend). split; [exact Hsep |].
      split; [exact Hgap |].
      unfold wfRange, rangeEnd in *. simpl in *. destruct eo; simpl in *; lia.
    + split; [exact Hsep |]. split; [exact Hopen |].
      split; [exact I | reflexivity].
  - destruct cur as [r|]; simpl.
    + destruct Hopen as (Hgap & Hwf & Hend). split.
      * apply runsSeparated_snoc; assumption.
      * intros r' Hr'. apply elem_of_app in Hr' as [Hr' | Hr'].
        -- specialize (Hgap r' Hr').
           assert (fst r ≤ rangeEnd r)
             by (unfold wfRange, rangeEnd in *; destruct (snd r); lia).
           lia.
        -- apply list_elem_of_singleton in Hr'. subst r'. lia.
    + split; [exact Hsep |]. intros r' Hr'. specialize (Hopen r' Hr'). lia.
Qed.

Lemma runs_from_gapped (allSet value : gset string) :
  ∀ (hash : list string) (i : nat) (a : Runs),
    (∀ h, h ∈ hash → h ∈ allSet) → runsGapped i a →
    runsGapped (i + length hash) (runs_from allSet value hash i a).
Proof.
  induction hash as [|h hash IH]; intros i a Hall Hinv; simpl.
  - now rewrite Nat.add_0_r.
  - replace (i + S (length hash)) with (S i + length hash) by lia.
    apply IH.
    + intros h' Hh'. apply Hall. right. exact Hh'.
    + apply runStep_gapped; [apply Hall; left | exact Hinv].
Qed.

Lemma subsetRuns_separated (value : gset string) (all ref : list string) :
  (∀ h, h ∈ ref → h ∈ all) → runsSeparated (subsetRuns value all ref).
Proof.
  intros Hsub. unfold subsetRuns.
  destruct (runs_from_gapped (list_to_set all) value ref 0 ([], None))
    as [Hsep Hopen].
  - intros h Hh. apply elem_of_list_to_set. auto.
  - split; [exact I |]. intros r' Hr'. inversion Hr'.
  - destruct (runs_from _ _ _ _ _) as [done [r|]]; unfold flushed; simpl in *.
    + destruct Hopen as (Hgap & Hwf & _). now apply runsSeparated_snoc.
    + now rewrite app_nil_r.
Qed.

(** X2. When every id of the reference list is a member, the token of a
    non-empty selection is the list of the maximal runs of selected
    positions: it is the rendering of ranges that cover exactly the selected
    positions of [ref], in increasing order, and no two of them overlap or
    touch. *)
Theorem subset_token_maximal_runs `{ZipConstants} `{IdCompaction}
    (value : gset string) (init : Nullable (gset string))
    (all ref : list string) :
  (∀ h, h ∈ ref → h ∈ all) → value ≠ ∅ →
  ∃ rs : list Range,
    zipDiffSubset (val value) init all (Some ref) =
      join (sepStr ZFIELDSEP) (map render rs) ∧
    (∀ k, (∃ r, r ∈ rs ∧ covers r k) ↔ ∃ h, ref !! k = Some h ∧ h ∈ value) ∧
    runsSeparated rs.
Proof.
  intros Hsub Hne. exists (subsetRuns value all ref). split; [| split].
  - now apply zipDiffSubset_runs.
  - now apply subsetRuns_exact.
  - now apply subsetRuns_separated.
Qed.

Lemma subset_token_maximal_runs_witness :
  ∃ rs : list Range,
    @zipDiffSubset Sample.consts Sample.codec
      (val {["b"; "c"; "e"]}) undefined ["a"; "b"; "c"; "d"; "e"]
      (Some ["a"; "b"; "c"; "d"; "e"]) =
      join "*" (map (@render Sample.consts Sample.codec) rs) ∧
    (∀ k, (∃ r, r ∈ rs ∧ covers r k) ↔
          ∃ h, ["a"; "b"; "c"; "d"; "e"] !! k = Some h ∧
               h ∈ ({["b"; "c"; "e"]} : gset string)) ∧
    runsSeparated rs.
Proof.
  apply (@subset_token_maximal_runs Sample.consts Sample.codec).
  - intros h Hh. exact Hh.
  - set_solver.
Defined.

Example maximal_runs_token :
  @zipDiffSubset Sample.consts Sample.codec
    (val {["b"; "c"; "e"]}) undefined ["a"; "b"; "c"; "d"; "e"]
    (Some ["a"; "b"; "c"; "d"; "e"]) = "B~C*E".
Proof. vm_compute. reflexivity. Qed.

(** ** Decoding never drops a selected member *)

Lemma covers_wf_bound (r : Range) (k : nat) :
  wfRange r → covers r k → fst r ≤ k ≤ rangeEnd r.
Proof.
  destruct r as [s [e|]]; unfold wfRange, rangeEnd; simpl; intros; lia.
Qed.

Lemma runStep_cover_members (ref : list string) (allSet value : gset string)
    (i : nat) (a : Runs) (h : string) :
  ref !! i = Some h →
  runsCoverMembers ref allSet value i a →
  runsCoverMembers ref allSet value (S i) (runStep allSet value a h i).
Proof.
  intros Hi [Hcov Hopen]. unfold runStep. destruct a as [done cur].
  destruct (bool_decide_reflect (h ∈ allSet)) as [Hall | Hall]; simpl.
  - destruct (bool_decide_reflect (h ∈ value)) as [Hv | Hv].
    + destruct cur as [[s eo]|]; simpl in *.
      * destruct Hopen as [Hwf Hend]. split.
        -- intros k h' Hk Hh' Hall' Hv'.
           destruct (decide (k = i)) as [-> | Hne].
           ++ exists (s, Some i). split; [in_flushed |].
              unfold wfRange, rangeEnd in *. simpl in *.
              destruct eo; simpl in *; lia.
           ++ destruct (Hcov k h') as (r & Hr & Hc); [lia | assumption ..|].
              rewrite elem_of_flushed_open in Hr. destruct Hr as [Hr | ->].
              ** exists r. split; [in_flushed | exact Hc].
              ** exists (s, Some i). split; [in_flushed |].
                 pose proof (covers_wf_bound _ _ Hwf Hc) as Hb. simpl in *. lia.
        -- unfold wfRange, rangeEnd in *. simpl in *.
           destruct eo; simpl in *; lia.
      * split; [| unfold wfRange, rangeEnd; simpl; split; [exact I | lia]].
        intros k h' Hk Hh' Hall' Hv'.
        destruct (decide (k = i)) as [-> | Hne].
        -- exists (i, None). split; [in_flushed | reflexivity].
        -- destruct (Hcov k h') as (r & Hr & Hc); [lia | assumption ..|].
           rewrite elem_of_flushed_closed in Hr.
           exists r. split; [in_flushed | exact Hc].
    + assert (Hold : ∀ k h', k < S i → ref !! k = Some h' → h' ∈ allSet →
                h' ∈ value → ∃ r, r ∈ flushed (done, cur) ∧ covers r k).
      { intros k h' Hk Hh' Hall' Hv'.
        destruct (decide (k = i)) as [-> | Hne].
        - rewrite Hi in Hh'. injection Hh' as <-. contradiction.
        - apply (Hcov k h'); [lia | assumption ..]. }
      destruct cur as [r0|]; simpl in *; [| split; [exact Hold | exact I]].
      split; [| exact I]. intros k h' Hk Hh' Hall' Hv'.
      destruct (Hold k h' Hk Hh' Hall' Hv') as (r & Hr & Hc).
      exists r. split; [| exact Hc].
      rewrite elem_of_flushed_open in Hr. rewrite elem_of_flushed_closed.
      apply elem_of_app. rewrite list_elem_of_singleton. exact Hr.
  - split.
    + intros k h' Hk Hh' Hall' Hv'.
      destruct (decide (k = i)) as [-> | Hne].
      * rewrite Hi in Hh'. injection Hh' as <-. contradiction.
      * apply (Hcov k h'); [lia | assumption ..].
    + destruct cur as [r0|]; [| exact I]. simpl in *.
      destruct Hopen as [Hwf Hend]. split; [exact Hwf | lia].
Qed.

Lemma runs_from_cover_members (ref : list string) (allSet value : gset string) :
  ∀ (suf pre : list string) (a : Runs),
    ref = pre ++ suf →
    runsCoverMembers ref allSet value (length pre) a →
    runsCoverMembers ref allSet value (length ref)
      (runs_from allSet value suf (length pre) a).
Proof.
  induction suf as [|h suf IH]; intros pre a Href Hinv; simpl.
  - rewrite app_nil_r in Href. subst pre. exact Hinv.
  - replace (S (length pre)) with (length (pre ++ [h]))
      by (rewrite length_app; simpl; lia).
    apply IH.
    + rewrite Href, <- app_assoc. reflexivity.
    + rewrite length_app. simpl. replace (length pre + 1) with (S (length pre)) by lia.
      apply runStep_cover_members; [| exact Hinv].
      rewrite Href. rewrite lookup_app_r by lia.
      now replace (length pre - length pre) with 0 by lia.
Qed.

Lemma subsetRuns_cover_members (value : gset string) (all ref : list string)
    (k : nat) (h : string) :
  ref !! k = Some h → h ∈ all → h ∈ value →
  ∃ r, r ∈ subsetRuns value all ref ∧ covers r k.
Proof.
  intros Hk Hall Hv. unfold subsetRuns.
  destruct (runs_from_cover_members ref (list_to_set all) value ref [] ([], None)
              eq_refl) as [Hcov _].
  - split; [| exact I]. simpl. intros; lia.
  - apply (Hcov k h); [| exact Hk | | exact Hv].
    + now apply lookup_lt_Some in Hk.
    + now apply elem_of_list_to_set.
Qed.

Section SubsetSuperset.
Context `{ZipConstants} `{IdCompaction}.
Hypothesis sentinels_ok : SentinelsOk.
Hypothesis id_contract : IdContract.

(** X3. For any membership set and any reference list: when the selection
    has a member of the list, [parseSubset] reads the token of
    [zipDiffSubset] back as a set that contains every selected member of
    the list and only ids of the list. Decoding may add ids; it never drops
    a selected member. *)
Theorem subset_decode_keeps_members (value : gset string)
    (init : Nullable (gset string)) (all ref : list string) (h0 : string) :
  h0 ∈ ref → h0 ∈ all → h0 ∈ value →
  ∃ decoded : gset string,
    parseSubset (val (zipDiffSubset (val value) init all (Some ref))) ref =
      val decoded ∧
    (∀ h, h ∈ ref → h ∈ all → h ∈ value → h ∈ decoded) ∧
    (∀ h, h ∈ decoded → h ∈ ref).
Proof.
  intros Href0 Hall0 Hv0.
  assert (Hne : value ≠ ∅) by set_solver.
  rewrite zipDiffSubset_runs by exact Hne.
  destruct (parseSubset_runs sentinels_ok id_contract ref
              (subsetRuns value all ref)) as (decoded & Hparse & Hdec).
  { apply list_elem_of_lookup in Href0 as [k Hk].
    destruct (subsetRuns_cover_members value all ref k h0 Hk Hall0 Hv0)
      as (r & Hr & _).
    intros Hnil. rewrite Hnil in Hr. inversion Hr. }
  exists decoded. split; [exact Hparse |]. split.
  - intros h Href Hall Hv. apply list_elem_of_lookup in Href as [k Hk].
    destruct (subsetRuns_cover_members value all ref k h Hk Hall Hv)
      as (r & Hr & Hc).
    apply Hdec. eauto.
  - intros h Hh. apply Hdec in Hh as (r & k & _ & _ & Hk).
    eapply list_elem_of_lookup_2. exact Hk.
Qed.

End SubsetSuperset.

Lemma subset_decode_keeps_members_witness :
  ∃ decoded : gset string,
    @parseSubset Sample.consts Sample.codec
      (val (@zipDiffSubset Sample.consts Sample.codec
              (val {["x"; "z"]}) undefined ["x"; "z"] (Some ["x"; "y"; "z"])))
      ["x"; "y"; "z"] = val decoded ∧
    (∀ h, h ∈ ["x"; "y"; "z"] → h ∈ ["x"; "z"] →
          h ∈ ({["x"; "z"]} : gset string) → h ∈ decoded) ∧
    (∀ h, h ∈ decoded → h ∈ ["x"; "y"; "z"]).
Proof.
  apply (@subset_decode_keeps_members Sample.consts Sample.codec
           SampleFacts.sentinels_ok SampleFacts.id_contract
           {["x"; "z"]} undefined ["x"; "z"] ["x"; "y"; "z"] "x");
    set_solver.
Defined.

(** ** The record of [zipFields], read by position *)

(** Two sub-fields that the parsers cannot tell apart: the same, or both
    empty or missing. *)
Lemma stripStars_fields_empty (fs : list string) (i : nat) :
  Forall (λ x, occurs "*" x = false) fs →
  stripStars (join "*" fs) = EmptyString →
  at_ fs i = undefined ∨ at_ fs i = val EmptyString.
Proof.
  revert i. induction fs as [|x fs IH]; intros i Hall Hstrip.
  - left. reflexivity.
  - apply Forall_cons in Hall as [Hx Hfs]. destruct fs as [|y fs].
    + simpl in Hstrip. rewrite (stripStars_no_star _ Hx) in Hstrip. subst x.
      destruct i; [right | left]; reflexivity.
    + change (join "*" (x :: y :: fs))
        with (x +:+ String "*" (join "*" (y :: fs))) in Hstrip.
      rewrite (stripStars_app_star _ _ Hx) in Hstrip.
      destruct (stripStars (join "*" (y :: fs))) eqn:Hrest.
      * subst x. destruct i as [|i]; [right; reflexivity |].
        apply (IH i Hfs eq_refl).
      * destruct x; discriminate.
Qed.

Lemma record_positions (fs : list string) :
  Forall (λ x, occurs "*" x = false) fs →
  ∀ i, at_ (split "*" (stripStars (join "*" fs))) i = at_ fs i ∨
       ((at_ (split "*" (stripStars (join "*" fs))) i = undefined ∨
         at_ (split "*" (stripStars (join "*" fs))) i = val EmptyString) ∧
        (at_ fs i = undefined ∨ at_ fs i = val EmptyString)).
Proof.
  induction fs as [|x fs IH]; intros Hall i.
  - right. simpl. destruct i; auto.
  - apply Forall_cons in Hall as [Hx Hfs]. destruct fs as [|y fs].
    + simpl. rewrite (stripStars_no_star _ Hx), (split_no_sep _ _ Hx). auto.
    + change (join "*" (x :: y :: fs))
        with (x +:+ String "*" (join "*" (y :: fs))).
      rewrite (stripStars_app_star _ _ Hx).
      destruct (stripStars (join "*" (y :: fs))) as [|c r] eqn:Hrest.
      * rewrite (split_no_sep _ _ Hx). destruct i as [|i]; [left; reflexivity |].
        right. split; [left; reflexivity |].
        apply (stripStars_fields_empty (y :: fs) i Hfs Hrest).
      * rewrite (split_app_sep _ _ _ Hx). destruct i as [|i]; [left; reflexivity |].
        specialize (IH Hfs i). rewrite ?Hrest in IH. exact IH.
Qed.

Section RecordPositions.
Context `{ZipConstants} `{IdCompaction} `{JsValues}.
Hypothesis fieldsep_star : ZFIELDSEP = "*"%char.

Lemma present_positions (fs : list string) (i : nat) :
  Forall (λ x, occurs ZFIELDSEP x = false) fs →
  present (at_ (split ZFIELDSEP (zipFields fs)) i) = present (at_ fs i).
Proof.
  unfold zipFields, sepStr. rewrite fieldsep_star. intros Hall.
  destruct (record_positions fs Hall i) as [-> | [[-> | ->] [-> | ->]]];
    reflexivity.
Qed.

(** X4. Trimming is invisible to the parsers: for sub-fields without the
    field separator, every parser of a record sub-field reads position [i]
    of the split record of [zipFields] exactly as it reads sub-field [i] of
    the list that was joined, whether that sub-field was kept, trimmed
    away, or never there. *)
Theorem zipFields_read_by_position (fs : list string) (i : nat)
    (hash : option (list string)) (useNNumber : bool) :
  Forall (λ x, occurs ZFIELDSEP x = false) fs →
  parseString (at_ (split ZFIELDSEP (zipFields fs)) i) hash =
    parseString (at_ fs i) hash ∧
  parseBool (at_ (split ZFIELDSEP (zipFields fs)) i) = parseBool (at_ fs i) ∧
  parseNumber (at_ (split ZFIELDSEP (zipFields fs)) i) useNNumber =
    parseNumber (at_ fs i) useNNumber ∧
  parseRational (at_ (split ZFIELDSEP (zipFields fs)) i) =
    parseRational (at_ fs i) ∧
  parseArray (at_ (split ZFIELDSEP (zipFields fs)) i) hash =
    parseArray (at_ fs i) hash.
Proof.
  intros Hall. pose proof (present_positions fs i Hall) as Hp.
  unfold parseString, parseNString, parseString_bare, parseBool, parseNumber,
    parseNNumber, parseRational, parseArray, parseNArray, parseArray_bare.
  rewrite Hp. repeat split.
Qed.

End RecordPositions.

Lemma zipFields_read_by_position_witness :
  @parseString Sample.consts Sample.codec
    (at_ (split "*" (@zipFields Sample.consts ["iron-plate"; ""; "coal"; ""; ""])) 3)
    None = undefined ∧
  @parseString Sample.consts Sample.codec
    (at_ (split "*" (@zipFields Sample.consts ["iron-plate"; ""; "coal"; ""; ""])) 2)
    None = val "coal".
Proof.
  destruct (@zipFields_read_by_position Sample.consts Sample.codec Sample.values
              eq_refl ["iron-plate"; ""; "coal"; ""; ""] 3 None false)
    as (H3 & _); [repeat constructor |].
  destruct (@zipFields_read_by_position Sample.consts Sample.codec Sample.values
              eq_refl ["iron-plate"; ""; "coal"; ""; ""] 2 None false)
    as (H2 & _); [repeat constructor |].
  split; [exact H3 | exact H2].
Defined.

(** ** Round trips of the primitive and diff codecs *)

Lemma indexOf_from_elem (l : list string) (x : string) :
  ∀ i0 : Z, x ∈ l →
    (i0 ≤ indexOf_from l x i0)%Z ∧
    l !! Z.to_nat (indexOf_from l x i0 - i0) = Some x.
Proof.
  induction l as [|y l IH]; intros i0 Hin; [inversion Hin |].
  simpl. destruct (String.eqb_spec y x) as [-> | Hne].
  - split; [lia |]. now replace (i0 - i0)%Z with 0%Z by lia.
  - apply elem_of_cons in Hin as [-> | Hin]; [congruence |].
    destruct (IH (i0 + 1)%Z Hin) as [Hle Hlook]. split; [lia |].
    replace (Z.to_nat (indexOf_from l x (i0 + 1) - i0))
      with (S (Z.to_nat (indexOf_from l x (i0 + 1) - (i0 + 1)))) by lia.
    exact Hlook.
Qed.

Lemma indexOf_elem (l : list string) (x : string) :
  x ∈ l → (0 ≤ indexOf l x)%Z ∧ atZ l (indexOf l x) = val x.
Proof.
  intros Hin. destruct (indexOf_from_elem l x 0 Hin) as [Hle Hlook].
  unfold indexOf. split; [exact Hle |]. unfold atZ, at_.
  destruct (Z.ltb_spec (indexOf_from l x 0) 0); [lia |].
  rewrite Z.sub_0_r in Hlook. now rewrite Hlook.
Qed.

Lemma strictEq_false {A} (eqb : A → A → bool) (a : A) (b : Nullable A) :
  (∀ x y, eqb x y = true → x = y) → val a ≠ b → strictEq eqb (val a) b = false.
Proof.
  intros Heqb Hne. destruct b as [| |b]; simpl; try reflexivity.
  destruct (eqb a b) eqn:Hab; [| reflexivity].
  apply Heqb in Hab. congruence.
Qed.

Lemma occurs_join_head (c : ascii) (sep t : string) (rest : list string) :
  occurs c t = true → occurs c (join sep (t :: rest)) = true.
Proof.
  intros Hc. destruct rest as [|u rest]; [exact Hc |].
  change (join sep (t :: u :: rest)) with (t +:+ sep +:+ join sep (u :: rest)).
  rewrite occurs_app, Hc. reflexivity.
Qed.

Section RoundTrips.
Context `{ZipConstants} `{IdCompaction} `{JsValues}.
Hypothesis id_contract : IdContract.

(** A compacted id, or a list of compacted ids joined by the array
    separator, is a non-empty text other than the sentinels. *)
Lemma ids_text_present (n : Z) (rest : list string) :
  (0 ≤ n)%Z →
  present (val (join (sepStr ZARRAYSEP) (nToId n :: rest))) =
    Some (join (sepStr ZARRAYSEP) (nToId n :: rest)) ∧
  join (sepStr ZARRAYSEP) (nToId n :: rest) ≠ ZEMPTY.
Proof.
  intros Hn. set (text := join (sepStr ZARRAYSEP) (nToId n :: rest)).
  destruct (occurs_nonempty (nToId n)) as [c Hc].
  { now apply (compact_nonempty id_contract). }
  pose proof (occurs_join_head c (sepStr ZARRAYSEP) _ rest Hc) as Htext.
  fold text in Htext.
  destruct (compact_alphabet id_contract n c Hn Hc) as (_ & _ & Hnull & Hempty).
  assert (Hne : text ≠ EmptyString) by (intros Heq; rewrite Heq in Htext; discriminate).
  assert (Hnn : text ≠ ZNULL) by (intros Heq; rewrite Heq in Htext; congruence).
  split; [now apply present_other |].
  intros Heq. rewrite Heq in Htext. congruence.
Qed.

Lemma parseNString_zipNString (s : string) (hash : list string) :
  s ∈ hash → parseNString (val (zipNString (val s) hash)) hash = val s.
Proof.
  intros Hin. destruct (indexOf_elem hash s Hin) as [Hidx Hat].
  destruct (ids_text_present (indexOf hash s) [] Hidx) as [Hp _].
  unfold parseNString, parseString_bare, zipNString. cbn [join] in Hp. rewrite Hp.
  now rewrite (expand_compact id_contract) by exact Hidx.
Qed.

(** X5. Strings round trip through both containers. A present string that
    is not empty and not the null sentinel is read back from its bare text;
    a string of the dictionary is read back from its compacted index; an
    omitted string stays omitted; and the two components of
    [zipDiffString] both decode to the value. *)
Theorem string_round_trip (hash : list string) :
  (∀ s, s ≠ EmptyString → s ≠ ZNULL →
     parseString (val (zipString (val s))) None = val s) ∧
  parseString (val (zipString undefined)) None = undefined ∧
  (∀ s, s ∈ hash →
     parseString (val (zipNString (val s) hash)) (Some hash) = val s) ∧
  parseString (val (zipNString undefined hash)) (Some hash) = undefined ∧
  (∀ s init, val s ≠ init →
     ∃ b h, zipDiffString (val s) init hash = Pair b h ∧
       (s ≠ EmptyString → s ≠ ZNULL → parseString (val b) None = val s) ∧
       (s ∈ hash → parseString (val h) (Some hash) = val s)).
Proof.
  split; [| split; [| split; [| split]]].
  - intros s Hne Hnn. unfold parseString, parseString_bare, zipString.
    now rewrite (present_other _ Hne Hnn).
  - reflexivity.
  - intros s Hin. now apply parseNString_zipNString.
  - reflexivity.
  - intros s init Hdiff. unfold zipDiffString.
    rewrite strictEq_false; [| apply String.eqb_eq | exact Hdiff].
    eexists _, _. split; [reflexivity |]. split.
    + intros Hne Hnn. unfold parseString, parseString_bare.
      now rewrite (present_other _ Hne Hnn).
    + intros Hin. apply (parseNString_zipNString s hash Hin).
Qed.

(** X6. A non-empty array that differs from its baseline round trips
    through both components of [zipDiffArray]: the bare text gives the
    array back when no element holds the array separator and the text is
    not empty and not a sentinel; the hashed text gives it back when every
    element is in the dictionary. *)
Theorem array_round_trip (l : list string) (init : Nullable (list string))
    (hash : list string) :
  l ≠ [] → zArr (val l) ≠ zArr init →
  ∃ b h, zipDiffArray (val l) init hash = Pair b h ∧
    (Forall (λ x, occurs ZARRAYSEP x = false) l →
     b ≠ EmptyString → b ≠ ZNULL → b ≠ ZEMPTY →
     parseArray (val b) None = val (map val l)) ∧
    (Forall (λ x, x ∈ hash) l →
     parseArray (val h) (Some hash) = val (map val l)).
Proof.
  intros Hnil Hdiff. unfold zipDiffArray.
  rewrite (string_eqb_false _ _ Hdiff).
  eexists _, _. split; [reflexivity |].
  assert (Hlen : Nat.ltb 0 (length l) = true)
    by (destruct l; [congruence | reflexivity]).
  split.
  - intros Hsep Hne Hnn Hnempty. unfold zArr in *. rewrite Hlen in *.
    change (map toString l) with (map (λ x : string, x) l) in *.
    rewrite map_id in *.
    unfold parseArray, parseArray_bare.
    rewrite (present_other _ Hne Hnn), (string_eqb_false _ _ Hnempty).
    rewrite split_join; [reflexivity | exact Hnil | exact Hsep].
  - intros Hin. destruct l as [|x l]; [congruence |].
    apply Forall_cons in Hin as [Hx Hl].
    destruct (indexOf_elem hash x Hx) as [Hidx _].
    destruct (ids_text_present (indexOf hash x)
                (map (λ v, nToId (indexOf hash v)) l) Hidx) as [Hp Hnempty].
    unfold parseArray, parseNArray, parseArray_bare.
    change (map (λ v, nToId (indexOf hash v)) (x :: l))
      with (nToId (indexOf hash x) :: map (λ v, nToId (indexOf hash v)) l).
    rewrite Hp, (string_eqb_false _ _ Hnempty).
    rewrite <- (map_cons (λ v, nToId (indexOf hash v))).
    rewrite split_join.
    + f_equal. rewrite map_map. apply map_ext_in. intros v Hv.
      apply list_elem_of_In in Hv.
      assert (Hvh : v ∈ hash).
      { apply elem_of_cons in Hv as [-> | Hv]; [exact Hx |].
        rewrite Forall_forall in Hl. now apply Hl. }
      destruct (indexOf_elem hash v Hvh) as [Hvi Hat].
      now rewrite (expand_compact id_contract) by exact Hvi.
    + discriminate.
    + apply Forall_forall. intros t Ht.
      apply list_elem_of_fmap in Ht as (v & -> & Hv).
      assert (Hvh : v ∈ hash).
      { apply elem_of_cons in Hv as [-> | Hv]; [exact Hx |].
        rewrite Forall_forall in Hl. now apply Hl. }
      destruct (indexOf_elem hash v Hvh) as [Hvi _].
      destruct (occurs ZARRAYSEP (nToId (indexOf hash v))) eqn:Hocc; [| reflexivity].
      apply (compact_alphabet id_contract) in Hocc; [| exact Hvi].
      destruct Hocc as (_ & Hsep & _). congruence.
Qed.

End RoundTrips.

Lemma string_round_trip_witness :
  @parseString Sample.consts Sample.codec
    (val (@zipNString Sample.codec (val "coal") (items Sample.hashes)))
    (Some (items Sample.hashes)) = val "coal".
Proof.
  destruct (@string_round_trip Sample.consts Sample.codec
              SampleFacts.id_contract (items Sample.hashes))
    as (_ & _ & Hdict & _).
  apply Hdict. set_solver.
Defined.

Lemma array_round_trip_witness :
  ∃ b h,
    @zipDiffArray Sample.consts Sample.codec (val ["wood"; "coal"]) undefined
      (fuels Sample.hashes) = Pair b h ∧
    (Forall (λ x, occurs "~" x = false) ["wood"; "coal"] →
     b ≠ EmptyString → b ≠ "?" → b ≠ "=" →
     @parseArray Sample.consts Sample.codec (val b) None =
       val [val "wood"; val "coal"]) ∧
    (Forall (λ x, x ∈ fuels Sample.hashes) ["wood"; "coal"] →
     @parseArray Sample.consts Sample.codec (val h) (Some (fuels Sample.hashes)) =
       val [val "wood"; val "coal"]).
Proof.
  apply (@array_round_trip Sample.consts Sample.codec SampleFacts.id_contract
           ["wood"; "coal"] undefined (fuels Sample.hashes));
    discriminate.
Defined.

Example array_round_trip_texts :
  @zipDiffArray Sample.consts Sample.codec (val ["wood"; "coal"]) undefined
    (fuels Sample.hashes) = Pair "wood~coal" "B~A".
Proof. reflexivity. Qed.

Section BoolRoundTrip.
Context `{ZipConstants}.
Hypothesis markers_differ : ZTRUE ≠ ZFALSE.
Hypothesis ztrue_present : ZTRUE ≠ EmptyString ∧ ZTRUE ≠ ZNULL.
Hypothesis zfalse_present : ZFALSE ≠ EmptyString ∧ ZFALSE ≠ ZNULL.

(** X7. A boolean round trips against its baseline: a value that differs
    from the baseline is read back from its marker, a value equal to the
    baseline is omitted and reads back as [undefined], so that the decoded
    field, with the baseline as the default, is always the value. *)
Theorem bool_round_trip (value init : bool) :
  (value ≠ init → parseBool (val (zipDiffBool value init)) = val value) ∧
  (value = init → parseBool (val (zipDiffBool value init)) = undefined) ∧
  coalesce (parseBool (val (zipDiffBool value init))) init = value.
Proof.
  destruct ztrue_present as [Ht1 Ht2]. destruct zfalse_present as [Hf1 Hf2].
  assert (Htrue : parseBool (val ZTRUE) = val true).
  { unfold parseBool. rewrite (present_other _ Ht1 Ht2).
    now rewrite String.eqb_refl. }
  assert (Hfalse : parseBool (val ZFALSE) = val false).
  { unfold parseBool. rewrite (present_other _ Hf1 Hf2).
    rewrite string_eqb_false; [reflexivity | congruence]. }
  unfold zipDiffBool.
  destruct value, init; simpl; rewrite ?Htrue, ?Hfalse;
    repeat split; intros; congruence.
Qed.

End BoolRoundTrip.

Lemma bool_round_trip_witness :
  @parseBool Sample.consts (val (@zipDiffBool Sample.consts true false)) = val true.
Proof.
  assert (Hmarkers : @ZTRUE Sample.consts ≠ @ZFALSE Sample.consts) by discriminate.
  assert (Htrue : @ZTRUE Sample.consts ≠ EmptyString ∧
                  @ZTRUE Sample.consts ≠ @ZNULL Sample.consts)
    by (split; discriminate).
  assert (Hfalse : @ZFALSE Sample.consts ≠ EmptyString ∧
                   @ZFALSE Sample.consts ≠ @ZNULL Sample.consts)
    by (split; discriminate).
  apply (@bool_round_trip Sample.consts Hmarkers Htrue Hfalse true false).
  discriminate.
Defined.

(** ** Objectives: one record per objective, numbered from 1 *)

Lemma getAll_app (p q : ParamMap) (key : QueryField.t) :
  getAll (p ++ q) key = getAll p key ++ getAll q key.
Proof.
  unfold getAll, ParamMap, URLSearchParams in *.
  now rewrite filter_app, map_app.
Qed.

Lemma getAll_same (key : QueryField.t) (values : list string) :
  getAll (map (λ v, (key, v)) values) key = values.
Proof.
  unfold getAll, ParamMap, URLSearchParams in *.
  induction values as [|v values IH]; [reflexivity |].
  simpl. rewrite filter_cons. simpl.
  destruct (decide (QueryField.eqb key key = true)) as [_ | Hne].
  - simpl. now rewrite IH.
  - destruct key; simpl in Hne; congruence.
Qed.

Lemma natToString_inj (n m : nat) : natToString n = natToString m → n = m.
Proof.
  unfold natToString. intros Heq.
  assert (Hsome : ∀ k, NilZero.uint_of_string
                         (NilZero.string_of_uint (Nat.to_uint k)) =
                       Some (Nat.to_uint k)).
  { intros k. apply NilZero.usu. destruct k; [discriminate |].
    intros Hnil. apply (f_equal Nat.of_uint) in Hnil.
    rewrite DecimalNat.Unsigned.of_to in Hnil. discriminate. }
  apply (f_equal NilZero.uint_of_string) in Heq.
  rewrite !Hsome in Heq. injection Heq as Heq.
  apply (f_equal Nat.of_uint) in Heq. now rewrite !DecimalNat.Unsigned.of_to in Heq.
Qed.

Section ObjectivesList.
Context `{ZipConstants} `{IdCompaction} `{JsValues}.
Variable isRecipeObjective : Objective → bool.

Lemma zipObjective_settings (data data' : ZipData) (hash : ModHash)
    (obj : Objective) :
  objectiveSettings data' = objectiveSettings data →
  zipObjective isRecipeObjective data' hash obj =
  zipObjective isRecipeObjective data hash obj.
Proof. intros Heq. unfold zipObjective. now rewrite Heq. Qed.


(** The loop of [unzipObjectives] from the index [n + 1], having numbered
    [n] records. *)
Lemma unzipObjectives_loop_numbering (ms : list ModuleSettings)
    (bs : list BeaconSettings) (hash : option ModHash) :
  ∀ (records : list string) (n : nat) (st : ObjectivesState),
    ids st = map natToString (seq 1 n) → index st = S n →
    (∀ id, id ∉ ids st → entities st !! id = None) →
    let st' := unzipObjectives_loop isRecipeObjective ms bs hash records st in
    ids st' = map natToString (seq 1 (n + length records)) ∧
    index st' = S (n + length records) ∧
    (∀ id, id ∉ ids st' → entities st' !! id = None) ∧
    (∀ k, k < n → entities st' !! natToString (S k) =
                  entities st !! natToString (S k)) ∧
    (∀ k record, records !! k = Some record →
       entities st' !! natToString (S (n + k)) =
       Some (unzipObjective isRecipeObjective ms bs hash (S (n + k)) record)).
Proof.
  induction records as [|record records IH]; intros n st Hids Hindex Hdom.
  - simpl. rewrite Nat.add_0_r. repeat split; auto. intros k r Hk. inversion Hk.
  - simpl.
    set (st1 := {| ids := ids st ++ [natToString (index st)];
                   index := S (index st);
                   entities := <[natToString (index st) :=
                       unzipObjective isRecipeObjective ms bs hash (index st) record]>
                     (entities st) |}).
    assert (Hids1 : ids st1 = map natToString (seq 1 (S n))).
    { unfold st1. cbn [ids]. rewrite Hids, Hindex.
      rewrite seq_S, map_app. reflexivity. }
    assert (Hindex1 : index st1 = S (S n)) by (simpl; now rewrite Hindex).
    assert (Hdom1 : ∀ id, id ∉ ids st1 → entities st1 !! id = None).
    { intros id Hid. simpl in *. rewrite not_elem_of_app in Hid.
      destruct Hid as [Hid Hne]. rewrite lookup_insert_ne; [now apply Hdom |].
      intros Heq. apply Hne. rewrite Heq. left. }
    destruct (IH (S n) st1 Hids1 Hindex1 Hdom1) as (Hi & Hx & Hd & Hold & Hnew).
    replace (n + S (length records)) with (S n + length records) by lia.
    split; [exact Hi |]. split; [exact Hx |]. split; [exact Hd |]. split.
    + intros k Hk. rewrite Hold by lia. simpl.
      rewrite lookup_insert_ne; [reflexivity |].
      rewrite Hindex. intros Heq. apply natToString_inj in Heq. lia.
    + intros k r Hk. destruct k as [|k].
      * injection Hk as <-. rewrite Nat.add_0_r. rewrite Hold by lia.
        simpl. rewrite Hindex. now rewrite lookup_insert_eq.
      * replace (n + S k) with (S n + k) by lia. now apply Hnew.
Qed.

(** X9. [unzipObjectives] numbers the objective records from 1: for [n]
    records (at least one) the ids are the decimal texts of 1 to [n] in
    order, the next index is [n + 1], the entity under the text of [k + 1]
    is the objective read from record [k] with that text as its id, and no
    other id has an entity. *)
Theorem unzipObjectives_numbering (params : ParamMap)
    (ms : list ModuleSettings) (bs : list BeaconSettings)
    (hash : option ModHash) :
  getAll params QueryField.Objective ≠ [] →
  ∃ st,
    unzipObjectives isRecipeObjective params ms bs hash = val st ∧
    ids st =
      map natToString (seq 1 (length (getAll params QueryField.Objective))) ∧
    index st = S (length (getAll params QueryField.Objective)) ∧
    (∀ k record, getAll params QueryField.Objective !! k = Some record →
       ∃ obj,
         entities st !! natToString (S k) = Some obj ∧
         obj = unzipObjective isRecipeObjective ms bs hash (S k) record ∧
         o_id obj = natToString (S k)) ∧
    (∀ id, id ∉ ids st → entities st !! id = None).
Proof.
  intros Hne. unfold unzipObjectives.
  destruct (getAll params QueryField.Objective) as [|r records] eqn:Hrec;
    [congruence |].
  simpl length. simpl Nat.eqb. cbv iota.
  eexists. split; [reflexivity |].
  destruct (unzipObjectives_loop_numbering ms bs hash (r :: records) 0
              {| ids := []; index := 1; entities := ∅ |}
              eq_refl eq_refl (λ id _, lookup_empty id))
    as (Hi & Hx & Hd & _ & Hnew).
  split; [exact Hi |]. split; [exact Hx |]. split; [| exact Hd].
  intros k record Hk. eexists. split; [apply (Hnew k record Hk) |].
  split; [reflexivity |].
  unfold unzipObjective, prune. destruct hash; reflexivity.
Qed.

End ObjectivesList.

Lemma unzipObjectives_numbering_witness :
  ∃ st,
    @unzipObjectives Sample.consts Sample.codec Sample.values Sample.isRecipe
      [(QueryField.Objective, "iron-plate"); (QueryField.Item, "coal*A");
       (QueryField.Objective, "coal*2")] [] [] None = val st ∧
    ids st = ["1"; "2"] ∧ index st = 3.
Proof.
  destruct (@unzipObjectives_numbering Sample.consts Sample.codec
              Sample.values Sample.isRecipe
              [(QueryField.Objective, "iron-plate"); (QueryField.Item, "coal*A");
               (QueryField.Objective, "coal*2")] [] [] None)
    as (st & Hst & Hids & Hindex & _).
  - vm_compute. discriminate.
  - exists st. split; [exact Hst |]. split; [exact Hids | exact Hindex].
Defined.

(** ** Items: the records of [zipItems] read back by [unzipItems] *)

Lemma fold_left_insert_list_to_map {V} (l : list (string * V)) :
  NoDup l.*1 →
  fold_left (λ (m : gmap string V) e, <[fst e := snd e]> m) l ∅ =
  list_to_map l.
Proof.
  intros Hnd.
  assert (Hgen : ∀ (l' : list (string * V)) (m : gmap string V),
            fold_left (λ (m : gmap string V) e, <[fst e := snd e]> m) l' m =
            foldr (λ e (m : gmap string V), <[fst e := snd e]> m) m (reverse l')).
  { induction l' as [|e l' IH]; intros m; [reflexivity |].
    simpl. rewrite IH, reverse_cons, foldr_app. reflexivity. }
  rewrite Hgen.
  transitivity (list_to_map (reverse l) : gmap string V).
  - generalize (reverse l). intros r. induction r as [|[k v] r IH]; [reflexivity |].
    simpl. now rewrite IH.
  - apply list_to_map_proper.
    + rewrite fmap_reverse, reverse_Permutation. exact Hnd.
    + apply reverse_Permutation.
Qed.

(** Assignments under ids other than ['__proto__'] store own properties
    and leave the prototype alone. *)
Lemma fold_left_assign_own {V} (l : list (string * V)) (e : Entities V) :
  Forall (λ kv, fst kv ≠ "__proto__") l →
  fold_left (λ (entities : Entities V) kv, assign entities (fst kv) (snd kv))
    l e =
  {| ownEntries :=
       fold_left (λ (m : gmap string V) kv, <[fst kv := snd kv]> m) l
         (ownEntries e);
     replacedProto := replacedProto e |}.
Proof.
  intros Hall. revert e.
  induction Hall as [|[k v] l Hk Hall IH]; intros e; [now destruct e |].
  cbn [fold_left fst snd] in *. rewrite IH. unfold assign.
  apply String.eqb_neq in Hk. now rewrite Hk.
Qed.

Lemma fold_left_assign_list_to_map {V} (l : list (string * V)) :
  NoDup l.*1 → Forall (λ kv, fst kv ≠ "__proto__") l →
  fold_left (λ (entities : Entities V) kv, assign entities (fst kv) (snd kv))
    l emptyEntities =
  {| ownEntries := list_to_map l; replacedProto := None |}.
Proof.
  intros Hnd Hall. rewrite (fold_left_assign_own l _ Hall).
  cbn [emptyEntities ownEntries replacedProto].
  now rewrite (fold_left_insert_list_to_map l Hnd).
Qed.

Lemma fold_left_map {A B C} (f : C → B → C) (g : A → B) (l : list A) (c : C) :
  fold_left f (map g l) c = fold_left (λ c a, f c (g a)) l c.
Proof. revert c. induction l as [|a l IH]; intros c; simpl; [reflexivity | apply IH]. Qed.

Section Items.
Context `{ZipConstants} `{IdCompaction} `{JsValues}.
Hypothesis fieldsep_star : ZFIELDSEP = "*"%char.
Hypothesis id_contract : IdContract.

Lemma plainText_present (s : string) : plainText s → present (val s) = Some s.
Proof. intros (Hne & Hnull & _). now apply present_other. Qed.

Lemma plainOpt_no_sep (v : Nullable string) :
  plainOpt v → occurs ZFIELDSEP (zipString v) = false.
Proof. intros [-> | (s & -> & _ & _ & Hs)]; [reflexivity | exact Hs]. Qed.

Lemma plainOpt_read (v : Nullable string) :
  plainOpt v → parseString_bare (val (zipString v)) = v.
Proof.
  intros [-> | (s & -> & Hs)]; [reflexivity |].
  unfold parseString_bare. cbn [zipString]. now rewrite (plainText_present s Hs).
Qed.

Lemma compact_no_sep (n : Z) : (0 ≤ n)%Z → occurs ZFIELDSEP (nToId n) = false.
Proof.
  intros Hn. destruct (occurs ZFIELDSEP (nToId n)) eqn:Hocc; [| reflexivity].
  destruct (compact_alphabet id_contract n ZFIELDSEP Hn Hocc) as [Hne _].
  congruence.
Qed.

Lemma inDictionary_no_sep (hash : list string) (v : Nullable string) :
  inDictionary hash v → occurs ZFIELDSEP (zipNString v hash) = false.
Proof.
  intros [-> | (s & -> & Hin)]; [reflexivity |].
  apply compact_no_sep. now apply indexOf_elem.
Qed.

Lemma inDictionary_read (hash : list string) (v : Nullable string) :
  inDictionary hash v → parseNString (val (zipNString v hash)) hash = v.
Proof.
  intros [-> | (s & -> & Hin)]; [reflexivity |].
  now apply parseNString_zipNString.
Qed.

(** A sub-field of a record of [zipFields] is parsed as the text that was
    joined at its position. *)
Lemma parseString_bare_position (fs : list string) (i : nat) :
  Forall (λ x, occurs ZFIELDSEP x = false) fs →
  parseString_bare (at_ (split ZFIELDSEP (zipFields fs)) i) =
  parseString_bare (at_ fs i).
Proof.
  intros Hall. unfold parseString_bare.
  now rewrite (present_positions fieldsep_star fs i Hall).
Qed.

Lemma parseNString_position (fs : list string) (i : nat) (hash : list string) :
  Forall (λ x, occurs ZFIELDSEP x = false) fs →
  parseNString (at_ (split ZFIELDSEP (zipFields fs)) i) hash =
  parseNString (at_ fs i) hash.
Proof.
  intros Hall. unfold parseNString. now rewrite parseString_bare_position.
Qed.

Lemma unzipItem_bare (hash : ModHash) (i : string) (obj : ItemSettings) :
  plainText i → plainOpt (i_beltId obj) → plainOpt (i_wagonId obj) →
  unzipItem None (Zip.bare (zipItem hash i obj)) = (i, obj).
Proof.
  intros Hi Hb Hw. unfold unzipItem, zipItem, prune. cbn [Zip.bare fmap option_fmap option_map parseString].
  assert (Hall : Forall (λ x, occurs ZFIELDSEP x = false)
                   [i; zipString (i_beltId obj); zipString (i_wagonId obj)]).
  { repeat constructor; [apply Hi | now apply plainOpt_no_sep ..]. }
  rewrite !(parseString_bare_position _ _ Hall). cbn [at_ lookup list_lookup].
  unfold parseString_bare at 1. rewrite (plainText_present i Hi).
  rewrite (plainOpt_read _ Hb), (plainOpt_read _ Hw).
  destruct obj; reflexivity.
Qed.

Lemma unzipItem_hash (hash : ModHash) (i : string) (obj : ItemSettings) :
  i ∈ items hash → inDictionary (belts hash) (i_beltId obj) →
  inDictionary (wagons hash) (i_wagonId obj) →
  unzipItem (Some hash) (Zip.hash (zipItem hash i obj)) = (i, obj).
Proof.
  intros Hi Hb Hw. unfold unzipItem, zipItem, prune.
  cbn [Zip.hash fmap option_fmap option_map parseString].
  assert (Hall : Forall (λ x, occurs ZFIELDSEP x = false)
                   [zipNString (val i) (items hash);
                    zipNString (i_beltId obj) (belts hash);
                    zipNString (i_wagonId obj) (wagons hash)]).
  { repeat constructor; [| now apply inDictionary_no_sep ..].
    apply (inDictionary_no_sep (items hash) (val i)). right. eauto. }
  rewrite !(parseNString_position _ _ _ Hall). cbn [at_ lookup list_lookup].
  rewrite (parseNString_zipNString id_contract i (items hash) Hi).
  rewrite (inDictionary_read _ _ Hb), (inDictionary_read _ _ Hw).
  destruct obj; reflexivity.
Qed.

Lemma zipItems_config (data : ZipData) (state : list (string * ItemSettings))
    (hash : ModHash) :
  Zip.bare (config (zipItems data state hash)) =
    Zip.bare (config data) ++
    map (λ e, (QueryField.Item, Zip.bare (zipItem hash (fst e) (snd e)))) state ∧
  Zip.hash (config (zipItems data state hash)) =
    Zip.hash (config data) ++
    map (λ e, (QueryField.Item, Zip.hash (zipItem hash (fst e) (snd e)))) state ∧
  objectives (zipItems data state hash) = objectives data.
Proof.
  revert data. induction state as [|e state IH]; intros data.
  - simpl. now rewrite !app_nil_r.
  - unfold zipItems. cbn [fold_left]. fold (zipItems).
    match goal with
    | |- context [fold_left _ state ?d] =>
        change (fold_left _ state d) with (zipItems d state hash);
        destruct (IH d) as (Hb & Hh & Ho)
    end.
    rewrite Hb, Hh, Ho. simpl. unfold append. rewrite <- !app_assoc.
    repeat match goal with |- _ ∧ _ => split end; reflexivity.
Qed.

Lemma unzipItems_records (prior : ParamMap) (records : list string)
    (hash : option ModHash) :
  getAll prior QueryField.Item = [] → records ≠ [] →
  unzipItems (prior ++ map (λ r, (QueryField.Item, r)) records) hash =
  val (fold_left
         (λ (entities : Entities ItemSettings) item,
            assign entities (fst (unzipItem hash item))
              (snd (unzipItem hash item)))
         records emptyEntities).
Proof.
  intros Hprior Hne. unfold unzipItems.
  rewrite getAll_app, Hprior, getAll_same. simpl app.
  destruct records; [congruence | reflexivity].
Qed.

(** X10. Items round trip through both containers. For a non-empty item
    state with distinct ids, none of them ['__proto__'], written by
    [zipItems] into a configuration that holds no item record yet,
    [unzipItems] reads the state back as the own properties of an object
    that keeps its prototype: from the bare parameters when the ids and the
    belt and wagon ids are plain texts, and from the hashed parameters,
    with the dictionaries, when they are entries of their dictionaries. *)
Theorem items_round_trip (data : ZipData)
    (state : list (string * ItemSettings)) (hash : ModHash) :
  state ≠ [] → NoDup state.*1 →
  Forall (λ e, fst e ≠ "__proto__") state →
  getAll (Zip.bare (config data)) QueryField.Item = [] →
  getAll (Zip.hash (config data)) QueryField.Item = [] →
  (Forall (λ e, plainText (fst e) ∧ plainOpt (i_beltId (snd e)) ∧
                plainOpt (i_wagonId (snd e))) state →
   unzipItems (Zip.bare (config (zipItems data state hash))) None =
     val {| ownEntries := list_to_map state; replacedProto := None |}) ∧
  (Forall (λ e, fst e ∈ items hash ∧
                inDictionary (belts hash) (i_beltId (snd e)) ∧
                inDictionary (wagons hash) (i_wagonId (snd e))) state →
   unzipItems (Zip.hash (config (zipItems data state hash))) (Some hash) =
     val {| ownEntries := list_to_map state; replacedProto := None |}).
Proof.
  intros Hne Hnd Hproto Hbare Hhash.
  destruct (zipItems_config data state hash) as (Hb & Hh & _).
  assert (Hmap : ∀ (f : string * ItemSettings → string),
            map (λ e, (QueryField.Item, f e)) state =
            map (λ r, (QueryField.Item, r)) (map f state)).
  { intros f. now rewrite map_map. }
  assert (Hne' : ∀ (f : string * ItemSettings → string), map f state ≠ []).
  { intros f Hnil. apply map_eq_nil in Hnil. contradiction. }
  split; intros Hall.
  - rewrite Hb, Hmap, (unzipItems_records _ _ None Hbare (Hne' _)).
    f_equal. rewrite fold_left_map.
    rewrite <- (fold_left_assign_list_to_map state Hnd Hproto).
    clear Hnd Hne Hne' Hmap Hb Hh Hproto.
    generalize (emptyEntities : Entities ItemSettings).
    induction Hall as [|[i obj] st (Hi & Hbelt & Hwagon) Hall IH]; intros m;
      [reflexivity |].
    cbn [fold_left fst snd].
    rewrite (unzipItem_bare hash i obj Hi Hbelt Hwagon). apply IH.
  - rewrite Hh, Hmap, (unzipItems_records _ _ (Some hash) Hhash (Hne' _)).
    f_equal. rewrite fold_left_map.
    rewrite <- (fold_left_assign_list_to_map state Hnd Hproto).
    clear Hnd Hne Hne' Hmap Hb Hh Hproto.
    generalize (emptyEntities : Entities ItemSettings).
    induction Hall as [|[i obj] st (Hi & Hbelt & Hwagon) Hall IH]; intros m;
      [reflexivity |].
    cbn [fold_left fst snd].
    rewrite (unzipItem_hash hash i obj Hi Hbelt Hwagon). apply IH.
Qed.

End Items.

Lemma items_round_trip_witness :
  @unzipItems Sample.consts Sample.codec
    (Zip.bare (config (@zipItems Sample.consts Sample.codec Sample.values
                         Sample.emptyData Sample.itemsState Sample.hashes)))
    None =
    val {| ownEntries := list_to_map Sample.itemsState;
           replacedProto := None |} ∧
  @unzipItems Sample.consts Sample.codec
    (Zip.hash (config (@zipItems Sample.consts Sample.codec Sample.values
                         Sample.emptyData Sample.itemsState Sample.hashes)))
    (Some Sample.hashes) =
    val {| ownEntries := list_to_map Sample.itemsState;
           replacedProto := None |}.
Proof.
  assert (Hnd : NoDup Sample.itemsState.*1).
  { apply NoDup_cons. split; [| apply NoDup_singleton].
    intros Hin. apply list_elem_of_singleton in Hin. discriminate. }
  destruct (@items_round_trip Sample.consts Sample.codec Sample.values
              eq_refl SampleFacts.id_contract Sample.emptyData
              Sample.itemsState Sample.hashes) as [Hbare Hhash];
    [discriminate | exact Hnd
    | repeat (apply Forall_cons; split; [discriminate |]); apply Forall_nil;
      exact I
    | reflexivity | reflexivity |].
  split.
  - apply Hbare. unfold Sample.itemsState.
    apply Forall_cons. split; [| apply Forall_cons; split; [| apply Forall_nil; exact I]].
    + split; [repeat split; discriminate |]. split; [right | left; reflexivity].
      eexists. split; [reflexivity |]. repeat split; discriminate.
    + split; [repeat split; discriminate |]. split; [left; reflexivity | right].
      eexists. split; [reflexivity |]. repeat split; discriminate.
  - apply Hhash. unfold Sample.itemsState.
    apply Forall_cons. split; [| apply Forall_cons; split; [| apply Forall_nil; exact I]].
    + split; [set_solver |]. split; [right | left; reflexivity].
      eexists. split; [reflexivity | set_solver].
    + split; [set_solver |]. split; [left; reflexivity | right].
      eexists. split; [reflexivity | set_solver].
Defined.

(** ** The side tables of module and beacon records *)

Section SideTables.
Context `{ZipConstants} `{IdCompaction} `{JsValues}.

Lemma infoOk_empty : infoOk emptyRecipeSettingsInfo.
Proof.
  intros k n. simpl. rewrite lookup_empty. split; intros Hx; discriminate.
Qed.

Lemma infoOk_NoDup (info : ZipRecipeSettingsInfo) :
  infoOk info → NoDup (Zip.bare <$> list_ info).
Proof.
  intros Hok. apply NoDup_alt. intros i j k Hi Hj.
  apply Hok in Hi, Hj. congruence.
Qed.

Lemma intern_spec (info : ZipRecipeSettingsInfo) (zip : Zip.t string) :
  infoOk info →
  infoOk (intern info zip).2 ∧
  (∃ added, list_ (intern info zip).2 = list_ info ++ added) ∧
  (Zip.bare <$> list_ (intern info zip).2) !! (intern info zip).1 =
    Some (Zip.bare zip).
Proof.
  intros Hok. unfold intern.
  destruct (idMap info !! Zip.bare zip) as [n|] eqn:Hlook; cbn [fst snd].
  - split; [exact Hok |]. split; [exists []; now rewrite app_nil_r |].
    now apply Hok.
  - cbn [list_ idMap]. split; [| split].
    + intros k n. cbn [list_ idMap]. rewrite fmap_app. cbn [fmap list_fmap].
      destruct (decide (k = Zip.bare zip)) as [-> | Hne].
      * rewrite lookup_insert_eq. split.
        -- intros [= <-]. rewrite lookup_app_r by now rewrite length_fmap.
           now rewrite length_fmap, Nat.sub_diag.
        -- intros Hn. destruct (decide (n < length (list_ info))) as [Hlt | Hge].
           ++ rewrite lookup_app_l in Hn by now rewrite length_fmap.
              apply Hok in Hn. congruence.
           ++ apply lookup_lt_Some in Hn. rewrite length_app, length_fmap in Hn.
              simpl in Hn. f_equal. lia.
      * rewrite lookup_insert_ne by congruence. rewrite (Hok k n). split.
        -- intros Hn. rewrite lookup_app_l; [exact Hn |].
           now apply lookup_lt_Some in Hn.
        -- intros Hn. destruct (decide (n < length (list_ info))) as [Hlt | Hge].
           ++ now rewrite lookup_app_l in Hn by now rewrite length_fmap.
           ++ rewrite lookup_app_r in Hn by (rewrite length_fmap; lia).
              rewrite length_fmap in Hn.
              destruct (n - length (list_ info)) as [|d]; simpl in Hn;
                [congruence | discriminate].
    + eexists. reflexivity.
    + rewrite fmap_app. cbn [fmap list_fmap].
      rewrite lookup_app_r by now rewrite length_fmap.
      now rewrite length_fmap, Nat.sub_diag.
Qed.

Lemma lookup_extends (a b : ZipRecipeSettingsInfo) (n : nat) (k : string) :
  (∃ added, list_ b = list_ a ++ added) →
  (Zip.bare <$> list_ a) !! n = Some k → (Zip.bare <$> list_ b) !! n = Some k.
Proof.
  intros [added ->] Hn. rewrite fmap_app. now apply lookup_app_l_Some.
Qed.

Lemma extends_trans (a b c : ZipRecipeSettingsInfo) :
  (∃ added, list_ b = list_ a ++ added) →
  (∃ added, list_ c = list_ b ++ added) →
  ∃ added, list_ c = list_ a ++ added.
Proof.
  intros [x Hx] [y Hy]. exists (x ++ y). now rewrite Hy, Hx, app_assoc.
Qed.

Lemma internAll_spec (zips : list (Zip.t string)) (info : ZipRecipeSettingsInfo) :
  infoOk info →
  infoOk (internAll zips info).2 ∧
  (∃ added, list_ (internAll zips info).2 = list_ info ++ added) ∧
  Forall2
    (λ zip n,
       (Zip.bare <$> list_ (internAll zips info).2) !! n = Some (Zip.bare zip))
    zips (internAll zips info).1.
Proof.
  revert info. induction zips as [|zip zips IH]; intros info Hok.
  - simpl. split; [exact Hok |]. split; [exists []; now rewrite app_nil_r |].
    constructor.
  - cbn [internAll].
    destruct (intern_spec info zip Hok) as (Hok1 & Hext1 & Hn).
    destruct (intern info zip) as [n info1]. cbn [fst snd] in *.
    destruct (IH info1 Hok1) as (Hok2 & Hext2 & Hall).
    destruct (internAll zips info1) as [ns info2]. cbn [fst snd] in *.
    split; [exact Hok2 |]. split; [now apply (extends_trans info info1 info2) |].
    constructor; [| exact Hall]. now apply (lookup_extends info1 info2).
Qed.

(** Records that are in the table at their positions are found there:
    nothing is pushed and the positions are returned. *)
Lemma internAll_found (zips : list (Zip.t string)) (ns : list nat)
    (info : ZipRecipeSettingsInfo) :
  infoOk info →
  Forall2 (λ zip n, (Zip.bare <$> list_ info) !! n = Some (Zip.bare zip))
    zips ns →
  internAll zips info = (ns, info).
Proof.
  intros Hok Hall. induction Hall as [|zip n zips ns Hn Hall IH]; [reflexivity |].
  cbn [internAll]. unfold intern. apply Hok in Hn. rewrite Hn. now rewrite IH.
Qed.

Lemma zipModuleArray_internAll (values : list ModuleSettings)
    (info : ZipRecipeSettingsInfo) (hash : ModHash) :
  zipModuleArray values info hash =
  (map indexNumber (internAll (map (moduleZip hash) values) info).1,
   (internAll (map (moduleZip hash) values) info).2).
Proof.
  revert info. induction values as [|obj values IH]; intros info; [reflexivity |].
  cbn [zipModuleArray internAll map].
  destruct (intern info (moduleZip hash obj)) as [n info1].
  rewrite IH. destruct (internAll (map (moduleZip hash) values) info1).
  reflexivity.
Qed.

Lemma zipBeaconArray_from_internAll (i : nat) (bs : list BeaconSettings)
    (mm : list (Nullable (list number))) (info : ZipRecipeSettingsInfo)
    (hash : ModHash) :
  zipBeaconArray_from i bs mm info hash =
  (map indexNumber
     (internAll (imap (λ k obj, beaconZip hash (atOpt mm (i + k)) obj) bs) info).1,
   (internAll (imap (λ k obj, beaconZip hash (atOpt mm (i + k)) obj) bs) info).2).
Proof.
  revert i info. induction bs as [|obj bs IH]; intros i info; [reflexivity |].
  cbn [zipBeaconArray_from imap internAll]. rewrite Nat.add_0_r.
  destruct (intern info (beaconZip hash (atOpt mm i) obj)) as [n info1].
  rewrite IH.
  assert (Hext : imap ((λ k obj0, beaconZip hash (atOpt mm (i + k)) obj0) ∘ S) bs =
                 imap (λ k obj0, beaconZip hash (atOpt mm (S i + k)) obj0) bs).
  { apply imap_ext. intros k x _. simpl. do 2 f_equal. lia. }
  rewrite Hext.
  destruct (internAll _ info1). reflexivity.
Qed.

(** X11. [zipModuleArray] keeps the module side table consistent and only
    grows it. From a table whose index agrees with its records, the call
    returns one position per module, in order; the record at that position
    has the bare text of the module; the table keeps its earlier records at
    their positions, its index still agrees with its records, and no bare
    text is stored twice. Writing the same modules again adds nothing and
    returns the same positions. *)
Theorem zipModuleArray_table (values : list ModuleSettings)
    (info : ZipRecipeSettingsInfo) (hash : ModHash) :
  infoOk info →
  ∃ ns info',
    zipModuleArray values info hash = (map indexNumber ns, info') ∧
    infoOk info' ∧
    (∃ added, list_ info' = list_ info ++ added) ∧
    Forall2
      (λ obj n,
         (Zip.bare <$> list_ info') !! n = Some (Zip.bare (moduleZip hash obj)))
      values ns ∧
    NoDup (Zip.bare <$> list_ info') ∧
    zipModuleArray values info' hash = (map indexNumber ns, info').
Proof.
  intros Hok.
  destruct (internAll_spec (map (moduleZip hash) values) info Hok)
    as (Hok' & Hext & Hall).
  exists (internAll (map (moduleZip hash) values) info).1,
         (internAll (map (moduleZip hash) values) info).2.
  split; [apply zipModuleArray_internAll |]. split; [exact Hok' |].
  split; [exact Hext |]. split; [| split].
  - apply Forall2_fmap_l in Hall. exact Hall.
  - now apply infoOk_NoDup.
  - rewrite zipModuleArray_internAll.
    now rewrite (internAll_found _ _ _ Hok' Hall).
Qed.

(** X12. [zipBeaconArray] does the same for the beacon side table: one
    position per beacon, in order; the record at the position of beacon [k]
    has the bare text of that beacon, written with the module positions
    [moduleMap[k]]; earlier records keep their positions, the index agrees
    with the records, and no bare text is stored twice. *)
Theorem zipBeaconArray_table (bs : list BeaconSettings)
    (mm : list (Nullable (list number))) (info : ZipRecipeSettingsInfo)
    (hash : ModHash) :
  infoOk info →
  ∃ ns info',
    zipBeaconArray bs mm info hash = (map indexNumber ns, info') ∧
    infoOk info' ∧
    (∃ added, list_ info' = list_ info ++ added) ∧
    length ns = length bs ∧
    (∀ k obj, bs !! k = Some obj →
       ∃ n, ns !! k = Some n ∧
            (Zip.bare <$> list_ info') !! n =
              Some (Zip.bare (beaconZip hash (atOpt mm k) obj))) ∧
    NoDup (Zip.bare <$> list_ info') ∧
    zipBeaconArray bs mm info' hash = (map indexNumber ns, info').
Proof.
  intros Hok. unfold zipBeaconArray.
  set (zips := imap (λ k obj, beaconZip hash (atOpt mm (0 + k)) obj) bs).
  destruct (internAll_spec zips info Hok) as (Hok' & Hext & Hall).
  exists (internAll zips info).1, (internAll zips info).2.
  split; [apply zipBeaconArray_from_internAll |]. split; [exact Hok' |].
  split; [exact Hext |]. split; [| split; [| split]].
  - apply Forall2_length in Hall. rewrite <- Hall. unfold zips.
    now rewrite length_imap.
  - intros k obj Hk.
    assert (Hz : zips !! k = Some (beaconZip hash (atOpt mm k) obj)).
    { unfold zips. rewrite list_lookup_imap, Hk. reflexivity. }
    destruct (Forall2_lookup_l _ _ _ _ _ Hall Hz) as (n & Hn & Hrec).
    exists n. split; [exact Hn | exact Hrec].
  - now apply infoOk_NoDup.
  - rewrite zipBeaconArray_from_internAll. fold zips.
    now rewrite (internAll_found _ _ _ Hok' Hall).
Qed.

(** X13. [beaconModuleMap] is aligned with the beacons: entry [k] is
    [undefined] when beacon [k] has no modules, and otherwise the positions
    of its modules in the module side table, whose records at those
    positions have the bare texts of the modules; the table only grows and
    its index still agrees with its records. *)
Theorem beaconModuleMap_aligned (bs : list BeaconSettings)
    (info : ZipRecipeSettingsInfo) (hash : ModHash) :
  infoOk info →
  ∃ mm info',
    beaconModuleMap bs info hash = (mm, info') ∧
    infoOk info' ∧
    (∃ added, list_ info' = list_ info ++ added) ∧
    Forall2
      (λ b entry,
         match b_modules b with
         | val ms =>
             ∃ ns, entry = val (map indexNumber ns) ∧
                   Forall2
                     (λ obj n,
                        (Zip.bare <$> list_ info') !! n =
                          Some (Zip.bare (moduleZip hash obj)))
                     ms ns
         | _ => entry = undefined
         end)
      bs mm.
Proof.
  revert info. induction bs as [|b bs IH]; intros info Hok.
  - exists [], info. split; [reflexivity |]. split; [exact Hok |].
    split; [exists []; now rewrite app_nil_r | constructor].
  - cbn [beaconModuleMap].
    assert (Hhead : ∃ entry info1,
              (match b_modules b with
               | val ms =>
                   let '(ns, info') := zipModuleArray ms info hash in
                   (val ns, info')
               | _ => (undefined, info)
               end) = (entry, info1) ∧
              infoOk info1 ∧ (∃ added, list_ info1 = list_ info ++ added) ∧
              match b_modules b with
              | val ms =>
                  ∃ ns, entry = val (map indexNumber ns) ∧
                        Forall2
                          (λ obj n,
                             (Zip.bare <$> list_ info1) !! n =
                               Some (Zip.bare (moduleZip hash obj)))
                          ms ns
              | _ => entry = undefined
              end).
    { destruct (b_modules b) as [| |ms].
      - exists undefined, info. split; [reflexivity |]. split; [exact Hok |].
        split; [exists []; now rewrite app_nil_r | reflexivity].
      - exists undefined, info. split; [reflexivity |]. split; [exact Hok |].
        split; [exists []; now rewrite app_nil_r | reflexivity].
      - rewrite zipModuleArray_internAll.
        destruct (internAll_spec (map (moduleZip hash) ms) info Hok)
          as (Hok1 & Hext1 & Hall1).
        eexists _, _. split; [reflexivity |]. split; [exact Hok1 |].
        split; [exact Hext1 |]. eexists. split; [reflexivity |].
        apply Forall2_fmap_l in Hall1. exact Hall1. }
    destruct Hhead as (entry & info1 & -> & Hok1 & Hext1 & Hentry).
    destruct (IH info1 Hok1) as (mm & info2 & -> & Hok2 & Hext2 & Hall).
    exists (entry :: mm), info2. split; [reflexivity |]. split; [exact Hok2 |].
    split; [now apply (extends_trans info info1 info2) |].
    constructor; [| exact Hall].
    destruct (b_modules b) as [| |ms]; try exact Hentry.
    destruct Hentry as (ns & -> & Hms). exists ns. split; [reflexivity |].
    eapply Forall2_impl; [exact Hms |]. intros obj n Hn.
    now apply (lookup_extends info1 info2).
Qed.

End SideTables.

Lemma zipModuleArray_table_witness :
  ∃ ns info',
    @zipModuleArray Sample.consts Sample.codec Sample.values
      Sample.moduleList emptyRecipeSettingsInfo Sample.hashes =
      (map indexNumber ns, info') ∧
    NoDup (Zip.bare <$> list_ info').
Proof.
  destruct (@zipModuleArray_table Sample.consts Sample.codec Sample.values
              Sample.moduleList emptyRecipeSettingsInfo Sample.hashes
              infoOk_empty)
    as (ns & info' & Heq & _ & _ & _ & Hnd & _).
  exists ns, info'. split; [exact Heq | exact Hnd].
Defined.

Example module_table_texts :
  @zipModuleArray Sample.consts Sample.codec Sample.values
    Sample.moduleList emptyRecipeSettingsInfo Sample.hashes =
  ([0%Z; 1%Z; 0%Z],
   {| idMap := <["*speed-module" := 1]> (<["2*speed-module" := 0]> ∅);
      list_ := [ {| Zip.bare := "2*speed-module"; Zip.hash := "2*A" |};
                 {| Zip.bare := "*speed-module"; Zip.hash := "*A" |} ] |}).
Proof. vm_compute. reflexivity. Qed.

Lemma zipBeaconArray_table_witness :
  ∃ ns info',
    @zipBeaconArray Sample.consts Sample.codec Sample.values
      Sample.beaconList [val [0%Z; 1%Z; 0%Z]; undefined]
      emptyRecipeSettingsInfo Sample.hashes = (map indexNumber ns, info') ∧
    length ns = 2.
Proof.
  destruct (@zipBeaconArray_table Sample.consts Sample.codec Sample.values
              Sample.beaconList [val [0%Z; 1%Z; 0%Z]; undefined]
              emptyRecipeSettingsInfo Sample.hashes infoOk_empty)
    as (ns & info' & Heq & _ & _ & Hlen & _).
  exists ns, info'. split; [exact Heq | exact Hlen].
Defined.

Lemma beaconModuleMap_aligned_witness :
  ∃ mm info',
    @beaconModuleMap Sample.consts Sample.codec Sample.values
      Sample.beaconList emptyRecipeSettingsInfo Sample.hashes = (mm, info') ∧
    length mm = 2.
Proof.
  destruct (@beaconModuleMap_aligned Sample.consts Sample.codec Sample.values
              Sample.beaconList emptyRecipeSettingsInfo Sample.hashes
              infoOk_empty)
    as (mm & info' & Heq & _ & _ & Hall).
  exists mm, info'. split; [exact Heq |].
  apply Forall2_length in Hall. now rewrite <- Hall.
Defined.

(** ** Module records read back *)

Section ModuleRecords.
Context `{ZipConstants} `{IdCompaction} `{JsValues}.
Hypothesis fieldsep_star : ZFIELDSEP = "*"%char.
Hypothesis id_contract : IdContract.

Lemma count_no_sep (v : Nullable Rational) :
  match v with val c => plainText (toString c) | _ => True end →
  occurs ZFIELDSEP (zipString (optToString v)) = false.
Proof. destruct v as [| |c]; [reflexivity | reflexivity |]. intros (_ & _ & Hc). exact Hc. Qed.

Lemma count_read (v : Nullable Rational) :
  match v with val c => plainText (toString c) | _ => True end →
  parseRational (parseString_bare (val (zipString (optToString v)))) =
  match v with val c => val (rational (toString c)) | _ => undefined end.
Proof.
  destruct v as [| |c]; [reflexivity | reflexivity |]. intros Hc.
  cbn [optToString zipString]. unfold parseString_bare, parseRational.
  rewrite (plainText_present _ Hc). now rewrite (plainText_present _ Hc).
Qed.

Lemma unzipModules_bare_at (params : ParamMap) (hash : ModHash)
    (n : nat) (obj : ModuleSettings) :
  plainModule obj →
  getAll params QueryField.Module_ !! n = Some (Zip.bare (moduleZip hash obj)) →
  unzipModules params None !! n = Some (readModule obj).
Proof.
  intros [Hcount Hid] Hn. unfold unzipModules.
  rewrite list_lookup_fmap, Hn. cbn [fmap option_fmap option_map]. f_equal.
  unfold moduleZip, prune, readModule. cbn [Zip.bare parseString].
  assert (Hall : Forall (λ x, occurs ZFIELDSEP x = false)
                   [zipString (optToString (m_count obj));
                    zipString (m_id obj)]).
  { repeat constructor; [now apply count_no_sep |].
    now apply plainOpt_no_sep. }
  rewrite !(parseString_bare_position fieldsep_star _ _ Hall).
  cbn [at_ lookup list_lookup].
  rewrite (count_read _ Hcount), (plainOpt_read _ Hid). reflexivity.
Qed.

Lemma unzipModules_hash_at (params : ParamMap) (hash : ModHash)
    (n : nat) (obj : ModuleSettings) :
  match m_count obj with val c => plainText (toString c) | _ => True end →
  inDictionary (modules hash) (m_id obj) →
  getAll params QueryField.Module_ !! n = Some (Zip.hash (moduleZip hash obj)) →
  unzipModules params (Some hash) !! n = Some (readModule obj).
Proof.
  intros Hcount Hid Hn. unfold unzipModules.
  rewrite list_lookup_fmap, Hn. cbn [fmap option_fmap option_map]. f_equal.
  unfold moduleZip, prune, readModule. cbn [Zip.hash parseString].
  assert (Hall : Forall (λ x, occurs ZFIELDSEP x = false)
                   [zipString (optToString (m_count obj));
                    zipNString (m_id obj) (modules hash)]).
  { repeat constructor; [now apply count_no_sep |].
    now apply (inDictionary_no_sep id_contract). }
  rewrite (parseString_bare_position fieldsep_star _ _ Hall).
  rewrite (parseNString_position fieldsep_star _ _ _ Hall).
  cbn [at_ lookup list_lookup].
  rewrite (count_read _ Hcount), (inDictionary_read id_contract _ _ Hid).
  reflexivity.
Qed.

(** X14. [unzipModules] reads a module back from its record, by position.
    When the module record at position [n] is the bare record of a module
    whose count text and id are plain, entry [n] of the result is the
    module, its count read from its text; and likewise for the hashed
    record and the dictionary, when the id is an entry of the module
    dictionary. *)
Theorem unzipModules_reads_record (params : ParamMap) (hash : ModHash)
    (n : nat) (obj : ModuleSettings) :
  (plainModule obj →
   getAll params QueryField.Module_ !! n = Some (Zip.bare (moduleZip hash obj)) →
   unzipModules params None !! n = Some (readModule obj)) ∧
  (match m_count obj with val c => plainText (toString c) | _ => True end →
   inDictionary (modules hash) (m_id obj) →
   getAll params QueryField.Module_ !! n = Some (Zip.hash (moduleZip hash obj)) →
   unzipModules params (Some hash) !! n = Some (readModule obj)).
Proof.
  split; [apply unzipModules_bare_at | apply unzipModules_hash_at].
Qed.

End ModuleRecords.

Lemma unzipModules_reads_record_witness :
  @unzipModules Sample.consts Sample.codec Sample.values
    [(QueryField.Module_, "2*speed-module")] None !! 0 =
  Some {| m_count := val ((2%Z, 1%Z) : @Rational Sample.values);
          m_id := val "speed-module" |}.
Proof.
  destruct (@unzipModules_reads_record Sample.consts Sample.codec
              Sample.values eq_refl SampleFacts.id_contract
              [(QueryField.Module_, "2*speed-module")] Sample.hashes 0
              {| m_count := val ((2%Z, 1%Z) : @Rational Sample.values);
                 m_id := val "speed-module" |}) as [Hbare _].
  apply Hbare; [| reflexivity].
  split; [repeat split; discriminate |].
  right. eexists. split; [reflexivity |]. repeat split; discriminate.
Defined.

(** ** The positions written by [zipModulesBeacons] *)

Lemma getAll_other (key key' : QueryField.t) (values : list string) :
  QueryField.eqb key' key = false →
  getAll (map (λ v, (key', v)) values) key = [].
Proof.
  intros Hne. unfold getAll, ParamMap, URLSearchParams in *.
  induction values as [|v values IH]; [reflexivity |].
  simpl. rewrite filter_cons. simpl. rewrite Hne.
  destruct (decide (false = true)); [discriminate | exact IH].
Qed.

Lemma appendRecords_config (c : Zip.t URLSearchParams) (section_ : QueryField.t)
    (records : list (Zip.t string)) :
  Zip.bare (appendRecords c section_ records) =
    Zip.bare c ++ map (λ v, (section_, v)) (Zip.bare <$> records) ∧
  Zip.hash (appendRecords c section_ records) =
    Zip.hash c ++ map (λ v, (section_, v)) (Zip.hash <$> records).
Proof.
  revert c. induction records as [|e records IH]; intros c.
  - simpl. now rewrite !app_nil_r.
  - unfold appendRecords. cbn [fold_left].
    match goal with
    | |- context [fold_left _ records ?d] =>
        change (fold_left _ records d) with (appendRecords d section_ records);
        destruct (IH d) as [Hb Hh]
    end.
    rewrite Hb, Hh. cbn [Zip.bare Zip.hash]. unfold append.
    rewrite <- !app_assoc. split; reflexivity.
Qed.

Lemma assigned_proto {T} (own : gmap string T) (proto : option T) :
  assigned own proto "__proto__" = proto.
Proof. reflexivity. Qed.

Lemma assigned_own {T} (own : gmap string T) (proto : option T) (id : string) :
  id ≠ "__proto__" → assigned own proto id = own !! id.
Proof. intros Hne. unfold assigned. apply String.eqb_neq in Hne. now rewrite Hne. Qed.

Lemma ordinaryKey_not_proto (id : string) : ordinaryKey id → id ≠ "__proto__".
Proof. intros Hid ->. discriminate. Qed.

(** The numerals are ordinary keys. *)
Lemma natToString_digit (n : nat) :
  ∃ c rest, natToString n = String c rest ∧
            (c = "0" ∨ c = "1" ∨ c = "2" ∨ c = "3" ∨ c = "4" ∨ c = "5" ∨
             c = "6" ∨ c = "7" ∨ c = "8" ∨ c = "9")%char.
Proof.
  unfold natToString.
  assert (Hnil : Nat.to_uint n ≠ Decimal.Nil).
  { intros Hnil. pose proof (DecimalNat.Unsigned.of_to n) as Hof.
    rewrite Hnil in Hof. cbn in Hof. subst n. discriminate. }
  destruct (Nat.to_uint n) as [|d|d|d|d|d|d|d|d|d|d]; [congruence | ..];
    cbn [NilZero.string_of_uint NilEmpty.string_of_uint]; eexists _, _;
    (split; [reflexivity | tauto]).
Qed.

Lemma ordinaryKey_natToString (n : nat) : ordinaryKey (natToString n).
Proof.
  destruct (natToString_digit n) as (c & rest & -> & Hc).
  unfold ordinaryKey, objectMember.
  destruct Hc as [-> | [-> | [-> | [-> | [-> | [-> | [-> | [-> | [-> | ->]]]]]]]]];
    reflexivity.
Qed.

Section Pointers.
Context `{ZipConstants} `{IdCompaction} `{JsValues}.
Variable hash : ModHash.

#[local] Abbreviation modulesOf r := (assigned (moduleMap r) (moduleProto r)).
#[local] Abbreviation beaconsOf r := (assigned (beaconMap r) (beaconProto r)).

Lemma records_extends (a b : ZipRecipeSettingsInfo) :
  (∃ added, list_ b = list_ a ++ added) →
  ∃ added, Zip.bare <$> list_ b = (Zip.bare <$> list_ a) ++ added.
Proof. intros [added ->]. exists (Zip.bare <$> added). apply fmap_app. Qed.

Lemma modulesAt_mono (r r' : list string) (mods : list ModuleSettings)
    (ns : list nat) :
  (∃ added, r' = r ++ added) →
  modulesAt hash r mods ns → modulesAt hash r' mods ns.
Proof.
  intros [added ->] Hat. unfold modulesAt in *.
  eapply Forall2_impl; [exact Hat |]. intros obj n Hn.
  now apply lookup_app_l_Some.
Qed.

Lemma moduleMapAt_mono (r r' : list string) (bs : list BeaconSettings)
    (mm : list (Nullable (list number))) :
  (∃ added, r' = r ++ added) →
  moduleMapAt hash r bs mm → moduleMapAt hash r' bs mm.
Proof.
  intros Hext Hat. unfold moduleMapAt in *.
  eapply Forall2_impl; [exact Hat |]. intros b entry Hentry. cbv beta in Hentry.
  destruct (b_modules b) as [| |ms]; try exact Hentry.
  destruct Hentry as (l & -> & Hl). exists l. split; [reflexivity |].
  now apply (modulesAt_mono r r').
Qed.

Lemma beaconsAt_mono (m m' b b' : list string) (bs : list BeaconSettings)
    (ns : list nat) :
  (∃ added, m' = m ++ added) → (∃ added, b' = b ++ added) →
  beaconsAt hash m b bs ns → beaconsAt hash m' b' bs ns.
Proof.
  unfold beaconsAt. intros Hm [added ->] (mm & Hmm & Hlen & Hat). exists mm.
  split; [now apply (moduleMapAt_mono m m') |]. split; [exact Hlen |].
  intros k obj Hk. destruct (Hat k obj Hk) as (n & Hn & Hrec).
  exists n. split; [exact Hn | now apply lookup_app_l_Some].
Qed.

Lemma settingsAt_mono (m m' b b' : list string)
    (state : list (string * MachineFields)) (r : ZipMachineSettings) :
  (∃ added, m' = m ++ added) → (∃ added, b' = b ++ added) →
  settingsAt hash m b state r → settingsAt hash m' b' state r.
Proof.
  unfold settingsAt. intros Hm Hb [Hin Hout]. split; [| exact Hout].
  intros id fields Hmem. destruct (Hin id fields Hmem) as [Hmods Hbs]. split.
  - destruct (f_modules fields) as [| |mods]; try exact Hmods.
    destruct Hmods as (ns & Hlook & Hat). exists ns.
    split; [exact Hlook | now apply (modulesAt_mono m m')].
  - destruct (f_beacons fields) as [| |bs]; try exact Hbs.
    destruct Hbs as (ns & Hlook & Hat). exists ns.
    split; [exact Hlook | now apply (beaconsAt_mono m m' b b')].
Qed.

Lemma extends_refl_ (a : ZipRecipeSettingsInfo) :
  ∃ added, list_ a = list_ a ++ added.
Proof. exists []. now rewrite app_nil_r. Qed.

Lemma zipModuleArray_spec (mods : list ModuleSettings)
    (info : ZipRecipeSettingsInfo) :
  infoOk info →
  ∃ ns info',
    zipModuleArray mods info hash = (map indexNumber ns, info') ∧
    infoOk info' ∧ (∃ added, list_ info' = list_ info ++ added) ∧
    modulesAt hash (Zip.bare <$> list_ info') mods ns.
Proof.
  intros Hok.
  destruct (internAll_spec (map (moduleZip hash) mods) info Hok)
    as (Hok' & Hext & Hall).
  eexists _, _. split; [apply zipModuleArray_internAll |].
  split; [exact Hok' |]. split; [exact Hext |].
  apply Forall2_fmap_l in Hall. exact Hall.
Qed.

Lemma beaconModuleMap_spec (bs : list BeaconSettings)
    (info : ZipRecipeSettingsInfo) :
  infoOk info →
  ∃ mm info',
    beaconModuleMap bs info hash = (mm, info') ∧
    infoOk info' ∧ (∃ added, list_ info' = list_ info ++ added) ∧
    moduleMapAt hash (Zip.bare <$> list_ info') bs mm.
Proof.
  revert info. induction bs as [|b bs IH]; intros info Hok.
  - exists [], info. split; [reflexivity |]. split; [exact Hok |].
    split; [apply extends_refl_ | constructor].
  - cbn [beaconModuleMap].
    assert (Hhead : ∃ entry info1,
              (match b_modules b with
               | val ms =>
                   let '(ns, info') := zipModuleArray ms info hash in
                   (val ns, info')
               | _ => (undefined, info)
               end) = (entry, info1) ∧
              infoOk info1 ∧ (∃ added, list_ info1 = list_ info ++ added) ∧
              match b_modules b with
              | val ms =>
                  ∃ l, entry = val (map indexNumber l) ∧
                       modulesAt hash (Zip.bare <$> list_ info1) ms l
              | _ => entry = undefined
              end).
    { destruct (b_modules b) as [| |ms].
      - exists undefined, info. split; [reflexivity |]. split; [exact Hok |].
        split; [apply extends_refl_ | reflexivity].
      - exists undefined, info. split; [reflexivity |]. split; [exact Hok |].
        split; [apply extends_refl_ | reflexivity].
      - destruct (zipModuleArray_spec ms info Hok)
          as (ns & info1 & -> & Hok1 & Hext1 & Hat).
        exists (val (map indexNumber ns)), info1. split; [reflexivity |].
        split; [exact Hok1 |]. split; [exact Hext1 |].
        exists ns. split; [reflexivity | exact Hat]. }
    destruct Hhead as (entry & info1 & -> & Hok1 & Hext1 & Hentry).
    destruct (IH info1 Hok1) as (mm & info2 & -> & Hok2 & Hext2 & Hall).
    exists (entry :: mm), info2. split; [reflexivity |]. split; [exact Hok2 |].
    split; [now apply (extends_trans info info1 info2) |].
    constructor; [| exact Hall].
    destruct (b_modules b) as [| |ms]; try exact Hentry.
    destruct Hentry as (ns & -> & Hms). exists ns. split; [reflexivity |].
    apply (modulesAt_mono (Zip.bare <$> list_ info1)); [| exact Hms].
    now apply records_extends.
Qed.

Lemma zipBeaconArray_spec (bs : list BeaconSettings)
    (mm : list (Nullable (list number))) (info : ZipRecipeSettingsInfo) :
  infoOk info →
  ∃ ns info',
    zipBeaconArray bs mm info hash = (map indexNumber ns, info') ∧
    infoOk info' ∧ (∃ added, list_ info' = list_ info ++ added) ∧
    length ns = length bs ∧
    ∀ k obj, bs !! k = Some obj →
      ∃ n, ns !! k = Some n ∧
           (Zip.bare <$> list_ info') !! n =
             Some (Zip.bare (beaconZip hash (atOpt mm k) obj)).
Proof.
  intros Hok. unfold zipBeaconArray.
  set (zips := imap (λ k obj, beaconZip hash (atOpt mm (0 + k)) obj) bs).
  destruct (internAll_spec zips info Hok) as (Hok' & Hext & Hall).
  exists (internAll zips info).1, (internAll zips info).2.
  split; [apply zipBeaconArray_from_internAll |]. split; [exact Hok' |].
  split; [exact Hext |]. split.
  - apply Forall2_length in Hall. rewrite <- Hall. unfold zips.
    now rewrite length_imap.
  - intros k obj Hk.
    assert (Hz : zips !! k = Some (beaconZip hash (atOpt mm k) obj)).
    { unfold zips. rewrite list_lookup_imap, Hk. reflexivity. }
    destruct (Forall2_lookup_l _ _ _ _ _ Hall Hz) as (n & Hn & Hrec).
    exists n. split; [exact Hn | exact Hrec].
Qed.

(** The beacons of one owner: [beaconModuleMap], then [zipBeaconArray]. *)
Lemma beacons_spec (bs : list BeaconSettings)
    (mi bi : ZipRecipeSettingsInfo) :
  infoOk mi → infoOk bi →
  ∃ mm ns mi' bi',
    beaconModuleMap bs mi hash = (mm, mi') ∧
    zipBeaconArray bs mm bi hash = (map indexNumber ns, bi') ∧
    infoOk mi' ∧ infoOk bi' ∧
    (∃ added, list_ mi' = list_ mi ++ added) ∧
    (∃ added, list_ bi' = list_ bi ++ added) ∧
    beaconsAt hash (Zip.bare <$> list_ mi') (Zip.bare <$> list_ bi') bs ns.
Proof.
  intros Hmi Hbi.
  destruct (beaconModuleMap_spec bs mi Hmi) as (mm & mi' & Hmm & Hmi' & Hme & Hat).
  destruct (zipBeaconArray_spec bs mm bi Hbi)
    as (ns & bi' & Hns & Hbi' & Hbe & Hlen & Hrec).
  exists mm, ns, mi', bi'. repeat match goal with |- _ ∧ _ => split end; auto.
  exists mm. split; [exact Hat |]. split; [exact Hlen | exact Hrec].
Qed.

Lemma zipMachineSettings_step_spec (r : ZipMachineSettings)
    (mi bi : ZipRecipeSettingsInfo) (e : string * MachineFields) :
  infoOk mi → infoOk bi →
  ∃ r' mi' bi',
    zipMachineSettings_step hash (r, mi, bi) e = (r', mi', bi') ∧
    infoOk mi' ∧ infoOk bi' ∧
    (∃ added, list_ mi' = list_ mi ++ added) ∧
    (∃ added, list_ bi' = list_ bi ++ added) ∧
    (∀ id, id ≠ fst e →
       modulesOf r' id = modulesOf r id ∧ beaconsOf r' id = beaconsOf r id) ∧
    (moduleMap r' !! "__proto__" = moduleMap r !! "__proto__" ∧
     beaconMap r' !! "__proto__" = beaconMap r !! "__proto__") ∧
    match f_modules (snd e) with
    | val mods =>
        ∃ ns, modulesOf r' (fst e) = Some (map indexNumber ns) ∧
              modulesAt hash (Zip.bare <$> list_ mi') mods ns
    | _ => modulesOf r' (fst e) = modulesOf r (fst e)
    end ∧
    match f_beacons (snd e) with
    | val bs =>
        ∃ ns, beaconsOf r' (fst e) = Some (map indexNumber ns) ∧
              beaconsAt hash (Zip.bare <$> list_ mi') (Zip.bare <$> list_ bi')
                bs ns
    | _ => beaconsOf r' (fst e) = beaconsOf r (fst e)
    end.
Proof.
  intros Hmi Hbi. unfold zipMachineSettings_step.
  assert (Hfirst : ∃ r1 mi1,
            (match f_modules (snd e) with
             | val ms =>
                 let '(ns, info) := zipModuleArray ms mi hash in
                 (if String.eqb (fst e) "__proto__" then
                    {| moduleMap := moduleMap r; beaconMap := beaconMap r;
                       moduleProto := Some ns; beaconProto := beaconProto r |}
                  else
                    {| moduleMap := <[fst e := ns]> (moduleMap r);
                       beaconMap := beaconMap r;
                       moduleProto := moduleProto r;
                       beaconProto := beaconProto r |}, info)
             | _ => (r, mi)
             end) = (r1, mi1) ∧
            infoOk mi1 ∧ (∃ added, list_ mi1 = list_ mi ++ added) ∧
            beaconMap r1 = beaconMap r ∧ beaconProto r1 = beaconProto r ∧
            moduleMap r1 !! "__proto__" = moduleMap r !! "__proto__" ∧
            (∀ id, id ≠ fst e → modulesOf r1 id = modulesOf r id) ∧
            match f_modules (snd e) with
            | val mods =>
                ∃ ns, modulesOf r1 (fst e) = Some (map indexNumber ns) ∧
                      modulesAt hash (Zip.bare <$> list_ mi1) mods ns
            | _ => modulesOf r1 (fst e) = modulesOf r (fst e)
            end).
  { destruct (f_modules (snd e)) as [| |mods].
    - exists r, mi. repeat match goal with |- _ ∧ _ => split end; auto.
      apply extends_refl_.
    - exists r, mi. repeat match goal with |- _ ∧ _ => split end; auto.
      apply extends_refl_.
    - destruct (zipModuleArray_spec mods mi Hmi)
        as (ns & mi1 & -> & Hok1 & Hext1 & Hat).
      eexists _, mi1. split; [reflexivity |].
      destruct (String.eqb_spec (fst e) "__proto__") as [Heq | Hne];
        cbn [moduleMap beaconMap moduleProto beaconProto];
        repeat match goal with |- _ ∧ _ => split end; auto.
      + intros id Hid. rewrite !assigned_own by congruence. reflexivity.
      + exists ns. rewrite Heq. split; [reflexivity | exact Hat].
      + now rewrite lookup_insert_ne by congruence.
      + intros id Hid. unfold assigned.
        destruct (String.eqb id "__proto__"); [reflexivity |].
        now rewrite lookup_insert_ne by congruence.
      + exists ns. rewrite assigned_own by exact Hne.
        now rewrite lookup_insert_eq. }
  destruct Hfirst
    as (r1 & mi1 & -> & Hok1 & Hext1 & Hbm & Hbp & Hpm & Hother & Hmods).
  destruct (f_beacons (snd e)) as [| |bs].
  - exists r1, mi1, bi. repeat match goal with |- _ ∧ _ => split end; auto;
      try apply extends_refl_.
    + intros id Hne. split; [now apply Hother | now rewrite Hbm, Hbp].
    + now rewrite Hbm.
    + now rewrite Hbm, Hbp.
  - exists r1, mi1, bi. repeat match goal with |- _ ∧ _ => split end; auto;
      try apply extends_refl_.
    + intros id Hne. split; [now apply Hother | now rewrite Hbm, Hbp].
    + now rewrite Hbm.
    + now rewrite Hbm, Hbp.
  - destruct (beacons_spec bs mi1 bi Hok1 Hbi)
      as (mm & ns & mi2 & bi2 & -> & -> & Hok2 & Hbok & Hext2 & Hbext & Hat).
    eexists _, mi2, bi2. split; [reflexivity |].
    assert (Hmods' :
              match f_modules (snd e) with
              | val mods =>
                  ∃ ns, modulesOf r1 (fst e) = Some (map indexNumber ns) ∧
                        modulesAt hash (Zip.bare <$> list_ mi2) mods ns
              | _ => modulesOf r1 (fst e) = modulesOf r (fst e)
              end).
    { destruct (f_modules (snd e)) as [| |mods]; try exact Hmods.
      destruct Hmods as (l & Hl & Hml). exists l. split; [exact Hl |].
      apply (modulesAt_mono (Zip.bare <$> list_ mi1)); [| exact Hml].
      now apply records_extends. }
    destruct (String.eqb_spec (fst e) "__proto__") as [Heq | Hne];
      cbn [moduleMap beaconMap moduleProto beaconProto];
      repeat match goal with |- _ ∧ _ => split end; auto.
    + now apply (extends_trans mi mi1 mi2).
    + intros id Hid. split; [now apply Hother |].
      rewrite !assigned_own by congruence. now rewrite Hbm.
    + now rewrite Hbm.
    + exists ns. rewrite Heq. split; [reflexivity | exact Hat].
    + now apply (extends_trans mi mi1 mi2).
    + intros id Hid. split; [now apply Hother |]. unfold assigned.
      destruct (String.eqb id "__proto__"); [exact Hbp |].
      rewrite lookup_insert_ne by congruence. now rewrite Hbm.
    + rewrite lookup_insert_ne by congruence. now rewrite Hbm.
    + exists ns. rewrite assigned_own by exact Hne.
      now rewrite lookup_insert_eq.
Qed.

Lemma zipMachineSettings_spec (state : list (string * MachineFields))
    (mi bi : ZipRecipeSettingsInfo) :
  infoOk mi → infoOk bi → NoDup state.*1 →
  ∃ r mi' bi',
    zipMachineSettings state mi bi hash = (r, mi', bi') ∧
    infoOk mi' ∧ infoOk bi' ∧
    (∃ added, list_ mi' = list_ mi ++ added) ∧
    (∃ added, list_ bi' = list_ bi ++ added) ∧
    settingsAt hash (Zip.bare <$> list_ mi') (Zip.bare <$> list_ bi') state r.
Proof.
  intros Hmi Hbi. unfold zipMachineSettings.
  induction state as [|e state IH] using rev_ind; intros Hnd.
  - exists emptyMachineSettings, mi, bi. split; [reflexivity |].
    repeat match goal with |- _ ∧ _ => split end; auto; try apply extends_refl_.
    unfold settingsAt. split; [| split].
    + intros id fields Hin. inversion Hin.
    + intros id _. unfold assigned. cbn [emptyMachineSettings moduleMap
        beaconMap moduleProto beaconProto].
      destruct (String.eqb id "__proto__"); split; try reflexivity;
        apply lookup_empty.
    + split; apply lookup_empty.
  - rewrite fmap_app in Hnd. apply NoDup_app in Hnd as (Hnd & Hfresh & _).
    destruct (IH Hnd) as (r1 & mi1 & bi1 & Heq & Hok1 & Hbok1 & Hext1 & Hbext1 & Hat).
    rewrite fold_left_app, Heq. cbn [fold_left].
    destruct (zipMachineSettings_step_spec r1 mi1 bi1 e Hok1 Hbok1)
      as (r2 & mi2 & bi2 & -> & Hok2 & Hbok2 & Hext2 & Hbext2 & Hother & Hown &
          Hmods & Hbs).
    exists r2, mi2, bi2. split; [reflexivity |].
    split; [exact Hok2 |]. split; [exact Hbok2 |].
    split; [now apply (extends_trans mi mi1 mi2) |].
    split; [now apply (extends_trans bi bi1 bi2) |].
    assert (Hnew : fst e ∉ state.*1).
    { intros Hin. apply (Hfresh (fst e) Hin). simpl. left. }
    destruct Hat as (Hin & Hout & Hpm & Hpb).
    destruct (Hout (fst e) Hnew) as [Hm0 Hb0].
    unfold settingsAt. split; [| split].
    + intros id fields Hmem. apply elem_of_app in Hmem as [Hmem | Hmem].
      * assert (Hne : id ≠ fst e).
        { intros ->. apply Hnew. apply list_elem_of_fmap.
          exists (fst e, fields). split; [reflexivity | exact Hmem]. }
        destruct (Hother id Hne) as [-> ->].
        destruct (settingsAt_mono (Zip.bare <$> list_ mi1) (Zip.bare <$> list_ mi2)
                    (Zip.bare <$> list_ bi1) (Zip.bare <$> list_ bi2) state r1
                    (records_extends _ _ Hext2) (records_extends _ _ Hbext2)
                    (conj Hin (conj Hout (conj Hpm Hpb)))) as [Hin' _].
        exact (Hin' id fields Hmem).
      * apply list_elem_of_singleton in Hmem. subst e. cbn [fst snd] in *. split.
        -- destruct (f_modules fields) as [| |mods]; try exact Hmods;
             now rewrite Hmods.
        -- destruct (f_beacons fields) as [| |bs]; try exact Hbs;
             now rewrite Hbs.
    + intros id Hid. rewrite fmap_app in Hid. apply not_elem_of_app in Hid as [Hid Hne].
      assert (Hne' : id ≠ fst e).
      { intros ->. apply Hne. simpl. left. }
      destruct (Hother id Hne') as [-> ->]. now apply Hout.
    + destruct Hown as [-> ->]. now split.
Qed.

Lemma config_records (mi bi : ZipRecipeSettingsInfo) :
  let config_ :=
    appendRecords
      (appendRecords {| Zip.bare := []; Zip.hash := [] |}
         QueryField.Module_ (list_ mi))
      QueryField.Beacon (list_ bi) in
  getAll (Zip.bare config_) QueryField.Module_ = Zip.bare <$> list_ mi ∧
  getAll (Zip.bare config_) QueryField.Beacon = Zip.bare <$> list_ bi ∧
  getAll (Zip.hash config_) QueryField.Module_ = Zip.hash <$> list_ mi ∧
  getAll (Zip.hash config_) QueryField.Beacon = Zip.hash <$> list_ bi.
Proof.
  cbv zeta.
  destruct (appendRecords_config
              (appendRecords {| Zip.bare := []; Zip.hash := [] |}
                 QueryField.Module_ (list_ mi))
              QueryField.Beacon (list_ bi)) as [-> ->].
  destruct (appendRecords_config {| Zip.bare := []; Zip.hash := [] |}
              QueryField.Module_ (list_ mi)) as [-> ->].
  cbn [Zip.bare Zip.hash app].
  rewrite !getAll_app, !getAll_same.
  rewrite !(getAll_other QueryField.Module_ QueryField.Beacon) by reflexivity.
  rewrite !(getAll_other QueryField.Beacon QueryField.Module_) by reflexivity.
  rewrite !app_nil_r. repeat split.
Qed.

(** [zipModulesBeacons] by its parts: the maps of the three kinds of
    owners, the positions of the beacons of the settings, and the two side
    tables whose records become the configuration. *)
Lemma zipModulesBeacons_spec
    (objectives_ recipes_ machines_ : list (string * MachineFields))
    (settingsBeacons : Nullable (list BeaconSettings)) :
  NoDup objectives_.*1 → NoDup recipes_.*1 → NoDup machines_.*1 →
  ∃ r1 r2 r3 z mi bi,
    zipModulesBeacons objectives_ recipes_ machines_ settingsBeacons hash =
      {| objectives := {| Zip.bare := []; Zip.hash := [] |};
         config :=
           appendRecords
             (appendRecords {| Zip.bare := []; Zip.hash := [] |}
                QueryField.Module_ (list_ mi))
             QueryField.Beacon (list_ bi);
         objectiveSettings := r1; recipeSettings := r2;
         machineSettings := r3; zbeacons := z |} ∧
    infoOk mi ∧ infoOk bi ∧
    settingsAt hash (Zip.bare <$> list_ mi) (Zip.bare <$> list_ bi)
      objectives_ r1 ∧
    settingsAt hash (Zip.bare <$> list_ mi) (Zip.bare <$> list_ bi)
      recipes_ r2 ∧
    settingsAt hash (Zip.bare <$> list_ mi) (Zip.bare <$> list_ bi)
      machines_ r3 ∧
    match settingsBeacons with
    | val bs =>
        ∃ ns, z = val (map indexNumber ns) ∧
              beaconsAt hash (Zip.bare <$> list_ mi) (Zip.bare <$> list_ bi)
                bs ns
    | _ => z = undefined
    end.
Proof.
  intros Hos Hrs Hms.
  destruct (zipMachineSettings_spec objectives_ emptyRecipeSettingsInfo
              emptyRecipeSettingsInfo infoOk_empty infoOk_empty Hos)
    as (r1 & mi1 & bi1 & E1 & Hm1 & Hb1 & _ & _ & Hat1).
  destruct (zipMachineSettings_spec recipes_ mi1 bi1 Hm1 Hb1 Hrs)
    as (r2 & mi2 & bi2 & E2 & Hm2 & Hb2 & Hme2 & Hbe2 & Hat2).
  destruct (zipMachineSettings_spec machines_ mi2 bi2 Hm2 Hb2 Hms)
    as (r3 & mi3 & bi3 & E3 & Hm3 & Hb3 & Hme3 & Hbe3 & Hat3).
  assert (Hlast : ∃ z mi4 bi4,
            (match settingsBeacons with
             | val bs =>
                 let '(moduleMap_, modulesInfo) := beaconModuleMap bs mi3 hash in
                 let '(ns, beaconsInfo) :=
                   zipBeaconArray bs moduleMap_ bi3 hash in
                 (val ns, modulesInfo, beaconsInfo)
             | _ => (undefined, mi3, bi3)
             end) = (z, mi4, bi4) ∧
            infoOk mi4 ∧ infoOk bi4 ∧
            (∃ added, list_ mi4 = list_ mi3 ++ added) ∧
            (∃ added, list_ bi4 = list_ bi3 ++ added) ∧
            match settingsBeacons with
            | val bs =>
                ∃ ns, z = val (map indexNumber ns) ∧
                      beaconsAt hash (Zip.bare <$> list_ mi4)
                        (Zip.bare <$> list_ bi4) bs ns
            | _ => z = undefined
            end).
  { destruct settingsBeacons as [| |bs].
    - exists undefined, mi3, bi3.
      repeat match goal with |- _ ∧ _ => split end; auto; apply extends_refl_.
    - exists undefined, mi3, bi3.
      repeat match goal with |- _ ∧ _ => split end; auto; apply extends_refl_.
    - destruct (beacons_spec bs mi3 bi3 Hm3 Hb3)
        as (mm & ns & mi4 & bi4 & -> & -> & Hm4 & Hb4 & Hme4 & Hbe4 & Hat4).
      exists (val (map indexNumber ns)), mi4, bi4.
      repeat match goal with |- _ ∧ _ => split end; auto.
      exists ns. split; [reflexivity | exact Hat4]. }
  destruct Hlast as (z & mi4 & bi4 & E4 & Hm4 & Hb4 & Hme4 & Hbe4 & Hat4).
  exists r1, r2, r3, z, mi4, bi4.
  assert (Hm34 := records_extends _ _ Hme4).
  assert (Hb34 := records_extends _ _ Hbe4).
  assert (Hm24 := records_extends _ _ (extends_trans _ _ _ Hme3 Hme4)).
  assert (Hb24 := records_extends _ _ (extends_trans _ _ _ Hbe3 Hbe4)).
  assert (Hm14 := records_extends _ _
                    (extends_trans _ _ _ Hme2 (extends_trans _ _ _ Hme3 Hme4))).
  assert (Hb14 := records_extends _ _
                    (extends_trans _ _ _ Hbe2 (extends_trans _ _ _ Hbe3 Hbe4))).
  split.
  { unfold zipModulesBeacons. cbv zeta. rewrite E1. cbv beta iota.
    rewrite E2. cbv beta iota. rewrite E3. cbv beta iota. rewrite E4.
    reflexivity. }
  split; [exact Hm4 |]. split; [exact Hb4 |].
  split; [exact (settingsAt_mono _ _ _ _ _ _ Hm14 Hb14 Hat1) |].
  split; [exact (settingsAt_mono _ _ _ _ _ _ Hm24 Hb24 Hat2) |].
  split; [exact (settingsAt_mono _ _ _ _ _ _ Hm34 Hb34 Hat3) |].
  exact Hat4.
Qed.

(** X15. Every position that [zipModulesBeacons] writes points to its
    record. The module and beacon records of the configuration hold no bare
    text twice and are as many in the hashed as in the bare parameters; for
    owners with distinct ids, the positions assigned under the id of an
    objective, of a recipe or of a machine (an own property of the map, or
    its prototype when the id is ['__proto__']) are the positions of the
    records of its modules and of its beacons (a beacon record being
    written with the positions of the records of the modules of the
    beacon); under the id of an owner without modules or beacons, or of no
    owner, nothing is assigned: the map has no own property there, and it
    keeps its prototype unless an owner is named ['__proto__']; and the
    positions of the beacons of the settings point to their records as
    well. The objective parameters are left empty. *)
Theorem zipModulesBeacons_pointers
    (objectives_ recipes_ machines_ : list (string * MachineFields))
    (settingsBeacons : Nullable (list BeaconSettings)) :
  NoDup objectives_.*1 → NoDup recipes_.*1 → NoDup machines_.*1 →
  let data :=
    zipModulesBeacons objectives_ recipes_ machines_ settingsBeacons hash in
  let mrecords := getAll (Zip.bare (config data)) QueryField.Module_ in
  let brecords := getAll (Zip.bare (config data)) QueryField.Beacon in
  objectives data = {| Zip.bare := []; Zip.hash := [] |} ∧
  NoDup mrecords ∧ NoDup brecords ∧
  length (getAll (Zip.hash (config data)) QueryField.Module_) =
    length mrecords ∧
  length (getAll (Zip.hash (config data)) QueryField.Beacon) =
    length brecords ∧
  settingsAt hash mrecords brecords objectives_ (objectiveSettings data) ∧
  settingsAt hash mrecords brecords recipes_ (recipeSettings data) ∧
  settingsAt hash mrecords brecords machines_ (machineSettings data) ∧
  match settingsBeacons with
  | val bs =>
      ∃ ns, zbeacons data = val (map indexNumber ns) ∧
            beaconsAt hash mrecords brecords bs ns
  | _ => zbeacons data = undefined
  end.
Proof.
  intros Hos Hrs Hms.
  destruct (zipModulesBeacons_spec objectives_ recipes_ machines_
              settingsBeacons Hos Hrs Hms)
    as (r1 & r2 & r3 & z & mi & bi & Hdata & Hmi & Hbi & Hat1 & Hat2 & Hat3 &
        Hat4).
  cbv zeta. rewrite Hdata. cbn [objectives config objectiveSettings
    recipeSettings machineSettings zbeacons].
  destruct (config_records mi bi) as (-> & -> & -> & ->).
  rewrite !length_fmap.
  split; [reflexivity |].
  split; [now apply infoOk_NoDup |]. split; [now apply infoOk_NoDup |].
  split; [reflexivity |]. split; [reflexivity |].
  split; [exact Hat1 |]. split; [exact Hat2 |]. split; [exact Hat3 |].
  exact Hat4.
Qed.

End Pointers.

Lemma zipModulesBeacons_pointers_witness :
  NoDup
    (getAll
       (Zip.bare
          (config
             (@zipModulesBeacons Sample.consts Sample.codec Sample.values
                Sample.owners [] [] (val Sample.beaconList) Sample.hashes)))
       QueryField.Module_).
Proof.
  assert (Hnd : NoDup Sample.owners.*1) by (apply NoDup_singleton).
  pose proof (@zipModulesBeacons_pointers Sample.consts Sample.codec
                Sample.values Sample.hashes Sample.owners [] []
                (val Sample.beaconList) Hnd NoDup_nil_2 NoDup_nil_2)
    as Hall.
  cbv zeta in Hall. destruct Hall as (_ & Hrecords & _). exact Hrecords.
Defined.

Example shared_tables_texts :
  let data :=
    @zipModulesBeacons Sample.consts Sample.codec Sample.values
      Sample.owners [] [] (val Sample.beaconList) Sample.hashes in
  Zip.bare (config data) =
    [ (QueryField.Module_, "2*speed-module");
      (QueryField.Module_, "*speed-module");
      (QueryField.Beacon, "8*0~1~0*beacon");
      (QueryField.Beacon, "**beacon") ] ∧
  Zip.hash (config data) =
    [ (QueryField.Module_, "2*A"); (QueryField.Module_, "*A");
      (QueryField.Beacon, "8*0~1~0*A"); (QueryField.Beacon, "**A") ] ∧
  zbeacons data = val [0%Z; 1%Z] ∧
  moduleMap (objectiveSettings data) !! "1" = Some [0%Z; 1%Z; 0%Z] ∧
  beaconMap (objectiveSettings data) !! "1" = Some [0%Z; 1%Z].
Proof. vm_compute. repeat split. Qed.

(** ** [updateState] on every path *)

Section UpdateStatePaths.
Context `{ZipConstants} `{IdCompaction} `{JsValues} `{RouterEnv}.
Variables ItemsState RecipesState MachinesState SettingsState : Type.
Variable stepModules : ParamMap → option ModHash → Res (list ModuleSettings).
Variable stepBeacons :
  ParamMap → list ModuleSettings → option ModHash → Res (list BeaconSettings).
Variable stepObjectives :
  ParamMap → list ModuleSettings → list BeaconSettings → option ModHash →
  Res (Nullable ObjectivesState).
Variable stepItems : ParamMap → option ModHash → Res (Nullable ItemsState).
Variable stepRecipes :
  ParamMap → list ModuleSettings → list BeaconSettings → option ModHash →
  Res (Nullable RecipesState).
Variable stepMachines :
  ParamMap → list ModuleSettings → list BeaconSettings → option ModHash →
  Res (Nullable MachinesState).
Variable stepSettings :
  string → ParamMap → list BeaconSettings → list string → ModHash →
  option ModHash → Res (Nullable SettingsState).

#[local] Abbreviation decode' :=
  (decodeState ItemsState RecipesState MachinesState SettingsState
     stepModules stepBeacons stepObjectives stepItems stepRecipes stepMachines
     stepSettings).
#[local] Abbreviation update' :=
  (updateState ItemsState RecipesState MachinesState SettingsState
     stepModules stepBeacons stepObjectives stepItems stepRecipes stepMachines
     stepSettings).

(** X16. On every path [updateState] keeps what was logged before, and what
    it adds is one of three sequences: ready alone, when the guard of its
    first line holds, that is when the mod id is nullish or
    [Object.keys(params)] is empty ([objectKeysEmpty], a test of the object
    that holds the parameters, of which nothing is assumed); the dispatch
    of the decoded state followed by ready twice (once by [dispatch], once
    by the finally block), when the guard fails and the decode succeeds; or
    the logged error followed by ready, with the generic rejection, when
    the guard fails and the decode fails. So ready is always signalled
    last, the store is dispatched to at most once, and the promise resolves
    exactly when no error was logged. *)
Theorem updateState_outcomes (modId : Nullable string) (params : ParamMap)
    (log : list (Event ItemsState RecipesState MachinesState SettingsState)) :
  ∃ r events,
    update' modId params log = (r, log ++ events) ∧
    last events = Some (ReadyNext _ _ _ _) ∧
    ((r = Ok tt ∧ events = [ReadyNext _ _ _ _] ∧
      (isNullish modId = true ∨ objectKeysEmpty params = true)) ∨
     (∃ id partial,
        modId = val id ∧ objectKeysEmpty params = false ∧
        decode' id params = Ok partial ∧ r = Ok tt ∧
        events = [StoreDispatch _ _ _ _ partial; ReadyNext _ _ _ _;
                  ReadyNext _ _ _ _]) ∨
     (∃ id e,
        modId = val id ∧ objectKeysEmpty params = false ∧
        decode' id params = Throw e ∧
        r = Throw "RouterService failed to parse url" ∧
        events = [ConsoleError _ _ _ _ e; ReadyNext _ _ _ _])).
Proof.
  destruct modId as [| |id].
  - exists (Ok tt), [ReadyNext _ _ _ _]. split; [reflexivity |].
    split; [reflexivity |]. left. auto.
  - exists (Ok tt), [ReadyNext _ _ _ _]. split; [reflexivity |].
    split; [reflexivity |]. left. auto.
  - unfold updateState. destruct (objectKeysEmpty params) eqn:Hkeys.
    + exists (Ok tt), [ReadyNext _ _ _ _]. split; [reflexivity |].
      split; [reflexivity |]. left. auto.
    + unfold tryCatchFinally, bindTask, liftRes, dispatch, emit, bindTask.
      destruct (decode' id params) as [partial | e] eqn:Hdecode.
      * exists (Ok tt), [StoreDispatch _ _ _ _ partial; ReadyNext _ _ _ _;
                         ReadyNext _ _ _ _].
        split; [simpl; now rewrite <- !app_assoc |]. split; [reflexivity |].
        right. left. exists id, partial. auto.
      * exists (Throw "RouterService failed to parse url"),
               [ConsoleError _ _ _ _ e; ReadyNext _ _ _ _].
        split; [simpl; now rewrite <- !app_assoc |]. split; [reflexivity |].
        right. right. exists id, e. auto.
Qed.

End UpdateStatePaths.

(** In the sample environment the object that holds the parameters is
    never without keys: a query without parameters is decoded and
    dispatched, with ready signalled twice, and only a nullish mod id
    leaves through the guard. *)
Example updateState_empty_query :
  Sample.update (val "1.1") [] [] =
    (Ok tt,
     [ StoreDispatch _ _ _ _
         {| objectivesState := undefined; itemsState := undefined;
            recipesState := undefined; machinesState := undefined;
            settingsState := undefined |};
       ReadyNext _ _ _ _; ReadyNext _ _ _ _ ]) ∧
  Sample.update null [(QueryField.Item, "coal")] [] =
    (Ok tt, [ReadyNext _ _ _ _]).
Proof. split; reflexivity. Qed.

(** ** The settings writer [set] *)

Lemma QueryField_eqb_refl (q : QueryField.t) : QueryField.eqb q q = true.
Proof. destruct q; reflexivity. Qed.

Lemma getAll_cons (kv : QueryField.t * string) (params : ParamMap)
    (key : QueryField.t) :
  getAll (kv :: params) key =
  if QueryField.eqb (fst kv) key then snd kv :: getAll params key
  else getAll params key.
Proof.
  unfold getAll, ParamMap, URLSearchParams in *. rewrite filter_cons.
  destruct (QueryField.eqb (fst kv) key) eqn:Heq.
  - destruct (decide (true = true)); [reflexivity | congruence].
  - destruct (decide (false = true)); [discriminate | reflexivity].
Qed.

Lemma getAll_removed (params : ParamMap) (key key' : QueryField.t) :
  getAll (filter (λ kv', QueryField.eqb (fst kv') key = false) params) key' =
  if QueryField.eqb key key' then [] else getAll params key'.
Proof.
  unfold ParamMap, URLSearchParams in *.
  induction params as [|kv params IH].
  - destruct (QueryField.eqb key key'); reflexivity.
  - rewrite filter_cons. rewrite (getAll_cons kv params key').
    destruct (QueryField.eqb (fst kv) key) eqn:Hk.
    + destruct (decide (true = false)); [discriminate |]. rewrite IH.
      destruct (QueryField.eqb key key') eqn:Hkk; [reflexivity |].
      destruct (QueryField.eqb (fst kv) key') eqn:Hk'; [| reflexivity].
      destruct (fst kv), key, key'; discriminate.
    + destruct (decide (false = false)); [| congruence].
      rewrite getAll_cons, IH.
      destruct (QueryField.eqb key key') eqn:Hkk; [| reflexivity].
      destruct (QueryField.eqb (fst kv) key') eqn:Hk'; [| reflexivity].
      destruct (fst kv), key, key'; discriminate.
Qed.

Lemma getAll_setFirst (params : ParamMap) (key key' : QueryField.t)
    (value : string) :
  existsb (λ kv, QueryField.eqb (fst kv) key) params = true →
  getAll (setFirst params key value) key' =
  if QueryField.eqb key key' then [value] else getAll params key'.
Proof.
  induction params as [|kv params IH]; [discriminate |].
  cbn [existsb setFirst]. destruct (QueryField.eqb (fst kv) key) eqn:Hk.
  - intros _. rewrite getAll_cons. cbn [fst snd]. rewrite getAll_removed.
    rewrite (getAll_cons kv params key').
    destruct (QueryField.eqb key key') eqn:Hkk; [reflexivity |].
    destruct (QueryField.eqb (fst kv) key') eqn:Hk'; [| reflexivity].
    destruct (fst kv), key, key'; discriminate.
  - simpl. intros Hex. rewrite getAll_cons, (IH Hex).
    rewrite (getAll_cons kv params key').
    destruct (QueryField.eqb key key') eqn:Hkk; [| reflexivity].
    destruct (QueryField.eqb (fst kv) key') eqn:Hk'; [| reflexivity].
    destruct (fst kv), key, key'; discriminate.
Qed.

Lemma getAll_absent (params : ParamMap) (key : QueryField.t) :
  existsb (λ kv, QueryField.eqb (fst kv) key) params = false →
  getAll params key = [].
Proof.
  induction params as [|kv params IH]; [reflexivity |].
  cbn [existsb]. intros Hex. apply orb_false_iff in Hex as [Hk Hex].
  rewrite getAll_cons, Hk. now apply IH.
Qed.

(** [params.set(key, value)] leaves one entry under the key and the other
    keys as they were. *)
Lemma getAll_uspSet (params : ParamMap) (key key' : QueryField.t)
    (value : string) :
  getAll (uspSet params key value) key' =
  if QueryField.eqb key key' then [value] else getAll params key'.
Proof.
  unfold uspSet.
  destruct (existsb (λ kv, QueryField.eqb (fst kv) key) params) eqn:Hex.
  - now apply getAll_setFirst.
  - rewrite getAll_app, (getAll_cons (key, value) [] key'). cbn [fst snd].
    destruct (QueryField.eqb key key') eqn:Hkk.
    + assert (key' = key) as -> by (destruct key, key'; try discriminate; reflexivity).
      now rewrite (getAll_absent _ _ Hex).
    + apply app_nil_r.
Qed.

Section SettingsWriter.
Context `{ZipConstants} `{IdCompaction} `{JsValues}.

(** X17. The settings writer [set] writes a field or leaves the encoding
    context alone. When the bare text of the diff of the located value
    against the located baseline is empty, nothing changes. Otherwise each
    container holds exactly one entry under the key afterwards, the bare
    and the hashed text of the diff, whatever it held under the key before;
    the entries of the other keys, the objective parameters and the
    position maps stay as they were. *)
Theorem setField_writes_once {T V} (zipData : ZipData) (state init : T)
    (value : V → V → ZipOut) (query : QueryField.t) (locator : T → V) :
  let v := value (locator state) (locator init) in
  let b := match v with Pair b _ => b | Str x => x end in
  let h := match v with Pair _ h => h | Str x => x end in
  let zipData' := setField zipData state init value query locator in
  (b = EmptyString → zipData' = zipData) ∧
  (b ≠ EmptyString →
   getAll (Zip.bare (config zipData')) query = [b] ∧
   getAll (Zip.hash (config zipData')) query = [h] ∧
   get (Zip.bare (config zipData')) query = val b ∧
   get (Zip.hash (config zipData')) query = val h ∧
   (∀ q, QueryField.eqb query q = false →
      getAll (Zip.bare (config zipData')) q =
        getAll (Zip.bare (config zipData)) q ∧
      getAll (Zip.hash (config zipData')) q =
        getAll (Zip.hash (config zipData)) q)) ∧
  objectives zipData' = objectives zipData ∧
  objectiveSettings zipData' = objectiveSettings zipData ∧
  recipeSettings zipData' = recipeSettings zipData ∧
  machineSettings zipData' = machineSettings zipData ∧
  zbeacons zipData' = zbeacons zipData.
Proof.
  cbv zeta. unfold setField.
  set (v := value (locator state) (locator init)).
  set (b := match v with Pair b _ => b | Str x => x end).
  set (h := match v with Pair _ h => h | Str x => x end).
  destruct (Nat.eqb (String.length b) 0) eqn:Hlen.
  - split; [reflexivity |]. split; [| repeat split].
    intros Hne. destruct b; [congruence | discriminate].
  - split; [intros Hb; rewrite Hb in Hlen; discriminate |].
    split; [| repeat split]. intros _. cbn [config Zip.bare Zip.hash].
    unfold get. rewrite !getAll_uspSet, !QueryField_eqb_refl.
    repeat match goal with |- _ ∧ _ => split end; try reflexivity.
    intros q Hq. rewrite !getAll_uspSet, Hq. split; reflexivity.
Qed.

End SettingsWriter.

Lemma setField_writes_once_witness :
  get
    (Zip.bare
       (config
          (@setField Sample.values bool bool Sample.emptyData true false
             (λ s i, Str (@zipDiffBool Sample.consts s i))
             QueryField.Item (λ s, s))))
    QueryField.Item = val "1".
Proof.
  pose proof (@setField_writes_once Sample.values bool bool Sample.emptyData
                true false (λ s i, Str (@zipDiffBool Sample.consts s i))
                QueryField.Item (λ s, s)) as Hset.
  cbv zeta in Hset. destruct Hset as (_ & Hwritten & _).
  destruct Hwritten as (_ & _ & Hget & _); [discriminate | exact Hget].
Defined.

Section SettingsRoundTrip.
Context `{ZipConstants} `{IdCompaction} `{JsValues}.

Lemma get_absent (params : ParamMap) (q : QueryField.t) :
  getAll params q = [] → get params q = null.
Proof. unfold get. now intros ->. Qed.

Lemma setField_get {T V} (zipData : ZipData) (state init : T)
    (value : V → V → ZipOut) (query : QueryField.t) (locator : T → V)
    (b h : string) :
  value (locator state) (locator init) = Pair b h ∨
  (value (locator state) (locator init) = Str b ∧ h = b) →
  b ≠ EmptyString →
  get (Zip.bare (config (setField zipData state init value query locator)))
    query = val b ∧
  get (Zip.hash (config (setField zipData state init value query locator)))
    query = val h.
Proof.
  intros Hv Hb. unfold setField.
  assert (Hbare : match value (locator state) (locator init) with
                  | Pair b' _ => b' | Str x => x end = b)
    by (destruct Hv as [-> | [-> _]]; reflexivity).
  assert (Hhash : match value (locator state) (locator init) with
                  | Pair _ h' => h' | Str x => x end = h)
    by (destruct Hv as [-> | [-> ->]]; reflexivity).
  rewrite Hbare, Hhash.
  destruct (Nat.eqb (String.length b) 0) eqn:Hlen;
    [destruct b; [congruence | discriminate] |].
  cbn [config Zip.bare Zip.hash]. unfold get.
  now rewrite !getAll_uspSet, !QueryField_eqb_refl.
Qed.

Lemma setField_skip {T V} (zipData : ZipData) (state init : T)
    (value : V → V → ZipOut) (query : QueryField.t) (locator : T → V) :
  value (locator state) (locator init) = Str EmptyString →
  setField zipData state init value query locator = zipData.
Proof. intros Hv. unfold setField. now rewrite Hv. Qed.

End SettingsRoundTrip.

Section BoolSetting.
Context `{ZipConstants} `{IdCompaction} `{JsValues}.
Hypothesis markers_differ : ZTRUE ≠ ZFALSE.
Hypothesis ztrue_present : ZTRUE ≠ EmptyString ∧ ZTRUE ≠ ZNULL.
Hypothesis zfalse_present : ZFALSE ≠ EmptyString ∧ ZFALSE ≠ ZNULL.

(** X18. A boolean setting round trips through the settings writer. In a
    configuration without an entry under the key, [set] with
    [zipDiffBool] followed by [parseBool] of the parameter of the key, in
    either container, reads the value when it differs from the baseline,
    and [undefined] when it is the baseline: then nothing was written. *)
Theorem bool_setting_round_trip {T} (zipData : ZipData) (state init : T)
    (query : QueryField.t) (locator : T → bool) :
  getAll (Zip.bare (config zipData)) query = [] →
  getAll (Zip.hash (config zipData)) query = [] →
  let zipData' :=
    setField zipData state init (λ s i, Str (zipDiffBool s i)) query locator in
  (locator state ≠ locator init →
   parseBool (get (Zip.bare (config zipData')) query) = val (locator state) ∧
   parseBool (get (Zip.hash (config zipData')) query) = val (locator state)) ∧
  (locator state = locator init →
   zipData' = zipData ∧
   parseBool (get (Zip.bare (config zipData')) query) = undefined ∧
   parseBool (get (Zip.hash (config zipData')) query) = undefined).
Proof.
  intros Hbare Hhash. cbv zeta.
  destruct ztrue_present as [Ht1 Ht2]. destruct zfalse_present as [Hf1 Hf2].
  assert (Htrue : parseBool (val ZTRUE) = val true).
  { unfold parseBool. rewrite (present_other _ Ht1 Ht2).
    now rewrite String.eqb_refl. }
  assert (Hfalse : parseBool (val ZFALSE) = val false).
  { unfold parseBool. rewrite (present_other _ Hf1 Hf2).
    rewrite string_eqb_false; [reflexivity | congruence]. }
  split.
  - intros Hne.
    assert (Hmarker : zipDiffBool (locator state) (locator init) ≠ EmptyString ∧
                      parseBool (val (zipDiffBool (locator state) (locator init))) =
                        val (locator state)).
    { unfold zipDiffBool. destruct (locator state), (locator init);
        simpl; try congruence; auto. }
    destruct Hmarker as [Hb Hread].
    destruct (setField_get zipData state init
                (λ s i, Str (zipDiffBool s i)) query locator _ _
                (or_intror (conj eq_refl eq_refl)) Hb) as [-> ->].
    split; exact Hread.
  - intros Heq.
    assert (Hskip : setField zipData state init (λ s i, Str (zipDiffBool s i))
                      query locator = zipData).
    { apply setField_skip. unfold zipDiffBool. rewrite Heq.
      now destruct (locator init). }
    rewrite Hskip, (get_absent _ _ Hbare), (get_absent _ _ Hhash).
    repeat split.
Qed.

End BoolSetting.

Section StringSetting.
Context `{ZipConstants} `{IdCompaction} `{JsValues}.
Hypothesis id_contract : IdContract.

(** X19. A string setting round trips through the settings writer, in both
    containers. In a configuration without an entry under the key, [set]
    with [zipDiffString] writes nothing for a value that is the baseline;
    a plain text that differs from the baseline is read back by
    [parseString] from the bare parameter, and from the hashed parameter
    with the dictionary when it is an entry of the dictionary. *)
Theorem string_setting_round_trip {T} (zipData : ZipData) (state init : T)
    (query : QueryField.t) (locator : T → Nullable string)
    (hash : list string) :
  getAll (Zip.bare (config zipData)) query = [] →
  getAll (Zip.hash (config zipData)) query = [] →
  let zipData' :=
    setField zipData state init (λ s i, zipDiffString s i hash) query locator in
  (strictEq String.eqb (locator state) (locator init) = true →
   zipData' = zipData ∧
   parseString (get (Zip.bare (config zipData')) query) None = undefined ∧
   parseString (get (Zip.hash (config zipData')) query) (Some hash) =
     undefined) ∧
  (∀ s, locator state = val s → val s ≠ locator init →
     s ≠ EmptyString → s ≠ ZNULL →
     parseString (get (Zip.bare (config zipData')) query) None = val s ∧
     (s ∈ hash →
      parseString (get (Zip.hash (config zipData')) query) (Some hash) =
        val s)).
Proof.
  intros Hbare Hhash. cbv zeta. split.
  - intros Heq.
    assert (Hskip : setField zipData state init (λ s i, zipDiffString s i hash)
                      query locator = zipData).
    { apply setField_skip. unfold zipDiffString. now rewrite Heq. }
    rewrite Hskip, (get_absent _ _ Hbare), (get_absent _ _ Hhash).
    repeat split.
  - intros s Hs Hne Hnonempty Hnotnull.
    assert (Hv : zipDiffString (locator state) (locator init) hash =
                 Pair s (nToId (indexOf hash s))).
    { unfold zipDiffString. rewrite Hs.
      rewrite (strictEq_false String.eqb s (locator init));
        [reflexivity | | exact Hne].
      intros x y Hxy. now apply String.eqb_eq. }
    destruct (setField_get zipData state init
                (λ s i, zipDiffString s i hash) query locator _ _
                (or_introl Hv) Hnonempty) as [-> ->].
    split.
    + cbn [parseString]. unfold parseString_bare.
      now rewrite (present_other _ Hnonempty Hnotnull).
    + intros Hin. cbn [parseString].
      exact (parseNString_zipNString id_contract s hash Hin).
Qed.

End StringSetting.

Lemma bool_setting_round_trip_witness :
  @parseBool Sample.consts
    (get
       (Zip.bare
          (config
             (@setField Sample.values bool bool Sample.emptyData true false
                (λ s i, Str (@zipDiffBool Sample.consts s i))
                QueryField.Item (λ s, s))))
       QueryField.Item) = val true.
Proof.
  assert (Hmarkers : @ZTRUE Sample.consts ≠ @ZFALSE Sample.consts) by discriminate.
  assert (Htrue : @ZTRUE Sample.consts ≠ EmptyString ∧
                  @ZTRUE Sample.consts ≠ @ZNULL Sample.consts)
    by (split; discriminate).
  assert (Hfalse : @ZFALSE Sample.consts ≠ EmptyString ∧
                   @ZFALSE Sample.consts ≠ @ZNULL Sample.consts)
    by (split; discriminate).
  pose proof (@bool_setting_round_trip Sample.consts Sample.values
                Hmarkers Htrue Hfalse bool Sample.emptyData true false
                QueryField.Item (λ s, s) eq_refl eq_refl) as Hround.
  cbv zeta in Hround. destruct Hround as [Hdiff _].
  destruct Hdiff as [Hbare _]; [discriminate | exact Hbare].
Defined.

Lemma string_setting_round_trip_witness :
  @parseString Sample.consts Sample.codec
    (get
       (Zip.hash
          (config
             (@setField Sample.values (Nullable string) (Nullable string)
                Sample.emptyData (val "transport-belt") undefined
                (λ s i, @zipDiffString Sample.consts Sample.codec s i (belts Sample.hashes))
                QueryField.Item (λ s, s))))
       QueryField.Item)
    (Some (belts Sample.hashes)) = val "transport-belt".
Proof.
  pose proof (@string_setting_round_trip Sample.consts Sample.codec
                Sample.values SampleFacts.id_contract (Nullable string)
                Sample.emptyData (val "transport-belt") undefined
                QueryField.Item (λ s, s) (belts Sample.hashes)
                eq_refl eq_refl) as Hround.
  cbv zeta in Hround. destruct Hround as [_ Hdiff].
  destruct (Hdiff "transport-belt" eq_refl) as [_ Hhash];
    [discriminate | discriminate | discriminate |].
  apply Hhash. set_solver.
Defined.

(** ** [getParams]: the sections of a query string *)

Lemma fold_left_ext_in {A B} (f g : A → B → A) (l : list B) (a : A) :
  (∀ a b, b ∈ l → f a b = g a b) → fold_left f l a = fold_left g l a.
Proof.
  revert a. induction l as [|b l IH]; intros a Hfg; [reflexivity |].
  simpl. rewrite Hfg by left. apply IH. intros a' b' Hb'. apply Hfg. now right.
Qed.

(** X20. [getParams] files every section of a query string under its first
    character. For sections [k=v] with distinct one-character keys other
    than the ampersand and values free of it, joined by ampersands, the
    result maps each key to its value; and so it does for sections [kv]
    without the equals sign, when the value of the first section does not
    begin with one. *)
Theorem getParams_reads_sections (entries : list (ascii * string))
    (withEquals : bool) :
  entries ≠ [] → NoDup entries.*1 →
  Forall (λ e, fst e ≠ "&"%char ∧ occurs "&" (snd e) = false) entries →
  (withEquals = false →
   ∀ e, head entries = Some e → String.get 0 (snd e) ≠ Some "="%char) →
  getParams
    (join "&"
       (map (λ e, String (fst e)
                    ((if withEquals then "=" else EmptyString) +:+ snd e))
          entries)) =
  list_to_map (map (λ e, (String (fst e) EmptyString, snd e)) entries).
Proof.
  intros Hne Hnd Hall Hfirst. unfold getParams.
  set (section_ := λ e : ascii * string,
         String (fst e) ((if withEquals then "=" else EmptyString) +:+ snd e)).
  assert (Hsplit : split "&" (join "&" (map section_ entries)) =
                   map section_ entries).
  { apply (split_join "&" (map section_ entries)).
    - intros Hnil. apply map_eq_nil in Hnil. contradiction.
    - apply Forall_map. eapply Forall_impl; [exact Hall |].
      intros [k v] [Hk Hv]. unfold section_. cbn [fst snd] in *. simpl.
      assert (Hkc : Ascii.eqb k "&" = false) by now apply Ascii.eqb_neq.
      rewrite Hkc. destruct withEquals; simpl; exact Hv. }
  rewrite Hsplit.
  assert (Hsub : (if strictEq String.eqb
                       (charAt (coalesce (at_ (map section_ entries) 0)
                                  EmptyString) 1) (val "=")
                  then 2 else 1) = if withEquals then 2 else 1).
  { destruct entries as [|[k v] rest]; [congruence |].
    cbn [map at_ lookup list_lookup coalesce]. unfold section_. cbn [fst snd].
    destruct withEquals; [reflexivity |].
    specialize (Hfirst eq_refl (k, v) eq_refl). cbn [snd] in Hfirst.
    unfold charAt. simpl. destruct v as [|c v]; [reflexivity |].
    simpl in *. destruct (Ascii.eqb_spec c "="); [congruence |].
    simpl. destruct (Ascii.eqb c "=") eqn:Hc; [| reflexivity].
    apply Ascii.eqb_eq in Hc. congruence. }
  rewrite Hsub, fold_left_map.
  rewrite <- (fold_left_insert_list_to_map
                (map (λ e, (String (fst e) EmptyString, snd e)) entries)).
  - rewrite fold_left_map. apply fold_left_ext_in. intros m [k v] _.
    unfold section_. cbn [fst snd]. destruct withEquals; reflexivity.
  - rewrite <- list_fmap_compose.
    change (NoDup ((λ k, String k EmptyString) <$> ((fst <$> entries)))) ||
    (rewrite (list_fmap_ext _ ((λ k, String k EmptyString) ∘ fst) entries)
       by (intros; reflexivity)).
    rewrite ?list_fmap_compose. apply NoDup_fmap_2; [| exact Hnd].
    intros x y Hxy. now injection Hxy.
Qed.

Lemma getParams_reads_sections_witness :
  getParams "z=eJwrSS0u*&v=11" !! "z" = Some "eJwrSS0u*" ∧
  getParams "z=eJwrSS0u*&v=11" !! "v" = Some "11".
Proof.
  assert (Hall : Forall (λ e : ascii * string,
                    fst e ≠ "&"%char ∧ occurs "&" (snd e) = false)
                   [("z"%char, "eJwrSS0u*"); ("v"%char, "11")]).
  { repeat constructor; discriminate. }
  assert (Hnd : NoDup [("z"%char, "eJwrSS0u*"); ("v"%char, "11")].*1).
  { apply NoDup_cons. split; [| apply NoDup_singleton].
    intros Hin. apply list_elem_of_singleton in Hin. discriminate. }
  pose proof (getParams_reads_sections
                [("z"%char, "eJwrSS0u*"); ("v"%char, "11")] true) as Hget.
  cbn [map join fst snd String.append] in Hget.
  rewrite Hget; [split; reflexivity | discriminate | exact Hnd | exact Hall |
                 discriminate].
Defined.

(** ** Positions written by [zipArray] and read through a side table *)

Module SampleIndex.

Lemma digits_only (d : Decimal.uint) (c : ascii) :
  occurs c (NilEmpty.string_of_uint d) = true →
  c ≠ "*"%char ∧ c ≠ "~"%char ∧ c ≠ "?"%char ∧ c ≠ "="%char.
Proof.
  induction d as [|d IH|d IH|d IH|d IH|d IH|d IH|d IH|d IH|d IH|d IH];
    cbn [NilEmpty.string_of_uint occurs]; intros Hc; [discriminate | ..];
    (apply orb_true_iff in Hc as [Hc | Hc];
     [apply Ascii.eqb_eq in Hc; subst c; repeat split; discriminate
     | now apply IH]).
Qed.

Lemma digits_only_zero (d : Decimal.uint) (c : ascii) :
  occurs c (NilZero.string_of_uint d) = true →
  c ≠ "*"%char ∧ c ≠ "~"%char ∧ c ≠ "?"%char ∧ c ≠ "="%char.
Proof.
  destruct d; try apply digits_only.
  cbn [NilZero.string_of_uint occurs]. intros Hc. rewrite orb_false_r in Hc. apply Ascii.eqb_eq in Hc.
  subst c. repeat split; discriminate.
Qed.

Lemma printZ_nat (n : nat) :
  ∃ d, Sample.printZ (Z.of_nat n) = NilZero.string_of_uint d.
Proof.
  unfold Sample.printZ. destruct (Z.of_nat n) eqn:Hz; simpl.
  - exists (Decimal.D0 Decimal.Nil). reflexivity.
  - eexists. reflexivity.
  - lia.
Qed.

Lemma parseZ_printZ (z : Z) : Sample.parseZ (Sample.printZ z) = z.
Proof.
  unfold Sample.parseZ, Sample.printZ. rewrite NilZero.isi.
  - apply DecimalZ.of_to.
  - destruct z; simpl; try discriminate.
    intros [= Hp]. now apply DecimalPos.Unsigned.to_uint_nonnil in Hp.
  - destruct z; simpl; try discriminate.
    intros [= Hp]. now apply DecimalPos.Unsigned.to_uint_nonnil in Hp.
Qed.

Lemma index_contract : @IndexContract Sample.consts Sample.values.
Proof.
  split.
  - intros n. unfold indexNumber, toString, number_ToString. simpl.
    rewrite parseZ_printZ.
    destruct (Z.ltb_spec (Z.of_nat n) 0); [lia |]. now rewrite Nat2Z.id.
  - intros n. unfold indexNumber, toString, number_ToString. simpl.
    destruct (printZ_nat n) as [d ->]. destruct d; discriminate.
  - intros n c Hc.
    change (occurs c (Sample.printZ (Z.of_nat n)) = true) in Hc.
    destruct (printZ_nat n) as [d Hd]. rewrite Hd in Hc.
    destruct (digits_only_zero d c Hc) as (Hfield & Hsep & Hnull & Hempty).
    split; [exact Hfield |]. split; [exact Hsep |]. split.
    + change (Ascii.eqb "?" c || false = false). rewrite orb_false_r.
      apply Ascii.eqb_neq. congruence.
    + change (Ascii.eqb "=" c || false = false). rewrite orb_false_r.
      apply Ascii.eqb_neq. congruence.
Qed.

End SampleIndex.

Section Positions.
Context `{ZipConstants} `{IdCompaction} `{JsValues}.
Hypothesis sentinels_ok : SentinelsOk.
Hypothesis index_contract : IndexContract.

Lemma index_no_sep (n : nat) :
  occurs ZARRAYSEP (toString (indexNumber n)) = false.
Proof.
  destruct (occurs ZARRAYSEP (toString (indexNumber n))) eqn:Hocc;
    [| reflexivity].
  destruct (index_alphabet index_contract n ZARRAYSEP Hocc) as (_ & Hne & _).
  congruence.
Qed.

Lemma positions_text (n : nat) (rest : list nat) :
  let text :=
    join (sepStr ZARRAYSEP) (map toString (map indexNumber (n :: rest))) in
  present (val text) = Some text ∧ text ≠ ZEMPTY.
Proof.
  cbv zeta. cbn [map].
  set (text := join (sepStr ZARRAYSEP)
                 (toString (indexNumber n) :: map toString (map indexNumber rest))).
  destruct (occurs_nonempty (toString (indexNumber n))) as [c Hc].
  { apply (index_nonempty index_contract). }
  pose proof (occurs_join_head c (sepStr ZARRAYSEP) _
                (map toString (map indexNumber rest)) Hc) as Htext.
  fold text in Htext.
  destruct (index_alphabet index_contract n c Hc) as (_ & _ & Hnull & Hempty).
  assert (Hne : text ≠ EmptyString)
    by (intros Heq; rewrite Heq in Htext; discriminate).
  assert (Hnn : text ≠ ZNULL)
    by (intros Heq; rewrite Heq in Htext; congruence).
  split; [now apply present_other |].
  intros Heq. rewrite Heq in Htext. congruence.
Qed.

Lemma positions_read {T} (table : list T) (dflt : T) (ns : list nat) :
  optMap (byNumber table dflt)
    (parseArray_bare (val (zipArray (val (map indexNumber ns))))) =
  val (map (λ n, coalesce (at_ table n) dflt) ns).
Proof.
  destruct ns as [|n rest].
  - cbn [map zipArray length Nat.eqb]. unfold parseArray_bare.
    rewrite (present_other ZEMPTY (zempty_nonempty sentinels_ok)
               (zempty_not_znull sentinels_ok)).
    now rewrite String.eqb_refl.
  - destruct (positions_text n rest) as [Hpresent Hnot].
    unfold zipArray. cbn [length Nat.eqb map]. cbn [map] in Hpresent, Hnot.
    unfold parseArray_bare. rewrite Hpresent.
    rewrite (string_eqb_false _ _ Hnot).
    rewrite (split_join ZARRAYSEP
               (toString (indexNumber n) :: map toString (map indexNumber rest))).
    + cbn [optMap]. f_equal.
      change (map (byNumber table dflt)
                (map toString (map indexNumber (n :: rest))) =
              map (λ n, coalesce (at_ table n) dflt) (n :: rest)).
      rewrite !map_map. apply map_ext. intros k. unfold byNumber.
      now rewrite (index_read index_contract).
    + discriminate.
    + change (Forall (λ x, occurs ZARRAYSEP x = false)
                (map toString (map indexNumber (n :: rest)))).
      rewrite map_map. apply Forall_map. apply Forall_forall. intros k _.
      apply index_no_sep.
Qed.

(** X21. Positions round trip through a record sub-field. A list of
    positions written by [zipArray] and read by [parseArray], each text
    through [Number] as an index into a side table with the empty object
    as the default, gives the entries of the table at those positions, in
    order; the empty list is read back as the empty list, and omitted
    positions as [undefined]. *)
Theorem positions_round_trip {T} (table : list T) (dflt : T) (ns : list nat) :
  optMap (byNumber table dflt)
    (parseArray_bare (val (zipArray (val (map indexNumber ns))))) =
    val (map (λ n, coalesce (at_ table n) dflt) ns) ∧
  optMap (byNumber table dflt)
    (parseArray_bare (val (zipArray (val (map indexNumber []))))) = val [] ∧
  optMap (byNumber table dflt)
    (parseArray_bare (val (zipArray (undefined : Nullable (list number))))) =
    undefined.
Proof.
  split; [apply positions_read |]. split; [apply (positions_read table dflt []) |].
  reflexivity.
Qed.

End Positions.

Lemma positions_round_trip_witness :
  optMap (@byNumber Sample.values string ["a"; "b"; "c"] "none")
    (@parseArray_bare Sample.consts
       (val (@zipArray Sample.consts (@number Sample.values) _
               (val [2%Z; 0%Z; 7%Z])))) =
  val ["c"; "a"; "none"].
Proof.
  destruct (@positions_round_trip Sample.consts Sample.values
              SampleFacts.sentinels_ok SampleIndex.index_contract string
              ["a"; "b"; "c"] "none" [2; 0; 7]) as [Hread _].
  exact Hread.
Defined.

(** ** Machines: the records and the side tables read back *)

Lemma occurs_join_false (c : ascii) (sep : string) (l : list string) :
  occurs c sep = false → Forall (λ x, occurs c x = false) l →
  occurs c (join sep l) = false.
Proof.
  intros Hsep Hall. induction Hall as [|x l Hx Hall IH]; [reflexivity |].
  destruct l as [|y l]; [exact Hx |].
  change (join sep (x :: y :: l)) with (x +:+ sep +:+ join sep (y :: l)).
  now rewrite !occurs_app, Hx, Hsep, IH.
Qed.

Section MapReads.
Context `{ZipConstants} `{IdCompaction} `{JsValues} `{RouterEnv}.

(** Under an ordinary key a map that keeps its prototype answers with its
    own property, and [zipArray] sees an array or [undefined]. *)
Lemma zipArrayOf_ordinary (own : gmap string (list number)) (id : string) :
  ordinaryKey id →
  zipArrayOf (property own None id) = Ok (zipArray (entity own id)).
Proof.
  intros Hid. unfold property, entity.
  destruct (own !! id) as [ns|]; [reflexivity |].
  unfold ordinaryKey in Hid. now rewrite Hid.
Qed.

(** Owners with ordinary ids leave the prototypes of the two maps alone. *)
Lemma settingsAt_ordinary (hash : ModHash) (m b : list string)
    (state : list (string * MachineFields)) (r : ZipMachineSettings) :
  settingsAt hash m b state r →
  Forall (λ e, ordinaryKey (fst e)) state →
  moduleProto r = None ∧ beaconProto r = None.
Proof.
  intros (_ & Hout & _) Hall. apply (Hout "__proto__").
  intros Hin. apply list_elem_of_fmap in Hin as ([i fields] & Hi & Hmem).
  rewrite Forall_forall in Hall. specialize (Hall _ Hmem).
  cbn [fst] in *. subst i. discriminate.
Qed.

(** The own properties of an owner whose id is not ['__proto__']. *)
Lemma settingsAt_own (hash : ModHash) (m b : list string)
    (state : list (string * MachineFields)) (r : ZipMachineSettings)
    (id : string) (fields : MachineFields) :
  settingsAt hash m b state r → (id, fields) ∈ state → id ≠ "__proto__" →
  match f_modules fields with
  | val mods =>
      ∃ ns, moduleMap r !! id = Some (map indexNumber ns) ∧
            modulesAt hash m mods ns
  | _ => moduleMap r !! id = None
  end ∧
  match f_beacons fields with
  | val bs =>
      ∃ ns, beaconMap r !! id = Some (map indexNumber ns) ∧
            beaconsAt hash m b bs ns
  | _ => beaconMap r !! id = None
  end.
Proof.
  intros (Hin & _) Hmem Hne. destruct (Hin id fields Hmem) as [Hm Hb].
  rewrite !assigned_own in Hm, Hb by exact Hne. now split.
Qed.

End MapReads.

Section MachinesRoundTrip.
Context `{ZipConstants} `{IdCompaction} `{JsValues} `{RouterEnv}.
Hypothesis fieldsep_star : ZFIELDSEP = "*"%char.
Hypothesis sentinels_ok : SentinelsOk.
Hypothesis index_contract : IndexContract.
Hypothesis zempty_no_sep : occurs ZFIELDSEP ZEMPTY = false.
Variable hash : ModHash.

Lemma positions_no_sep (v : Nullable (list nat)) :
  occurs ZFIELDSEP (zipArray (optMap indexNumber v)) = false.
Proof.
  destruct v as [| |ns]; [reflexivity | reflexivity |].
  cbn [optMap zipArray]. rewrite length_map.
  destruct (Nat.eqb (length ns) 0); [exact zempty_no_sep |].
  apply occurs_join_false.
  - simpl. rewrite orb_false_r. apply Ascii.eqb_neq.
    intros Heq. apply (seps_differ sentinels_ok). now symmetry.
  - rewrite map_map. apply Forall_map. apply Forall_forall. intros n _.
    destruct (occurs ZFIELDSEP (toString (indexNumber n))) eqn:Hocc;
      [| reflexivity].
    destruct (index_alphabet index_contract n ZFIELDSEP Hocc) as [Hne _].
    congruence.
Qed.

Lemma parseArray_bare_position (fs : list string) (i : nat) :
  Forall (λ x, occurs ZFIELDSEP x = false) fs →
  parseArray_bare (at_ (split ZFIELDSEP (zipFields fs)) i) =
  parseArray_bare (at_ fs i).
Proof.
  intros Hall. unfold parseArray_bare.
  now rewrite (present_positions fieldsep_star fs i Hall).
Qed.

Lemma parseRational_position (fs : list string) (i : nat) :
  Forall (λ x, occurs ZFIELDSEP x = false) fs →
  parseRational (at_ (split ZFIELDSEP (zipFields fs)) i) =
  parseRational (at_ fs i).
Proof.
  intros Hall. unfold parseRational.
  now rewrite (present_positions fieldsep_star fs i Hall).
Qed.

Lemma rational_text_read (v : Nullable Rational) :
  match v with val c => plainText (toString c) | _ => True end →
  parseRational (val (zipNumber v)) =
  match v with val c => val (rational (toString c)) | _ => undefined end.
Proof.
  destruct v as [| |c]; [reflexivity | reflexivity |]. intros Hc.
  cbn [zipNumber]. unfold parseRational. now rewrite (plainText_present _ Hc).
Qed.

Lemma rational_text_no_sep (v : Nullable Rational) :
  match v with val c => plainText (toString c) | _ => True end →
  occurs ZFIELDSEP (zipNumber v) = false.
Proof.
  destruct v as [| |c]; [reflexivity | reflexivity |]. intros (_ & _ & Hc).
  exact Hc.
Qed.

(** The modules at the positions [ns], read through the module records. *)
Lemma modules_decode (params : ParamMap) (mods : list ModuleSettings)
    (ns : list nat) :
  Forall plainModule mods →
  modulesAt hash (getAll params QueryField.Module_) mods ns →
  map (λ n, coalesce (at_ (unzipModules params None) n) emptyModule) ns =
  map readModule mods.
Proof.
  intros Hplain Hat. unfold modulesAt in Hat.
  induction Hat as [|obj n mods ns Hn Hat IH]; [reflexivity |].
  apply Forall_cons in Hplain as [Hobj Hplain].
  cbn [map]. rewrite (IH Hplain). f_equal. unfold at_.
  now rewrite (unzipModules_bare_at fieldsep_star params hash n obj Hobj Hn).
Qed.

(** A sub-field of module positions, read through the module records. *)
Lemma modules_field (params : ParamMap) (v : Nullable (list ModuleSettings))
    (entry : Nullable (list number)) :
  match v with val l => Forall plainModule l | _ => True end →
  match v with
  | val mods =>
      ∃ ns, entry = val (map indexNumber ns) ∧
            modulesAt hash (getAll params QueryField.Module_) mods ns
  | _ => entry = undefined
  end →
  occurs ZFIELDSEP (zipArray entry) = false ∧
  optMap (byNumber (unzipModules params None) emptyModule)
    (parseArray_bare (val (zipArray entry))) =
  match v with val l => val (map readModule l) | _ => undefined end.
Proof.
  intros Hplain Hentry. destruct v as [| |mods].
  - subst entry. split; reflexivity.
  - subst entry. split; reflexivity.
  - destruct Hentry as (ns & -> & Hat). split.
    + apply (positions_no_sep (val ns)).
    + rewrite (positions_read sentinels_ok index_contract).
      f_equal. now apply modules_decode.
Qed.

Lemma unzipBeacons_bare_at (params : ParamMap) (n : nat)
    (b : BeaconSettings) (entry : Nullable (list number)) :
  plainBeacon b →
  match b_modules b with
  | val mods =>
      ∃ ns, entry = val (map indexNumber ns) ∧
            modulesAt hash (getAll params QueryField.Module_) mods ns
  | _ => entry = undefined
  end →
  getAll params QueryField.Beacon !! n =
    Some (Zip.bare (beaconZip hash entry b)) →
  unzipBeacons params (unzipModules params None) None !! n =
    Some (readBeacon b).
Proof.
  intros (Hcount & Hmods & Hid & Htotal) Hentry Hn. unfold unzipBeacons.
  rewrite list_lookup_fmap, Hn. cbn [fmap option_fmap option_map]. f_equal.
  destruct (modules_field params (b_modules b) entry Hmods Hentry)
    as [Hsep Hread].
  unfold beaconZip, prune, readBeacon. cbn [Zip.bare parseString].
  assert (Hall : Forall (λ x, occurs ZFIELDSEP x = false)
                   [zipString (optToString (b_count b)); zipArray entry;
                    zipString (b_id b); zipString (optToString (b_total b))]).
  { repeat constructor; auto using count_no_sep, plainOpt_no_sep. }
  rewrite !(parseString_bare_position fieldsep_star _ _ Hall).
  rewrite (parseArray_bare_position _ _ Hall).
  cbn [at_ lookup list_lookup].
  rewrite (count_read _ Hcount), (count_read _ Htotal), (plainOpt_read _ Hid).
  now rewrite Hread.
Qed.

(** The beacons at the positions [ns], read through the beacon and the
    module records. *)
Lemma beacons_decode (params : ParamMap) (bs : list BeaconSettings)
    (ns : list nat) :
  Forall plainBeacon bs →
  beaconsAt hash (getAll params QueryField.Module_)
    (getAll params QueryField.Beacon) bs ns →
  map (λ n, coalesce
              (at_ (unzipBeacons params (unzipModules params None) None) n)
              emptyBeacon) ns =
  map readBeacon bs.
Proof.
  intros Hplain (mm & Hmm & Hlen & Hat). apply list_eq. intros k.
  rewrite !list_lookup_fmap.
  destruct (bs !! k) as [b|] eqn:Hb.
  - destruct (Hat k b Hb) as (n & Hn & Hrec). rewrite Hn.
    cbn [fmap option_fmap option_map]. f_equal.
    unfold moduleMapAt in Hmm.
    destruct (Forall2_lookup_l _ _ _ _ _ Hmm Hb) as (entry & Hentry & Hprop).
    assert (Hatopt : atOpt mm k = entry) by (unfold atOpt; now rewrite Hentry).
    rewrite Hatopt in Hrec.
    assert (Hpb : plainBeacon b).
    { rewrite Forall_forall in Hplain. apply Hplain.
      eapply list_elem_of_lookup_2. exact Hb. }
    unfold at_.
    now rewrite (unzipBeacons_bare_at params n b entry Hpb Hprop Hrec).
  - apply lookup_ge_None in Hb. rewrite <- Hlen in Hb.
    apply lookup_ge_None in Hb. now rewrite Hb.
Qed.

Lemma beacons_field (params : ParamMap) (v : Nullable (list BeaconSettings))
    (entry : Nullable (list number)) :
  match v with val l => Forall plainBeacon l | _ => True end →
  match v with
  | val bs =>
      ∃ ns, entry = val (map indexNumber ns) ∧
            beaconsAt hash (getAll params QueryField.Module_)
              (getAll params QueryField.Beacon) bs ns
  | _ => entry = undefined
  end →
  occurs ZFIELDSEP (zipArray entry) = false ∧
  optMap (byNumber (unzipBeacons params (unzipModules params None) None)
            emptyBeacon)
    (parseArray_bare (val (zipArray entry))) =
  match v with val l => val (map readBeacon l) | _ => undefined end.
Proof.
  intros Hplain Hentry. destruct v as [| |bs].
  - subst entry. split; reflexivity.
  - subst entry. split; reflexivity.
  - destruct Hentry as (ns & -> & Hat). split.
    + apply (positions_no_sep (val ns)).
    + rewrite (positions_read sentinels_ok index_contract).
      f_equal. now apply beacons_decode.
Qed.

(** The two records of a machine under an ordinary id, in maps that keep
    their prototype. *)
#[local] Set Warnings "-inconsistent-scopes".
#[local] Abbreviation machineZip data i obj :=
  {| Zip.bare :=
       zipFields [ i; zipArray (entity (moduleMap (machineSettings data)) i);
                   zipArray (entity (beaconMap (machineSettings data)) i);
                   zipString (ms_fuelId obj); zipNumber (ms_overclock obj) ];
     Zip.hash :=
       zipFields [ zipNString (val i) (machines hash);
                   zipArray (entity (moduleMap (machineSettings data)) i);
                   zipArray (entity (beaconMap (machineSettings data)) i);
                   zipNString (ms_fuelId obj) (fuels hash);
                   zipNumber (ms_overclock obj) ] |}.
#[local] Set Warnings "inconsistent-scopes".

Lemma zipMachine_ordinary (data : ZipData) (i : string)
    (obj : MachineSettings) :
  moduleProto (machineSettings data) = None →
  beaconProto (machineSettings data) = None →
  ordinaryKey i →
  zipMachine data hash i obj = Ok (machineZip data i obj).
Proof.
  intros Hpm Hpb Hi. unfold zipMachine.
  rewrite Hpm, Hpb, !(zipArrayOf_ordinary _ i Hi). reflexivity.
Qed.

Lemma unzipMachine_bare (params : ParamMap) (data : ZipData)
    (state : list (string * MachineFields)) (i : string)
    (obj : MachineSettings) :
  settingsAt hash (getAll params QueryField.Module_)
    (getAll params QueryField.Beacon) state (machineSettings data) →
  (i, machineFields obj) ∈ state →
  plainMachine (i, obj) → i ≠ "__proto__" →
  unzipMachine (unzipModules params None)
    (unzipBeacons params (unzipModules params None) None) None
    (Zip.bare (machineZip data i obj)) = (i, readMachine obj).
Proof.
  intros Hsettings Hmem (Hi & Hmods & Hbs & Hfuel & Hclock) Hproto.
  cbn [fst snd] in *.
  destruct (settingsAt_own _ _ _ _ _ i (machineFields obj) Hsettings Hmem
              Hproto) as [Hm Hb].
  cbn [machineFields f_modules f_beacons] in Hm, Hb.
  assert (Hmentry :
            match ms_modules obj with
            | val mods =>
                ∃ ns, entity (moduleMap (machineSettings data)) i =
                        val (map indexNumber ns) ∧
                      modulesAt hash (getAll params QueryField.Module_) mods ns
            | _ => entity (moduleMap (machineSettings data)) i = undefined
            end).
  { unfold entity. destruct (ms_modules obj) as [| |mods];
      [now rewrite Hm | now rewrite Hm |].
    destruct Hm as (ns & -> & Hat). eauto. }
  assert (Hbentry :
            match ms_beacons obj with
            | val bs =>
                ∃ ns, entity (beaconMap (machineSettings data)) i =
                        val (map indexNumber ns) ∧
                      beaconsAt hash (getAll params QueryField.Module_)
                        (getAll params QueryField.Beacon) bs ns
            | _ => entity (beaconMap (machineSettings data)) i = undefined
            end).
  { unfold entity. destruct (ms_beacons obj) as [| |bs];
      [now rewrite Hb | now rewrite Hb |].
    destruct Hb as (ns & -> & Hat). eauto. }
  destruct (modules_field params (ms_modules obj) _ Hmods Hmentry)
    as [Hmsep Hmread].
  destruct (beacons_field params (ms_beacons obj) _ Hbs Hbentry)
    as [Hbsep Hbread].
  unfold unzipMachine, prune, readMachine.
  cbn [Zip.bare fmap option_fmap option_map parseString].
  assert (Hall : Forall (λ x, occurs ZFIELDSEP x = false)
                   [i; zipArray (entity (moduleMap (machineSettings data)) i);
                    zipArray (entity (beaconMap (machineSettings data)) i);
                    zipString (ms_fuelId obj); zipNumber (ms_overclock obj)]).
  { repeat constructor; auto using plainOpt_no_sep, rational_text_no_sep.
    apply Hi. }
  rewrite !(parseString_bare_position fieldsep_star _ _ Hall).
  rewrite !(parseArray_bare_position _ _ Hall).
  rewrite (parseRational_position _ _ Hall).
  cbn [at_ lookup list_lookup].
  unfold parseString_bare at 1. rewrite (plainText_present i Hi).
  rewrite (plainOpt_read _ Hfuel), (rational_text_read _ Hclock).
  rewrite Hmread, Hbread. reflexivity.
Qed.

Lemma zipMachines_config (data : ZipData)
    (state : list (string * MachineSettings)) :
  moduleProto (machineSettings data) = None →
  beaconProto (machineSettings data) = None →
  Forall (λ e, ordinaryKey (fst e)) state →
  ∃ data',
    zipMachines data state hash = Ok data' ∧
    Zip.bare (config data') =
      Zip.bare (config data) ++
      map (λ v, (QueryField.Machine, v))
        (map (λ e, Zip.bare (machineZip data (fst e) (snd e))) state) ∧
    machineSettings data' = machineSettings data.
Proof.
  intros Hpm Hpb Hall. revert data Hpm Hpb.
  induction Hall as [|e state He Hall IH]; intros data Hpm Hpb.
  - exists data. split; [reflexivity |]. simpl. now rewrite app_nil_r.
  - unfold zipMachines. cbn [fold_left]. cbn [mbind Res_bind bindRes].
    rewrite (zipMachine_ordinary data (fst e) (snd e) Hpm Hpb He).
    cbn [mbind Res_bind bindRes].
    match goal with
    | |- context [fold_left _ state (Ok ?d)] =>
        change (fold_left _ state (Ok d)) with (zipMachines d state hash);
        destruct (IH d Hpm Hpb) as (data' & -> & Hb & Hs)
    end.
    exists data'. split; [reflexivity |]. rewrite Hb, Hs.
    cbn [config Zip.bare machineSettings map]. unfold append.
    rewrite <- !app_assoc. split; reflexivity.
Qed.

Lemma unzipMachines_records (prior : ParamMap) (records : list string)
    (ms : list ModuleSettings) (bs : list BeaconSettings)
    (h : option ModHash) :
  getAll prior QueryField.Machine = [] → records ≠ [] →
  unzipMachines (prior ++ map (λ r, (QueryField.Machine, r)) records) ms bs h =
  val (fold_left
         (λ (entities : Entities MachineSettings) machine,
            assign entities (fst (unzipMachine ms bs h machine))
              (snd (unzipMachine ms bs h machine)))
         records emptyEntities).
Proof.
  intros Hprior Hne. unfold unzipMachines.
  rewrite getAll_app, Hprior, getAll_same. simpl app.
  destruct records; [congruence | reflexivity].
Qed.

(** X22. Machines round trip through the bare parameters, side tables
    included. For machines with distinct ids, none of them a key that an
    object literal inherits, whose ids, fuel ids, overclock texts, modules
    and beacons are plain, [zipModulesBeacons] (together with any
    objectives, recipes and beacons of the settings) and [zipMachines]
    return, and the three decoding steps [unzipModules], [unzipBeacons] and
    [unzipMachines] over the bare configuration read every machine back as
    an own property under its id, in an object that keeps its prototype:
    its fuel id as it was, its overclock, the counts and totals through
    their texts, and its modules and beacons through their positions in
    the side tables. *)
Theorem machines_round_trip
    (objectives_ recipes_ : list (string * MachineFields))
    (state : list (string * MachineSettings))
    (settingsBeacons : Nullable (list BeaconSettings)) :
  NoDup objectives_.*1 → NoDup recipes_.*1 → NoDup state.*1 →
  state ≠ [] → Forall plainMachine state →
  Forall (λ e, ordinaryKey (fst e)) state →
  ∃ data,
    zipMachines
      (zipModulesBeacons objectives_ recipes_
         (map (λ e, (fst e, machineFields (snd e))) state)
         settingsBeacons hash)
      state hash = Ok data ∧
    let params := Zip.bare (config data) in
    let ms := unzipModules params None in
    let bs := unzipBeacons params ms None in
    unzipMachines params ms bs None =
    val {| ownEntries :=
             list_to_map (map (λ e, (fst e, readMachine (snd e))) state);
           replacedProto := None |}.
Proof.
  intros Hos Hrs Hnd Hne Hplain Hord.
  set (fields := map (λ e, (fst e, machineFields (snd e))) state).
  assert (Hfnd : NoDup fields.*1).
  { unfold fields. rewrite <- list_fmap_compose.
    erewrite list_fmap_ext; [exact Hnd |]. now intros k [i o] _. }
  assert (Hford : Forall (λ e, ordinaryKey (fst e)) fields).
  { unfold fields. apply Forall_map. eapply Forall_impl; [exact Hord |].
    now intros [i o]. }
  assert (Hnp : Forall (λ e : string * MachineSettings, fst e ≠ "__proto__")
                  (map (λ e, (fst e, readMachine (snd e))) state)).
  { apply Forall_map. eapply Forall_impl; [exact Hord |].
    intros [i o] Hi. now apply ordinaryKey_not_proto. }
  destruct (zipModulesBeacons_spec hash objectives_ recipes_ fields
              settingsBeacons Hos Hrs Hfnd)
    as (r1 & r2 & r3 & z & mi & bi & Hdata & _ & _ & _ & _ & Hat & _).
  rewrite Hdata.
  match goal with
  | |- context [zipMachines ?d state hash] => set (data0 := d)
  end.
  destruct (settingsAt_ordinary _ _ _ _ _ Hat Hford) as [Hpm Hpb].
  destruct (zipMachines_config data0 state Hpm Hpb Hord)
    as (data & Hzip & Hcfg & _).
  exists data. split; [exact Hzip |]. cbv zeta. rewrite Hcfg.
  set (records := map (λ e, Zip.bare (machineZip data0 (fst e) (snd e)))
                    state).
  set (params := Zip.bare (config data0) ++
                 map (λ v, (QueryField.Machine, v)) records).
  destruct (config_records mi bi) as (Hmod & Hbea & _ & _).
  assert (Hprior : getAll (Zip.bare (config data0)) QueryField.Machine = []).
  { unfold data0. cbn [config].
    destruct (appendRecords_config
                (appendRecords {| Zip.bare := []; Zip.hash := [] |}
                   QueryField.Module_ (list_ mi))
                QueryField.Beacon (list_ bi)) as [-> _].
    destruct (appendRecords_config {| Zip.bare := []; Zip.hash := [] |}
                QueryField.Module_ (list_ mi)) as [-> _].
    cbn [Zip.bare app]. rewrite getAll_app.
    rewrite (getAll_other QueryField.Machine QueryField.Module_) by reflexivity.
    now rewrite (getAll_other QueryField.Machine QueryField.Beacon)
      by reflexivity. }
  assert (Hpm' : getAll params QueryField.Module_ = Zip.bare <$> list_ mi).
  { unfold params. rewrite getAll_app.
    rewrite (getAll_other QueryField.Module_ QueryField.Machine) by reflexivity.
    rewrite app_nil_r. exact Hmod. }
  assert (Hpb' : getAll params QueryField.Beacon = Zip.bare <$> list_ bi).
  { unfold params. rewrite getAll_app.
    rewrite (getAll_other QueryField.Beacon QueryField.Machine) by reflexivity.
    rewrite app_nil_r. exact Hbea. }
  assert (Hrne : records ≠ []).
  { unfold records. intros Hnil. apply map_eq_nil in Hnil. contradiction. }
  unfold params at 1.
  rewrite (unzipMachines_records _ _ _ _ None Hprior Hrne).
  fold params. f_equal. unfold records. rewrite fold_left_map.
  rewrite <- (fold_left_assign_list_to_map
                (map (λ e, (fst e, readMachine (snd e))) state)).
  - rewrite fold_left_map. apply fold_left_ext_in. intros m [i obj] Hmem.
    cbn [fst snd].
    rewrite (unzipMachine_bare params data0 fields i obj); [reflexivity | ..].
    + rewrite Hpm', Hpb'. exact Hat.
    + unfold fields. apply list_elem_of_fmap. exists (i, obj). split; auto.
    + rewrite Forall_forall in Hplain. now apply Hplain.
    + rewrite Forall_forall in Hord. apply ordinaryKey_not_proto.
      exact (Hord _ Hmem).
  - rewrite <- list_fmap_compose.
    erewrite list_fmap_ext; [exact Hnd |]. now intros k [i o] _.
  - exact Hnp.
Qed.

End MachinesRoundTrip.

Lemma machines_round_trip_witness :
  ∃ data,
    @zipMachines Sample.consts Sample.codec Sample.values Sample.env
      (@zipModulesBeacons Sample.consts Sample.codec Sample.values [] []
         (map (λ e, (fst e, machineFields (snd e))) Sample.machinesState)
         undefined Sample.hashes)
      Sample.machinesState Sample.hashes = Ok data ∧
    let params := Zip.bare (config data) in
    let ms :=
      @unzipModules Sample.consts Sample.codec Sample.values params None in
    let bs :=
      @unzipBeacons Sample.consts Sample.codec Sample.values params ms None in
    @unzipMachines Sample.consts Sample.codec Sample.values params ms bs None =
    val {| ownEntries :=
             list_to_map
               (map (λ e, (fst e, readMachine (snd e))) Sample.machinesState);
           replacedProto := None |}.
Proof.
  assert (Hmodule : @plainModule Sample.consts Sample.values
                      {| m_count := val ((2%Z, 1%Z) : @Rational Sample.values);
                         m_id := val "speed-module" |}).
  { split; [repeat split; discriminate |].
    right. eexists. split; [reflexivity |]. repeat split; discriminate. }
  assert (Hmodule' : @plainModule Sample.consts Sample.values
                       {| m_count := undefined; m_id := val "speed-module" |}).
  { split; [exact I |].
    right. eexists. split; [reflexivity |]. repeat split; discriminate. }
  assert (Hmodules : Forall (@plainModule Sample.consts Sample.values)
                       Sample.moduleList).
  { unfold Sample.moduleList.
    repeat (apply Forall_cons; split; [assumption |]). apply Forall_nil. exact I. }
  assert (Hbeacons : Forall (@plainBeacon Sample.consts Sample.values)
                       Sample.beaconList).
  { unfold Sample.beaconList.
    apply Forall_cons. split; [| apply Forall_cons; split; [| apply Forall_nil; exact I]].
    - split; [repeat split; discriminate |]. split; [exact Hmodules |].
      split; [| exact I].
      right. eexists. split; [reflexivity |]. repeat split; discriminate.
    - split; [exact I |]. split; [exact I |]. split; [| exact I].
      right. eexists. split; [reflexivity |]. repeat split; discriminate. }
  apply (@machines_round_trip Sample.consts Sample.codec Sample.values
           Sample.env eq_refl SampleFacts.sentinels_ok
           SampleIndex.index_contract eq_refl Sample.hashes [] []
           Sample.machinesState undefined).
  - apply NoDup_nil_2.
  - apply NoDup_nil_2.
  - apply NoDup_cons. split; [| apply NoDup_singleton].
    intros Hin. apply list_elem_of_singleton in Hin. discriminate.
  - discriminate.
  - unfold Sample.machinesState.
    apply Forall_cons. split; [| apply Forall_cons; split; [| apply Forall_nil; exact I]].
    + split; [repeat split; discriminate |]. split; [exact Hmodules |].
      split; [exact Hbeacons |]. split; [| exact I].
      right. eexists. split; [reflexivity |]. repeat split; discriminate.
    + split; [repeat split; discriminate |]. split; [exact I |].
      split; [exact I |]. split; [left; reflexivity |].
      repeat split; discriminate.
  - repeat (apply Forall_cons; split; [reflexivity |]). apply Forall_nil.
    exact I.
Defined.

Example machines_texts :
  ∃ data,
    @zipMachines Sample.consts Sample.codec Sample.values Sample.env
      (@zipModulesBeacons Sample.consts Sample.codec Sample.values [] []
         (map (λ e, (fst e, machineFields (snd e))) Sample.machinesState)
         undefined Sample.hashes)
      Sample.machinesState Sample.hashes = Ok data ∧
  Zip.bare (config data) =
    [ (QueryField.Module_, "2*speed-module");
      (QueryField.Module_, "*speed-module");
      (QueryField.Beacon, "8*0~1~0*beacon");
      (QueryField.Beacon, "**beacon");
      (QueryField.Machine, "stone-furnace*0~1~0*0~1*coal");
      (QueryField.Machine, "steel-furnace****3/2") ] ∧
  Zip.hash (config data) =
    [ (QueryField.Module_, "2*A"); (QueryField.Module_, "*A");
      (QueryField.Beacon, "8*0~1~0*A"); (QueryField.Beacon, "**A");
      (QueryField.Machine, "A*0~1~0*0~1*A");
      (QueryField.Machine, "B****3/2") ].
Proof. eexists. split; [reflexivity |]. vm_compute. split; reflexivity. Qed.

(** ** Recipes: the records and the side tables read back *)

Section RecipesRoundTrip.
Context `{ZipConstants} `{IdCompaction} `{JsValues} `{RouterEnv}.
Hypothesis fieldsep_star : ZFIELDSEP = "*"%char.
Hypothesis sentinels_ok : SentinelsOk.
Hypothesis index_contract : IndexContract.
Hypothesis zempty_no_sep : occurs ZFIELDSEP ZEMPTY = false.
Variable hash : ModHash.

(** The two records of a recipe under an ordinary id, in maps that keep
    their prototype. *)
#[local] Set Warnings "-inconsistent-scopes".
#[local] Abbreviation recipeZip data i obj :=
  {| Zip.bare :=
       zipFields [ i; zipString (rs_machineId obj);
                   zipArray (entity (moduleMap (recipeSettings data)) i);
                   zipArray (entity (beaconMap (recipeSettings data)) i);
                   zipNumber (rs_overclock obj); zipNumber (rs_cost obj);
                   zipString (rs_fuelId obj) ];
     Zip.hash :=
       zipFields [ zipNString (val i) (recipes hash);
                   zipNString (rs_machineId obj) (machines hash);
                   zipArray (entity (moduleMap (recipeSettings data)) i);
                   zipArray (entity (beaconMap (recipeSettings data)) i);
                   zipNumber (rs_overclock obj); zipNumber (rs_cost obj);
                   zipNString (rs_fuelId obj) (fuels hash) ] |}.
#[local] Set Warnings "inconsistent-scopes".

Lemma zipRecipe_ordinary (data : ZipData) (i : string)
    (obj : RecipeSettings) :
  moduleProto (recipeSettings data) = None →
  beaconProto (recipeSettings data) = None →
  ordinaryKey i →
  zipRecipe data hash i obj = Ok (recipeZip data i obj).
Proof.
  intros Hpm Hpb Hi. unfold zipRecipe.
  rewrite Hpm, Hpb, !(zipArrayOf_ordinary _ i Hi). reflexivity.
Qed.

Lemma unzipRecipe_bare (params : ParamMap) (data : ZipData)
    (state : list (string * MachineFields)) (i : string)
    (obj : RecipeSettings) :
  settingsAt hash (getAll params QueryField.Module_)
    (getAll params QueryField.Beacon) state (recipeSettings data) →
  (i, recipeFields obj) ∈ state →
  plainRecipe (i, obj) → i ≠ "__proto__" →
  unzipRecipe (unzipModules params None)
    (unzipBeacons params (unzipModules params None) None) None
    (Zip.bare (recipeZip data i obj)) = (i, readRecipe obj).
Proof.
  intros Hsettings Hmem
    (Hi & Hmachine & Hmods & Hbs & Hclock & Hcost & Hfuel) Hproto.
  cbn [fst snd] in *.
  destruct (settingsAt_own _ _ _ _ _ i (recipeFields obj) Hsettings Hmem
              Hproto) as [Hm Hb].
  cbn [recipeFields f_modules f_beacons] in Hm, Hb.
  assert (Hmentry :
            match rs_modules obj with
            | val mods =>
                ∃ ns, entity (moduleMap (recipeSettings data)) i =
                        val (map indexNumber ns) ∧
                      modulesAt hash (getAll params QueryField.Module_) mods ns
            | _ => entity (moduleMap (recipeSettings data)) i = undefined
            end).
  { unfold entity. destruct (rs_modules obj) as [| |mods];
      [now rewrite Hm | now rewrite Hm |].
    destruct Hm as (ns & -> & Hat). eauto. }
  assert (Hbentry :
            match rs_beacons obj with
            | val bs =>
                ∃ ns, entity (beaconMap (recipeSettings data)) i =
                        val (map indexNumber ns) ∧
                      beaconsAt hash (getAll params QueryField.Module_)
                        (getAll params QueryField.Beacon) bs ns
            | _ => entity (beaconMap (recipeSettings data)) i = undefined
            end).
  { unfold entity. destruct (rs_beacons obj) as [| |bs];
      [now rewrite Hb | now rewrite Hb |].
    destruct Hb as (ns & -> & Hat). eauto. }
  destruct (modules_field fieldsep_star sentinels_ok index_contract
              zempty_no_sep hash params (rs_modules obj) _ Hmods Hmentry)
    as [Hmsep Hmread].
  destruct (beacons_field fieldsep_star sentinels_ok index_contract
              zempty_no_sep hash params (rs_beacons obj) _ Hbs Hbentry)
    as [Hbsep Hbread].
  unfold unzipRecipe, prune, readRecipe.
  cbn [Zip.bare fmap option_fmap option_map parseString].
  assert (Hall : Forall (λ x, occurs ZFIELDSEP x = false)
                   [i; zipString (rs_machineId obj);
                    zipArray (entity (moduleMap (recipeSettings data)) i);
                    zipArray (entity (beaconMap (recipeSettings data)) i);
                    zipNumber (rs_overclock obj); zipNumber (rs_cost obj);
                    zipString (rs_fuelId obj)]).
  { repeat constructor; auto using plainOpt_no_sep, rational_text_no_sep.
    apply Hi. }
  rewrite !(parseString_bare_position fieldsep_star _ _ Hall).
  rewrite !(parseArray_bare_position fieldsep_star _ _ Hall).
  rewrite !(parseRational_position fieldsep_star _ _ Hall).
  cbn [at_ lookup list_lookup].
  unfold parseString_bare at 1. rewrite (plainText_present i Hi).
  rewrite (plainOpt_read _ Hmachine), (plainOpt_read _ Hfuel).
  rewrite (rational_text_read _ Hclock), (rational_text_read _ Hcost).
  rewrite Hmread, Hbread. reflexivity.
Qed.

Lemma zipRecipes_config (data : ZipData)
    (state : list (string * RecipeSettings)) :
  moduleProto (recipeSettings data) = None →
  beaconProto (recipeSettings data) = None →
  Forall (λ e, ordinaryKey (fst e)) state →
  ∃ data',
    zipRecipes data state hash = Ok data' ∧
    Zip.bare (config data') =
      Zip.bare (config data) ++
      map (λ v, (QueryField.Recipe, v))
        (map (λ e, Zip.bare (recipeZip data (fst e) (snd e))) state) ∧
    recipeSettings data' = recipeSettings data.
Proof.
  intros Hpm Hpb Hall. revert data Hpm Hpb.
  induction Hall as [|e state He Hall IH]; intros data Hpm Hpb.
  - exists data. split; [reflexivity |]. simpl. now rewrite app_nil_r.
  - unfold zipRecipes. cbn [fold_left]. cbn [mbind Res_bind bindRes].
    rewrite (zipRecipe_ordinary data (fst e) (snd e) Hpm Hpb He).
    cbn [mbind Res_bind bindRes].
    match goal with
    | |- context [fold_left _ state (Ok ?d)] =>
        change (fold_left _ state (Ok d)) with (zipRecipes d state hash);
        destruct (IH d Hpm Hpb) as (data' & -> & Hb & Hs)
    end.
    exists data'. split; [reflexivity |]. rewrite Hb, Hs.
    cbn [config Zip.bare recipeSettings map]. unfold append.
    rewrite <- !app_assoc. split; reflexivity.
Qed.

Lemma unzipRecipes_records (prior : ParamMap) (records : list string)
    (ms : list ModuleSettings) (bs : list BeaconSettings)
    (h : option ModHash) :
  getAll prior QueryField.Recipe = [] → records ≠ [] →
  unzipRecipes (prior ++ map (λ r, (QueryField.Recipe, r)) records) ms bs h =
  val (fold_left
         (λ (entities : Entities RecipeSettings) recipe,
            assign entities (fst (unzipRecipe ms bs h recipe))
              (snd (unzipRecipe ms bs h recipe)))
         records emptyEntities).
Proof.
  intros Hprior Hne. unfold unzipRecipes.
  rewrite getAll_app, Hprior, getAll_same. simpl app.
  destruct records; [congruence | reflexivity].
Qed.

(** X23. Recipes round trip through the bare parameters, side tables
    included. For recipes with distinct ids, none of them a key that an
    object literal inherits, whose ids, machine and fuel ids, overclock and
    cost texts, modules and beacons are plain, [zipModulesBeacons]
    (together with any objectives, machines and beacons of the settings)
    and [zipRecipes] return, and the decoding steps [unzipModules],
    [unzipBeacons] and [unzipRecipes] over the bare configuration read
    every recipe back as an own property under its id, in an object that
    keeps its prototype. *)
Theorem recipes_round_trip
    (objectives_ machines_ : list (string * MachineFields))
    (state : list (string * RecipeSettings))
    (settingsBeacons : Nullable (list BeaconSettings)) :
  NoDup objectives_.*1 → NoDup machines_.*1 → NoDup state.*1 →
  state ≠ [] → Forall plainRecipe state →
  Forall (λ e, ordinaryKey (fst e)) state →
  ∃ data,
    zipRecipes
      (zipModulesBeacons objectives_
         (map (λ e, (fst e, recipeFields (snd e))) state) machines_
         settingsBeacons hash)
      state hash = Ok data ∧
    let params := Zip.bare (config data) in
    let ms := unzipModules params None in
    let bs := unzipBeacons params ms None in
    unzipRecipes params ms bs None =
    val {| ownEntries :=
             list_to_map (map (λ e, (fst e, readRecipe (snd e))) state);
           replacedProto := None |}.
Proof.
  intros Hos Hms Hnd Hne Hplain Hord.
  set (fields := map (λ e, (fst e, recipeFields (snd e))) state).
  assert (Hfnd : NoDup fields.*1).
  { unfold fields. rewrite <- list_fmap_compose.
    erewrite list_fmap_ext; [exact Hnd |]. now intros k [i o] _. }
  assert (Hford : Forall (λ e, ordinaryKey (fst e)) fields).
  { unfold fields. apply Forall_map. eapply Forall_impl; [exact Hord |].
    now intros [i o]. }
  assert (Hnp : Forall (λ e : string * RecipeSettings, fst e ≠ "__proto__")
                  (map (λ e, (fst e, readRecipe (snd e))) state)).
  { apply Forall_map. eapply Forall_impl; [exact Hord |].
    intros [i o] Hi. now apply ordinaryKey_not_proto. }
  destruct (zipModulesBeacons_spec hash objectives_ fields machines_
              settingsBeacons Hos Hfnd Hms)
    as (r1 & r2 & r3 & z & mi & bi & Hdata & _ & _ & _ & Hat & _).
  rewrite Hdata.
  match goal with
  | |- context [zipRecipes ?d state hash] => set (data0 := d)
  end.
  destruct (settingsAt_ordinary _ _ _ _ _ Hat Hford) as [Hpm Hpb].
  destruct (zipRecipes_config data0 state Hpm Hpb Hord)
    as (data & Hzip & Hcfg & _).
  exists data. split; [exact Hzip |]. cbv zeta. rewrite Hcfg.
  set (records := map (λ e, Zip.bare (recipeZip data0 (fst e) (snd e)))
                    state).
  set (params := Zip.bare (config data0) ++
                 map (λ v, (QueryField.Recipe, v)) records).
  destruct (config_records mi bi) as (Hmod & Hbea & _ & _).
  assert (Hprior : getAll (Zip.bare (config data0)) QueryField.Recipe = []).
  { unfold data0. cbn [config].
    destruct (appendRecords_config
                (appendRecords {| Zip.bare := []; Zip.hash := [] |}
                   QueryField.Module_ (list_ mi))
                QueryField.Beacon (list_ bi)) as [-> _].
    destruct (appendRecords_config {| Zip.bare := []; Zip.hash := [] |}
                QueryField.Module_ (list_ mi)) as [-> _].
    cbn [Zip.bare app]. rewrite getAll_app.
    rewrite (getAll_other QueryField.Recipe QueryField.Module_) by reflexivity.
    now rewrite (getAll_other QueryField.Recipe QueryField.Beacon)
      by reflexivity. }
  assert (Hpm' : getAll params QueryField.Module_ = Zip.bare <$> list_ mi).
  { unfold params. rewrite getAll_app.
    rewrite (getAll_other QueryField.Module_ QueryField.Recipe) by reflexivity.
    rewrite app_nil_r. exact Hmod. }
  assert (Hpb' : getAll params QueryField.Beacon = Zip.bare <$> list_ bi).
  { unfold params. rewrite getAll_app.
    rewrite (getAll_other QueryField.Beacon QueryField.Recipe) by reflexivity.
    rewrite app_nil_r. exact Hbea. }
  assert (Hrne : records ≠ []).
  { unfold records. intros Hnil. apply map_eq_nil in Hnil. contradiction. }
  unfold params at 1.
  rewrite (unzipRecipes_records _ _ _ _ None Hprior Hrne).
  fold params. f_equal. unfold records. rewrite fold_left_map.
  rewrite <- (fold_left_assign_list_to_map
                (map (λ e, (fst e, readRecipe (snd e))) state)).
  - rewrite fold_left_map. apply fold_left_ext_in. intros m [i obj] Hmem.
    cbn [fst snd].
    rewrite (unzipRecipe_bare params data0 fields i obj); [reflexivity | ..].
    + rewrite Hpm', Hpb'. exact Hat.
    + unfold fields. apply list_elem_of_fmap. exists (i, obj). split; auto.
    + rewrite Forall_forall in Hplain. now apply Hplain.
    + rewrite Forall_forall in Hord. apply ordinaryKey_not_proto.
      exact (Hord _ Hmem).
  - rewrite <- list_fmap_compose.
    erewrite list_fmap_ext; [exact Hnd |]. now intros k [i o] _.
  - exact Hnp.
Qed.

End RecipesRoundTrip.

Lemma recipes_round_trip_witness :
  ∃ data,
    @zipRecipes Sample.consts Sample.codec Sample.values Sample.env
      (@zipModulesBeacons Sample.consts Sample.codec Sample.values []
         (map (λ e, (fst e, recipeFields (snd e))) Sample.recipesState) []
         undefined Sample.hashes)
      Sample.recipesState Sample.hashes = Ok data ∧
    let params := Zip.bare (config data) in
    let ms :=
      @unzipModules Sample.consts Sample.codec Sample.values params None in
    let bs :=
      @unzipBeacons Sample.consts Sample.codec Sample.values params ms None in
    @unzipRecipes Sample.consts Sample.codec Sample.values params ms bs None =
    val {| ownEntries :=
             list_to_map
               (map (λ e, (fst e, readRecipe (snd e))) Sample.recipesState);
           replacedProto := None |}.
Proof.
  assert (Hmodule : @plainModule Sample.consts Sample.values
                      {| m_count := val ((2%Z, 1%Z) : @Rational Sample.values);
                         m_id := val "speed-module" |}).
  { split; [repeat split; discriminate |].
    right. eexists. split; [reflexivity |]. repeat split; discriminate. }
  assert (Hmodule' : @plainModule Sample.consts Sample.values
                       {| m_count := undefined; m_id := val "speed-module" |}).
  { split; [exact I |].
    right. eexists. split; [reflexivity |]. repeat split; discriminate. }
  assert (Hmodules : Forall (@plainModule Sample.consts Sample.values)
                       Sample.moduleList).
  { unfold Sample.moduleList.
    repeat (apply Forall_cons; split; [assumption |]). apply Forall_nil. exact I. }
  apply (@recipes_round_trip Sample.consts Sample.codec Sample.values
           Sample.env eq_refl SampleFacts.sentinels_ok
           SampleIndex.index_contract eq_refl Sample.hashes [] []
           Sample.recipesState undefined).
  - apply NoDup_nil_2.
  - apply NoDup_nil_2.
  - apply NoDup_singleton.
  - discriminate.
  - unfold Sample.recipesState.
    apply Forall_cons. split; [| apply Forall_nil; exact I].
    split; [repeat split; discriminate |].
    split; [right; eexists; split; [reflexivity |]; repeat split; discriminate |].
    split; [exact Hmodules |]. split; [exact I |]. split; [exact I |].
    split; [repeat split; discriminate |].
    right. eexists. split; [reflexivity |]. repeat split; discriminate.
  - apply Forall_cons. split; [reflexivity | apply Forall_nil; exact I].
Defined.

Example recipes_texts :
  ∃ data,
    @zipRecipes Sample.consts Sample.codec Sample.values Sample.env
      (@zipModulesBeacons Sample.consts Sample.codec Sample.values []
         (map (λ e, (fst e, recipeFields (snd e))) Sample.recipesState) []
         undefined Sample.hashes)
      Sample.recipesState Sample.hashes = Ok data ∧
  getAll (Zip.bare (config data)) QueryField.Recipe =
    ["iron-plate*steel-furnace*0~1~0***5*wood"] ∧
  getAll (Zip.hash (config data)) QueryField.Recipe = ["A*B*0~1~0***5*B"].
Proof. eexists. split; [reflexivity |]. vm_compute. split; reflexivity. Qed.

(** Under the keys that an object literal inherits the code goes another
    way. A recipe without modules and beacons named ['toString'] is written
    with two empty arrays, and so it is read back; named ['constructor'],
    its encoding throws. An owner named ['__proto__'] leaves its positions
    as the prototype of the map, where the recipe of that name finds them;
    and a record of that name becomes the prototype of the decoded
    state. *)
Example inherited_keys :
  (∃ data,
     @zipRecipes Sample.consts Sample.codec Sample.values Sample.env
       (@zipModulesBeacons Sample.consts Sample.codec Sample.values []
          (map (λ e, (fst e, recipeFields (snd e)))
             (Sample.recipeNamed "toString")) [] undefined Sample.hashes)
       (Sample.recipeNamed "toString") Sample.hashes = Ok data ∧
     Zip.bare (config data) =
       [(QueryField.Recipe, "toString*steel-furnace*=*=")] ∧
     ∃ entities : Entities (@RecipeSettings Sample.values),
       @unzipRecipes Sample.consts Sample.codec Sample.values
         (Zip.bare (config data)) [] [] None = val entities ∧
       @rs_modules Sample.values <$> (ownEntries entities !! "toString") =
         Some (val [])) ∧
  @zipRecipes Sample.consts Sample.codec Sample.values Sample.env
    (@zipModulesBeacons Sample.consts Sample.codec Sample.values []
       (map (λ e, (fst e, recipeFields (snd e)))
          (Sample.recipeNamed "constructor")) [] undefined Sample.hashes)
    (Sample.recipeNamed "constructor") Sample.hashes =
    Throw "TypeError: value.join is not a function" ∧
  (let data :=
     @zipModulesBeacons Sample.consts Sample.codec Sample.values []
       Sample.protoOwner [] undefined Sample.hashes in
   moduleMap (recipeSettings data) !! "__proto__" = None ∧
   moduleProto (recipeSettings data) = Some [0%Z; 1%Z; 0%Z] ∧
   ∃ z,
     @zipRecipe Sample.consts Sample.codec Sample.values Sample.env data
       Sample.hashes "__proto__" Sample.machineOnly = Ok z ∧
     Zip.bare z = "__proto__*steel-furnace*0~1~0*=") ∧
  ∃ entities : Entities ItemSettings,
    @unzipItems Sample.consts Sample.codec
      [ (QueryField.Item, "__proto__*transport-belt");
        (QueryField.Item, "coal**cargo-wagon") ] None = val entities ∧
    ownEntries entities !! "__proto__" = None ∧
    replacedProto entities =
      Some {| i_beltId := val "transport-belt"; i_wagonId := undefined |} ∧
    ownEntries entities !! "coal" =
      Some {| i_beltId := undefined; i_wagonId := val "cargo-wagon" |}.
Proof.
  split; [| split; [| split]].
  - eexists. split; [reflexivity |]. split; [vm_compute; reflexivity |].
    eexists. split; [reflexivity |]. vm_compute. reflexivity.
  - vm_compute. reflexivity.
  - cbv zeta. split; [vm_compute; reflexivity |].
    split; [vm_compute; reflexivity |].
    eexists. split; [reflexivity |]. vm_compute. reflexivity.
  - eexists. split; [reflexivity |]. vm_compute. repeat split.
Qed.

(** ** Objectives: the records and the side tables read back *)

Lemma appendAll_app (dst src : URLSearchParams) : appendAll dst src = dst ++ src.
Proof.
  unfold appendAll, append. revert dst.
  induction src as [|[k v] src IH]; intros dst.
  - now rewrite app_nil_r.
  - cbn [fold_left fst snd]. rewrite IH. now rewrite <- app_assoc.
Qed.

Section ObjectivesRoundTrip.
Context `{ZipConstants} `{IdCompaction} `{JsValues} `{RouterEnv}.
Variable isRecipeObjective : Objective → bool.
Hypothesis fieldsep_star : ZFIELDSEP = "*"%char.
Hypothesis sentinels_ok : SentinelsOk.
Hypothesis index_contract : IndexContract.
Hypothesis zempty_no_sep : occurs ZFIELDSEP ZEMPTY = false.
Variable hash : ModHash.

Lemma present_inv (v : Nullable string) (t : string) :
  present v = Some t → v = val t.
Proof.
  unfold present. destruct v as [| |s]; try discriminate.
  destruct (_ || _); [discriminate |]. now intros [= ->].
Qed.

Lemma parseNumber_position (fs : list string) (i : nat) :
  Forall (λ x, occurs ZFIELDSEP x = false) fs →
  parseNumber (at_ (split ZFIELDSEP (zipFields fs)) i) false =
  parseNumber (at_ fs i) false.
Proof.
  intros Hall. unfold parseNumber.
  now rewrite (present_positions fieldsep_star fs i Hall).
Qed.

Lemma value_text (v : Rational) :
  (rational_eq v rational_one = false → plainText (toString v)) →
  occurs ZFIELDSEP (zipDiffRational (val v) (val rational_one)) = false ∧
  coalesce (parseRational (val (zipDiffRational (val v) (val rational_one))))
    rational_one =
  if rational_eq v rational_one then rational_one else rational (toString v).
Proof.
  intros Hplain. unfold zipDiffRational.
  destruct (rational_eq v rational_one); [split; reflexivity |].
  destruct (Hplain eq_refl) as (Hne & Hnull & Hsep). split; [exact Hsep |].
  unfold parseRational. now rewrite (present_other _ Hne Hnull).
Qed.

Lemma number_text (u dflt : number) :
  (number_seq u dflt = false → plainText (toString u)) →
  occurs ZFIELDSEP (zipDiffNumber (val u) (val dflt)) = false ∧
  coalesce (parseNumber (val (zipDiffNumber (val u) (val dflt))) false) dflt =
  if number_seq u dflt then dflt else Number (toString u).
Proof.
  intros Hplain. unfold zipDiffNumber. cbn [strictEq].
  destruct (number_seq u dflt); [split; reflexivity |].
  destruct (Hplain eq_refl) as (Hne & Hnull & Hsep). split; [exact Hsep |].
  unfold parseNumber. now rewrite (present_other _ Hne Hnull).
Qed.

Lemma unzipObjective_bare (params : ParamMap) (data : ZipData)
    (state : list (string * MachineFields)) (index_ : nat) (obj : Objective) :
  settingsAt hash (getAll params QueryField.Module_)
    (getAll params QueryField.Beacon) state (objectiveSettings data) →
  (o_id obj, objectiveFields obj) ∈ state →
  carriedObjective obj → o_id obj ≠ "__proto__" →
  unzipObjective isRecipeObjective (unzipModules params None)
    (unzipBeacons params (unzipModules params None) None) None index_
    (Zip.bare (zipObjective isRecipeObjective data hash obj)) =
  readObjective (natToString index_) obj.
Proof.
  intros Hsettings Hmem
    (Htarget & Hvalue & Hunit & Htype & Hmachine & Hmods & Hbs & Hclock & Hfuel)
    Hproto.
  destruct (settingsAt_own _ _ _ _ _ (o_id obj) (objectiveFields obj)
              Hsettings Hmem Hproto) as [Hm Hb].
  cbn [objectiveFields f_modules f_beacons] in Hm, Hb.
  assert (Hmentry :
            match o_modules obj with
            | val mods =>
                ∃ ns, entity (moduleMap (objectiveSettings data)) (o_id obj) =
                        val (map indexNumber ns) ∧
                      modulesAt hash (getAll params QueryField.Module_) mods ns
            | _ => entity (moduleMap (objectiveSettings data)) (o_id obj) =
                   undefined
            end).
  { unfold entity. destruct (o_modules obj) as [| |mods];
      [now rewrite Hm | now rewrite Hm |].
    destruct Hm as (ns & -> & Hat). eauto. }
  assert (Hbentry :
            match o_beacons obj with
            | val bs =>
                ∃ ns, entity (beaconMap (objectiveSettings data)) (o_id obj) =
                        val (map indexNumber ns) ∧
                      beaconsAt hash (getAll params QueryField.Module_)
                        (getAll params QueryField.Beacon) bs ns
            | _ => entity (beaconMap (objectiveSettings data)) (o_id obj) =
                   undefined
            end).
  { unfold entity. destruct (o_beacons obj) as [| |bs];
      [now rewrite Hb | now rewrite Hb |].
    destruct Hb as (ns & -> & Hat). eauto. }
  destruct (modules_field fieldsep_star sentinels_ok index_contract
              zempty_no_sep hash params (o_modules obj) _ Hmods Hmentry)
    as [Hmsep Hmread].
  destruct (beacons_field fieldsep_star sentinels_ok index_contract
              zempty_no_sep hash params (o_beacons obj) _ Hbs Hbentry)
    as [Hbsep Hbread].
  destruct (value_text (o_value obj) Hvalue) as [Hvsep Hvread].
  destruct (number_text (o_unit obj) ObjectiveUnit_Items Hunit)
    as [Husep Huread].
  destruct (number_text (o_type obj) ObjectiveType_Output Htype)
    as [Htsep Htread].
  unfold unzipObjective, zipObjective, prune, readObjective.
  cbn [Zip.bare fmap option_fmap option_map parseString o_id o_targetId
         o_value o_unit o_type o_machineId o_modules o_beacons o_overclock
         o_fuelId].
  set (fs := [o_targetId obj;
              zipDiffRational (val (o_value obj)) (val rational_one);
              zipDiffNumber (val (o_unit obj)) (val ObjectiveUnit_Items);
              zipDiffNumber (val (o_type obj)) (val ObjectiveType_Output);
              zipString (o_machineId obj);
              zipArray (entity (moduleMap (objectiveSettings data)) (o_id obj));
              zipArray (entity (beaconMap (objectiveSettings data)) (o_id obj));
              zipNumber (o_overclock obj); zipString (o_fuelId obj)]).
  assert (Hall : Forall (λ x, occurs ZFIELDSEP x = false) fs).
  { unfold fs.
    repeat constructor; auto using plainOpt_no_sep, rational_text_no_sep.
    apply Htarget. }
  assert (Hfirst : at_ (split ZFIELDSEP (zipFields fs)) 0 = val (o_targetId obj)).
  { apply present_inv. rewrite (present_positions fieldsep_star fs 0 Hall).
    unfold fs. cbn [at_ lookup list_lookup].
    now apply plainText_present. }
  rewrite Hfirst.
  rewrite !(parseString_bare_position fieldsep_star _ _ Hall).
  rewrite !(parseArray_bare_position fieldsep_star _ _ Hall).
  rewrite !(parseRational_position fieldsep_star _ _ Hall).
  rewrite !(parseNumber_position _ _ Hall).
  unfold fs. cbn [at_ lookup list_lookup coalesce].
  change (coalesce (val (o_targetId obj)) EmptyString) with (o_targetId obj).
  rewrite Hvread, Huread, Htread.
  rewrite (plainOpt_read _ Hmachine), (plainOpt_read _ Hfuel).
  rewrite (rational_text_read _ Hclock).
  rewrite Hmread, Hbread. reflexivity.
Qed.

Lemma zipObjectives_records (data : ZipData) (objs : list Objective) :
  Zip.bare (objectives (zipObjectives isRecipeObjective data objs hash)) =
    Zip.bare (objectives data) ++
    map (λ v, (QueryField.Objective, v))
      (map (λ obj, Zip.bare (zipObjective isRecipeObjective data hash obj))
         objs) ∧
  config (zipObjectives isRecipeObjective data objs hash) = config data.
Proof.
  revert data. induction objs as [|obj objs IH]; intros data.
  - simpl. now rewrite app_nil_r.
  - unfold zipObjectives. cbn [fold_left].
    match goal with
    | |- context [fold_left _ objs ?d] =>
        change (fold_left _ objs d)
          with (zipObjectives isRecipeObjective d objs hash);
        destruct (IH d) as (Hb & Hc);
        assert (Hsame : ∀ o, zipObjective isRecipeObjective d hash o =
                             zipObjective isRecipeObjective data hash o)
          by (intros o; now apply zipObjective_settings)
    end.
    rewrite Hb, Hc. cbn [objectives config Zip.bare map]. unfold append.
    rewrite <- !app_assoc. split; [| reflexivity].
    cbn [app].
    erewrite (map_ext _ (λ o, Zip.bare (zipObjective isRecipeObjective data
                                          hash o)));
      [reflexivity |]. intros o. now rewrite Hsame.
Qed.

(** With numerals for ids, the reads [moduleMap[obj.id]] and
    [beaconMap[obj.id]] of [zipObjectives] are reads of own properties: the
    maps keep their prototype, no numeral is a key that they inherit, and
    [zipArray] sees the array of positions or [undefined]. *)
Lemma zipObjectives_reads (recipes_ machines_ : list (string * MachineFields))
    (objs : list Objective)
    (settingsBeacons : Nullable (list BeaconSettings)) :
  NoDup (o_id <$> objs) → NoDup recipes_.*1 → NoDup machines_.*1 →
  Forall (λ o, ∃ n, o_id o = natToString n) objs →
  let data :=
    zipModulesBeacons (map (λ o, (o_id o, objectiveFields o)) objs)
      recipes_ machines_ settingsBeacons hash in
  ∀ obj, obj ∈ objs →
    zipArrayOf
      (property (moduleMap (objectiveSettings data))
         (moduleProto (objectiveSettings data)) (o_id obj)) =
      Ok (zipArray (entity (moduleMap (objectiveSettings data)) (o_id obj))) ∧
    zipArrayOf
      (property (beaconMap (objectiveSettings data))
         (beaconProto (objectiveSettings data)) (o_id obj)) =
      Ok (zipArray (entity (beaconMap (objectiveSettings data)) (o_id obj))).
Proof.
  intros Hnd Hrs Hms Hnum. cbv zeta.
  set (fields := map (λ o, (o_id o, objectiveFields o)) objs).
  assert (Hfnd : NoDup fields.*1).
  { unfold fields. rewrite <- list_fmap_compose.
    erewrite list_fmap_ext; [exact Hnd |]. now intros k o _. }
  assert (Hford : Forall (λ e, ordinaryKey (fst e)) fields).
  { unfold fields. apply Forall_map. eapply Forall_impl; [exact Hnum |].
    intros o [n Hn]. cbn [fst]. rewrite Hn. apply ordinaryKey_natToString. }
  destruct (zipModulesBeacons_spec hash fields recipes_ machines_
              settingsBeacons Hfnd Hrs Hms)
    as (r1 & r2 & r3 & z & mi & bi & Hdata & _ & _ & Hat & _).
  rewrite Hdata. cbn [objectiveSettings].
  destruct (settingsAt_ordinary _ _ _ _ _ Hat Hford) as [-> ->].
  intros obj Hobj. rewrite Forall_forall in Hnum.
  destruct (Hnum obj Hobj) as [n Hn]. rewrite Hn.
  split; apply zipArrayOf_ordinary, ordinaryKey_natToString.
Qed.

(** X24. Objectives round trip through the bare container, side tables
    included. For objectives that their records carry, with distinct ids
    that are numerals, as the code assigns them, written by
    [zipModulesBeacons] (together with any recipes, machines and beacons of
    the settings) and by [zipObjectives], the bare container of [getHash],
    the objective parameters followed by the configuration, is decoded by
    [unzipModules], [unzipBeacons] and [unzipObjectives] to the objectives
    renumbered from 1 in their order: objective [k] is read back under the
    text of [k + 1], with its target, machine and fuel as they were, a
    value, unit or type at its default as the default, and its modules and
    beacons through their positions in the side tables. *)
Theorem objectives_round_trip
    (recipes_ machines_ : list (string * MachineFields))
    (objs : list Objective)
    (settingsBeacons : Nullable (list BeaconSettings)) :
  NoDup (o_id <$> objs) → NoDup recipes_.*1 → NoDup machines_.*1 →
  objs ≠ [] → Forall carriedObjective objs →
  Forall (λ o, ∃ n, o_id o = natToString n) objs →
  let data :=
    zipObjectives isRecipeObjective
      (zipModulesBeacons (map (λ o, (o_id o, objectiveFields o)) objs)
         recipes_ machines_ settingsBeacons hash)
      objs hash in
  let params := bareParams data in
  let ms := unzipModules params None in
  let bs := unzipBeacons params ms None in
  ∃ st,
    unzipObjectives isRecipeObjective params ms bs None = val st ∧
    ids st = map natToString (seq 1 (length objs)) ∧
    index st = S (length objs) ∧
    ∀ k obj, objs !! k = Some obj →
      entities st !! natToString (S k) =
      Some (readObjective (natToString (S k)) obj).
Proof.
  intros Hnd Hrs Hms Hne Hplain Hnum. cbv zeta.
  set (fields := map (λ o, (o_id o, objectiveFields o)) objs).
  assert (Hfnd : NoDup fields.*1).
  { unfold fields. rewrite <- list_fmap_compose.
    erewrite list_fmap_ext; [exact Hnd |]. now intros k o _. }
  destruct (zipModulesBeacons_spec hash fields recipes_ machines_
              settingsBeacons Hfnd Hrs Hms)
    as (r1 & r2 & r3 & z & mi & bi & Hdata & _ & _ & Hat & _).
  rewrite Hdata.
  match goal with
  | |- context [zipObjectives isRecipeObjective ?d objs hash] =>
      set (data0 := d);
        destruct (zipObjectives_records data0 objs) as [Hobjs Hcfg]
  end.
  unfold bareParams. rewrite appendAll_app, Hobjs, Hcfg.
  set (records := map (λ obj, Zip.bare (zipObjective isRecipeObjective data0
                                          hash obj)) objs).
  change (Zip.bare (objectives data0)) with ([] : URLSearchParams).
  cbn [app].
  set (params := map (λ v, (QueryField.Objective, v)) records ++
                 Zip.bare (config data0)).
  destruct (config_records mi bi) as (Hmod & Hbea & _ & _).
  assert (Hpm : getAll params QueryField.Module_ = Zip.bare <$> list_ mi).
  { unfold params. rewrite getAll_app.
    rewrite (getAll_other QueryField.Module_ QueryField.Objective) by reflexivity.
    exact Hmod. }
  assert (Hpb : getAll params QueryField.Beacon = Zip.bare <$> list_ bi).
  { unfold params. rewrite getAll_app.
    rewrite (getAll_other QueryField.Beacon QueryField.Objective) by reflexivity.
    exact Hbea. }
  assert (Hpo : getAll params QueryField.Objective = records).
  { unfold params. rewrite getAll_app, getAll_same.
    unfold data0. cbn [config].
    destruct (appendRecords_config
                (appendRecords {| Zip.bare := []; Zip.hash := [] |}
                   QueryField.Module_ (list_ mi))
                QueryField.Beacon (list_ bi)) as [-> _].
    destruct (appendRecords_config {| Zip.bare := []; Zip.hash := [] |}
                QueryField.Module_ (list_ mi)) as [-> _].
    cbn [Zip.bare app]. rewrite getAll_app.
    rewrite (getAll_other QueryField.Objective QueryField.Module_) by reflexivity.
    rewrite (getAll_other QueryField.Objective QueryField.Beacon) by reflexivity.
    now rewrite !app_nil_r. }
  assert (Hlen : length records = length objs)
    by (unfold records; now rewrite length_map).
  unfold unzipObjectives. rewrite Hpo.
  assert (Hnz : Nat.eqb (length records) 0 = false).
  { rewrite Hlen. destruct objs; [congruence | reflexivity]. }
  rewrite Hnz. eexists. split; [reflexivity |].
  destruct (unzipObjectives_loop_numbering isRecipeObjective
              (unzipModules params None)
              (unzipBeacons params (unzipModules params None) None) None
              records 0 {| ids := []; index := 1; entities := ∅ |}
              eq_refl eq_refl (λ id _, lookup_empty id))
    as (Hi & Hx & _ & _ & Hnew).
  rewrite Hlen in Hi, Hx. split; [exact Hi |]. split; [exact Hx |].
  intros k obj Hk.
  assert (Hrk : records !! k =
                Some (Zip.bare (zipObjective isRecipeObjective data0 hash obj))).
  { unfold records. now rewrite list_lookup_fmap, Hk. }
  pose proof (Hnew k _ Hrk) as Hent. cbn [Nat.add] in Hent.
  rewrite Hent. f_equal.
  apply (unzipObjective_bare params data0 fields (S k) obj).
  - rewrite Hpm, Hpb. exact Hat.
  - unfold fields. apply list_elem_of_fmap. exists obj. split; [reflexivity |].
    eapply list_elem_of_lookup_2. exact Hk.
  - rewrite Forall_forall in Hplain. apply Hplain.
    eapply list_elem_of_lookup_2. exact Hk.
  - rewrite Forall_forall in Hnum.
    destruct (Hnum obj (list_elem_of_lookup_2 _ _ _ Hk)) as [n Hn].
    rewrite Hn. apply ordinaryKey_not_proto, ordinaryKey_natToString.
Qed.

End ObjectivesRoundTrip.

Lemma objectives_round_trip_witness :
  let data :=
    @zipObjectives Sample.consts Sample.codec Sample.values Sample.isRecipe
      (@zipModulesBeacons Sample.consts Sample.codec Sample.values
         (map (λ o, (o_id o, objectiveFields o)) Sample.objectiveList)
         [] [] undefined Sample.hashes)
      Sample.objectiveList Sample.hashes in
  let params := bareParams data in
  let ms := @unzipModules Sample.consts Sample.codec Sample.values params None in
  let bs :=
    @unzipBeacons Sample.consts Sample.codec Sample.values params ms None in
  ∃ st,
    @unzipObjectives Sample.consts Sample.codec Sample.values Sample.isRecipe
      params ms bs None = val st ∧
    ids st = ["1"; "2"] ∧ index st = 3.
Proof.
  assert (Hmodule : @plainModule Sample.consts Sample.values
                      {| m_count := val ((2%Z, 1%Z) : @Rational Sample.values);
                         m_id := val "speed-module" |}).
  { split; [repeat split; discriminate |].
    right. eexists. split; [reflexivity |]. repeat split; discriminate. }
  assert (Hmodule' : @plainModule Sample.consts Sample.values
                       {| m_count := undefined; m_id := val "speed-module" |}).
  { split; [exact I |].
    right. eexists. split; [reflexivity |]. repeat split; discriminate. }
  assert (Hmodules : Forall (@plainModule Sample.consts Sample.values)
                       Sample.moduleList).
  { unfold Sample.moduleList.
    repeat (apply Forall_cons; split; [assumption |]). apply Forall_nil. exact I. }
  assert (Hbeacons : Forall (@plainBeacon Sample.consts Sample.values)
                       Sample.beaconList).
  { unfold Sample.beaconList.
    apply Forall_cons. split; [| apply Forall_cons; split; [| apply Forall_nil; exact I]].
    - split; [repeat split; discriminate |]. split; [exact Hmodules |].
      split; [| exact I].
      right. eexists. split; [reflexivity |]. repeat split; discriminate.
    - split; [exact I |]. split; [exact I |]. split; [| exact I].
      right. eexists. split; [reflexivity |]. repeat split; discriminate. }
  assert (Hcarried : Forall (@carriedObjective Sample.consts Sample.values)
                       Sample.objectiveList).
  { unfold Sample.objectiveList.
    apply Forall_cons. split; [| apply Forall_cons; split; [| apply Forall_nil; exact I]].
    - split; [repeat split; discriminate |].
      split; [discriminate |]. split; [discriminate |]. split; [discriminate |].
      split; [right; eexists; split; [reflexivity |]; repeat split; discriminate |].
      split; [exact Hmodules |]. split; [exact Hbeacons |]. split; [exact I |].
      right. eexists. split; [reflexivity |]. repeat split; discriminate.
    - split; [repeat split; discriminate |].
      split; [intros _; repeat split; discriminate |].
      split; [intros _; repeat split; discriminate |].
      split; [discriminate |].
      split; [left; reflexivity |]. split; [exact I |]. split; [exact I |].
      split; [exact I | left; reflexivity]. }
  assert (Hnd : NoDup (o_id <$> Sample.objectiveList)).
  { apply NoDup_cons. split; [| apply NoDup_singleton].
    intros Hin. apply list_elem_of_singleton in Hin. discriminate. }
  pose proof (@objectives_round_trip Sample.consts Sample.codec Sample.values
                Sample.isRecipe eq_refl SampleFacts.sentinels_ok
                SampleIndex.index_contract eq_refl Sample.hashes [] []
                Sample.objectiveList undefined Hnd NoDup_nil_2 NoDup_nil_2)
    as Hround.
  cbv zeta in Hround. cbv zeta.
  destruct Hround as (st & Hst & Hids & Hindex & _);
    [discriminate | exact Hcarried
    | apply Forall_cons; split; [now exists 7 |];
      apply Forall_cons; split; [now exists 9 | apply Forall_nil; exact I] |].
  exists st. split; [exact Hst |]. split; [exact Hids | exact Hindex].
Defined.

Example objectives_texts :
  let data :=
    @zipObjectives Sample.consts Sample.codec Sample.values Sample.isRecipe
      (@zipModulesBeacons Sample.consts Sample.codec Sample.values
         (map (λ o, (o_id o, objectiveFields o)) Sample.objectiveList)
         [] [] undefined Sample.hashes)
      Sample.objectiveList Sample.hashes in
  bareParams data =
    [ (QueryField.Objective, "iron-plate****stone-furnace*0~1~0*0~1**coal");
      (QueryField.Objective, "coal*5/2*2");
      (QueryField.Module_, "2*speed-module");
      (QueryField.Module_, "*speed-module");
      (QueryField.Beacon, "8*0~1~0*beacon");
      (QueryField.Beacon, "**beacon") ].
Proof. vm_compute. reflexivity. Qed.
